(** * Per-store feature extraction of the auto-scheduler (src/auto_scheduler/feature.cc)

    A shallow embedding of the feature extractor: the expression and statement
    view of the lowered IR it walks, the math-op counter, the buffer-access
    collector, the coefficient extractor, the stride, region and reuse
    computations, the per-store visitor with its loop stacks, and the two
    emitters (feature values and feature names).

    Numbers.  C++ [int], [int16_t] and [int64_t] values are integers in [Z]
    with the two's-complement wrap-around written out ([to_int32], [to_int16],
    [to_int64]).  C++ [float] values are modelled by [cfloat]: the IEEE special
    values (NaN and the two infinities) next to finite values that are real
    numbers.  The operations [fadd], [fsub], [fmul] and [fdiv] are the exact
    ones; the rounding of a result to binary32 or binary64, with its overflow
    to an infinity, is [round_float], and the computations whose result
    depends on the rounding ([outer_loop_prod], ComputeReuse, the arithmetic
    intensity curve, slog) are also written over an arithmetic [FloatOps] that
    rounds every result.  The sign of zero is not modelled. *)

From Stdlib Require Import ZArith List Reals Lra Lia Bool Permutation Sorted Zfloor.
From stdpp Require Import gmap strings list fin_maps pretty.

Local Open Scope Z_scope.
#[local] Set Warnings "-register-all".

(** ** Machine integers *)

Definition wrap_signed (w : Z) (z : Z) : Z :=
  (z + 2 ^ (w - 1)) mod 2 ^ w - 2 ^ (w - 1).

Definition to_int16 (z : Z) : Z := wrap_signed 16 z.
Definition to_int32 (z : Z) : Z := wrap_signed 32 z.
Definition to_int64 (z : Z) : Z := wrap_signed 64 z.

Definition INT32_MAX : Z := 2 ^ 31 - 1.
Definition INT32_MIN : Z := - 2 ^ 31.
Definition INT64_MAX : Z := 2 ^ 63 - 1.
Definition INT64_MIN : Z := - 2 ^ 63.

(** ** Floats *)

Inductive cfloat : Type :=
| FNaN : cfloat
| FInf (negative : bool) : cfloat
| FFin (r : R) : cfloat.

Definition Rltb (x y : R) : bool := if Rlt_dec x y then true else false.
Definition Reqb (x y : R) : bool := if Req_dec_T x y then true else false.

Definition of_int (z : Z) : cfloat := FFin (IZR z).
Definition of_bool (b : bool) : cfloat := if b then FFin 1 else FFin 0.
Definition fzero : cfloat := FFin 0.
Definition fone : cfloat := FFin 1.

(** std::numeric_limits<float>::max() *)
Definition FLT_MAX : cfloat := FFin (IZR (2 ^ 128 - 2 ^ 104)).

Definition fneg (x : cfloat) : cfloat :=
  match x with
  | FNaN => FNaN
  | FInf s => FInf (negb s)
  | FFin r => FFin (- r)
  end.

Definition fadd (x y : cfloat) : cfloat :=
  match x, y with
  | FNaN, _ | _, FNaN => FNaN
  | FInf s, FInf t => if Bool.eqb s t then FInf s else FNaN
  | FInf s, FFin _ => FInf s
  | FFin _, FInf t => FInf t
  | FFin a, FFin b => FFin (a + b)
  end.

Definition fsub (x y : cfloat) : cfloat := fadd x (fneg y).

Definition fmul (x y : cfloat) : cfloat :=
  match x, y with
  | FNaN, _ | _, FNaN => FNaN
  | FInf s, FInf t => FInf (xorb s t)
  | FInf s, FFin r | FFin r, FInf s =>
      if Reqb r 0 then FNaN else FInf (xorb s (Rltb r 0))
  | FFin a, FFin b => FFin (a * b)
  end.

Definition fdiv (x y : cfloat) : cfloat :=
  match x, y with
  | FNaN, _ | _, FNaN => FNaN
  | FInf _, FInf _ => FNaN
  | FInf s, FFin r => FInf (xorb s (Rltb r 0))
  | FFin _, FInf _ => FFin 0
  | FFin a, FFin b =>
      if Reqb b 0 then (if Reqb a 0 then FNaN else FInf (Rltb a 0))
      else FFin (a / b)
  end.

(** x < y; false as soon as one side is NaN *)
Definition flt (x y : cfloat) : bool :=
  match x, y with
  | FNaN, _ | _, FNaN => false
  | FInf s, FInf t => s && negb t
  | FInf s, FFin _ => s
  | FFin _, FInf t => negb t
  | FFin a, FFin b => Rltb a b
  end.

Definition fgt (x y : cfloat) : bool := flt y x.

Definition feq (x y : cfloat) : bool :=
  match x, y with
  | FInf s, FInf t => Bool.eqb s t
  | FFin a, FFin b => Reqb a b
  | _, _ => false
  end.

(** std::min(a, b) is [(b < a) ? b : a]; std::max(a, b) is [(a < b) ? b : a] *)
Definition fmin (a b : cfloat) : cfloat := if flt b a then b else a.
Definition fmax (a b : cfloat) : cfloat := if flt a b then b else a.

Definition log2R (r : R) : R := (ln r / ln 2)%R.

(** std::log2 *)
Definition flog2 (x : cfloat) : cfloat :=
  match x with
  | FNaN => FNaN
  | FInf true => FNaN
  | FInf false => FInf false
  | FFin r => if Rltb r 0 then FNaN
              else if Reqb r 0 then FInf true
              else FFin (log2R r)
  end.

Definition is_finite (x : cfloat) : Prop :=
  match x with FFin _ => True | _ => False end.

Definition is_nan (x : cfloat) : bool :=
  match x with FNaN => true | _ => false end.

(** a finite value that is not negative *)
Definition fnonneg (x : cfloat) : Prop :=
  match x with FFin r => (0 <= r)%R | _ => False end.

(** ** The view of the lowered IR

    The IR classes live in tvm/tir; the extractor only reads them.  Object
    identity (pointer equality of [VarNode]s and [Buffer]s) is modelled by an
    identifier field. *)

Inductive DTypeCode : Type := kDLInt | kDLUInt | kDLFloat.

Record DataType : Type := mkDataType { dcode : DTypeCode; dbits : Z; dlanes : Z }.

Definition is_float (t : DataType) : bool :=
  match dcode t with kDLFloat => true | _ => false end.

(** DataType::bytes() *)
Definition dtype_bytes (t : DataType) : Z := (dbits t + 7) / 8.

Definition Bool_t : DataType := mkDataType kDLUInt 1 1.
Definition Int32_t : DataType := mkDataType kDLInt 32 1.
Definition Float32_t : DataType := mkDataType kDLFloat 32 1.

Record Var : Type := mkVar { var_id : N; name_hint : string; var_dtype : DataType }.

(** [shape] holds [Some n] for a dimension that is the integer constant [n]
    and [None] for a symbolic one (on which GetIntImm aborts). *)
Record Buffer : Type := mkBuffer {
  buffer_id : N;
  name : string;
  shape : list (option Z);
  dtype : DataType
}.

Abbreviation BufferMap T := (gmap N (Buffer * T)).

(** Modelled from the spec: the op-effect classifier (the TCallEffectKind
    attribute of the op registry, which is not part of this file) is carried by
    the op itself. *)
Inductive CallEffectKind : Type :=
| kExprAnnotation | kPure | kReadState | kUpdateState
| kSpecialCallArg | kEmbedInfo | kControlJump.

Record Op : Type := mkOp { op_name : string; op_call_effect : CallEffectKind }.

Inductive BinOp : Type :=
| Add | Sub | Mul | Div | Mod | FloorDiv | FloorMod
| Min | Max | EQ | NE | LT | LE | GT | GE | And | Or.

Inductive PrimExpr : Type :=
| VarE (v : Var)
| IntImm (t : DataType) (value : Z)
| FloatImm (t : DataType) (value : cfloat)
| Cast (t : DataType) (value : PrimExpr)
| Bin (op : BinOp) (a b : PrimExpr)
| Not (a : PrimExpr)
| Select (condition true_value false_value : PrimExpr)
| BufferLoad (buffer : Buffer) (indices : list PrimExpr)
| Call (t : DataType) (op : Op) (args : list PrimExpr).

Section PrimExpr_induction.
Variable P : PrimExpr -> Prop.
Hypothesis HVar : forall v, P (VarE v).
Hypothesis HInt : forall t z, P (IntImm t z).
Hypothesis HFloat : forall t q, P (FloatImm t q).
Hypothesis HCast : forall t e, P e -> P (Cast t e).
Hypothesis HBin : forall op a b, P a -> P b -> P (Bin op a b).
Hypothesis HNot : forall a, P a -> P (Not a).
Hypothesis HSelect : forall c t f, P c -> P t -> P f -> P (Select c t f).
Hypothesis HLoad : forall buf idx, Forall P idx -> P (BufferLoad buf idx).
Hypothesis HCall : forall t op args, Forall P args -> P (Call t op args).

Fixpoint PrimExpr_nested_ind (e : PrimExpr) : P e :=
  match e with
  | VarE v => HVar v
  | IntImm t z => HInt t z
  | FloatImm t q => HFloat t q
  | Cast t e1 => HCast t e1 (PrimExpr_nested_ind e1)
  | Bin op a b => HBin op a b (PrimExpr_nested_ind a) (PrimExpr_nested_ind b)
  | Not a => HNot a (PrimExpr_nested_ind a)
  | Select c t f =>
      HSelect c t f (PrimExpr_nested_ind c) (PrimExpr_nested_ind t)
        (PrimExpr_nested_ind f)
  | BufferLoad buf idx =>
      HLoad buf idx
        ((fix go (l : list PrimExpr) : Forall P l :=
            match l with
            | [] => @List.Forall_nil _ P
            | x :: r => @List.Forall_cons _ P x r (PrimExpr_nested_ind x) (go r)
            end) idx)
  | Call t op args =>
      HCall t op args
        ((fix go (l : list PrimExpr) : Forall P l :=
            match l with
            | [] => @List.Forall_nil _ P
            | x :: r => @List.Forall_cons _ P x r (PrimExpr_nested_ind x) (go r)
            end) args)
  end.
End PrimExpr_induction.

(** The data type each node carries ([PrimExprNode::dtype]). *)
Fixpoint expr_dtype (e : PrimExpr) : DataType :=
  match e with
  | VarE v => var_dtype v
  | IntImm t _ | FloatImm t _ | Cast t _ | Call t _ _ => t
  | Bin op a _ =>
      match op with
      | Add | Sub | Mul | Div | Mod | FloorDiv | FloorMod | Min | Max => expr_dtype a
      | _ => Bool_t
      end
  | Not _ => Bool_t
  | Select _ t _ => expr_dtype t
  | BufferLoad buf _ => dtype buf
  end.

Inductive ForType : Type := Serial | Parallel | Vectorized | Unrolled.

Record Range : Type := mkRange { range_min : PrimExpr; range_extent : PrimExpr }.

Inductive AttrNode : Type :=
| IterVarNode (var : Var)
| OtherNode.

Inductive Stmt : Type :=
| For (loop_var : Var) (min extent : PrimExpr) (for_type : ForType) (body : Stmt)
| AttrStmt (node : AttrNode) (attr_key : string) (value : PrimExpr) (body : Stmt)
| BufferStore (buffer : Buffer) (value : PrimExpr) (indices : list PrimExpr)
| BufferRealize (buffer : Buffer) (bounds : list Range) (condition : PrimExpr)
    (body : Stmt)
| SeqStmt (seq : list Stmt)
| IfThenElse (condition : PrimExpr) (then_case : Stmt) (else_case : option Stmt)
| LetStmt (var : Var) (value : PrimExpr) (body : Stmt)
| Evaluate (value : PrimExpr).

Section Stmt_induction.
Variable P : Stmt -> Prop.
Hypothesis HFor : forall v mn ex ft body, P body -> P (For v mn ex ft body).
Hypothesis HAttr : forall n k v body, P body -> P (AttrStmt n k v body).
Hypothesis HStore : forall buf v idx, P (BufferStore buf v idx).
Hypothesis HRealize : forall buf bs c body, P body -> P (BufferRealize buf bs c body).
Hypothesis HSeq : forall l, Forall P l -> P (SeqStmt l).
Hypothesis HIf : forall c t e, P t -> (forall s, e = Some s -> P s) ->
  P (IfThenElse c t e).
Hypothesis HLet : forall v e body, P body -> P (LetStmt v e body).
Hypothesis HEval : forall e, P (Evaluate e).

Fixpoint Stmt_nested_ind (s : Stmt) : P s :=
  match s with
  | For v mn ex ft body => HFor v mn ex ft body (Stmt_nested_ind body)
  | AttrStmt n k v body => HAttr n k v body (Stmt_nested_ind body)
  | BufferStore buf v idx => HStore buf v idx
  | BufferRealize buf bs c body => HRealize buf bs c body (Stmt_nested_ind body)
  | SeqStmt l =>
      HSeq l
        ((fix go (l : list Stmt) : Forall P l :=
            match l with
            | [] => @List.Forall_nil _ P
            | x :: r => @List.Forall_cons _ P x r (Stmt_nested_ind x) (go r)
            end) l)
  | IfThenElse c t e =>
      HIf c t e (Stmt_nested_ind t)
        (match e as e0 return forall s, e0 = Some s -> P s with
         | Some s0 => fun s H =>
             match H in _ = o return match o with Some s1 => P s1 | None => True end
             with eq_refl => Stmt_nested_ind s0 end
         | None => fun s H =>
             match H in _ = o return match o with Some s1 => P s1 | None => True end
             with eq_refl => I end
         end)
  | LetStmt v e body => HLet v e body (Stmt_nested_ind body)
  | Evaluate e => HEval e
  end.
End Stmt_induction.

(** ** Helpers of utils.h *)

(** Modelled from the spec: GetIntImm of utils.h reads the value of an integer
    constant and aborts on any other expression. *)
Definition GetIntImm (e : PrimExpr) : option Z :=
  match e with IntImm _ v => Some v | _ => None end.

(** Modelled from the spec: ElementProduct of utils.h multiplies the elements
    of a vector into an int64_t. *)
Definition ElementProduct (l : list Z) : Z :=
  fold_left (fun acc x => to_int64 (acc * x)) l 1.

(** ** VarInExpr and GetLoopExtent *)

Definition var_same (v w : Var) : bool := N.eqb (var_id v) (var_id w).

Fixpoint VarInExpr (var : Var) (expr : PrimExpr) : bool :=
  match expr with
  | VarE v => var_same v var
  | IntImm _ _ | FloatImm _ _ => false
  | Cast _ e => VarInExpr var e
  | Bin _ a b => VarInExpr var a || VarInExpr var b
  | Not a => VarInExpr var a
  | Select c t f => VarInExpr var c || VarInExpr var t || VarInExpr var f
  | BufferLoad _ idx => existsb (VarInExpr var) idx
  | Call _ _ args => existsb (VarInExpr var) args
  end.

(** A loop on the stacks: the fields of the [ForNode] the extractor reads and
    the identity of the node ([node_id], the pointer used as a map key). *)
Record ForNode : Type := mkForNode {
  node_id : positive;
  loop_var : Var;
  loop_min : PrimExpr;
  loop_extent : PrimExpr;
  for_type : ForType
}.

Definition GetLoopExtent (node : ForNode) : Z :=
  match loop_extent node with
  | IntImm _ v => v
  | _ => 1
  end.

(** ** MathOpCounter: count math ops in an expression *)

Module MathOpCounter.

Record t : Type := mk {
  float_mad : Z; float_addsub : Z; float_mul : Z; float_divmod : Z;
  float_cmp : Z; float_math_func : Z; float_other_func : Z;
  int_mad : Z; int_addsub : Z; int_mul : Z; int_divmod : Z;
  int_cmp : Z; int_math_func : Z; int_other_func : Z;
  bool_op : Z; select_op : Z
}.

Definition init : t := mk 0 0 0 0 0 0 0 0 0 0 0 0 0 0 0 0.

Inductive field : Type :=
| f_float_addsub | f_float_mul | f_float_divmod | f_float_cmp
| f_float_math_func | f_float_other_func
| f_int_addsub | f_int_mul | f_int_divmod | f_int_cmp
| f_int_math_func | f_int_other_func
| f_bool_op | f_select_op.

(** [field++] *)
Definition incr (f : field) (c : t) : t :=
  let '(mk fm fa fu fd fc ff fo im ia iu id ic iff io bo so) := c in
  match f with
  | f_float_addsub => mk fm (fa + 1) fu fd fc ff fo im ia iu id ic iff io bo so
  | f_float_mul => mk fm fa (fu + 1) fd fc ff fo im ia iu id ic iff io bo so
  | f_float_divmod => mk fm fa fu (fd + 1) fc ff fo im ia iu id ic iff io bo so
  | f_float_cmp => mk fm fa fu fd (fc + 1) ff fo im ia iu id ic iff io bo so
  | f_float_math_func => mk fm fa fu fd fc (ff + 1) fo im ia iu id ic iff io bo so
  | f_float_other_func => mk fm fa fu fd fc ff (fo + 1) im ia iu id ic iff io bo so
  | f_int_addsub => mk fm fa fu fd fc ff fo im (ia + 1) iu id ic iff io bo so
  | f_int_mul => mk fm fa fu fd fc ff fo im ia (iu + 1) id ic iff io bo so
  | f_int_divmod => mk fm fa fu fd fc ff fo im ia iu (id + 1) ic iff io bo so
  | f_int_cmp => mk fm fa fu fd fc ff fo im ia iu id (ic + 1) iff io bo so
  | f_int_math_func => mk fm fa fu fd fc ff fo im ia iu id ic (iff + 1) io bo so
  | f_int_other_func => mk fm fa fu fd fc ff fo im ia iu id ic iff (io + 1) bo so
  | f_bool_op => mk fm fa fu fd fc ff fo im ia iu id ic iff io (bo + 1) so
  | f_select_op => mk fm fa fu fd fc ff fo im ia iu id ic iff io bo (so + 1)
  end.

(** The counter a node type increments: the VisitBinary(Type, float_ct, int_ct)
    instances, with [fl] telling whether [op->a.dtype().is_float()], and the
    And/Or visitors. *)
Definition binary_field (op : BinOp) (fl : bool) : field :=
  match op with
  | Add | Sub => if fl then f_float_addsub else f_int_addsub
  | Mul => if fl then f_float_mul else f_int_mul
  | Div | Mod | FloorDiv | FloorMod => if fl then f_float_divmod else f_int_divmod
  | Max | Min | EQ | NE | LT | LE | GT | GE => if fl then f_float_cmp else f_int_cmp
  | And | Or => f_bool_op
  end.

Definition call_field (t : DataType) (op : Op) : field :=
  let is_pure :=
    match op_call_effect op with
    | kPure | kExprAnnotation => true
    | _ => false
    end in
  if is_pure then (if is_float t then f_float_math_func else f_int_math_func)
  else (if is_float t then f_float_other_func else f_int_other_func).

Fixpoint VisitExpr (e : PrimExpr) (c : t) : t :=
  match e with
  | VarE _ | IntImm _ _ | FloatImm _ _ => c
  | Cast _ v => VisitExpr v c
  | Bin op a b =>
      let c := incr (binary_field op (is_float (expr_dtype a))) c in
      VisitExpr b (VisitExpr a c)
  | Not a => VisitExpr a (incr f_bool_op c)
  | Select cnd tv fv =>
      let c := incr f_select_op c in
      VisitExpr fv (VisitExpr tv (VisitExpr cnd c))
  | BufferLoad _ idx => fold_left (fun c x => VisitExpr x c) idx c
  | Call t op args =>
      let c := incr (call_field t op) c in
      fold_left (fun c x => VisitExpr x c) args c
  end.

(** [MathOpCounter mathops; mathops(node->value);] *)
Definition run (e : PrimExpr) : t := VisitExpr e init.

(** The sum that initialises [cur_compute_ops] in the store visitor. *)
Definition float_ops (c : t) : Z :=
  float_mad c + float_addsub c + float_mul c + float_divmod c + float_cmp c
  + float_math_func c + float_other_func c.

End MathOpCounter.

(** ** Buffer accesses *)

Inductive BufferAccessType : Type := kRead | kWrite | kReadWrite | kUnknownRW.

Definition BufferAccessType_code (k : BufferAccessType) : Z :=
  match k with kRead => 0 | kWrite => 1 | kReadWrite => 2 | kUnknownRW => 3 end.

Definition is_kReadWrite (k : BufferAccessType) : bool :=
  match k with kReadWrite => true | _ => false end.

Module BufferAccess.
Record t : Type := mk {
  acc_type : BufferAccessType;
  indices : list (list PrimExpr)
}.
(** the default-constructed struct *)
Definition default : t := mk kUnknownRW [].
End BufferAccess.

Module BufferAccessExtractor.

(** [buf_accesses[buf]]: the entry of [buf], default-constructed when absent *)
Definition at_or_default (m : BufferMap BufferAccess.t) (buf : Buffer)
  : Buffer * BufferAccess.t :=
  match m !! buffer_id buf with
  | Some x => x
  | None => (buf, BufferAccess.default)
  end.

Definition InsertAccess (buf : Buffer) (acc_type : BufferAccessType)
    (indices : list PrimExpr) (m : BufferMap BufferAccess.t)
  : BufferMap BufferAccess.t :=
  let '(key, acc) := at_or_default m buf in
  <[buffer_id buf := (key, BufferAccess.mk acc_type (BufferAccess.indices acc ++ [indices]))]> m.

(** The switch of VisitExpr_(const BufferLoadNode* ) *)
Definition load_acc_type (k : BufferAccessType) : BufferAccessType :=
  match k with
  | kRead => kRead
  | kWrite => kReadWrite
  | kReadWrite => kReadWrite
  | kUnknownRW => kRead
  end.

(** The part of VisitExpr_(const BufferLoadNode* ) before the recursion into
    the children. *)
Definition visit_load (buf : Buffer) (indices : list PrimExpr)
    (m : BufferMap BufferAccess.t) : BufferMap BufferAccess.t :=
  let '(key, acc) := at_or_default m buf in
  let k := load_acc_type (BufferAccess.acc_type acc) in
  if is_kReadWrite k
  then <[buffer_id buf := (key, BufferAccess.mk k (BufferAccess.indices acc))]> m
  else <[buffer_id buf := (key, BufferAccess.mk k (BufferAccess.indices acc ++ [indices]))]> m.

Fixpoint VisitExpr (e : PrimExpr) (m : BufferMap BufferAccess.t)
  : BufferMap BufferAccess.t :=
  match e with
  | VarE _ | IntImm _ _ | FloatImm _ _ => m
  | Cast _ v => VisitExpr v m
  | Bin _ a b => VisitExpr b (VisitExpr a m)
  | Not a => VisitExpr a m
  | Select cnd tv fv => VisitExpr fv (VisitExpr tv (VisitExpr cnd m))
  | BufferLoad buf idx =>
      fold_left (fun m x => VisitExpr x m) idx (visit_load buf idx m)
  | Call _ _ args => fold_left (fun m x => VisitExpr x m) args m
  end.

Definition ExtractReads (expr : PrimExpr) (m : BufferMap BufferAccess.t)
  : BufferMap BufferAccess.t := VisitExpr expr m.

End BufferAccessExtractor.

(** ** CoefficientExtractor *)

Module CoefficientExtractor.

Record t : Type := mk {
  visited_var : bool;
  visited_mul : bool;
  visited_add : bool;
  stride : Z
}.

(** the member initialisers of a new extractor *)
Definition init : t := mk false false false 0.

Definition visit_mul (a b : PrimExpr) (s : t) : t :=
  if visited_var s then
    if negb (visited_add s) then
      match a with
      | IntImm _ v => mk (visited_var s) true (visited_add s) (to_int32 v)
      | _ =>
          match b with
          | IntImm _ v => mk (visited_var s) true (visited_add s) (to_int32 v)
          | _ => s
          end
      end
    else s
  else s.

Definition visit_add (s : t) : t :=
  if visited_var s then
    if negb (visited_mul s) then mk (visited_var s) (visited_mul s) true 1
    else s
  else s.

Fixpoint VisitExpr (var_ : Var) (e : PrimExpr) (s : t) : t :=
  match e with
  | VarE v =>
      if var_same v var_ then mk true (visited_mul s) (visited_add s) 2 else s
  | IntImm _ _ | FloatImm _ _ => s
  | Cast _ v => VisitExpr var_ v s
  | Bin Mul a b => visit_mul a b (VisitExpr var_ b (VisitExpr var_ a s))
  | Bin Add a b => visit_add (VisitExpr var_ b (VisitExpr var_ a s))
  | Bin _ a b => VisitExpr var_ b (VisitExpr var_ a s)
  | Not a => VisitExpr var_ a s
  | Select cnd tv fv => VisitExpr var_ fv (VisitExpr var_ tv (VisitExpr var_ cnd s))
  | BufferLoad _ idx => fold_left (fun s x => VisitExpr var_ x s) idx s
  | Call _ _ args => fold_left (fun s x => VisitExpr var_ x s) args s
  end.

(** Returns the coefficient and the extractor as the call leaves it. *)
Definition ExtractCoefficient (expr : PrimExpr) (var : Var) (s : t) : Z * t :=
  let s0 := mk false false false (stride s) in
  let s1 := VisitExpr var expr s0 in
  if visited_var s1 && negb (visited_mul s1) && negb (visited_add s1)
  then (1, s1)
  else (stride s1, s1).

End CoefficientExtractor.

(** ** ComputeStride *)

(** The inner loop of ComputeStride over the dimensions of one index tuple,
    from the last one backward: [rdims] lists [(i, index[i])] for
    [i = size - 1, ..., 0].  The result is [Some s] with [s] the candidate
    stride when the variable was met, [None] otherwise; the outer [option] is
    [None] when [shape[i]] is read past the end of the vector. *)
Fixpoint stride_of_index (stride_var : Var) (shape : list Z)
    (rdims : list (nat * PrimExpr)) (shape_stride : Z)
    (extractor : CoefficientExtractor.t)
  : option (option Z * CoefficientExtractor.t) :=
  match rdims with
  | [] => Some (None, extractor)
  | (i, e) :: rest =>
      let '(coefficient, extractor) :=
        CoefficientExtractor.ExtractCoefficient e stride_var extractor in
      if CoefficientExtractor.visited_var extractor
      then Some (Some (to_int64 (to_int32 (Z.abs coefficient) * shape_stride)), extractor)
      else
        match shape !! i with
        | Some d => stride_of_index stride_var shape rest (to_int64 (shape_stride * d)) extractor
        | None => None
        end
  end.

Definition rev_dims (index : list PrimExpr) : list (nat * PrimExpr) :=
  rev (combine (seq 0 (length index)) index).

Fixpoint stride_loop (stride_var : Var) (shape : list Z)
    (indices : list (list PrimExpr)) (min_stride : Z) (find : bool)
    (extractor : CoefficientExtractor.t) : option (Z * bool) :=
  match indices with
  | [] => Some (min_stride, find)
  | index :: rest =>
      match stride_of_index stride_var shape (rev_dims index) 1 extractor with
      | None => None
      | Some (Some s, extractor) =>
          stride_loop stride_var shape rest (Z.min min_stride s) true extractor
      | Some (None, extractor) =>
          stride_loop stride_var shape rest min_stride find extractor
      end
  end.

Definition ComputeStride (indices : list (list PrimExpr)) (shape : list Z)
    (stride_var : Var) : option Z :=
  match stride_loop stride_var shape indices INT64_MAX false CoefficientExtractor.init with
  | None => None
  | Some (min_stride, find) => Some (if find then min_stride else 0)
  end.

(** ** The bound analyzer

    arith::Analyzer is not part of this file: its state, [Bind] and
    [const_int_bound] are taken as a parameter.  [const_int_bound] returns
    [(min_value, max_value)]. *)

Record AnalyzerOps : Type := mkAnalyzerOps {
  Analyzer : Type;
  new_Analyzer : Analyzer;
  Bind : Var -> Range -> Analyzer -> Analyzer;
  const_int_bound : Analyzer -> PrimExpr -> Z * Z
}.

(** ConstIntBound::kPosInf and kNegInf *)
Definition kPosInf : Z := INT64_MAX.
Definition kNegInf : Z := - INT64_MAX.

(** What [region->push_back(hi - lo + 1)] stores in the [std::vector<int>]. *)
Definition region_extent (lo hi : Z) : Z := to_int32 (to_int64 (hi - lo + 1)).

Inductive ReuseType : Type := kLoopMultipleRead | kSerialMultipleReadWrite | kNoReuse.

Definition ReuseType_code (r : ReuseType) : Z :=
  match r with kLoopMultipleRead => 0 | kSerialMultipleReadWrite => 1 | kNoReuse => 2 end.

(** One entry of the per-loop region table: (access type, number of touched
    elements, number of bytes of a single element). *)
Definition RegionEntry : Type := (BufferAccessType * Z * Z)%type.

Abbreviation RegionTable := (gmap positive (gmap N (Buffer * list RegionEntry))).

Section WithAnalyzer.
Variable A : AnalyzerOps.

(** ** ComputeRegion

    [None] stands for a read of [indices[j][i]] past the end of a tuple that is
    shorter than the first one. *)
Definition ComputeRegion (indices : list (list PrimExpr)) (ana : Analyzer A)
  : option (list Z) :=
  match indices with
  | [] => Some []
  | [index0] =>
      Some (map (fun index =>
                   let '(lo, hi) := const_int_bound A ana index in
                   region_extent lo hi) index0)
  | index0 :: _ =>
      mapM (fun i =>
              bounds ← mapM (fun index : list PrimExpr =>
                               const_int_bound A ana <$> index !! i) indices;
              let minimum := fold_left (fun m b => Z.min m (fst b)) bounds kPosInf in
              let maximum := fold_left (fun m b => Z.max m (snd b)) bounds kNegInf in
              Some (region_extent minimum maximum))
           (seq 0 (length index0))
  end.

End WithAnalyzer.

(** ** ComputeReuse *)

(** [reuse_dis_bytes = 0; for (iter : table) for (access : iter.second)
     reuse_dis_bytes += weight(access)] *)
Definition sum_touched (weight : RegionEntry -> Z)
    (table : gmap N (Buffer * list RegionEntry)) : cfloat :=
  fold_left
    (fun acc iter =>
       fold_left (fun acc access => fadd acc (of_int (weight access)))
         (snd (snd iter)) acc)
    (map_to_list table) fzero.

Definition touched_bytes (access : RegionEntry) : Z :=
  let '(_, n, b) := access in to_int64 (n * b).

Definition single_bytes (access : RegionEntry) : Z :=
  let '(_, _, b) := access in to_int32 (1 * b).

Definition index_uses_var (indices : list (list PrimExpr)) (v : Var) : bool :=
  existsb (fun index => existsb (VarInExpr v) index) indices.

(** The loop of ComputeReuse; [rstack] is the loop stack from the innermost
    loop outward.  [None] stands for the exception of a failing [.at()]. *)
Fixpoint reuse_loop (buf : Buffer) (indices : list (list PrimExpr))
    (for_touch_regions : RegionTable) (rstack : list ForNode)
    (reuse_dis_iter reuse_dis_bytes : cfloat)
  : option (ReuseType * cfloat * cfloat * cfloat) :=
  match rstack with
  | [] => Some (kNoReuse, of_int 0, of_int 0, of_int 0)
  | cur_for :: rest =>
      let find := index_uses_var indices (loop_var cur_for) in
      let extent := GetLoopExtent cur_for in
      if find then
        table ← for_touch_regions !! node_id cur_for;
        let reuse_dis_iter := fmul reuse_dis_iter (of_int extent) in
        let reuse_dis_bytes := sum_touched touched_bytes table in
        entry ← table !! buffer_id buf;
        let serial_reuse := to_int32 (Z.of_nat (length (snd entry))) - 1 in
        if 0 <? serial_reuse then
          let reuse_dis_iter :=
            fold_left (fun m acc_info => fmin m (of_int (snd (fst acc_info))))
              (snd entry) FLT_MAX in
          let reuse_dis_bytes := sum_touched touched_bytes table in
          Some (kSerialMultipleReadWrite,
                fdiv reuse_dis_iter (of_int extent),
                fdiv reuse_dis_bytes (of_int extent),
                of_int serial_reuse)
        else
          reuse_loop buf indices for_touch_regions rest reuse_dis_iter reuse_dis_bytes
      else
        reuse_dis_bytes ←
          (if flt reuse_dis_bytes (of_int 0)
           then sum_touched single_bytes <$> for_touch_regions !! node_id cur_for
           else Some reuse_dis_bytes);
        Some (kLoopMultipleRead, reuse_dis_iter, reuse_dis_bytes, of_int extent)
  end.

Definition ComputeReuse (buf : Buffer) (indices : list (list PrimExpr))
    (for_loop_stack : list ForNode) (for_touch_regions : RegionTable)
  : option (ReuseType * cfloat * cfloat * cfloat) :=
  reuse_loop buf indices for_touch_regions (rev for_loop_stack) fone (FFin (-1)).

(** ** Feature records *)

Inductive AnnotationPosType : Type :=
| kPosNone | kPosInnerSpatial | kPosMiddleSpatial | kPosOuterSpatial
| kPosInnerReduce | kPosMiddleReduce | kPosOuterReduce | kPosMixed.

Definition AnnotationPosType_code (p : AnnotationPosType) : Z :=
  match p with
  | kPosNone => 0 | kPosInnerSpatial => 1 | kPosMiddleSpatial => 2
  | kPosOuterSpatial => 3 | kPosInnerReduce => 4 | kPosMiddleReduce => 5
  | kPosOuterReduce => 6 | kPosMixed => 7
  end.

(** The number of samples to extract for arithmetic intensity curves *)
Definition ARITH_INTENSITY_CURVE_SAMPLE_N : nat := 10.

Module BufferAccessFeature.
Record t : Type := mk {
  buffer_name : string;
  acc_type : BufferAccessType;
  bytes : cfloat;
  unique_bytes : cfloat;
  lines : cfloat;
  unique_lines : cfloat;
  reuse_type : ReuseType;
  reuse_dis_iter : cfloat;
  reuse_dis_bytes : cfloat;
  reuse_ct : cfloat;
  bytes_d_reuse_ct : cfloat;
  unique_bytes_d_reuse_ct : cfloat;
  lines_d_reuse_ct : cfloat;
  unique_lines_d_reuse_ct : cfloat;
  stride : cfloat
}.
End BufferAccessFeature.

Module FeatureSet.
Record t : Type := mk {
  float_mad : cfloat; float_addsub : cfloat; float_mul : cfloat;
  float_divmod : cfloat; float_cmp : cfloat; float_math_func : cfloat;
  float_other_func : cfloat;
  int_mad : cfloat; int_addsub : cfloat; int_mul : cfloat; int_divmod : cfloat;
  int_cmp : cfloat; int_math_func : cfloat; int_other_func : cfloat;
  bool_op : cfloat; select_op : cfloat;
  vec_num : cfloat; vec_prod : cfloat; vec_len : cfloat;
  vec_type : AnnotationPosType;
  unroll_num : cfloat; unroll_prod : cfloat; unroll_len : cfloat;
  unroll_type : AnnotationPosType;
  parallel_num : cfloat; parallel_prod : cfloat; parallel_len : cfloat;
  parallel_type : AnnotationPosType;
  is_gpu : cfloat;
  blockIdx_x_len : cfloat; blockIdx_y_len : cfloat; blockIdx_z_len : cfloat;
  threadIdx_x_len : cfloat; threadIdx_y_len : cfloat; threadIdx_z_len : cfloat;
  vthread_len : cfloat;
  arith_intensity_curve : list cfloat;
  access_feas : list BufferAccessFeature.t;
  alloc_size : cfloat; alloc_outer_prod : cfloat; alloc_inner_prod : cfloat;
  alloc_prod : cfloat;
  outer_prod : cfloat; num_loops : cfloat; auto_unroll_max_step : cfloat
}.

(** The value-initialised struct that [buffer_features[buf]] inserts. *)
Definition default : t :=
  mk fzero fzero fzero fzero fzero fzero fzero
     fzero fzero fzero fzero fzero fzero fzero
     fzero fzero
     fzero fzero fzero kPosNone
     fzero fzero fzero kPosNone
     fzero fzero fzero kPosNone
     fzero fzero fzero fzero fzero fzero fzero fzero
     (repeat fzero ARITH_INTENSITY_CURVE_SAMPLE_N)
     []
     fzero fzero fzero fzero
     fzero fzero fzero.
End FeatureSet.

(** ** The arithmetic intensity curve *)

(** [while (compute_ops_list[pt] < cur_compute_ops - 1e-4) pt++;] scanning
    [rest], the part of [compute_ops_list] from index [pt] on.  [None] stands
    for running past the end of the vector. *)
Fixpoint advance_pt (rest : list cfloat) (pt : nat) (cur_compute_ops : cfloat)
  : option nat :=
  match rest with
  | [] => None
  | v :: rest' =>
      if flt v (fsub cur_compute_ops (FFin (1 / 10000)))
      then advance_pt rest' (S pt) cur_compute_ops
      else Some pt
  end.

(** The sample point of iteration [i]:
    [compute_ops_list.back() * (i + 1) / ARITH_INTENSITY_CURVE_SAMPLE_N] *)
Definition sample_point (compute_ops_list : list cfloat) (i : nat) : cfloat :=
  fdiv (fmul (List.last compute_ops_list FNaN) (of_int (Z.of_nat i + 1)))
       (of_int (Z.of_nat ARITH_INTENSITY_CURVE_SAMPLE_N)).

Definition interpolate (compute_ops_list mem_bytes_list : list cfloat)
    (pt : nat) (cur_compute_ops : cfloat) : option cfloat :=
  match pt with
  | O =>
      c ← compute_ops_list !! pt; m ← mem_bytes_list !! pt;
      Some (fdiv c m)
  | S pt1 =>
      c1 ← compute_ops_list !! pt1; m1 ← mem_bytes_list !! pt1;
      c ← compute_ops_list !! pt; m ← mem_bytes_list !! pt;
      let base := fdiv c1 m1 in
      let slope := fdiv (fsub (fdiv c m) (fdiv c1 m1)) (fsub c c1) in
      Some (fadd base (fmul slope (fsub cur_compute_ops c1)))
  end.

(** The body of the sampling loop for the iterations in [samples], entered with
    pointer [pt]; the result also lists the value of [pt] at each CHECK_LT. *)
Fixpoint curve_loop (compute_ops_list mem_bytes_list : list cfloat)
    (samples : list nat) (pt : nat) : option (list cfloat * list nat) :=
  match samples with
  | [] => Some ([], [])
  | i :: samples' =>
      let cur_compute_ops := sample_point compute_ops_list i in
      pt ← advance_pt (drop pt compute_ops_list) pt cur_compute_ops;
      value ← interpolate compute_ops_list mem_bytes_list pt cur_compute_ops;
      '(values, pts) ← curve_loop compute_ops_list mem_bytes_list samples' pt;
      Some (value :: values, pt :: pts)
  end.

Definition compute_curve (cur_compute_ops : Z)
    (compute_ops_list mem_bytes_list : list cfloat) : option (list cfloat) :=
  if (cur_compute_ops <=? 0) || (Nat.eqb (length compute_ops_list) 0)
  then Some (repeat (FFin 0) ARITH_INTENSITY_CURVE_SAMPLE_N)
  else fst <$> curve_loop compute_ops_list mem_bytes_list
                 (seq 0 ARITH_INTENSITY_CURVE_SAMPLE_N) 0%nat.

(** ** PerStoreFeatureExtractor: extract features for every BufferStore *)

Definition to_uint64 (z : Z) : Z := z mod 2 ^ 64.

Module PerStoreFeatureExtractor.

Record t : Type := mk {
  outer_loop_prod : cfloat;
  for_loop_stack : list ForNode;
  parallel_for_stack : list ForNode;
  vec_for_stack : list ForNode;
  unroll_for_stack : list ForNode;
  is_gpu : bool;
  blockIdx_x_len : Z; blockIdx_y_len : Z; blockIdx_z_len : Z;
  threadIdx_x_len : Z; threadIdx_y_len : Z; threadIdx_z_len : Z;
  vthread_len : Z;
  cur_auto_unroll_max_step : Z;
  buffer_features : BufferMap FeatureSet.t;
  for_touch_regions : RegionTable;
  (** the identity given to the next loop node met (not a member of the
      class: it stands for the address of the node) *)
  next_node : positive
}.

(** A new extractor.  The member [is_gpu] has no initialiser in the class, so
    its first value is left to the caller. *)
Definition init (is_gpu0 : bool) : t :=
  mk fone [] [] [] [] is_gpu0 1 1 1 1 1 1 1 0 ∅ ∅ 1%positive.

Definition set_outer_loop_prod (x : cfloat) (s : t) : t :=
  let '(mk _ fs ps vs us g bx by_ bz tx ty tz vt au bf tr nn) := s in
  mk x fs ps vs us g bx by_ bz tx ty tz vt au bf tr nn.

Definition set_for_loop_stack (x : list ForNode) (s : t) : t :=
  let '(mk op _ ps vs us g bx by_ bz tx ty tz vt au bf tr nn) := s in
  mk op x ps vs us g bx by_ bz tx ty tz vt au bf tr nn.

Definition set_parallel_for_stack (x : list ForNode) (s : t) : t :=
  let '(mk op fs _ vs us g bx by_ bz tx ty tz vt au bf tr nn) := s in
  mk op fs x vs us g bx by_ bz tx ty tz vt au bf tr nn.

Definition set_vec_for_stack (x : list ForNode) (s : t) : t :=
  let '(mk op fs ps _ us g bx by_ bz tx ty tz vt au bf tr nn) := s in
  mk op fs ps x us g bx by_ bz tx ty tz vt au bf tr nn.

Definition set_unroll_for_stack (x : list ForNode) (s : t) : t :=
  let '(mk op fs ps vs _ g bx by_ bz tx ty tz vt au bf tr nn) := s in
  mk op fs ps vs x g bx by_ bz tx ty tz vt au bf tr nn.

Definition set_is_gpu (x : bool) (s : t) : t :=
  let '(mk op fs ps vs us _ bx by_ bz tx ty tz vt au bf tr nn) := s in
  mk op fs ps vs us x bx by_ bz tx ty tz vt au bf tr nn.

Definition set_cur_auto_unroll_max_step (x : Z) (s : t) : t :=
  let '(mk op fs ps vs us g bx by_ bz tx ty tz vt _ bf tr nn) := s in
  mk op fs ps vs us g bx by_ bz tx ty tz vt x bf tr nn.

Definition set_buffer_features (x : BufferMap FeatureSet.t) (s : t) : t :=
  let '(mk op fs ps vs us g bx by_ bz tx ty tz vt au _ tr nn) := s in
  mk op fs ps vs us g bx by_ bz tx ty tz vt au x tr nn.

Definition set_for_touch_regions (x : RegionTable) (s : t) : t :=
  let '(mk op fs ps vs us g bx by_ bz tx ty tz vt au bf _ nn) := s in
  mk op fs ps vs us g bx by_ bz tx ty tz vt au bf x nn.

Definition set_next_node (x : positive) (s : t) : t :=
  let '(mk op fs ps vs us g bx by_ bz tx ty tz vt au bf tr _) := s in
  mk op fs ps vs us g bx by_ bz tx ty tz vt au bf tr x.

(** The member that [plen] points to. *)
Inductive LenField : Type :=
| len_blockIdx_x | len_blockIdx_y | len_blockIdx_z
| len_threadIdx_x | len_threadIdx_y | len_threadIdx_z
| len_vthread.

Definition get_len (f : LenField) (s : t) : Z :=
  match f with
  | len_blockIdx_x => blockIdx_x_len s
  | len_blockIdx_y => blockIdx_y_len s
  | len_blockIdx_z => blockIdx_z_len s
  | len_threadIdx_x => threadIdx_x_len s
  | len_threadIdx_y => threadIdx_y_len s
  | len_threadIdx_z => threadIdx_z_len s
  | len_vthread => vthread_len s
  end.

Definition set_len (f : LenField) (x : Z) (s : t) : t :=
  let '(mk op fs ps vs us g bx by_ bz tx ty tz vt au bf tr nn) := s in
  match f with
  | len_blockIdx_x => mk op fs ps vs us g x by_ bz tx ty tz vt au bf tr nn
  | len_blockIdx_y => mk op fs ps vs us g bx x bz tx ty tz vt au bf tr nn
  | len_blockIdx_z => mk op fs ps vs us g bx by_ x tx ty tz vt au bf tr nn
  | len_threadIdx_x => mk op fs ps vs us g bx by_ bz x ty tz vt au bf tr nn
  | len_threadIdx_y => mk op fs ps vs us g bx by_ bz tx x tz vt au bf tr nn
  | len_threadIdx_z => mk op fs ps vs us g bx by_ bz tx ty x vt au bf tr nn
  | len_vthread => mk op fs ps vs us g bx by_ bz tx ty tz x au bf tr nn
  end.

(** The name dispatch of the thread_extent branch; [None] is the
    LOG(FATAL) of an invalid thread itervar. *)
Definition thread_len_field (name : string) : option LenField :=
  if String.eqb name "blockIdx.x" then Some len_blockIdx_x
  else if String.eqb name "blockIdx.y" then Some len_blockIdx_y
  else if String.eqb name "blockIdx.z" then Some len_blockIdx_z
  else if String.eqb name "threadIdx.x" then Some len_threadIdx_x
  else if String.eqb name "threadIdx.y" then Some len_threadIdx_y
  else if String.eqb name "threadIdx.z" then Some len_threadIdx_z
  else None.

(** [vector::push_back] and [vector::pop_back] on the loop stacks *)
Definition push_back {X : Type} (x : X) (l : list X) : list X := l ++ [x].
Definition pop_back {X : Type} (l : list X) : list X := removelast l.

Definition push_kind_stack (node : ForNode) (s : t) : t :=
  match for_type node with
  | Vectorized => set_vec_for_stack (push_back node (vec_for_stack s)) s
  | Unrolled => set_unroll_for_stack (push_back node (unroll_for_stack s)) s
  | Parallel => set_parallel_for_stack (push_back node (parallel_for_stack s)) s
  | Serial => s
  end.

Definition pop_kind_stack (node : ForNode) (s : t) : t :=
  match for_type node with
  | Vectorized => set_vec_for_stack (pop_back (vec_for_stack s)) s
  | Unrolled => set_unroll_for_stack (pop_back (unroll_for_stack s)) s
  | Parallel => set_parallel_for_stack (pop_back (parallel_for_stack s)) s
  | Serial => s
  end.

(** The num, prod, len and type features of one of the vec, unroll and
    parallel stacks; [old_prod] is the value the prod field held before. *)
Definition annotation_feas (stack : list ForNode) (old_prod : cfloat)
  : cfloat * cfloat * cfloat * AnnotationPosType :=
  match rev stack with
  | [] => (of_int (Z.of_nat (length stack)), old_prod, FFin 0, kPosNone)
  | back :: _ =>
      (of_int (Z.of_nat (length stack)),
       fold_left (fun p pfor => fmul p (of_int (GetLoopExtent pfor))) stack (FFin 1),
       of_int (GetLoopExtent back),
       kPosMixed)
  end.

(** [buffer_regions_map[t].push_back(entry)] with
    [buffer_regions_map = for_touch_regions[p_for]] *)
Definition push_region (p_for : positive) (t : Buffer) (entry : RegionEntry)
    (regions : RegionTable) : RegionTable :=
  let buffer_regions_map := default ∅ (regions !! p_for) in
  let '(key, v) :=
    match buffer_regions_map !! buffer_id t with
    | Some x => x
    | None => (t, [])
    end in
  <[p_for := <[buffer_id t := (key, v ++ [entry])]> buffer_regions_map]> regions.

(** The search for the first loop, from the innermost one outward, in which
    the accesses have a nonzero stride.  [rstack] lists [(i, for_loop_stack[i])]
    for [i = size - 1, ..., 0] and [back] is [for_loop_stack.back()].  The
    result is [(stride, reduce_ratio, i)] as the loop leaves them, [i] being
    [-1] when the loop ran to its end. *)
Fixpoint stride_search (indices : list (list PrimExpr)) (int_shape : list Z)
    (back : ForNode) (rstack : list (nat * ForNode)) (reduce_ratio : Z)
  : option (Z * Z * Z) :=
  match rstack with
  | [] => Some (0, reduce_ratio, -1)
  | (i, p_for) :: rest =>
      stride ← ComputeStride indices int_shape (loop_var p_for);
      if negb (stride =? 0) then Some (stride, reduce_ratio, Z.of_nat i)
      else stride_search indices int_shape back rest
             (to_int64 (reduce_ratio * GetLoopExtent back))
  end.

Definition rev_stack (stack : list ForNode) : list (nat * ForNode) :=
  rev (combine (seq 0 (length stack)) stack).

(** [lines = outer_loop_prod / reduce_ratio *
             std::min(1.0f, 1.0f * stride * ele_bytes / cache_line_size_);
     lines = std::max(lines, 1.0f);] *)
Definition compute_lines (outer_loop_prod : cfloat) (reduce_ratio stride ele_bytes
    cache_line_size_ : Z) : cfloat :=
  let lines :=
    fmul (fdiv outer_loop_prod (of_int reduce_ratio))
         (fmin (FFin 1)
               (fdiv (fmul (fmul (FFin 1) (of_int stride)) (of_int ele_bytes))
                     (of_int cache_line_size_))) in
  fmax lines (FFin 1).

(** The scan of [tmp_region] from the last dimension backward;
    [rdims] lists [(i, tmp_region[i])]. *)
Fixpoint continuous_scan (int_shape : list Z) (rdims : list (nat * Z))
    (n_continuous : cfloat) : option cfloat :=
  match rdims with
  | [] => Some n_continuous
  | (i, r) :: rest =>
      d ← int_shape !! i;
      if r =? d then Some (fmul n_continuous (of_int r))
      else continuous_scan int_shape rest n_continuous
  end.

Section WithAnalyzer.
Variable A : AnalyzerOps.
Variable cache_line_size_ : Z.

(** The loop over [buf_extractor.buf_accesses] inside the loop over the loop
    stack: the state is [(for_touch_regions, tmp_region, mem_bytes)]. *)
Definition touch_buffers (ana : Analyzer A) (p_for : ForNode)
    (buf_accesses : list (N * (Buffer * BufferAccess.t)))
    (st : RegionTable * list Z * Z) : option (RegionTable * list Z * Z) :=
  foldl (fun st x =>
           '(regions, _, mem_bytes) ← st;
           let t := fst (snd x) in
           let acc := snd (snd x) in
           tmp_region ← ComputeRegion A (BufferAccess.indices acc) ana;
           let touched_size := ElementProduct tmp_region in
           Some (push_region (node_id p_for) t
                   (BufferAccess.acc_type acc, touched_size, dtype_bytes (dtype t)) regions,
                 tmp_region,
                 to_int64 (mem_bytes + to_int64 (touched_size * dtype_bytes (dtype t)))))
        (Some st) buf_accesses.

(** The state of the loop over the loop stack (innermost loop first). *)
Record TouchState : Type := mkTouchState {
  ts_ana : Analyzer A;
  ts_regions : RegionTable;
  ts_tmp_region : list Z;
  ts_cur_compute_ops : Z;
  ts_mem_bytes_list : list cfloat;
  ts_compute_ops_list : list cfloat
}.

Fixpoint touch_loops (buf_accesses : list (N * (Buffer * BufferAccess.t)))
    (rstack : list ForNode) (st : TouchState) : option TouchState :=
  match rstack with
  | [] => Some st
  | p_for :: rest =>
      let ana := Bind A (loop_var p_for)
                   (mkRange (loop_min p_for) (loop_extent p_for)) (ts_ana st) in
      (** [for_touch_regions[p_for]] inserts an empty map when there is none *)
      let regions0 :=
        <[node_id p_for := default ∅ (ts_regions st !! node_id p_for)]> (ts_regions st) in
      '(regions, tmp_region, mem_bytes) ←
        touch_buffers ana p_for buf_accesses (regions0, ts_tmp_region st, 0);
      let cur_compute_ops := to_int32 (ts_cur_compute_ops st * GetLoopExtent p_for) in
      touch_loops buf_accesses rest
        (mkTouchState ana regions tmp_region cur_compute_ops
           (ts_mem_bytes_list st ++ [flog2 (of_int mem_bytes)])
           (ts_compute_ops_list st ++ [flog2 (of_int cur_compute_ops)]))
  end.

(** The body of the loop that computes the buffer access features. *)
Definition access_feature (s : t) (regions : RegionTable) (tmp_region : list Z)
    (x : Buffer * BufferAccess.t) : option BufferAccessFeature.t :=
  let '(t, acc) := x in
  int_shape ← mapM (fun dim => to_int32 <$> dim) (shape t);
  let ele_bytes := to_uint64 (dtype_bytes (dtype t)) in
  let bytes := fmul (outer_loop_prod s) (of_int ele_bytes) in
  '(unique_bytes, stride, lines, unique_lines) ←
    match rev (for_loop_stack s) with
    | [] => Some (of_int ele_bytes, 0, FFin 1, FFin 1)
    | back :: _ =>
        front ← head (for_loop_stack s);
        table ← regions !! node_id front;
        entry ← table !! buffer_id t;
        first ← head (snd entry);
        let unique_bytes := of_int (to_uint64 (snd (fst first) * ele_bytes)) in
        '(stride, reduce_ratio, i) ←
          stride_search (BufferAccess.indices acc) int_shape back
            (rev_stack (for_loop_stack s)) 1;
        let lines :=
          compute_lines (outer_loop_prod s) reduce_ratio stride ele_bytes
            cache_line_size_ in
        let stride :=
          if i =? Z.of_nat (length (for_loop_stack s)) - 1 then stride else 0 in
        n_continuous ←
          continuous_scan int_shape
            (rev (combine (seq 0 (length tmp_region)) tmp_region)) (of_int ele_bytes);
        let unique_lines :=
          fmax (fdiv unique_bytes (fmin n_continuous (of_int cache_line_size_)))
               (FFin 1) in
        Some (unique_bytes, stride, lines, unique_lines)
    end;
  '(reuse_type, reuse_dis_iter, reuse_dis_bytes, reuse_ct) ←
    ComputeReuse t (BufferAccess.indices acc) (for_loop_stack s) regions;
  let d_reuse_ct (v : cfloat) :=
    if flt (FFin (1 / 2)) reuse_ct then fdiv v reuse_ct else fmul v (FFin 2) in
  Some (BufferAccessFeature.mk (name t) (BufferAccess.acc_type acc)
          bytes unique_bytes lines unique_lines
          reuse_type reuse_dis_iter reuse_dis_bytes reuse_ct
          (d_reuse_ct bytes) (d_reuse_ct unique_bytes)
          (d_reuse_ct lines) (d_reuse_ct unique_lines)
          (of_int stride)).


(** [fea.alloc_* = ...] of the BufferRealize visitor *)
Definition set_alloc (alloc_size alloc_outer_prod alloc_inner_prod alloc_prod : cfloat)
    (fea : FeatureSet.t) : FeatureSet.t :=
  let '(FeatureSet.mk fm fa fu fd fc ff fo im ia iu id ic iff io bo so
          vn vp vl vt un up ul ut pn pp pl pt
          g bx by_ bz tx ty tz vth curve accs _ _ _ _ op nl au) := fea in
  FeatureSet.mk fm fa fu fd fc ff fo im ia iu id ic iff io bo so
    vn vp vl vt un up ul ut pn pp pl pt
    g bx by_ bz tx ty tz vth curve accs
    alloc_size alloc_outer_prod alloc_inner_prod alloc_prod op nl au.

(** [buffer_features[buf]]: the entry of [buf], value-initialised when absent *)
Definition features_at (m : BufferMap FeatureSet.t) (buf : Buffer)
  : Buffer * FeatureSet.t :=
  match m !! buffer_id buf with
  | Some x => x
  | None => (buf, FeatureSet.default)
  end.

(** The features a store leaves in [buffer_features[node->buffer]], from the
    entry [fea] found there, once the loop-stack walk ([ts]) and the buffer
    access features ([acc_feas]) are computed. *)
Definition store_features (s : t) (mathops : MathOpCounter.t)
    (curve : list cfloat) (acc_feas : list BufferAccessFeature.t)
    (fea : FeatureSet.t) : FeatureSet.t :=
  let scaled (n : Z) := fmul (outer_loop_prod s) (of_int n) in
  let '(vec_num, vec_prod, vec_len, vec_type) :=
    annotation_feas (vec_for_stack s) (FeatureSet.vec_prod fea) in
  let '(unroll_num, unroll_prod, unroll_len, unroll_type) :=
    annotation_feas (unroll_for_stack s) (FeatureSet.unroll_prod fea) in
  let '(parallel_num, parallel_prod, parallel_len, parallel_type) :=
    annotation_feas (parallel_for_stack s) (FeatureSet.parallel_prod fea) in
  FeatureSet.mk
    (scaled (MathOpCounter.float_mad mathops))
    (scaled (MathOpCounter.float_addsub mathops))
    (scaled (MathOpCounter.float_mul mathops))
    (scaled (MathOpCounter.float_divmod mathops))
    (scaled (MathOpCounter.float_cmp mathops))
    (scaled (MathOpCounter.float_math_func mathops))
    (scaled (MathOpCounter.float_other_func mathops))
    (scaled (MathOpCounter.int_mad mathops))
    (scaled (MathOpCounter.int_addsub mathops))
    (scaled (MathOpCounter.int_mul mathops))
    (scaled (MathOpCounter.int_divmod mathops))
    (scaled (MathOpCounter.int_cmp mathops))
    (scaled (MathOpCounter.int_math_func mathops))
    (scaled (MathOpCounter.int_other_func mathops))
    (scaled (MathOpCounter.bool_op mathops))
    (scaled (MathOpCounter.select_op mathops))
    vec_num vec_prod vec_len vec_type
    unroll_num unroll_prod unroll_len unroll_type
    parallel_num parallel_prod parallel_len parallel_type
    (of_bool (is_gpu s))
    (of_int (blockIdx_x_len s)) (of_int (blockIdx_y_len s)) (of_int (blockIdx_z_len s))
    (of_int (threadIdx_x_len s)) (of_int (threadIdx_y_len s)) (of_int (threadIdx_z_len s))
    (of_int (vthread_len s))
    curve
    acc_feas
    (FeatureSet.alloc_size fea) (FeatureSet.alloc_outer_prod fea)
    (FeatureSet.alloc_inner_prod fea) (FeatureSet.alloc_prod fea)
    (outer_loop_prod s)
    (of_int (Z.of_nat (length (for_loop_stack s))))
    (of_int (cur_auto_unroll_max_step s)).

(** [buf_extractor.InsertAccess(node->buffer, kWrite, node->indices);
     buf_extractor.ExtractReads(node->value);] *)
Definition store_accesses (buffer : Buffer) (value : PrimExpr)
    (indices : list PrimExpr) : BufferMap BufferAccess.t :=
  BufferAccessExtractor.ExtractReads value
    (BufferAccessExtractor.InsertAccess buffer kWrite indices ∅).

(** The state in which the loop over the loop stack is entered. *)
Definition touch_init (s : t) (mathops : MathOpCounter.t) : TouchState :=
  mkTouchState
    (fold_left
       (fun ana x =>
          Bind A (loop_var x) (mkRange (loop_min x) (IntImm Int32_t 1)) ana)
       (for_loop_stack s) (new_Analyzer A))
    (for_touch_regions s) []
    (to_int32 (MathOpCounter.float_ops mathops)) [] [].

(** VisitStmt_(const BufferStoreNode* ) *)
Definition VisitBufferStore (buffer : Buffer) (value : PrimExpr)
    (indices : list PrimExpr) (s : t) : option t :=
  let '(key, fea) := features_at (buffer_features s) buffer in
  let mathops := MathOpCounter.run value in
  let buf_accesses := map_to_list (store_accesses buffer value indices) in
  ts ← touch_loops buf_accesses (rev (for_loop_stack s)) (touch_init s mathops);
  curve ← compute_curve (ts_cur_compute_ops ts) (ts_compute_ops_list ts)
            (ts_mem_bytes_list ts);
  acc_feas ← mapM (access_feature s (ts_regions ts) (ts_tmp_region ts))
                  (snd <$> buf_accesses);
  Some (set_for_touch_regions (ts_regions ts)
          (set_buffer_features
             (<[buffer_id buffer := (key, store_features s mathops curve acc_feas fea)]>
                (buffer_features s)) s)).

(** The allocation features of VisitStmt_(const BufferRealizeNode* ), computed
    after the body has been visited. *)
Definition realize_features (buffer : Buffer) (bounds : list Range) (s : t)
  : option t :=
  let '(key, fea) := features_at (buffer_features s) buffer in
  allocation_size ←
    foldl (fun acc x =>
             a ← acc; e ← GetIntImm (range_extent x); Some (fmul a (of_int e)))
          (Some (FFin 1)) bounds;
  let fea :=
    set_alloc
      (fmul allocation_size (of_int (dtype_bytes (dtype buffer))))
      (outer_loop_prod s)
      (fdiv (FeatureSet.outer_prod fea) (outer_loop_prod s))
      (fmul allocation_size (outer_loop_prod s))
      fea in
  Some (set_buffer_features (<[buffer_id buffer := (key, fea)]> (buffer_features s)) s).

Definition thread_extent : string := "thread_extent".
Definition virtual_thread : string := "virtual_thread".
Definition pragma_auto_unroll_max_step : string := "pragma_auto_unroll_max_step".

(** [node->attr_key == tir::attr::thread_extent ||
     node->attr_key == tir::attr::virtual_thread] *)
Definition attr_pushes_frame (attr_key : string) : bool :=
  String.eqb attr_key thread_extent || String.eqb attr_key virtual_thread.

(** Entering and leaving a frame of the loop stack:
    [outer_loop_prod *= extent; for_loop_stack.push_back(node)] and
    [for_loop_stack.pop_back(); outer_loop_prod /= extent]. *)
Definition push_frame (node : ForNode) (extent : Z) (s : t) : t :=
  set_for_loop_stack (push_back node (for_loop_stack s))
    (set_outer_loop_prod (fmul (outer_loop_prod s) (of_int extent)) s).

Definition pop_frame (extent : Z) (s : t) : t :=
  set_outer_loop_prod (fdiv (outer_loop_prod s) (of_int extent))
    (set_for_loop_stack (pop_back (for_loop_stack s)) s).

(** VisitStmt_(const ForNode* ), up to the visit of the body: the node with
    its identity, and the extractor the body is visited with. *)
Definition enter_loop (loop_var : Var) (min extent : PrimExpr) (for_type : ForType)
    (s : t) : ForNode * t :=
  let node := mkForNode (next_node s) loop_var min extent for_type in
  let s := set_next_node (Pos.succ (next_node s)) s in
  let loop_extent := GetLoopExtent node in
  let s := push_kind_stack node s in
  (node, push_frame node loop_extent s).

(** VisitStmt_(const ForNode* ), after the visit of the body *)
Definition leave_loop (node : ForNode) (s : t) : t :=
  pop_kind_stack node (pop_frame (GetLoopExtent node) s).

(** The locals of the thread_extent / virtual_thread branch *)
Record ThreadScope : Type := mkThreadScope {
  plen : LenField;
  extent : Z;
  extent_before : Z
}.

(** The thread_extent / virtual_thread branch of VisitStmt_(const AttrStmtNode* ),
    up to the visit of the body.  [None] is a null IterVarNode, a value
    that is no integer constant, or an invalid thread itervar. *)
Definition enter_thread_scope (node : AttrNode) (attr_key : string)
    (value : PrimExpr) (s : t) : option (ThreadScope * t) :=
  match node with
  | OtherNode => None
  | IterVarNode var =>
      extent ← to_int32 <$> GetIntImm value;
      plen ← (if String.eqb attr_key thread_extent
              then thread_len_field (name_hint var)
              else Some len_vthread);
      let extent_before := get_len plen s in
      let s :=
        if String.eqb attr_key thread_extent
        then set_len plen extent s
        else set_len plen (to_int32 (extent_before * extent)) s in
      let s := set_is_gpu true s in
      let fake_for_node :=
        mkForNode (next_node s) var (IntImm Int32_t 0) (IntImm Int32_t extent)
          Parallel in
      let s := set_next_node (Pos.succ (next_node s)) s in
      Some (mkThreadScope plen extent extent_before, push_frame fake_for_node extent s)
  end.

Definition leave_thread_scope (sc : ThreadScope) (s : t) : t :=
  set_len (plen sc) (extent_before sc) (pop_frame (extent sc) s).

(** The pragma_auto_unroll_max_step branch, up to the visit of the body: the
    saved [old_value] and the extractor the body is visited with. *)
Definition enter_pragma (value : PrimExpr) (s : t) : option (Z * t) :=
  value ← to_int32 <$> GetIntImm value;
  let old_value := cur_auto_unroll_max_step s in
  Some (old_value, set_cur_auto_unroll_max_step (to_int16 value) s).

(** The visitor.  Expressions carry no statement and the class overrides no
    expression visitor, so the default traversal of the expressions of a
    statement leaves the extractor as it is.  [None] stands for an abort
    (a failed CHECK, LOG(FATAL), or an exception). *)
Fixpoint VisitStmt (stmt : Stmt) (s : t) : option t :=
  match stmt with
  | For loop_var min extent for_type body =>
      let '(node, s) := enter_loop loop_var min extent for_type s in
      s ← VisitStmt body s;
      Some (leave_loop node s)
  | AttrStmt node attr_key value body =>
      if attr_pushes_frame attr_key then
        '(sc, s) ← enter_thread_scope node attr_key value s;
        s ← VisitStmt body s;
        Some (leave_thread_scope sc s)
      else if String.eqb attr_key pragma_auto_unroll_max_step then
        '(old_value, s) ← enter_pragma value s;
        s ← VisitStmt body s;
        Some (set_cur_auto_unroll_max_step old_value s)
      else VisitStmt body s
  | BufferStore buffer value indices => VisitBufferStore buffer value indices s
  | BufferRealize buffer bounds _ body =>
      s ← VisitStmt body s;
      realize_features buffer bounds s
  | SeqStmt seq => fold_left (fun acc st => s ← acc; VisitStmt st s) seq (Some s)
  | IfThenElse _ then_case else_case =>
      s ← VisitStmt then_case s;
      match else_case with
      | Some e => VisitStmt e s
      | None => Some s
      end
  | LetStmt _ _ body => VisitStmt body s
  | Evaluate _ => Some s
  end.

(** [visits stmt s sub s']: the visit of [stmt] started with the extractor [s]
    reaches the statement [sub] of [stmt] with the extractor [s']. *)
Inductive visits : Stmt -> t -> Stmt -> t -> Prop :=
| visits_here stmt s : visits stmt s stmt s
| visits_For v mn ex ft body s sub s' :
    visits body (snd (enter_loop v mn ex ft s)) sub s' ->
    visits (For v mn ex ft body) s sub s'
| visits_thread node key value body s sc s1 sub s' :
    attr_pushes_frame key = true ->
    enter_thread_scope node key value s = Some (sc, s1) ->
    visits body s1 sub s' ->
    visits (AttrStmt node key value body) s sub s'
| visits_pragma node key value body s old s1 sub s' :
    attr_pushes_frame key = false ->
    String.eqb key pragma_auto_unroll_max_step = true ->
    enter_pragma value s = Some (old, s1) ->
    visits body s1 sub s' ->
    visits (AttrStmt node key value body) s sub s'
| visits_attr node key value body s sub s' :
    attr_pushes_frame key = false ->
    String.eqb key pragma_auto_unroll_max_step = false ->
    visits body s sub s' ->
    visits (AttrStmt node key value body) s sub s'
| visits_realize buffer bounds c body s sub s' :
    visits body s sub s' ->
    visits (BufferRealize buffer bounds c body) s sub s'
| visits_seq before st after s s1 sub s' :
    VisitStmt (SeqStmt before) s = Some s1 ->
    visits st s1 sub s' ->
    visits (SeqStmt (before ++ st :: after)) s sub s'
| visits_then c t e s sub s' :
    visits t s sub s' ->
    visits (IfThenElse c t e) s sub s'
| visits_else c t e s s1 sub s' :
    VisitStmt t s = Some s1 ->
    visits e s1 sub s' ->
    visits (IfThenElse c t (Some e)) s sub s'
| visits_let v e body s sub s' :
    visits body s sub s' ->
    visits (LetStmt v e body) s sub s'.

End WithAnalyzer.

End PerStoreFeatureExtractor.

(** ** The emitters *)

(** shifted log to incorporate the property that slog(0) = 0 *)
Definition slog (x : cfloat) : cfloat :=
  if flt x (FFin 0) then fneg (flog2 (fadd (fneg x) (FFin 1)))
  else flog2 (fadd x (FFin 1)).

(** [for (i = 0; i <= last; i++) ret->push_back(i == code)] *)
Definition one_hot (last code : Z) : list cfloat :=
  map (fun i => of_bool (Z.of_nat i =? code)) (seq 0 (Z.to_nat (last + 1))).

(** The comparison of the sort of [buf_order]: by lines, then by bytes, both
    descending. *)
Definition buf_order_cmp (buf_order_key : list (cfloat * cfloat)) (l r : nat) : bool :=
  match buf_order_key !! l, buf_order_key !! r with
  | Some kl, Some kr =>
      fgt (fst kl) (fst kr) || (feq (fst kl) (fst kr) && fgt (snd kl) (snd kr))
  | _, _ => false
  end.

(** std::sort is modelled by an insertion sort: the standard fixes the result
    up to the order of equivalent elements only, and nothing below depends on
    that order. *)
Fixpoint sort_insert (cmp : nat -> nat -> bool) (x : nat) (l : list nat) : list nat :=
  match l with
  | [] => [x]
  | y :: r => if cmp x y then x :: y :: r else y :: sort_insert cmp x r
  end.

Definition std_sort (cmp : nat -> nat -> bool) (l : list nat) : list nat :=
  fold_right (sort_insert cmp) [] l.

Definition buf_order_keys (access_feas : list BufferAccessFeature.t)
  : list (cfloat * cfloat) :=
  map (fun acc_fea => (BufferAccessFeature.lines acc_fea, BufferAccessFeature.bytes acc_fea))
      access_feas.

(** [buf_order] after the sort and the resize to [n_bufs] *)
Definition sorted_buf_order (max_n_bufs : Z) (access_feas : list BufferAccessFeature.t)
  : list nat :=
  let buf_order_key := buf_order_keys access_feas in
  let buf_order := seq 0 (length buf_order_key) in
  let buf_order := std_sort (buf_order_cmp buf_order_key) buf_order in
  let n_bufs := Z.min max_n_bufs (Z.of_nat (length buf_order)) in
  take (Z.to_nat n_bufs) buf_order.

(** The 18 values pushed for one buffer access feature *)
Definition emit_access (acc_fea : BufferAccessFeature.t) : list cfloat :=
  one_hot (BufferAccessType_code kReadWrite)
          (BufferAccessType_code (BufferAccessFeature.acc_type acc_fea))
  ++ [slog (BufferAccessFeature.bytes acc_fea);
      slog (BufferAccessFeature.unique_bytes acc_fea);
      slog (BufferAccessFeature.lines acc_fea);
      slog (BufferAccessFeature.unique_lines acc_fea)]
  ++ one_hot (ReuseType_code kNoReuse)
             (ReuseType_code (BufferAccessFeature.reuse_type acc_fea))
  ++ [slog (BufferAccessFeature.reuse_dis_iter acc_fea);
      slog (BufferAccessFeature.reuse_dis_bytes acc_fea);
      slog (BufferAccessFeature.reuse_ct acc_fea);
      slog (BufferAccessFeature.bytes_d_reuse_ct acc_fea);
      slog (BufferAccessFeature.unique_bytes_d_reuse_ct acc_fea);
      slog (BufferAccessFeature.lines_d_reuse_ct acc_fea);
      slog (BufferAccessFeature.unique_lines_d_reuse_ct acc_fea);
      slog (BufferAccessFeature.stride acc_fea)].

(** The values pushed by one iteration of the padding loop *)
Definition emit_padding : list cfloat :=
  repeat (FFin 0) (Z.to_nat (BufferAccessType_code kReadWrite + 1))
  ++ [FFin 0; FFin 0; FFin 0; FFin 0]
  ++ repeat (FFin 0) (Z.to_nat (ReuseType_code kNoReuse + 1))
  ++ [FFin 0; FFin 0; FFin 0; FFin 0; FFin 0; FFin 0; FFin 0; FFin 0].

(** The access feature part of the vector of one feature set.  [max_n_bufs] is
    not negative: a negative value makes [buf_order.resize] fail in the
    source. *)
Definition emit_access_feas (max_n_bufs : Z) (access_feas : list BufferAccessFeature.t)
  : list cfloat :=
  let buf_order := sorted_buf_order max_n_bufs access_feas in
  let n_bufs := Z.min max_n_bufs (Z.of_nat (length access_feas)) in
  flat_map (fun idx =>
              match access_feas !! idx with
              | Some acc_fea => emit_access acc_fea
              | None => []
              end) buf_order
  ++ flat_map (fun _ => emit_padding) (seq 0 (Z.to_nat (max_n_bufs - n_bufs))).

Definition emit_compute (f : FeatureSet.t) : list cfloat :=
  [slog (FeatureSet.float_mad f); slog (FeatureSet.float_addsub f);
   slog (FeatureSet.float_mul f); slog (FeatureSet.float_divmod f);
   slog (FeatureSet.float_cmp f); slog (FeatureSet.float_math_func f);
   slog (FeatureSet.float_other_func f);
   slog (FeatureSet.int_mad f); slog (FeatureSet.int_addsub f);
   slog (FeatureSet.int_mul f); slog (FeatureSet.int_divmod f);
   slog (FeatureSet.int_cmp f); slog (FeatureSet.int_math_func f);
   slog (FeatureSet.int_other_func f);
   slog (FeatureSet.bool_op f); slog (FeatureSet.select_op f)]
  ++ [slog (FeatureSet.vec_num f); slog (FeatureSet.vec_prod f);
      slog (FeatureSet.vec_len f)]
  ++ one_hot (AnnotationPosType_code kPosMixed)
             (AnnotationPosType_code (FeatureSet.vec_type f))
  ++ [slog (FeatureSet.unroll_num f); slog (FeatureSet.unroll_prod f);
      slog (FeatureSet.unroll_len f)]
  ++ one_hot (AnnotationPosType_code kPosMixed)
             (AnnotationPosType_code (FeatureSet.unroll_type f))
  ++ [slog (FeatureSet.parallel_num f); slog (FeatureSet.parallel_prod f);
      slog (FeatureSet.parallel_len f)]
  ++ one_hot (AnnotationPosType_code kPosMixed)
             (AnnotationPosType_code (FeatureSet.parallel_type f))
  ++ [FeatureSet.is_gpu f;
      slog (FeatureSet.blockIdx_x_len f); slog (FeatureSet.blockIdx_y_len f);
      slog (FeatureSet.blockIdx_z_len f);
      slog (FeatureSet.threadIdx_x_len f); slog (FeatureSet.threadIdx_y_len f);
      slog (FeatureSet.threadIdx_z_len f);
      slog (FeatureSet.vthread_len f)]
  ++ map (fun i => nth i (FeatureSet.arith_intensity_curve f) FNaN)
         (seq 0 ARITH_INTENSITY_CURVE_SAMPLE_N).

Definition emit_alloc_overall (f : FeatureSet.t) : list cfloat :=
  [slog (FeatureSet.alloc_size f); slog (FeatureSet.alloc_prod f);
   slog (FeatureSet.alloc_outer_prod f); slog (FeatureSet.alloc_inner_prod f)]
  ++ [slog (FeatureSet.outer_prod f); slog (FeatureSet.num_loops f);
      slog (FeatureSet.auto_unroll_max_step f)].

(** The body of the loop of GetPerStoreFeature over [buffer_features]: the
    values pushed for one feature set. *)
Definition emit_feature_set (max_n_bufs : Z) (fea_set : FeatureSet.t) : list cfloat :=
  emit_compute fea_set
  ++ emit_access_feas max_n_bufs (FeatureSet.access_feas fea_set)
  ++ emit_alloc_overall fea_set.

(** The vector GetPerStoreFeature appends to [ret] from the extractor it has
    run. *)
Definition emit_features (max_n_bufs : Z) (buffer_features : BufferMap FeatureSet.t)
  : list cfloat :=
  of_int (Z.of_nat (size buffer_features))
  :: flat_map (fun x => emit_feature_set max_n_bufs (snd (snd x)))
       (map_to_list buffer_features).

(** GetPerStoreFeature; [None] when the extractor aborts.  [is_gpu0] is the
    value the uninitialised member [is_gpu] happens to hold. *)
Definition GetPerStoreFeature (A : AnalyzerOps) (is_gpu0 : bool) (stmt : Stmt)
    (cache_line_size max_n_bufs : Z) : option (list cfloat) :=
  extractor ← PerStoreFeatureExtractor.VisitStmt A cache_line_size stmt
                (PerStoreFeatureExtractor.init is_gpu0);
  Some (emit_features max_n_bufs (PerStoreFeatureExtractor.buffer_features extractor)).

Definition pos_names (prefix : string) : list string :=
  map (fun s => prefix +:+ s)
    ["kPosNone"; "kPosInnerSpatial"; "kPosMiddleSpatial"; "kPosOuterSpatial";
     "kPosInnerReduce"; "kPosMiddleReduce"; "kPosOuterReduce"; "kPosMixed"].

(** The names pushed by one iteration of the loop over [max_n_bufs] *)
Definition access_names (i : nat) : list string :=
  let prefix := "B" +:+ pretty i +:+ "." in
  map (fun s => prefix +:+ s)
    ["acc_type.kRead"; "acc_type.kWrite"; "acc_type.kReadWrite";
     "bytes"; "unique_bytes"; "lines"; "unique_lines";
     "reuse_type.kLoopMultipleRead"; "reuse_type.kSerialMultipleReadWrite";
     "reuse_type.kNoReuse";
     "reuse_dis_iter"; "reuse_dis_bytes"; "reuse_ct";
     "bytes_d_reuse_ct"; "unique_bytes_d_reuse_ct"; "lines_d_reuse_ct";
     "unique_lines_d_reuse_ct"; "stride"].

(** GetPerStoreFeatureName, for a [max_n_bufs] that is not negative *)
Definition GetPerStoreFeatureName (max_n_bufs : Z) : list string :=
  ["float_mad"; "float_addsub"; "float_mul"; "float_divmod"; "float_cmp";
   "float_mathfunc"; "float_otherfunc";
   "int_mad"; "int_addsub"; "int_mul"; "int_divmod"; "int_cmp";
   "int_mathfunc"; "int_otherfunc"; "bool_op"; "select_op"]
  ++ ["vec_num"; "vec_prod"; "vec_len"] ++ pos_names "vec_type."
  ++ ["unroll_num"; "unroll_prod"; "unroll_len"] ++ pos_names "unroll_type."
  ++ ["parallel_num"; "parallel_prod"; "parallel_len"] ++ pos_names "parallel_type."
  ++ ["is_gpu"; "blockIdx_x_len"; "blockIdx_y_len"; "blockIdx_z_len";
      "threadIdx_x_len"; "threadIdx_y_len"; "threadIdx_z_len"; "vthread_len"]
  ++ map (fun i => "arith_intensity_curve_" +:+ pretty i)
         (seq 0 ARITH_INTENSITY_CURVE_SAMPLE_N)
  ++ flat_map access_names (seq 0 (Z.to_nat max_n_bufs))
  ++ ["alloc_size"; "alloc_prod"; "alloc_outer_prod"; "alloc_inner_prod"]
  ++ ["outer_prod"; "num_loops"; "auto_unroll_max_step"].

(** ** Definitions used to state the properties *)

(** Modelled from the spec: a bound analyzer that provides
    [bind(var, [min, min + extent))] and [const_int_bound(expr) -> (min, max)],
    with the sentinels when the bound is unknown.  arith::Analyzer is not part
    of this file; this small instance knows integer constants and bound
    variables only and serves to run the extractor on concrete statements. *)
Definition interval_of_range (r : Range) : Z * Z :=
  match range_min r, range_extent r with
  | IntImm _ lo, IntImm _ ext => (lo, lo + ext - 1)
  | _, _ => (kNegInf, kPosInf)
  end.

Definition interval_bound (binds : list (Var * Range)) (e : PrimExpr) : Z * Z :=
  match e with
  | IntImm _ c => (c, c)
  | VarE v =>
      match find (fun b => var_same (fst b) v) binds with
      | Some b => interval_of_range (snd b)
      | None => (kNegInf, kPosInf)
      end
  | _ => (kNegInf, kPosInf)
  end.

Definition interval_analyzer : AnalyzerOps :=
  mkAnalyzerOps (list (Var * Range)) [] (fun v r a => (v, r) :: a) interval_bound.

(** *** Access kinds (section 4.2 of the specification) *)

Inductive AccessEvent : Type := ev_load | ev_store.

(** The transition table of the specification, row by row. *)
Definition kind_transition (prior : BufferAccessType) (ev : AccessEvent)
  : BufferAccessType :=
  match prior, ev with
  | kUnknownRW, ev_load => kRead
  | kUnknownRW, ev_store => kWrite
  | kRead, ev_load => kRead
  | kRead, ev_store => kReadWrite
  | kWrite, ev_load => kReadWrite
  | kWrite, ev_store => kWrite
  | kReadWrite, _ => kReadWrite
  end.

(** The buffers loaded by an expression, in the order the visitor meets the
    BufferLoad nodes. *)
Fixpoint loaded_buffers (e : PrimExpr) : list Buffer :=
  match e with
  | VarE _ | IntImm _ _ | FloatImm _ _ => []
  | Cast _ v => loaded_buffers v
  | Bin _ a b => loaded_buffers a ++ loaded_buffers b
  | Not a => loaded_buffers a
  | Select c t f => loaded_buffers c ++ loaded_buffers t ++ loaded_buffers f
  | BufferLoad buf idx => buf :: flat_map loaded_buffers idx
  | Call _ _ args => flat_map loaded_buffers args
  end.

(** The events of one store statement that concern the buffer [b]: the store
    itself, then the loads of its value. *)
Definition load_events (b : N) (e : PrimExpr) : list AccessEvent :=
  map (fun _ => ev_load)
      (List.filter (fun buf => N.eqb (buffer_id buf) b) (loaded_buffers e)).

Definition store_events (b : N) (buffer : Buffer) (value : PrimExpr)
  : list AccessEvent :=
  (if N.eqb (buffer_id buffer) b then [ev_store] else []) ++ load_events b value.

Definition kind_of (m : BufferMap BufferAccess.t) (b : N) : BufferAccessType :=
  match m !! b with
  | Some x => BufferAccess.acc_type (snd x)
  | None => kUnknownRW
  end.

Definition indices_of (m : BufferMap BufferAccess.t) (b : N) : list (list PrimExpr) :=
  match m !! b with
  | Some x => BufferAccess.indices (snd x)
  | None => []
  end.

(** *** Coefficients *)

Definition is_IntImm (e : PrimExpr) : bool :=
  match e with IntImm _ _ => true | _ => false end.

(** No multiplication with an integer constant as an operand occurs in [e]. *)
Fixpoint no_const_mul (e : PrimExpr) : bool :=
  match e with
  | VarE _ | IntImm _ _ | FloatImm _ _ => true
  | Cast _ v => no_const_mul v
  | Bin op a b =>
      match op with
      | Mul => negb (is_IntImm a) && negb (is_IntImm b)
      | _ => true
      end && no_const_mul a && no_const_mul b
  | Not a => no_const_mul a
  | Select c t f => no_const_mul c && no_const_mul t && no_const_mul f
  | BufferLoad _ idx => forallb no_const_mul idx
  | Call _ _ args => forallb no_const_mul args
  end.

(** *** Strides and cache lines (step 8 of section 4.7) *)

(** The loops skipped by the search for a nonzero stride, walking
    [rstack] from the innermost loop outward. *)
Fixpoint skipped_loops (indices : list (list PrimExpr)) (int_shape : list Z)
    (rstack : list ForNode) : list ForNode :=
  match rstack with
  | [] => []
  | p_for :: rest =>
      match ComputeStride indices int_shape (loop_var p_for) with
      | Some 0 => p_for :: skipped_loops indices int_shape rest
      | _ => []
      end
  end.

(** The product of the extents of the skipped loops. *)
Definition skipped_extent_product (indices : list (list PrimExpr))
    (int_shape : list Z) (for_loop_stack : list ForNode) : Z :=
  fold_left (fun p f => p * GetLoopExtent f)
    (skipped_loops indices int_shape (rev for_loop_stack)) 1.

(** *** The order of the access features *)

(** [a] comes strictly before [b]: more lines, or as many lines and more bytes. *)
Definition key_before (a b : BufferAccessFeature.t) : bool :=
  fgt (BufferAccessFeature.lines a) (BufferAccessFeature.lines b)
  || (feq (BufferAccessFeature.lines a) (BufferAccessFeature.lines b)
      && fgt (BufferAccessFeature.bytes a) (BufferAccessFeature.bytes b)).

Definition key_not_nan (a : BufferAccessFeature.t) : Prop :=
  is_nan (BufferAccessFeature.lines a) = false
  /\ is_nan (BufferAccessFeature.bytes a) = false.

(** *** The walk *)

(** The number of BufferStore statements of a statement. *)
Fixpoint count_stores (s : Stmt) : nat :=
  match s with
  | For _ _ _ _ body | AttrStmt _ _ _ body | BufferRealize _ _ _ body
  | LetStmt _ _ body => count_stores body
  | BufferStore _ _ _ => 1
  | SeqStmt seq => fold_right (fun st n => count_stores st + n)%nat 0%nat seq
  | IfThenElse _ t e =>
      (count_stores t + match e with Some e => count_stores e | None => 0 end)%nat
  | Evaluate _ => 0
  end.

(** The buffers a statement stores to or realizes. *)
Fixpoint featured_buffers (s : Stmt) : gset N :=
  match s with
  | For _ _ _ _ body | AttrStmt _ _ _ body | LetStmt _ _ body => featured_buffers body
  | BufferStore buffer _ _ => {[ buffer_id buffer ]}
  | BufferRealize buffer _ _ body => featured_buffers body ∪ {[ buffer_id buffer ]}
  | SeqStmt seq => fold_right (fun st acc => featured_buffers st ∪ acc) ∅ seq
  | IfThenElse _ t e =>
      featured_buffers t ∪ match e with Some e => featured_buffers e | None => ∅ end
  | Evaluate _ => ∅
  end.

(** Every frame the walk of [s] pushes has an extent other than zero. *)
Fixpoint nonzero_extents (s : Stmt) : bool :=
  match s with
  | For v mn ex ft body =>
      negb (GetLoopExtent (mkForNode 1 v mn ex ft) =? 0) && nonzero_extents body
  | AttrStmt _ attr_key value body =>
      (if PerStoreFeatureExtractor.attr_pushes_frame attr_key
       then match GetIntImm value with
            | Some e => negb (to_int32 e =? 0)
            | None => true
            end
       else true) && nonzero_extents body
  | BufferStore _ _ _ | Evaluate _ => true
  | BufferRealize _ _ _ body | LetStmt _ _ body => nonzero_extents body
  | SeqStmt seq => forallb nonzero_extents seq
  | IfThenElse _ t e =>
      nonzero_extents t && match e with Some e => nonzero_extents e | None => true end
  end.

(** The product of the integer extents of the frames of a loop stack. *)
Definition extent_product (stack : list ForNode) : Z :=
  fold_left (fun p f => p * GetLoopExtent f) stack 1.

(** [outer_loop_prod] is the product of the extents of the pushed frames. *)
Definition prod_invariant (s : PerStoreFeatureExtractor.t) : Prop :=
  PerStoreFeatureExtractor.outer_loop_prod s
  = of_int (extent_product (PerStoreFeatureExtractor.for_loop_stack s)).

(** *** The emitted order *)

(** The access features in the order of the sorted [buf_order] *)
Definition sorted_access_feas (access_feas : list BufferAccessFeature.t)
  : list BufferAccessFeature.t :=
  omap (fun i => access_feas !! i)
    (std_sort (buf_order_cmp (buf_order_keys access_feas))
       (seq 0 (length (buf_order_keys access_feas)))).


(** *** Region tables *)

(** Every entry of the region table counts a number of elements and a number
    of bytes per element that are not negative, and their product fits
    [int64_t]. *)
Definition entry_wf (e : RegionEntry) : Prop :=
  0 <= snd (fst e) /\ 0 <= snd e <= INT32_MAX /\ snd (fst e) * snd e <= INT64_MAX.

Definition regions_wf (regions : RegionTable) : Prop :=
  forall p table b x,
    regions !! p = Some table -> table !! b = Some x ->
    List.Forall entry_wf (snd x).


(** The part of the extractor that the frames of the loop stack concern *)
Definition frame (s : PerStoreFeatureExtractor.t) : list ForNode * cfloat :=
  (PerStoreFeatureExtractor.for_loop_stack s, PerStoreFeatureExtractor.outer_loop_prod s).


(** ** GetAnnotationPosEncoding *)

(** The field of an [IterVar] the function reads. *)
Record IterVar : Type := mkIterVar { iter_var : Var }.

(** [s.find(sub) != std::string::npos] *)
Definition string_contains (s sub : string) : bool :=
  match String.index 0 sub s with Some _ => true | None => false end.

(** [for (i = 0; i < l.size(); ++i) if (matches(l[i])) { find_i = i; find_ct += 1; }]
    on the pair [(find_i, find_ct)] of [size_t] counters *)
Definition scan_matches {X : Type} (matches : X -> bool) (l : list X) (st : Z * Z)
  : Z * Z :=
  fold_left
    (fun st x =>
       if matches (snd x) then (Z.of_nat (fst x), snd st + 1) else st)
    (combine (seq 0 (length l)) l) st.

Definition GetAnnotationPosEncoding (var : Var) (spatial_args : list PrimExpr)
    (axis reduce_axis : list IterVar) : AnnotationPosType :=
  let '(find_i, find_ct) := scan_matches (VarInExpr var) spatial_args (0, 0) in
  if find_ct =? 0 then
    let var_name := name_hint var in
    let '(find_i, find_ct) :=
      scan_matches (fun iv => string_contains var_name (name_hint (iter_var iv)))
        reduce_axis (find_i, find_ct) in
    if 1 <=? find_ct then
      if find_i =? 0 then kPosInnerReduce
      else if find_i =? to_uint64 (Z.of_nat (length reduce_axis) - 1)
           then kPosOuterReduce
           else kPosMiddleReduce
    else kPosOuterSpatial
  else if find_ct =? 1 then
    if find_i =? to_uint64 (Z.of_nat (length spatial_args) - 1) then kPosInnerSpatial
    else if find_i =? 0 then kPosOuterSpatial
    else kPosMiddleSpatial
  else kPosMixed.

(** ** The drivers: features of states, of measure pairs and of a record file

    The lowering of a state to a statement (GetPerStoreFeaturesWorkerFunc) runs
    the schedule and the TIR passes, which are not part of this file: the
    worker is a parameter, as are the types of tasks, states and cost arrays,
    FloatArrayMean of utils.h and the rebuild of a task from its workload key.
    The record file is the list of the pairs that [ReadNext] yields. *)

Module Drivers.
Section Drivers.

Variables SearchTask State Costs : Type.

(** [static_cast<float>(FloatArrayMean(costs))] *)
Variable FloatArrayMean : Costs -> cfloat.

(** The fields of a [MeasureInput] the drivers read: [task->workload_key],
    [task->target->str()], [task->compute_dag.defined()], [task] and [state]. *)
Record MeasureInput : Type := mkMeasureInput {
  workload_key : string;
  target_str : string;
  compute_dag_defined : bool;
  task : SearchTask;
  state : State
}.

Record MeasureResult : Type := mkMeasureResult { costs : Costs }.

(** [SearchTask(ComputeDAG(workload_key_to_tensors(workload_key)), workload_key,
    target, target_host, hardware_params)] *)
Variable rebuild_task : MeasureInput -> SearchTask.

(** GetPerStoreFeaturesWorkerFunc(task, state, max_n_bufs, feature, error_ct):
    from the vector [feature] points to, the vector the call leaves there and
    whether it incremented [error_ct]. *)
Variable GetPerStoreFeaturesWorkerFunc :
  SearchTask -> State -> Z -> list cfloat -> list cfloat * bool.

(** The loop of the two overloads of GetPerStoreFeaturesFromStates:
    [task_at i] is [task] for the first one and [tasks[i]] for the second one,
    [None] being a read past the end of [tasks].  The result is [features] and
    [error_ct]. *)
Definition features_from_states (task_at : nat -> option SearchTask)
    (states : list State) (skip_first_n_feature_extraction max_n_bufs : Z)
  : option (list (list cfloat) * Z) :=
  let features := repeat [] (length states) in
  let first := Z.to_nat (to_uint64 skip_first_n_feature_extraction) in
  foldl (fun acc i =>
           '(features, error_ct) ← acc;
           task ← task_at i;
           state ← states !! i;
           feature ← features !! i;
           let '(feature, failed) :=
             GetPerStoreFeaturesWorkerFunc task state max_n_bufs feature in
           Some (<[i := feature]> features,
                 if failed then to_int32 (error_ct + 1) else error_ct))
        (Some (features, 0))
        (seq first (length states - first)).

Definition GetPerStoreFeaturesFromStates (states : list State) (task : SearchTask)
    (skip_first_n_feature_extraction max_n_bufs : Z)
  : option (list (list cfloat) * Z) :=
  features_from_states (fun _ => Some task) states
    skip_first_n_feature_extraction max_n_bufs.

Definition GetPerStoreFeaturesFromStates_tasks (states : list State)
    (tasks : list SearchTask) (skip_first_n_feature_extraction max_n_bufs : Z)
  : option (list (list cfloat) * Z) :=
  features_from_states (fun i => tasks !! i) states
    skip_first_n_feature_extraction max_n_bufs.

(** The vectors the loops over the measure pairs fill *)
Record MeasureState : Type := mkMeasureState {
  task_cache : gmap (string * string) (SearchTask * Z);
  min_costs : list cfloat;
  tasks : list SearchTask;
  task_ids : list Z;
  states : list State;
  normalized_throughputs : list cfloat
}.

Definition measure_init : MeasureState := mkMeasureState ∅ [] [] [] [] [].

(** The body of the loops over the measure pairs.  [new_task] builds the task
    of a key that is not in the cache.  [None] is a write past the end of
    [min_costs]. *)
Definition measure_step (new_task : MeasureInput -> SearchTask)
    (inp : MeasureInput) (res : MeasureResult) (st : MeasureState)
  : option MeasureState :=
  let cost := FloatArrayMean (costs res) in
  let key := (workload_key inp, target_str inp) in
  '(new_or_cached, min_costs') ←
    match task_cache st !! key with
    | None =>
        let task := new_task inp in
        let task_id := Z.of_nat (size (task_cache st)) in
        Some (task, task_id, <[key := (task, task_id)]> (task_cache st),
              min_costs st ++ [cost])
    | Some (task, task_id) =>
        m ← min_costs st !! Z.to_nat task_id;
        Some (task, task_id, task_cache st,
              <[Z.to_nat task_id := fmin m cost]> (min_costs st))
    end;
  let '(task', task_id, task_cache') := new_or_cached in
  Some (mkMeasureState task_cache' min_costs'
          (tasks st ++ [task'])
          (task_ids st ++ [to_int32 task_id])
          (states st ++ [state inp])
          (normalized_throughputs st ++ [cost])).

(** [normalized_throughputs[i] = min_costs[task_ids[i]] / normalized_throughputs[i]]
    for every [i]; [None] is a read past the end of a vector. *)
Definition normalize_throughputs (min_costs : list cfloat) (task_ids : list Z)
    (normalized_throughputs : list cfloat) : option (list cfloat) :=
  mapM (fun x =>
          task_id ← task_ids !! fst x;
          m ← min_costs !! Z.to_nat (to_uint64 task_id);
          Some (fdiv m (snd x)))
       (combine (seq 0 (length normalized_throughputs)) normalized_throughputs).

(** The task of a new key in GetPerStoreFeaturesFromMeasurePairs *)
Definition pair_task (inp : MeasureInput) : SearchTask :=
  if compute_dag_defined inp then task inp else rebuild_task inp.

(** The loop of GetPerStoreFeaturesFromMeasurePairs over [inputs]; [None] is
    also the IndexError of [results[i]]. *)
Definition measure_pairs_loop (inputs : list MeasureInput)
    (results : list MeasureResult) : option MeasureState :=
  foldl (fun acc x =>
           st ← acc;
           res ← results !! fst x;
           measure_step pair_task (snd x) res st)
        (Some measure_init)
        (combine (seq 0 (length inputs)) inputs).

(** The result is [(features, normalized_throughputs, task_ids)] and the
    error count. *)
Definition GetPerStoreFeaturesFromMeasurePairs (inputs : list MeasureInput)
    (results : list MeasureResult) (skip_first_n_feature_extraction max_n_bufs : Z)
  : option (list (list cfloat) * list cfloat * list Z * Z) :=
  st ← measure_pairs_loop inputs results;
  normalized ← normalize_throughputs (min_costs st) (task_ids st)
                  (normalized_throughputs st);
  '(features, error_ct) ←
    GetPerStoreFeaturesFromStates_tasks (states st) (tasks st)
      skip_first_n_feature_extraction max_n_bufs;
  Some (features, normalized, task_ids st, error_ct).

(** The reading loop of GetPerStoreFeaturesFromFile over the pairs of the
    file, with its [break] once [max_lines] states are read. *)
Fixpoint read_records (max_lines : Z) (records : list (MeasureInput * MeasureResult))
    (st : MeasureState) : option MeasureState :=
  match records with
  | [] => Some st
  | (cur_inp, cur_res) :: rest =>
      st ← measure_step rebuild_task cur_inp cur_res st;
      if (0 <? max_lines) && (max_lines <=? to_int32 (Z.of_nat (length (states st))))
      then Some st
      else read_records max_lines rest st
  end.

Definition GetPerStoreFeaturesFromFile (records : list (MeasureInput * MeasureResult))
    (max_lines max_n_bufs : Z)
  : option (list (list cfloat) * list cfloat * list Z * Z) :=
  st ← read_records max_lines records measure_init;
  normalized ← normalize_throughputs (min_costs st) (task_ids st)
                  (normalized_throughputs st);
  '(features, error_ct) ←
    GetPerStoreFeaturesFromStates_tasks (states st) (tasks st) 0 max_n_bufs;
  Some (features, normalized, task_ids st, error_ct).

End Drivers.
End Drivers.

(** ** SerializeFeatures

    The byte array is modelled in units of 4 bytes, the size of both [int] and
    [float]: a word records the value that was copied into it. *)

Inductive Word : Type :=
| WInt (z : Z)
| WFloat (x : cfloat).

(** The result is the content of the array and [total_bytes]; [None] is a
    failing CHECK_EQ. *)
Definition SerializeFeatures (features : list (list cfloat))
    (normalized_throughputs : list cfloat) (task_ids : list Z)
  : option (list Word * Z) :=
  let n := to_int32 (Z.of_nat (length features)) in
  let size_vector_size := to_uint64 (1 + n + 2) in
  let total_bytes := to_uint64 (size_vector_size * 4) in
  let size_vector := [to_int32 (Z.of_nat (length features))] in
  let '(size_vector, total_bytes) :=
    fold_left
      (fun acc x =>
         (fst acc ++ [to_int32 (Z.of_nat (length x))],
          to_uint64 (snd acc + 4 * Z.of_nat (length x))))
      features (size_vector, total_bytes) in
  let size_vector :=
    size_vector ++ [to_int32 (Z.of_nat (length normalized_throughputs))] in
  let total_bytes := to_uint64 (total_bytes + 4 * Z.of_nat (length normalized_throughputs)) in
  let size_vector := size_vector ++ [to_int32 (Z.of_nat (length task_ids))] in
  let total_bytes := to_uint64 (total_bytes + 4 * Z.of_nat (length task_ids)) in
  if negb (Z.of_nat (length size_vector) =? size_vector_size) then None
  else
    let data :=
      (WInt <$> size_vector)
      ++ flat_map (fun x => WFloat <$> x) features
      ++ (WFloat <$> normalized_throughputs)
      ++ (WInt <$> task_ids) in
    let written :=
      Z.of_nat (length size_vector) * 4
      + fold_left (fun p x => p + 4 * Z.of_nat (length x)) features 0
      + Z.of_nat (length normalized_throughputs) * 4
      + Z.of_nat (length task_ids) * 4 in
    if negb (written =? total_bytes) then None
    else Some (data, total_bytes).

(** ** More definitions used to state the properties *)

(** The number of 4-byte words of the array SerializeFeatures fills *)
Definition serialized_words (features : list (list cfloat))
    (normalized_throughputs : list cfloat) (task_ids : list Z) : nat :=
  (3 + length features + length (concat features)
   + length normalized_throughputs + length task_ids)%nat.

(** Every size SerializeFeatures casts to [int] is one an [int] holds. *)
Definition sizes_fit (features : list (list cfloat))
    (normalized_throughputs : list cfloat) (task_ids : list Z) : Prop :=
  Z.of_nat (length features) + 3 <= INT32_MAX
  /\ Forall (fun x => Z.of_nat (length x) <= INT32_MAX) features
  /\ Z.of_nat (length normalized_throughputs) <= INT32_MAX
  /\ Z.of_nat (length task_ids) <= INT32_MAX.

(** The nodes of an expression the math-op counter has a visitor for. *)
Fixpoint op_nodes (e : PrimExpr) : Z :=
  match e with
  | VarE _ | IntImm _ _ | FloatImm _ _ => 0
  | Cast _ v => op_nodes v
  | Bin _ a b => 1 + op_nodes a + op_nodes b
  | Not a => 1 + op_nodes a
  | Select c t f => 1 + op_nodes c + op_nodes t + op_nodes f
  | BufferLoad _ idx => fold_right (fun x n => op_nodes x + n) 0 idx
  | Call _ _ args => 1 + fold_right (fun x n => op_nodes x + n) 0 args
  end.

(** The sixteen counters, in the order of their declaration. *)
Definition counters (c : MathOpCounter.t) : list Z :=
  [MathOpCounter.float_mad c; MathOpCounter.float_addsub c; MathOpCounter.float_mul c;
   MathOpCounter.float_divmod c; MathOpCounter.float_cmp c;
   MathOpCounter.float_math_func c; MathOpCounter.float_other_func c;
   MathOpCounter.int_mad c; MathOpCounter.int_addsub c; MathOpCounter.int_mul c;
   MathOpCounter.int_divmod c; MathOpCounter.int_cmp c;
   MathOpCounter.int_math_func c; MathOpCounter.int_other_func c;
   MathOpCounter.bool_op c; MathOpCounter.select_op c].

Definition counter_total (c : MathOpCounter.t) : Z := fold_right Z.add 0 (counters c).

(** The sixteen compute features of a feature set, in the same order. *)
Definition compute_features (f : FeatureSet.t) : list cfloat :=
  [FeatureSet.float_mad f; FeatureSet.float_addsub f; FeatureSet.float_mul f;
   FeatureSet.float_divmod f; FeatureSet.float_cmp f;
   FeatureSet.float_math_func f; FeatureSet.float_other_func f;
   FeatureSet.int_mad f; FeatureSet.int_addsub f; FeatureSet.int_mul f;
   FeatureSet.int_divmod f; FeatureSet.int_cmp f;
   FeatureSet.int_math_func f; FeatureSet.int_other_func f;
   FeatureSet.bool_op f; FeatureSet.select_op f].

(** The four allocation features of a feature set. *)
Definition alloc_features (f : FeatureSet.t) : list cfloat :=
  [FeatureSet.alloc_size f; FeatureSet.alloc_outer_prod f;
   FeatureSet.alloc_inner_prod f; FeatureSet.alloc_prod f].

(** The statement holds a thread_extent or virtual_thread scope. *)
Fixpoint has_thread_scope (s : Stmt) : bool :=
  match s with
  | AttrStmt _ attr_key _ body =>
      PerStoreFeatureExtractor.attr_pushes_frame attr_key || has_thread_scope body
  | For _ _ _ _ body | BufferRealize _ _ _ body | LetStmt _ _ body =>
      has_thread_scope body
  | SeqStmt seq => existsb has_thread_scope seq
  | IfThenElse _ t e =>
      has_thread_scope t || match e with Some e => has_thread_scope e | None => false end
  | BufferStore _ _ _ | Evaluate _ => false
  end.

(** The members of the extractor that the scopes of the walk save and
    restore, [outer_loop_prod] and the loop stack apart. *)
Definition scoped_members (s : PerStoreFeatureExtractor.t)
  : list (list ForNode) * list Z :=
  ([PerStoreFeatureExtractor.vec_for_stack s;
    PerStoreFeatureExtractor.unroll_for_stack s;
    PerStoreFeatureExtractor.parallel_for_stack s],
   [PerStoreFeatureExtractor.blockIdx_x_len s; PerStoreFeatureExtractor.blockIdx_y_len s;
    PerStoreFeatureExtractor.blockIdx_z_len s;
    PerStoreFeatureExtractor.threadIdx_x_len s; PerStoreFeatureExtractor.threadIdx_y_len s;
    PerStoreFeatureExtractor.threadIdx_z_len s;
    PerStoreFeatureExtractor.vthread_len s;
    PerStoreFeatureExtractor.cur_auto_unroll_max_step s]).

(** The buffers a store accesses: its destination and the buffers its value
    loads. *)
Definition accessed_buffers (buffer : Buffer) (value : PrimExpr) : gset N :=
  {[ buffer_id buffer ]} ∪ list_to_set (buffer_id <$> loaded_buffers value).

(** The product of the dimensions of a shape after the first [k + 1]. *)
Definition inner_shape_product (shape : list Z) (k : nat) : Z :=
  fold_right Z.mul 1 (drop (S k) shape).

(** The members of a list that satisfy [matches], counted. *)
Definition count_matching {X : Type} (matches : X -> bool) (l : list X) : nat :=
  length (List.filter matches l).

(** The dimensions of an index tuple with their positions, the first one at
    position [a]. *)
Definition dims_from (a : nat) (l : list PrimExpr) : list (nat * PrimExpr) :=
  combine (seq a (length l)) l.

(** Every entry of the access map is filed under the identity of its buffer,
    has a kind and holds at least one index tuple. *)
Definition accesses_wf (m : BufferMap BufferAccess.t) : Prop :=
  forall b key acc,
    m !! b = Some (key, acc) ->
    buffer_id key = b
    /\ BufferAccess.acc_type acc <> kUnknownRW
    /\ BufferAccess.indices acc <> [].

(** The buffers a statement realizes. *)
Fixpoint realized_buffers (s : Stmt) : gset N :=
  match s with
  | For _ _ _ _ body | AttrStmt _ _ _ body | LetStmt _ _ body => realized_buffers body
  | BufferStore _ _ _ | Evaluate _ => ∅
  | BufferRealize buffer _ _ body => realized_buffers body ∪ {[ buffer_id buffer ]}
  | SeqStmt seq => fold_right (fun st acc => realized_buffers st ∪ acc) ∅ seq
  | IfThenElse _ t e =>
      realized_buffers t ∪ match e with Some e => realized_buffers e | None => ∅ end
  end.

(** The allocation features [buffer_features] holds for the buffer [b], those
    of a value-initialised feature set when it has no entry. *)
Definition alloc_of (m : BufferMap FeatureSet.t) (b : N) : list cfloat :=
  alloc_features (match m !! b with Some x => snd x | None => FeatureSet.default end).

(** [slog] on a finite value, as a real function *)
Definition slogR (r : R) : R :=
  if Rltb r 0 then (- log2R (- r + 1))%R else log2R (r + 1).

(** The characters of a decimal numeral *)
Definition is_digit (c : Ascii.ascii) : bool :=
  let n := Ascii.nat_of_ascii c in (48 <=? n)%nat && (n <=? 57)%nat.

Fixpoint digits_only (s : string) : bool :=
  match s with
  | EmptyString => true
  | String c s' => is_digit c && digits_only s'
  end.

(** The name starts with the letter B (code 66), the prefix of a buffer slot. *)
Definition starts_with_B (s : string) : bool :=
  match s with
  | String c _ => (Ascii.nat_of_ascii c =? 66)%nat
  | EmptyString => false
  end.

(** The position of the last member of a list that satisfies [matches], the
    first member being at position [a]; [found] when there is none. *)
Fixpoint last_match_from {X : Type} (matches : X -> bool) (a : nat) (l : list X)
    (found : option nat) : option nat :=
  match l with
  | [] => found
  | x :: r => last_match_from matches (S a) r (if matches x then Some a else found)
  end.

Definition last_match {X : Type} (matches : X -> bool) (l : list X) : option nat :=
  last_match_from matches 0 l None.

(** [var_name.find(name of the axis) != npos] *)
Definition axis_name_in (var : Var) (iv : IterVar) : bool :=
  string_contains (name_hint var) (name_hint (iter_var iv)).

(** *** The drivers *)

Module DriverProps.
Section DriverProps.
Import Drivers.

Context {SearchTask State Costs : Type}.
Variable FloatArrayMean : Costs -> cfloat.
Variable GetPerStoreFeaturesWorkerFunc :
  SearchTask -> State -> Z -> list cfloat -> list cfloat * bool.

(** The feature vectors expected of a list of states: an empty vector for
    each of the first [first] states, and for each other state what the worker
    leaves in an empty vector. *)
Definition expected_features (task_at : nat -> option SearchTask)
    (states : list State) (first : nat) (max_n_bufs : Z) : list (list cfloat) :=
  imap (fun i state =>
          if (i <? first)%nat then []
          else match task_at i with
               | Some task => fst (GetPerStoreFeaturesWorkerFunc task state max_n_bufs [])
               | None => []
               end) states.

(** The feature vectors once the states before [i] are done *)
Definition features_upto (task_at : nat -> option SearchTask) (states : list State)
    (first i : nat) (max_n_bufs : Z) : list (list cfloat) :=
  imap (fun j state =>
          if (first <=? j)%nat && (j <? i)%nat
          then match task_at j with
               | Some task => fst (GetPerStoreFeaturesWorkerFunc task state max_n_bufs [])
               | None => []
               end
          else []) states.

(** The key of the task cache *)
Definition cache_key (inp : MeasureInput SearchTask State) : string * string :=
  (workload_key _ _ inp, target_str _ _ inp).

(** The least of the costs of the pairs filed under [key], folded with
    [std::min] in the order of the pairs; [None] when there is no such pair. *)
Definition task_min_cost (key : string * string)
    (pairs : list (MeasureInput SearchTask State * MeasureResult Costs))
  : option cfloat :=
  fold_left
    (fun m p =>
       if decide (cache_key (fst p) = key)
       then Some (match m with
                  | Some m => fmin m (FloatArrayMean (costs _ (snd p)))
                  | None => FloatArrayMean (costs _ (snd p))
                  end)
       else m)
    pairs None.

(** The cost of a pair is a positive finite number. *)
Definition cost_positive (p : MeasureInput SearchTask State * MeasureResult Costs)
  : Prop :=
  exists c, FloatArrayMean (costs _ (snd p)) = FFin c /\ (0 < c)%R.

End DriverProps.
End DriverProps.

Module MeasureProps.
Section MeasureProps.
Import Drivers DriverProps.

Context {SearchTask State Costs : Type}.
Variable FloatArrayMean : Costs -> cfloat.

(** The loops over the measure pairs, as a fold of their body over the pairs *)
Definition measure_fold (new_task : MeasureInput SearchTask State -> SearchTask)
    (pairs : list (MeasureInput SearchTask State * MeasureResult Costs))
    (st : MeasureState SearchTask State) : option (MeasureState SearchTask State) :=
  foldl (fun acc p => st ← acc; measure_step _ _ _ FloatArrayMean new_task (fst p) (snd p) st)
        (Some st) pairs.

(** What the vectors and the cache hold once the pairs [pairs] are done *)
Definition measure_inv
    (pairs : list (MeasureInput SearchTask State * MeasureResult Costs))
    (st : MeasureState SearchTask State) : Prop :=
  normalized_throughputs _ _ st = (fun p => FloatArrayMean (costs _ (snd p))) <$> pairs
  /\ states _ _ st = (fun p => state _ _ (fst p)) <$> pairs
  /\ length (tasks _ _ st) = length pairs
  /\ length (task_ids _ _ st) = length pairs
  /\ length (min_costs _ _ st) = size (task_cache _ _ st)
  /\ (size (task_cache _ _ st) <= length pairs)%nat
  /\ (forall key task id,
        task_cache _ _ st !! key = Some (task, id) ->
        0 <= id < Z.of_nat (size (task_cache _ _ st))
        /\ is_Some (task_min_cost FloatArrayMean key pairs)
        /\ min_costs _ _ st !! Z.to_nat id = task_min_cost FloatArrayMean key pairs)
  /\ (forall k1 k2 t1 t2 id,
        task_cache _ _ st !! k1 = Some (t1, id) ->
        task_cache _ _ st !! k2 = Some (t2, id) -> k1 = k2)
  /\ (forall j p,
        pairs !! j = Some p ->
        exists task id,
          task_cache _ _ st !! cache_key (fst p) = Some (task, id)
          /\ task_ids _ _ st !! j = Some (to_int32 id)
          /\ id <= Z.of_nat j).

End MeasureProps.
End MeasureProps.

(** ** Binary floating-point arithmetic

    The C++ [float] is the IEEE 754 binary32 format and [double] the binary64
    format, both rounding to the nearest value, ties to the value with an
    even mantissa.  A format is its precision [fmt_prec] (bits of mantissa),
    the exponent [fmt_emin] of its least positive value [2^fmt_emin], and the
    exponent [fmt_emax] of the least power of two that overflows.  The sign of
    zero is not modelled. *)

Record FloatFormat : Type := mkFloatFormat {
  fmt_prec : Z;
  fmt_emin : Z;
  fmt_emax : Z
}.

Definition binary32 : FloatFormat := mkFloatFormat 24 (-149) 128.
Definition binary64 : FloatFormat := mkFloatFormat 53 (-1074) 1024.

Definition bpow (e : Z) : R := powerRZ 2 e.

(** [floor(log2 |x|)], for [x] other than zero *)
Definition mag2 (x : R) : Z := Zfloor (log2R (Rabs x)).

(** The exponent of the unit in the last place of the values near [x] *)
Definition ulp_exponent (fmt : FloatFormat) (x : R) : Z :=
  Z.max (mag2 x - (fmt_prec fmt - 1)) (fmt_emin fmt).

(** The integer nearest to [x], the even one of the two when [x] is half way *)
Definition round_half_even (x : R) : Z :=
  let f := Zfloor x in
  if Rltb (x - IZR f) (1 / 2) then f
  else if Rltb (1 / 2) (x - IZR f) then f + 1
  else if Z.even f then f else f + 1.

(** The value of the format nearest to [x]; an infinity when that value, with
    the exponent unbounded, reaches [2^fmt_emax]. *)
Definition round_float (fmt : FloatFormat) (x : R) : cfloat :=
  let e := ulp_exponent fmt x in
  let r := (IZR (round_half_even (x / bpow e)) * bpow e)%R in
  if Rltb (Rabs r) (bpow (fmt_emax fmt)) then FFin r else FInf (Rltb x 0).

(** The result of an operation, rounded *)
Definition fround (fmt : FloatFormat) (x : cfloat) : cfloat :=
  match x with
  | FFin r => round_float fmt r
  | _ => x
  end.

(** The arithmetic of the extractor's [float] values: the conversion of an
    integer, the four operations, [x - 1e-4], which C++ computes in [double]
    because the literal is one, [std::log2] of a [float], and the store of the
    [double] that [std::log2] of an integer returns into a
    [std::vector<float>] ([fo_store_log2] takes the real logarithm). *)
Record FloatOps : Type := mkFloatOps {
  fo_of_int : Z -> cfloat;
  fo_add : cfloat -> cfloat -> cfloat;
  fo_sub : cfloat -> cfloat -> cfloat;
  fo_mul : cfloat -> cfloat -> cfloat;
  fo_div : cfloat -> cfloat -> cfloat;
  fo_sub_tolerance : cfloat -> cfloat;
  fo_log2 : cfloat -> cfloat;
  fo_store_log2 : cfloat -> cfloat
}.

(** The arithmetic of [cfloat] taken as exact *)
Definition exact_ops : FloatOps :=
  mkFloatOps of_int fadd fsub fmul fdiv (fun x => fsub x (FFin (1 / 10000)))
    flog2 (fun x => x).

(** The arithmetic of the machine: every result is rounded to binary32, and
    [x - 1e-4] is the binary64 difference of [x] and the binary64 value of
    the literal.  [std::log2] is taken to return the value of its result
    type nearest to the real logarithm (the library function is not specified
    to the last bit): a binary32 value for a [float], and for an integer a
    binary64 value, which the store into the vector rounds to binary32. *)
Definition binary32_ops : FloatOps :=
  mkFloatOps
    (fun z => round_float binary32 (IZR z))
    (fun x y => fround binary32 (fadd x y))
    (fun x y => fround binary32 (fsub x y))
    (fun x y => fround binary32 (fmul x y))
    (fun x y => fround binary32 (fdiv x y))
    (fun x => fround binary64 (fsub x (round_float binary64 (1 / 10000))))
    (fun x => fround binary32 (flog2 x))
    (fun x => fround binary32 (fround binary64 x)).

(** The integer [z] is a binary32 value: it has at most 24 significant bits. *)
Definition binary32_int (z : Z) : bool :=
  let a := Z.abs z in
  (a mod 2 ^ Z.max 0 (Z.log2 a - 23) =? 0) && (a <? 2 ^ 128).

(** A value that is not negative: a finite one, or the positive infinity a
    [float] overflows to *)
Definition fnonneg_or_inf (x : cfloat) : Prop :=
  match x with
  | FFin r => (0 <= r)%R
  | FInf negative => negative = false
  | FNaN => False
  end.

(** ** The code whose result depends on the rounding, over [FloatOps]

    The places of the extractor where the value that a [float] computation
    yields matters.  Each is written once over the arithmetic, and coincides
    with the definition used by the walk when the arithmetic is
    [exact_ops]. *)

Section WithFloatOps.
Variable ops : FloatOps.

(** *** [outer_loop_prod] along the walk *)

(** [outer_loop_prod *= extent] and [outer_loop_prod /= extent] *)
Definition prod_push (extent : Z) (outer_loop_prod : cfloat) : cfloat :=
  fo_mul ops outer_loop_prod (fo_of_int ops extent).

Definition prod_pop (extent : Z) (outer_loop_prod : cfloat) : cfloat :=
  fo_div ops outer_loop_prod (fo_of_int ops extent).

(** [outer_loop_prod] after the visit of [stmt], from its value before:
    VisitStmt_(const ForNode* ) and the thread_extent / virtual_thread branch
    of VisitStmt_(const AttrStmtNode* ) multiply before the body and divide
    after it; no other visitor writes the member.  Where the walk aborts
    (GetIntImm of a value that is no integer constant) the member keeps the
    value it has; whether the walk returns is told by [VisitStmt]. *)
Fixpoint walk_prod (stmt : Stmt) (outer_loop_prod : cfloat) : cfloat :=
  match stmt with
  | For loop_var min extent for_type body =>
      let e := GetLoopExtent (mkForNode 1 loop_var min extent for_type) in
      prod_pop e (walk_prod body (prod_push e outer_loop_prod))
  | AttrStmt node attr_key value body =>
      if PerStoreFeatureExtractor.attr_pushes_frame attr_key then
        match GetIntImm value with
        | Some e =>
            let e := to_int32 e in
            prod_pop e (walk_prod body (prod_push e outer_loop_prod))
        | None => outer_loop_prod
        end
      else walk_prod body outer_loop_prod
  | BufferStore _ _ _ | Evaluate _ => outer_loop_prod
  | BufferRealize _ _ _ body | LetStmt _ _ body => walk_prod body outer_loop_prod
  | SeqStmt seq => fold_left (fun p st => walk_prod st p) seq outer_loop_prod
  | IfThenElse _ then_case else_case =>
      let p := walk_prod then_case outer_loop_prod in
      match else_case with
      | Some e => walk_prod e p
      | None => p
      end
  end.

(** [prod_at stmt p stack sub p' stack']: the visit of [stmt], entered with
    [outer_loop_prod = p] and frames of the extents [stack] on the loop stack,
    reaches the statement [sub] of [stmt] with [outer_loop_prod = p'] and
    the extents [stack']. *)
Inductive prod_at : Stmt -> cfloat -> list Z -> Stmt -> cfloat -> list Z -> Prop :=
| prod_at_here stmt p stack : prod_at stmt p stack stmt p stack
| prod_at_For v mn ex ft body p stack sub p' stack' :
    prod_at body (prod_push (GetLoopExtent (mkForNode 1 v mn ex ft)) p)
      (stack ++ [GetLoopExtent (mkForNode 1 v mn ex ft)]) sub p' stack' ->
    prod_at (For v mn ex ft body) p stack sub p' stack'
| prod_at_thread node key value body e p stack sub p' stack' :
    PerStoreFeatureExtractor.attr_pushes_frame key = true ->
    GetIntImm value = Some e ->
    prod_at body (prod_push (to_int32 e) p) (stack ++ [to_int32 e]) sub p' stack' ->
    prod_at (AttrStmt node key value body) p stack sub p' stack'
| prod_at_attr node key value body p stack sub p' stack' :
    PerStoreFeatureExtractor.attr_pushes_frame key = false ->
    prod_at body p stack sub p' stack' ->
    prod_at (AttrStmt node key value body) p stack sub p' stack'
| prod_at_realize buffer bounds c body p stack sub p' stack' :
    prod_at body p stack sub p' stack' ->
    prod_at (BufferRealize buffer bounds c body) p stack sub p' stack'
| prod_at_seq before st after p stack sub p' stack' :
    prod_at st (walk_prod (SeqStmt before) p) stack sub p' stack' ->
    prod_at (SeqStmt (before ++ st :: after)) p stack sub p' stack'
| prod_at_then c t e p stack sub p' stack' :
    prod_at t p stack sub p' stack' ->
    prod_at (IfThenElse c t e) p stack sub p' stack'
| prod_at_else c t e p stack sub p' stack' :
    prod_at e (walk_prod t p) stack sub p' stack' ->
    prod_at (IfThenElse c t (Some e)) p stack sub p' stack'
| prod_at_let v e body p stack sub p' stack' :
    prod_at body p stack sub p' stack' ->
    prod_at (LetStmt v e body) p stack sub p' stack'.

(** *** The compute features of a store *)

(** [fea.float_mad = outer_loop_prod * mathops.float_mad;] and the fifteen
    assignments after it, in the order of [counters] *)
Definition compute_features_with (outer_loop_prod : cfloat) (mathops : MathOpCounter.t)
  : list cfloat :=
  (fun n => fo_mul ops outer_loop_prod (fo_of_int ops n)) <$> counters mathops.

(** *** ComputeReuse *)

Definition sum_touched_with (weight : RegionEntry -> Z)
    (table : gmap N (Buffer * list RegionEntry)) : cfloat :=
  fold_left
    (fun acc iter =>
       fold_left (fun acc access => fo_add ops acc (fo_of_int ops (weight access)))
         (snd (snd iter)) acc)
    (map_to_list table) fzero.

Fixpoint reuse_loop_with (buf : Buffer) (indices : list (list PrimExpr))
    (for_touch_regions : RegionTable) (rstack : list ForNode)
    (reuse_dis_iter reuse_dis_bytes : cfloat)
  : option (ReuseType * cfloat * cfloat * cfloat) :=
  match rstack with
  | [] => Some (kNoReuse, fo_of_int ops 0, fo_of_int ops 0, fo_of_int ops 0)
  | cur_for :: rest =>
      let find := index_uses_var indices (loop_var cur_for) in
      let extent := GetLoopExtent cur_for in
      if find then
        table ← for_touch_regions !! node_id cur_for;
        let reuse_dis_iter := fo_mul ops reuse_dis_iter (fo_of_int ops extent) in
        let reuse_dis_bytes := sum_touched_with touched_bytes table in
        entry ← table !! buffer_id buf;
        let serial_reuse := to_int32 (Z.of_nat (length (snd entry))) - 1 in
        if 0 <? serial_reuse then
          let reuse_dis_iter :=
            fold_left (fun m acc_info => fmin m (fo_of_int ops (snd (fst acc_info))))
              (snd entry) FLT_MAX in
          let reuse_dis_bytes := sum_touched_with touched_bytes table in
          Some (kSerialMultipleReadWrite,
                fo_div ops reuse_dis_iter (fo_of_int ops extent),
                fo_div ops reuse_dis_bytes (fo_of_int ops extent),
                fo_of_int ops serial_reuse)
        else
          reuse_loop_with buf indices for_touch_regions rest reuse_dis_iter
            reuse_dis_bytes
      else
        reuse_dis_bytes ←
          (if flt reuse_dis_bytes (fo_of_int ops 0)
           then sum_touched_with single_bytes <$> for_touch_regions !! node_id cur_for
           else Some reuse_dis_bytes);
        Some (kLoopMultipleRead, reuse_dis_iter, reuse_dis_bytes, fo_of_int ops extent)
  end.

Definition ComputeReuse_with (buf : Buffer) (indices : list (list PrimExpr))
    (for_loop_stack : list ForNode) (for_touch_regions : RegionTable)
  : option (ReuseType * cfloat * cfloat * cfloat) :=
  reuse_loop_with buf indices for_touch_regions (rev for_loop_stack) fone (FFin (-1)).

(** *** The sampling loop of the arithmetic intensity curve *)

(** [compute_ops_list] and [mem_bytes_list] as the vectors hold them, from the
    lists of the real logarithms *)
Definition stored_list (l : list cfloat) : list cfloat := fo_store_log2 ops <$> l.

Fixpoint advance_pt_with (rest : list cfloat) (pt : nat) (cur_compute_ops : cfloat)
  : option nat :=
  match rest with
  | [] => None
  | v :: rest' =>
      if flt v (fo_sub_tolerance ops cur_compute_ops)
      then advance_pt_with rest' (S pt) cur_compute_ops
      else Some pt
  end.

Definition sample_point_with (compute_ops_list : list cfloat) (i : nat) : cfloat :=
  fo_div ops
    (fo_mul ops (List.last compute_ops_list FNaN) (fo_of_int ops (Z.of_nat i + 1)))
    (fo_of_int ops (Z.of_nat ARITH_INTENSITY_CURVE_SAMPLE_N)).

Definition interpolate_with (compute_ops_list mem_bytes_list : list cfloat)
    (pt : nat) (cur_compute_ops : cfloat) : option cfloat :=
  match pt with
  | O =>
      c ← compute_ops_list !! pt; m ← mem_bytes_list !! pt;
      Some (fo_div ops c m)
  | S pt1 =>
      c1 ← compute_ops_list !! pt1; m1 ← mem_bytes_list !! pt1;
      c ← compute_ops_list !! pt; m ← mem_bytes_list !! pt;
      let base := fo_div ops c1 m1 in
      let slope := fo_div ops (fo_sub ops (fo_div ops c m) (fo_div ops c1 m1))
                     (fo_sub ops c c1) in
      Some (fo_add ops base (fo_mul ops slope (fo_sub ops cur_compute_ops c1)))
  end.

Fixpoint curve_loop_with (compute_ops_list mem_bytes_list : list cfloat)
    (samples : list nat) (pt : nat) : option (list cfloat * list nat) :=
  match samples with
  | [] => Some ([], [])
  | i :: samples' =>
      let cur_compute_ops := sample_point_with compute_ops_list i in
      pt ← advance_pt_with (drop pt compute_ops_list) pt cur_compute_ops;
      value ← interpolate_with compute_ops_list mem_bytes_list pt cur_compute_ops;
      '(values, pts) ← curve_loop_with compute_ops_list mem_bytes_list samples' pt;
      Some (value :: values, pt :: pts)
  end.

Definition compute_curve_with (cur_compute_ops : Z)
    (compute_ops_list mem_bytes_list : list cfloat) : option (list cfloat) :=
  if (cur_compute_ops <=? 0) || (Nat.eqb (length compute_ops_list) 0)
  then Some (repeat (FFin 0) ARITH_INTENSITY_CURVE_SAMPLE_N)
  else fst <$> curve_loop_with compute_ops_list mem_bytes_list
                 (seq 0 ARITH_INTENSITY_CURVE_SAMPLE_N) 0%nat.

(** *** slog *)

Definition slog_with (x : cfloat) : cfloat :=
  if flt x (FFin 0) then fneg (fo_log2 ops (fo_add ops (fneg x) (fo_of_int ops 1)))
  else fo_log2 ops (fo_add ops x (fo_of_int ops 1)).

End WithFloatOps.

(** *** The frames whose products are binary32 values *)

(** The product of the extents of the pushed frames *)
Definition stack_product (stack : list Z) : Z := fold_left Z.mul stack 1.

(** A frame of the extent [e], pushed when the extents of the frames below
    multiply to [prod], is not empty, and [e] and the new product are binary32
    values. *)
Definition frame_ok (e prod : Z) : bool :=
  negb (e =? 0) && binary32_int e && binary32_int (prod * e).

(** Every frame the walk of [stmt] pushes is one, when the walk is entered
    with frames whose extents multiply to [prod]. *)
Fixpoint exact_frames (stmt : Stmt) (prod : Z) : bool :=
  match stmt with
  | For v mn ex ft body =>
      let e := GetLoopExtent (mkForNode 1 v mn ex ft) in
      frame_ok e prod && exact_frames body (prod * e)
  | AttrStmt _ attr_key value body =>
      if PerStoreFeatureExtractor.attr_pushes_frame attr_key then
        match GetIntImm value with
        | Some e => frame_ok (to_int32 e) prod && exact_frames body (prod * to_int32 e)
        | None => true
        end
      else exact_frames body prod
  | BufferStore _ _ _ | Evaluate _ => true
  | BufferRealize _ _ _ body | LetStmt _ _ body => exact_frames body prod
  | SeqStmt seq => forallb (fun st => exact_frames st prod) seq
  | IfThenElse _ t e =>
      exact_frames t prod
      && match e with Some e => exact_frames e prod | None => true end
  end.

(** *** The lists of the arithmetic intensity curve *)

(** An element of [mem_bytes_list] that is the logarithm of more than one
    byte *)
Definition more_than_one_byte (x : cfloat) : Prop :=
  exists mem_bytes : Z, 2 <= mem_bytes <= INT64_MAX /\ x = flog2 (of_int mem_bytes).

(** The product of the extents of a loop stack given innermost loop first *)
Definition rstack_product (rstack : list ForNode) : Z :=
  fold_right (fun f p => p * GetLoopExtent f) 1 rstack.

(** In a [compute_ops_list] with the last element [L], the element before the
    pointer [pt], when there is one, is below the last element. *)
Definition below_last (compute_ops_list : list cfloat) (L : R) (pt : nat) : Prop :=
  match pt with
  | O => True
  | S pt1 =>
      exists b : R, compute_ops_list !! pt1 = Some (FFin b) /\ (0 <= b <= L - 99 / 100)%R
  end.

(** ** Concrete statements and expressions

    The terms on which the properties below are evaluated. *)

Definition ex_var_v : Var := mkVar 1 "v" Int32_t.
Definition ex_var_w : Var := mkVar 2 "w" Int32_t.

(** [3 * v + 7 * w] *)
Definition ex_affine : PrimExpr :=
  Bin Add (Bin Mul (IntImm Int32_t 3) (VarE ex_var_v))
          (Bin Mul (IntImm Int32_t 7) (VarE ex_var_w)).

(** [(2^32 + 5) * v + w], the constant an [int64] immediate *)
Definition ex_wide_affine : PrimExpr :=
  Bin Add (Bin Mul (IntImm (mkDataType kDLInt 64 1) (2 ^ 32 + 5)) (VarE ex_var_v))
          (VarE ex_var_w).

(** [3 * v + w] *)
Definition ex_affine_plain : PrimExpr :=
  Bin Add (Bin Mul (IntImm Int32_t 3) (VarE ex_var_v)) (VarE ex_var_w).

(** Two access features: (lines 10, bytes 4096) and (lines 100, bytes 4096) *)
Definition ex_access_fea (nm : string) (lines_ bytes_ : Z) : BufferAccessFeature.t :=
  BufferAccessFeature.mk nm kRead (of_int bytes_) (of_int bytes_) (of_int lines_)
    (of_int lines_) kNoReuse (FFin 0) (FFin 0) (FFin 0)
    (of_int (2 * bytes_)) (of_int (2 * bytes_)) (of_int (2 * lines_))
    (of_int (2 * lines_)) (FFin 0).

Definition ex_access_feas : list BufferAccessFeature.t :=
  [ex_access_fea "A" 10 4096; ex_access_fea "B" 100 4096].


Definition ex_var_i : Var := mkVar 10 "i" Int32_t.
Definition ex_var_j : Var := mkVar 11 "j" Int32_t.
Definition ex_var_k : Var := mkVar 12 "k" Int32_t.

Definition ex_loop (id : positive) (v : Var) (ext : Z) : ForNode :=
  mkForNode id v (IntImm Int32_t 0) (IntImm Int32_t ext) Serial.

(** The loop stack of [for k in 0..64: for j in 0..3: for i in 0..2], outermost
    loop first *)
Definition ex_stack_kji : list ForNode :=
  [ex_loop 1 ex_var_k 64; ex_loop 2 ex_var_j 3; ex_loop 3 ex_var_i 2].

Definition ex_buffer_B : Buffer := mkBuffer 2 "B" [Some 1024] Float32_t.

(** The table of a loop of extent 0 under which the buffer B was stored twice *)
Definition ex_regions_zero : RegionTable :=
  {[ 1%positive := {[ 2%N := (ex_buffer_B, [(kWrite, 0, 4); (kWrite, 0, 4)]) ]} ]}.

(** The table of a loop under which the buffer B was stored twice with an
    element count of -1 *)
Definition ex_regions_negative : RegionTable :=
  {[ 1%positive := {[ 2%N := (ex_buffer_B, [(kWrite, -1, 4); (kWrite, -1, 4)]) ]} ]}.

Definition ex_buffer_A : Buffer := mkBuffer 1 "A" [Some 1024] Float32_t.

(** The table of a loop under which A is read once and B written once *)
Definition ex_regions_AB : RegionTable :=
  {[ 1%positive := {[ 1%N := (ex_buffer_A, [(kRead, 1, 4)]);
                      2%N := (ex_buffer_B, [(kWrite, 1, 4)]) ]} ]}.

(** [A[i] + 1.0f] *)
Definition ex_value_add : PrimExpr :=
  Bin Add (BufferLoad ex_buffer_A [VarE ex_var_i]) (FloatImm Float32_t (FFin 1)).

(** [for (i, 0, 0) { B[i] = A[i] + 1.0f }] *)
Definition ex_empty_loop : Stmt :=
  For ex_var_i (IntImm Int32_t 0) (IntImm Int32_t 0) Serial
    (BufferStore ex_buffer_B ex_value_add [VarE ex_var_i]).

(** [B[0] = A[0] + 1.0f] *)
Definition ex_scalar_value : PrimExpr :=
  Bin Add (BufferLoad ex_buffer_A [IntImm Int32_t 0]) (FloatImm Float32_t (FFin 1)).

(** The extractor inside [for (i, 0, 1024)] *)
Definition ex_in_loop : PerStoreFeatureExtractor.t :=
  snd (PerStoreFeatureExtractor.enter_loop ex_var_i (IntImm Int32_t 0) (IntImm Int32_t 1024) Serial (PerStoreFeatureExtractor.init false)).

(** The loop over the loop stack for [B[i] = A[i] + 1.0f] inside that loop *)
Definition ex_touch : option (PerStoreFeatureExtractor.TouchState interval_analyzer) :=
  PerStoreFeatureExtractor.touch_loops interval_analyzer
    (map_to_list (PerStoreFeatureExtractor.store_accesses ex_buffer_B ex_value_add [VarE ex_var_i]))
    (rev (PerStoreFeatureExtractor.for_loop_stack ex_in_loop))
    (PerStoreFeatureExtractor.touch_init interval_analyzer ex_in_loop (MathOpCounter.run ex_value_add)).

Definition ex_touch_state : PerStoreFeatureExtractor.TouchState interval_analyzer :=
  default (PerStoreFeatureExtractor.touch_init interval_analyzer ex_in_loop (MathOpCounter.run ex_value_add))
    ex_touch.


(** The extractor inside [for (i, 0, 1)] *)
Definition ex_in_unit_loop : PerStoreFeatureExtractor.t :=
  snd (PerStoreFeatureExtractor.enter_loop ex_var_i (IntImm Int32_t 0) (IntImm Int32_t 1) Serial (PerStoreFeatureExtractor.init false)).

(** The loop over the loop stack for [B[i] = A[i] + 1.0f] inside that loop *)
Definition ex_unit_touch_state : PerStoreFeatureExtractor.TouchState interval_analyzer :=
  default (PerStoreFeatureExtractor.touch_init interval_analyzer ex_in_unit_loop (MathOpCounter.run ex_value_add))
    (PerStoreFeatureExtractor.touch_loops interval_analyzer
       (map_to_list (PerStoreFeatureExtractor.store_accesses ex_buffer_B ex_value_add [VarE ex_var_i]))
       (rev (PerStoreFeatureExtractor.for_loop_stack ex_in_unit_loop))
       (PerStoreFeatureExtractor.touch_init interval_analyzer ex_in_unit_loop (MathOpCounter.run ex_value_add))).

(** [for (i, 0, 1024) { B[i] = A[i] }] *)
Definition ex_copy_loop : Stmt :=
  For ex_var_i (IntImm Int32_t 0) (IntImm Int32_t 1024) Serial
    (BufferStore ex_buffer_B (BufferLoad ex_buffer_A [VarE ex_var_i]) [VarE ex_var_i]).

(** [B[0] = 1.0f; B[0] = 2.0f] *)
Definition ex_two_stores : Stmt :=
  SeqStmt [BufferStore ex_buffer_B (FloatImm Float32_t (FFin 1)) [IntImm Int32_t 0];
           BufferStore ex_buffer_B (FloatImm Float32_t (FFin 2)) [IntImm Int32_t 0]].

(** [realize B([0, 1024)) { 0 }]: an allocation with no store *)
Definition ex_realize_only : Stmt :=
  BufferRealize ex_buffer_B [mkRange (IntImm Int32_t 0) (IntImm Int32_t 1024)]
    (IntImm Int32_t 1) (Evaluate (IntImm Int32_t 0)).

Definition ex_buffer_C : Buffer := mkBuffer 3 "C" [Some 64] Float32_t.

(** [for (k, 0, 64) for (j, 0, 3) for (i, 0, 2) { C[k] = 1.0f }] *)
Definition ex_nest_kji : Stmt :=
  For ex_var_k (IntImm Int32_t 0) (IntImm Int32_t 64) Serial
    (For ex_var_j (IntImm Int32_t 0) (IntImm Int32_t 3) Serial
       (For ex_var_i (IntImm Int32_t 0) (IntImm Int32_t 2) Serial
          (BufferStore ex_buffer_C (FloatImm Float32_t (FFin 1)) [VarE ex_var_k]))).

(** [attr thread_extent(blockIdx.x) = 8 { attr pragma_auto_unroll_max_step = 16 {
      for (i, 0, 4) vectorized { B[i] = A[i] } } }] *)
Definition ex_gpu_nest : Stmt :=
  AttrStmt (IterVarNode (mkVar 20 "blockIdx.x" Int32_t)) "thread_extent"
    (IntImm Int32_t 8)
    (AttrStmt OtherNode "pragma_auto_unroll_max_step" (IntImm Int32_t 16)
       (For ex_var_i (IntImm Int32_t 0) (IntImm Int32_t 4) Vectorized
          (BufferStore ex_buffer_B (BufferLoad ex_buffer_A [VarE ex_var_i])
             [VarE ex_var_i]))).

(** [for (i, 0, 4) { attr thread_extent(tx) = 32 { 0 } }] *)
Definition ex_bad_thread : Stmt :=
  For ex_var_i (IntImm Int32_t 0) (IntImm Int32_t 4) Serial
    (AttrStmt (IterVarNode (mkVar 21 "tx" Int32_t)) "thread_extent"
       (IntImm Int32_t 32) (Evaluate (IntImm Int32_t 0))).

(** [for (i, 0, 4) { if (1) { 0 } }] *)
Definition ex_no_store : Stmt :=
  For ex_var_i (IntImm Int32_t 0) (IntImm Int32_t 4) Serial
    (IfThenElse (IntImm Bool_t 1) (Evaluate (IntImm Int32_t 0)) None).


(** Three measure records of two workloads, with their mean costs; the tasks
    and states are not looked at. *)
Definition ex_measure_inputs : list (Drivers.MeasureInput unit unit) :=
  [Drivers.mkMeasureInput unit unit "matmul" "llvm" true tt tt;
   Drivers.mkMeasureInput unit unit "conv2d" "llvm" true tt tt;
   Drivers.mkMeasureInput unit unit "matmul" "llvm" false tt tt].

Definition ex_measure_results : list (Drivers.MeasureResult cfloat) :=
  [Drivers.mkMeasureResult cfloat (FFin 4);
   Drivers.mkMeasureResult cfloat (FFin 3);
   Drivers.mkMeasureResult cfloat (FFin 2)].

(** The records as a file holds them, without a compute DAG *)
Definition ex_measure_records
  : list (Drivers.MeasureInput unit unit * Drivers.MeasureResult cfloat) :=
  [(Drivers.mkMeasureInput unit unit "matmul" "llvm" false tt tt,
    Drivers.mkMeasureResult cfloat (FFin 4));
   (Drivers.mkMeasureInput unit unit "conv2d" "llvm" false tt tt,
    Drivers.mkMeasureResult cfloat (FFin 3));
   (Drivers.mkMeasureInput unit unit "matmul" "llvm" false tt tt,
    Drivers.mkMeasureResult cfloat (FFin 2))].

(** A worker that appends one value and counts no error *)
Definition ex_worker (task : unit) (state : unit) (max_n_bufs : Z)
    (feature : list cfloat) : list cfloat * bool :=
  (feature ++ [FFin 1], false).

(** [for (a, 0, 3357) { for (b, 0, 4999) { B[a] = 1.0f } }]: the product of
    the two extents, 16781643, has 25 significant bits *)
Definition ex_rounding_nest : Stmt :=
  For (mkVar 30 "a" Int32_t) (IntImm Int32_t 0) (IntImm Int32_t 3357) Serial
    (For (mkVar 31 "b" Int32_t) (IntImm Int32_t 0) (IntImm Int32_t 4999) Serial
       (BufferStore ex_buffer_B (FloatImm Float32_t (FFin 1))
          [VarE (mkVar 30 "a" Int32_t)])).

Definition ex_var_l : Var := mkVar 13 "l" Int32_t.

(** A loop with an [int64] extent *)
Definition ex_loop64 (id : positive) (v : Var) (ext : Z) : ForNode :=
  mkForNode id v (IntImm (mkDataType kDLInt 64 1) 0) (IntImm (mkDataType kDLInt 64 1) ext)
    Serial.

(** [for l in 0..2: for k in 0..2^62: for j in 0..2^62: for i in 0..2^62],
    outermost loop first *)
Definition ex_stack_huge : list ForNode :=
  [ex_loop64 4 ex_var_l 2; ex_loop64 3 ex_var_k (2 ^ 62);
   ex_loop64 2 ex_var_j (2 ^ 62); ex_loop64 1 ex_var_i (2 ^ 62)].

(** The tables of the three inner loops, under each of which the buffer C was
    stored once *)
Definition ex_table_C : gmap N (Buffer * list RegionEntry) :=
  {[ 3%N := (ex_buffer_C, [(kWrite, 1, 4)]) ]}.

Definition ex_regions_huge : RegionTable :=
  {[ 1%positive := ex_table_C; 2%positive := ex_table_C; 3%positive := ex_table_C ]}.

(** The extractor inside [for (i, 0, 0)] *)
Definition ex_in_empty_loop : PerStoreFeatureExtractor.t :=
  snd (PerStoreFeatureExtractor.enter_loop ex_var_i (IntImm Int32_t 0) (IntImm Int32_t 0)
         Serial (PerStoreFeatureExtractor.init false)).

(** The extractor inside [for (j, 0, 65536) { for (i, 0, 65536)] *)
Definition ex_in_big_nest : PerStoreFeatureExtractor.t :=
  snd (PerStoreFeatureExtractor.enter_loop ex_var_i (IntImm Int32_t 0)
         (IntImm Int32_t 65536) Serial
         (snd (PerStoreFeatureExtractor.enter_loop ex_var_j (IntImm Int32_t 0)
                 (IntImm Int32_t 65536) Serial (PerStoreFeatureExtractor.init false)))).

(** The state of the loop over the loop stack at the end, for the store
    [buffer[indices] = value] reached with the extractor [s] *)
Definition ex_touch_state_of (s : PerStoreFeatureExtractor.t) (buffer : Buffer)
    (value : PrimExpr) (indices : list PrimExpr)
  : PerStoreFeatureExtractor.TouchState interval_analyzer :=
  default (PerStoreFeatureExtractor.touch_init interval_analyzer s (MathOpCounter.run value))
    (PerStoreFeatureExtractor.touch_loops interval_analyzer
       (map_to_list (PerStoreFeatureExtractor.store_accesses buffer value indices))
       (rev (PerStoreFeatureExtractor.for_loop_stack s))
       (PerStoreFeatureExtractor.touch_init interval_analyzer s (MathOpCounter.run value))).

(** A buffer of bytes *)
Definition ex_buffer_D : Buffer := mkBuffer 4 "D" [Some 1024] (mkDataType kDLInt 8 1).

(** [1.0f + 2.0f] *)
Definition ex_value_consts : PrimExpr :=
  Bin Add (FloatImm Float32_t (FFin 1)) (FloatImm Float32_t (FFin 2)).

(** The loop over the loop stack for [B[i] = A[i] + 1.0f] inside a loop of the
    extent 0, and inside the two loops of the extent 65536 *)
Definition ex_empty_touch_state : PerStoreFeatureExtractor.TouchState interval_analyzer :=
  ex_touch_state_of ex_in_empty_loop ex_buffer_B ex_value_add [VarE ex_var_i].

Definition ex_big_touch_state : PerStoreFeatureExtractor.TouchState interval_analyzer :=
  ex_touch_state_of ex_in_big_nest ex_buffer_B ex_value_add [VarE ex_var_i].

(** The loop over the loop stack for [D[i] = 1.0f + 2.0f] inside a loop of the
    extent 1 *)
Definition ex_byte_touch_state : PerStoreFeatureExtractor.TouchState interval_analyzer :=
  ex_touch_state_of ex_in_unit_loop ex_buffer_D ex_value_consts [VarE ex_var_i].

(** * Properties *)

(** ** Machine integers and small helpers *)

Lemma to_int32_small z : INT32_MIN <= z <= INT32_MAX -> to_int32 z = z.
Proof.
  unfold to_int32, wrap_signed, INT32_MIN, INT32_MAX. intros H.
  rewrite Z.mod_small; lia.
Qed.

Lemma to_int64_small z : INT64_MIN <= z <= INT64_MAX -> to_int64 z = z.
Proof.
  unfold to_int64, wrap_signed, INT64_MIN, INT64_MAX. intros H.
  rewrite Z.mod_small; lia.
Qed.

Lemma var_same_refl v : var_same v v = true.
Proof. apply N.eqb_refl. Qed.


Lemma fold_left_fixed {X S : Type} (f : S -> X -> S) (l : list X) (s : S) :
  List.Forall (fun x => f s x = s) l -> fold_left f l s = s.
Proof.
  induction 1 as [|x l Hx _ IH]; simpl; [reflexivity|]. now rewrite Hx.
Qed.


(** ** Floats *)

Lemma Rltb_true x y : Rltb x y = true <-> (x < y)%R.
Proof. unfold Rltb. destruct (Rlt_dec x y); split; auto; discriminate. Qed.

Lemma Rltb_false x y : Rltb x y = false <-> (y <= x)%R.
Proof.
  unfold Rltb. destruct (Rlt_dec x y); split; auto; try discriminate; lra.
Qed.

Lemma Reqb_true x y : Reqb x y = true <-> x = y.
Proof. unfold Reqb. destruct (Req_dec_T x y); split; auto; discriminate. Qed.

Lemma Reqb_false x y : Reqb x y = false <-> x <> y.
Proof.
  unfold Reqb. destruct (Req_dec_T x y); split; auto; try discriminate; tauto.
Qed.

Ltac float_cases :=
  repeat match goal with
         | x : cfloat |- _ => destruct x as [|[|]|?]
         end;
  simpl in *; try discriminate; try reflexivity; try tauto.

Ltac real_bools :=
  repeat match goal with
         | H : Rltb _ _ = true |- _ => apply Rltb_true in H
         | H : Rltb _ _ = false |- _ => apply Rltb_false in H
         | H : Reqb _ _ = true |- _ => apply Reqb_true in H
         | H : Reqb _ _ = false |- _ => apply Reqb_false in H
         | |- Rltb _ _ = true => apply Rltb_true
         | |- Rltb _ _ = false => apply Rltb_false
         | |- Reqb _ _ = true => apply Reqb_true
         | |- Reqb _ _ = false => apply Reqb_false
         end.

Lemma flt_asym x y : flt x y = true -> flt y x = false.
Proof. intros H. float_cases. real_bools. lra. Qed.

Lemma feq_not_flt x y : feq x y = true -> flt x y = false /\ flt y x = false.
Proof. intros H. float_cases; real_bools; split; real_bools; lra. Qed.

Lemma flt_trans x y z : flt x y = true -> flt y z = true -> flt x z = true.
Proof. intros H1 H2. float_cases. real_bools. lra. Qed.

Lemma feq_sym x y : feq x y = true -> feq y x = true.
Proof. intros H. float_cases. real_bools. lra. Qed.

Lemma feq_trans x y z : feq x y = true -> feq y z = true -> feq x z = true.
Proof. intros H1 H2. float_cases. real_bools. lra. Qed.

Lemma flt_feq_l x y z : feq x y = true -> flt y z = true -> flt x z = true.
Proof. intros H1 H2. float_cases. real_bools. lra. Qed.

Lemma flt_feq_r x y z : flt x y = true -> feq y z = true -> flt x z = true.
Proof. intros H1 H2. float_cases. real_bools. lra. Qed.

Lemma float_trichotomy x y :
  is_nan x = false -> is_nan y = false ->
  flt x y = true \/ feq x y = true \/ flt y x = true.
Proof.
  intros Hx Hy. float_cases; try (now left); try (now right; left); try (now right; right).
  match goal with
  | |- Rltb ?a ?b = true \/ _ =>
      destruct (Rtotal_order a b) as [H|[H|H]];
        [left | right; left | right; right]; now real_bools
  end.
Qed.


(** Deciding comparisons of real constants *)
Ltac real_decide :=
  repeat match goal with
         | |- context [Reqb ?a ?b] =>
             first [ replace (Reqb a b) with true by (symmetry; apply Reqb_true; lra)
                   | replace (Reqb a b) with false by (symmetry; apply Reqb_false; lra) ]
         | |- context [Rltb ?a ?b] =>
             first [ replace (Rltb a b) with true by (symmetry; apply Rltb_true; lra)
                   | replace (Rltb a b) with false by (symmetry; apply Rltb_false; lra) ]
         end.

(** Deciding the comparisons of real constants left by an evaluation *)
Ltac decide_reals :=
  repeat match goal with
         | |- context [Rlt_dec ?a ?b] =>
             destruct (Rlt_dec a b); [try (exfalso; lra)|try (exfalso; lra)]
         | |- context [Req_dec_T ?a ?b] =>
             destruct (Req_dec_T a b); [try (exfalso; lra)|try (exfalso; lra)]
         end.


(** ** The coefficient extractor *)

Section CoefficientExtractor_properties.
Import CoefficientExtractor.

(** An expression without the variable leaves the flags as they are when the
    variable has not been met yet. *)
Lemma VisitExpr_absent var_ e :
  VarInExpr var_ e = false ->
  forall s, visited_var s = false -> VisitExpr var_ e s = s.
Proof.
  induction e as [v|t z|t q|t e IH|op a b IHa IHb|a IH|c tv fv IHc IHt IHf
                 |buf idx IH|t op args IH] using PrimExpr_nested_ind;
    simpl; intros Hin s Hs; try reflexivity.
  - now rewrite Hin.
  - now apply IH.
  - apply orb_false_elim in Hin as [Ha Hb].
    rewrite (IHa Ha s Hs), (IHb Hb s Hs).
    destruct op; try reflexivity; unfold visit_mul, visit_add; now rewrite Hs.
  - now apply IH.
  - apply orb_false_elim in Hin as [Hin Hf].
    apply orb_false_elim in Hin as [Hc Ht].
    now rewrite (IHc Hc s Hs), (IHt Ht s Hs), (IHf Hf s Hs).
  - apply fold_left_fixed.
    rewrite List.Forall_forall in IH |- *. intros x Hx. apply IH; auto.
    rewrite <- not_true_iff_false in Hin |- *. intros Hc. apply Hin.
    apply existsb_exists. eauto.
  - apply fold_left_fixed.
    rewrite List.Forall_forall in IH |- *. intros x Hx. apply IH; auto.
    rewrite <- not_true_iff_false in Hin |- *. intros Hc. apply Hin.
    apply existsb_exists. eauto.
Qed.

(** Once a multiplication has set the stride, an expression without the
    variable and without a multiplication by a constant changes nothing. *)
Lemma VisitExpr_after_mul var_ e :
  VarInExpr var_ e = false -> no_const_mul e = true ->
  forall s, visited_mul s = true -> VisitExpr var_ e s = s.
Proof.
  induction e as [v|t z|t q|t e IH|op a b IHa IHb|a IH|c tv fv IHc IHt IHf
                 |buf idx IH|t op args IH] using PrimExpr_nested_ind;
    simpl; intros Hin Hk s Hs; try reflexivity.
  - now rewrite Hin.
  - now apply IH.
  - apply orb_false_elim in Hin as [Ha Hb].
    apply andb_prop in Hk as [Hk Hkb]. apply andb_prop in Hk as [Hop Hka].
    rewrite (IHa Ha Hka s Hs), (IHb Hb Hkb s Hs).
    destruct op; try reflexivity.
    + unfold visit_add. rewrite Hs. simpl. now destruct (visited_var s).
    + unfold visit_mul. apply andb_prop in Hop as [H1 H2].
      destruct a; try discriminate H1; destruct b; try discriminate H2;
        destruct (visited_var s), (visited_add s); reflexivity.
  - now apply IH.
  - apply orb_false_elim in Hin as [Hin Hf].
    apply orb_false_elim in Hin as [Hc Ht].
    apply andb_prop in Hk as [Hk Hkf]. apply andb_prop in Hk as [Hkc Hkt].
    now rewrite (IHc Hc Hkc s Hs), (IHt Ht Hkt s Hs), (IHf Hf Hkf s Hs).
  - apply fold_left_fixed.
    rewrite List.Forall_forall in IH |- *. intros x Hx. apply IH; auto.
    + rewrite <- not_true_iff_false in Hin |- *. intros Hc. apply Hin.
      apply existsb_exists. eauto.
    + rewrite forallb_forall in Hk. auto.
  - apply fold_left_fixed.
    rewrite List.Forall_forall in IH |- *. intros x Hx. apply IH; auto.
    + rewrite <- not_true_iff_false in Hin |- *. intros Hc. apply Hin.
      apply existsb_exists. eauto.
    + rewrite forallb_forall in Hk. auto.
Qed.

(** C5, as stated, fails.  For [3 * v + 7 * w], where [7 * w] does not contain
    [v], the extractor returns 7 and not the coefficient 3 of [v]: the
    multiplication [7 * w], visited after [3 * v], overwrites the stride.  For
    [w], in which [v] does not occur, an extractor that was used on [3 * v]
    before returns 3 and not 0: the call resets the flags and not the stride.
    For [(2^32 + 5) * v + w] the extractor returns 5: the stride is an [int]. *)
Lemma C5_ExtractCoefficient_counterexample :
  (VarInExpr ex_var_v (Bin Mul (IntImm Int32_t 7) (VarE ex_var_w)) = false
   /\ fst (ExtractCoefficient ex_affine ex_var_v init) = 7
   /\ fst (ExtractCoefficient ex_affine ex_var_v init) <> 3)
  /\ (VarInExpr ex_var_v (VarE ex_var_w) = false
      /\ fst (ExtractCoefficient (VarE ex_var_w) ex_var_v
                (snd (ExtractCoefficient (Bin Mul (IntImm Int32_t 3) (VarE ex_var_v))
                        ex_var_v init))) = 3)
  /\ fst (ExtractCoefficient ex_wide_affine ex_var_v init) = 5.
Proof. vm_compute. repeat split; discriminate. Qed.

Lemma VisitExpr_affine var t c k s0 e :
  e = Bin Mul (IntImm t c) (VarE var) \/ e = Bin Mul (VarE var) (IntImm t c) ->
  VarInExpr var k = false -> no_const_mul k = true ->
  visited_add s0 = false ->
  VisitExpr var (Bin Add e k) s0 = mk true true false (to_int32 c).
Proof.
  intros He Hin Hk Ha.
  assert (Hm : VisitExpr var e s0 = mk true true false (to_int32 c)).
  { destruct He as [-> | ->]; simpl; rewrite var_same_refl; unfold visit_mul; simpl;
      now rewrite Ha. }
  change (VisitExpr var (Bin Add e k) s0)
    with (visit_add (VisitExpr var k (VisitExpr var e s0))).
  rewrite Hm, (VisitExpr_after_mul var k Hin Hk) by reflexivity. reflexivity.
Qed.

(** C5 (amended): ExtractCoefficient returns 1 when the variable was met and
    neither the Mul nor the Add rule fired, and the recorded stride otherwise.
    When the variable does not occur in the expression it returns the stride
    the extractor held before the call, which is 0 for a new extractor.  For
    [c * V + k] (or [V * c + k]) with [k] containing neither [V] nor a
    multiplication by an integer constant it returns [c] narrowed to [int],
    hence exactly [c] when [c] fits 32 bits. *)
Theorem C5_ExtractCoefficient_result :
  forall (expr : PrimExpr) (var : Var) (s : CoefficientExtractor.t),
    (fst (ExtractCoefficient expr var s)
     = if visited_var (snd (ExtractCoefficient expr var s))
          && negb (visited_mul (snd (ExtractCoefficient expr var s)))
          && negb (visited_add (snd (ExtractCoefficient expr var s)))
       then 1 else stride (snd (ExtractCoefficient expr var s)))
    /\ (VarInExpr var expr = false ->
        visited_var (snd (ExtractCoefficient expr var s)) = false
        /\ fst (ExtractCoefficient expr var s) = stride s
        /\ fst (ExtractCoefficient expr var init) = 0)
    /\ (forall t c k,
          expr = Bin Add (Bin Mul (IntImm t c) (VarE var)) k
          \/ expr = Bin Add (Bin Mul (VarE var) (IntImm t c)) k ->
          VarInExpr var k = false -> no_const_mul k = true ->
          fst (ExtractCoefficient expr var s) = to_int32 c
          /\ (INT32_MIN <= c <= INT32_MAX -> fst (ExtractCoefficient expr var s) = c)).
Proof.
  intros expr var s. split; [|split].
  - unfold ExtractCoefficient.
    destruct (visited_var _ && negb (visited_mul _) && negb (visited_add _)) eqn:E;
      simpl; now rewrite E.
  - intros Hin. unfold ExtractCoefficient.
    rewrite !(VisitExpr_absent var expr Hin) by reflexivity. simpl. auto.
  - intros t c k He Hin Hk.
    assert (H : fst (ExtractCoefficient expr var s) = to_int32 c).
    { unfold ExtractCoefficient.
      destruct He as [-> | ->];
        (rewrite (VisitExpr_affine var t c k) by (try reflexivity; eauto));
        reflexivity. }
    split; [exact H|]. intros Hc. now rewrite H, to_int32_small.
Qed.

(** C5 at concrete inputs: a constant, and [3 * v + w]. *)
Lemma C5_ExtractCoefficient_witness :
  fst (ExtractCoefficient (IntImm Int32_t 5) ex_var_v init) = 0
  /\ fst (ExtractCoefficient ex_affine_plain ex_var_v init) = 3.
Proof.
  split.
  - apply (proj1 (proj2 (C5_ExtractCoefficient_result (IntImm Int32_t 5) ex_var_v init))).
    reflexivity.
  - apply (proj2 (proj2 (C5_ExtractCoefficient_result ex_affine_plain ex_var_v init))
             Int32_t 3 (VarE ex_var_w)).
    + left. reflexivity.
    + reflexivity.
    + reflexivity.
    + vm_compute. split; discriminate.
Defined.

End CoefficientExtractor_properties.

(** ** The access collector *)

Section BufferAccessExtractor_properties.
Import BufferAccessExtractor.

Lemma kind_of_visit_load buf idx m b :
  kind_of (visit_load buf idx m) b
  = if N.eqb (buffer_id buf) b then kind_transition (kind_of m b) ev_load
    else kind_of m b.
Proof.
  unfold visit_load, at_or_default, kind_of.
  destruct (N.eqb_spec (buffer_id buf) b) as [->|Hne].
  - destruct (m !! b) as [[key acc]|] eqn:E; simpl;
      [destruct (BufferAccess.acc_type acc)|]; simpl;
      rewrite lookup_insert_eq; reflexivity.
  - destruct (m !! buffer_id buf) as [[key acc]|]; simpl;
      [destruct (is_kReadWrite _)|]; rewrite lookup_insert_ne by assumption;
      reflexivity.
Qed.

Lemma fold_left_app_events (l1 l2 : list AccessEvent) k :
  fold_left kind_transition (l1 ++ l2) k
  = fold_left kind_transition l2 (fold_left kind_transition l1 k).
Proof. apply fold_left_app. Qed.

Lemma load_events_app b (l1 l2 : list Buffer) :
  map (fun _ : Buffer => ev_load) (List.filter (fun buf => N.eqb (buffer_id buf) b) (l1 ++ l2))
  = map (fun _ => ev_load) (List.filter (fun buf => N.eqb (buffer_id buf) b) l1)
    ++ map (fun _ => ev_load) (List.filter (fun buf => N.eqb (buffer_id buf) b) l2).
Proof. now rewrite List.filter_app, map_app. Qed.

(** The kind of a buffer after the visit of a list of expressions *)
Lemma kind_of_fold (idx : list PrimExpr) b :
  List.Forall (fun e => forall m,
     kind_of (VisitExpr e m) b
     = fold_left kind_transition (load_events b e) (kind_of m b)) idx ->
  forall m,
    kind_of (fold_left (fun m x => VisitExpr x m) idx m) b
    = fold_left kind_transition
        (map (fun _ => ev_load)
           (List.filter (fun buf => N.eqb (buffer_id buf) b) (flat_map loaded_buffers idx)))
        (kind_of m b).
Proof.
  induction 1 as [|e idx He _ IH]; intros m; simpl; [reflexivity|].
  rewrite IH, He, load_events_app, fold_left_app. reflexivity.
Qed.

Lemma kind_of_VisitExpr e b :
  forall m,
    kind_of (VisitExpr e m) b
    = fold_left kind_transition (load_events b e) (kind_of m b).
Proof.
  unfold load_events.
  induction e as [v|t z|t q|t e IH|op a b0 IHa IHb|a IH|c tv fv IHc IHt IHf
                 |buf idx IH|t op args IH] using PrimExpr_nested_ind;
    intros m; simpl; try reflexivity.
  - apply IH.
  - now rewrite IHb, IHa, load_events_app, fold_left_app.
  - apply IH.
  - now rewrite IHf, IHt, IHc, !load_events_app, !fold_left_app.
  - rewrite (kind_of_fold idx b IH), kind_of_visit_load.
    destruct (N.eqb (buffer_id buf) b); reflexivity.
  - apply (kind_of_fold args b IH).
Qed.

Lemma visit_load_ReadWrite buf idx m b :
  kind_of m b = kReadWrite -> visit_load buf idx m !! b = m !! b.
Proof.
  unfold visit_load, at_or_default, kind_of. intros Hk.
  destruct (N.eqb_spec (buffer_id buf) b) as [->|Hne].
  - destruct (m !! b) as [[key [k ix]]|] eqn:E; simpl in *; [|discriminate].
    subst k. simpl. now rewrite lookup_insert_eq.
  - destruct (m !! buffer_id buf) as [[key acc]|]; simpl;
      [destruct (is_kReadWrite _)|]; now rewrite lookup_insert_ne.
Qed.

Lemma kind_of_lookup_eq (m m' : BufferMap BufferAccess.t) b :
  m' !! b = m !! b -> kind_of m' b = kind_of m b.
Proof. unfold kind_of. now intros ->. Qed.

Lemma VisitExpr_ReadWrite e b :
  forall m, kind_of m b = kReadWrite -> VisitExpr e m !! b = m !! b.
Proof.
  induction e as [v|t z|t q|t e IH|op a b0 IHa IHb|a IH|c tv fv IHc IHt IHf
                 |buf idx IH|t op args IH] using PrimExpr_nested_ind;
    intros m Hk; simpl; try reflexivity.
  - now apply IH.
  - rewrite IHb, IHa; auto. rewrite <- Hk. apply kind_of_lookup_eq. now apply IHa.
  - now apply IH.
  - assert (Hc : kind_of (VisitExpr c m) b = kReadWrite).
    { rewrite <- Hk. apply kind_of_lookup_eq. now apply IHc. }
    assert (Ht : kind_of (VisitExpr tv (VisitExpr c m)) b = kReadWrite).
    { rewrite <- Hc. apply kind_of_lookup_eq. now apply IHt. }
    rewrite IHf, IHt, IHc; auto.
  - assert (H0 : visit_load buf idx m !! b = m !! b) by now apply visit_load_ReadWrite.
    rewrite <- H0.
    assert (Hk0 : kind_of (visit_load buf idx m) b = kReadWrite).
    { rewrite <- Hk. now apply kind_of_lookup_eq. }
    clear H0 Hk. revert Hk0. generalize (visit_load buf idx m). clear m.
    induction IH as [|e idx He _ IHl]; intros m Hk; simpl; [reflexivity|].
    rewrite IHl.
    + now apply He.
    + rewrite <- Hk. apply kind_of_lookup_eq. now apply He.
  - revert m Hk.
    induction IH as [|e args He _ IHl]; intros m Hk; simpl; [reflexivity|].
    rewrite IHl.
    + now apply He.
    + rewrite <- Hk. apply kind_of_lookup_eq. now apply He.
Qed.

Lemma kind_of_InsertAccess_empty buffer k indices b :
  kind_of (InsertAccess buffer k indices ∅) b
  = if N.eqb (buffer_id buffer) b then k else kUnknownRW.
Proof.
  unfold InsertAccess, at_or_default, kind_of. rewrite lookup_empty. simpl.
  destruct (N.eqb_spec (buffer_id buffer) b) as [->|Hne].
  - now rewrite lookup_insert_eq.
  - rewrite lookup_insert_ne by assumption. now rewrite lookup_empty.
Qed.

(** C6: for every store, the access kind of every buffer is the result of
    running the transition table of the specification over the events of the
    store (the store itself, then the loads of its value in visit order); each
    load moves the kind of its buffer by the load column of the table; and
    once the kind of a buffer is ReadWrite, reading any expression leaves its
    kind and its list of index tuples as they are. *)
Theorem C6_access_kind_transitions :
  forall (buffer : Buffer) (indices : list PrimExpr) (value : PrimExpr),
    (forall b : N,
        kind_of (PerStoreFeatureExtractor.store_accesses buffer value indices) b
        = fold_left kind_transition (store_events b buffer value) kUnknownRW)
    /\ (forall (m : BufferMap BufferAccess.t) (buf : Buffer) (idx : list PrimExpr) (b : N),
          kind_of (visit_load buf idx m) b
          = if N.eqb (buffer_id buf) b then kind_transition (kind_of m b) ev_load
            else kind_of m b)
    /\ (forall (m : BufferMap BufferAccess.t) (e : PrimExpr) (b : N),
          kind_of m b = kReadWrite ->
          kind_of (ExtractReads e m) b = kReadWrite
          /\ indices_of (ExtractReads e m) b = indices_of m b).
Proof.
  intros buffer indices value. split; [|split].
  - intros b. unfold PerStoreFeatureExtractor.store_accesses, ExtractReads, store_events.
    rewrite kind_of_VisitExpr, kind_of_InsertAccess_empty, fold_left_app.
    destruct (N.eqb (buffer_id buffer) b); reflexivity.
  - intros. apply kind_of_visit_load.
  - intros m e b Hk. unfold ExtractReads.
    pose proof (VisitExpr_ReadWrite e b m Hk) as H.
    split.
    + rewrite <- Hk. now apply kind_of_lookup_eq.
    + unfold indices_of. now rewrite H.
Qed.

End BufferAccessExtractor_properties.

(** ** The sort of buf_order *)

Section Sorting.
Variable cmp : nat -> nat -> bool.
Hypothesis cmp_asym : forall x y, cmp x y = true -> cmp y x = false.

Lemma sort_insert_Permutation x l : Permutation (sort_insert cmp x l) (x :: l).
Proof.
  induction l as [|y r IH]; simpl; [reflexivity|].
  destruct (cmp x y); [reflexivity|].
  rewrite IH. apply perm_swap.
Qed.

Lemma std_sort_Permutation l : Permutation (std_sort cmp l) l.
Proof.
  induction l as [|x l IH]; simpl; [reflexivity|].
  fold (std_sort cmp l). rewrite sort_insert_Permutation. now constructor.
Qed.

Lemma sort_insert_Sorted x l :
  Sorted (fun a b => cmp b a = false) l ->
  Sorted (fun a b => cmp b a = false) (sort_insert cmp x l).
Proof.
  induction 1 as [|y r Hs IH Hd]; simpl.
  - repeat constructor.
  - destruct (cmp x y) eqn:E.
    + constructor; [now constructor|]. constructor. now apply cmp_asym.
    + constructor; [exact IH|].
      destruct r as [|z r]; simpl.
      * now constructor.
      * destruct (cmp x z); constructor; [exact E|].
        now inversion Hd.
Qed.

Lemma std_sort_Sorted l : Sorted (fun a b => cmp b a = false) (std_sort cmp l).
Proof.
  induction l as [|x l IH]; simpl; [constructor|].
  now apply sort_insert_Sorted.
Qed.
End Sorting.

Lemma buf_order_cmp_asym keys x y :
  buf_order_cmp keys x y = true -> buf_order_cmp keys y x = false.
Proof.
  unfold buf_order_cmp.
  destruct (keys !! x) as [[lx bx]|], (keys !! y) as [[ly by_]|]; simpl; try discriminate.
  intros H. apply orb_true_iff in H as [H|H].
  - unfold fgt in *. rewrite (flt_asym _ _ H). simpl.
    destruct (feq ly lx) eqn:E; [|reflexivity].
    apply feq_not_flt in E as [E1 E2]. congruence.
  - apply andb_true_iff in H as [He Hb]. unfold fgt in *.
    destruct (feq_not_flt _ _ He) as [E1 E2]. rewrite E1. simpl.
    rewrite (flt_asym _ _ Hb). apply andb_false_r.
Qed.

Lemma buf_order_cmp_key_before feas i j a b :
  feas !! i = Some a -> feas !! j = Some b ->
  buf_order_cmp (buf_order_keys feas) i j = key_before a b.
Proof.
  intros Hi Hj. unfold buf_order_cmp, buf_order_keys, key_before.
  change (map ?f feas) with (f <$> feas).
  now rewrite !list_lookup_fmap, Hi, Hj.
Qed.

(** ** Lists read through an index permutation *)

Lemma omap_lookup_seq_from {X : Type} (pre l : list X) :
  omap (fun i => (pre ++ l) !! i) (seq (length pre) (length l)) = l.
Proof.
  revert pre. induction l as [|x l IH]; intros pre; [reflexivity|].
  simpl. rewrite list_lookup_middle by reflexivity. f_equal.
  specialize (IH (pre ++ [x])).
  rewrite <- app_assoc, length_app in IH. simpl in IH.
  now rewrite Nat.add_1_r in IH.
Qed.

Lemma omap_lookup_seq {X : Type} (l : list X) :
  omap (fun i => l !! i) (seq 0 (length l)) = l.
Proof. apply (omap_lookup_seq_from [] l). Qed.

Lemma flat_map_lookup {X Y : Type} (f : X -> list Y) (l : list X) (idxs : list nat) :
  flat_map (fun idx => match l !! idx with Some a => f a | None => [] end) idxs
  = flat_map f (omap (fun i => l !! i) idxs).
Proof.
  induction idxs as [|i idxs IH]; [reflexivity|].
  csimpl. destruct (l !! i); simpl; now rewrite IH.
Qed.

Lemma omap_take_total {X Y : Type} (f : X -> option Y) (l : list X) (k : nat) :
  List.Forall (fun x => is_Some (f x)) l ->
  omap f (take k l) = take k (omap f l).
Proof.
  intros H. revert k. induction H as [|x l [y Hy] _ IH]; intros [|k]; csimpl;
    try reflexivity.
  rewrite Hy. simpl. now rewrite IH.
Qed.

Lemma omap_length_total {X Y : Type} (f : X -> option Y) (l : list X) :
  List.Forall (fun x => is_Some (f x)) l -> length (omap f l) = length l.
Proof.
  induction 1 as [|x l [y Hy] _ IH]; csimpl; [reflexivity|].
  rewrite Hy. simpl. now rewrite IH.
Qed.

Lemma omap_Sorted {X Y : Type} (f : X -> option Y) (R : X -> X -> Prop)
    (R' : Y -> Y -> Prop) (l : list X) :
  (forall x y x' y', f x = Some x' -> f y = Some y' -> R x y -> R' x' y') ->
  List.Forall (fun x => is_Some (f x)) l ->
  Sorted R l -> Sorted R' (omap f l).
Proof.
  intros HR Hl Hs. induction Hs as [|x l Hs IH Hd]; csimpl; [constructor|].
  inversion Hl as [|? ? [x' Hx] Hl']; subst. rewrite Hx. simpl.
  constructor; [now apply IH|].
  destruct Hd as [|y l Hxy]; csimpl; [constructor|].
  inversion Hl' as [|? ? [y' Hy] _]; subst. rewrite Hy. simpl.
  constructor. eapply HR; eauto.
Qed.

Lemma Sorted_StronglySorted_on {X : Type} (P : X -> Prop) (R : X -> X -> Prop)
    (l : list X) :
  (forall a b c, P a -> P b -> P c -> R a b -> R b c -> R a c) ->
  List.Forall P l -> Sorted R l -> StronglySorted R l.
Proof.
  intros Htr Hl Hs. induction Hs as [|x l Hs IH Hd]; [constructor|].
  inversion Hl as [|? ? Hx Hl']; subst.
  specialize (IH Hl'). constructor; [exact IH|].
  destruct Hd as [|y l Hxy]; [constructor|].
  inversion IH as [|? ? _ Hall]; subst.
  inversion Hl' as [|? ? Hy Hl'']; subst.
  constructor; [exact Hxy|].
  rewrite List.Forall_forall in Hall, Hl'' |- *.
  intros z Hz. eapply (Htr x y z); eauto.
Qed.

Lemma take_Sorted {X : Type} (R : X -> X -> Prop) (l : list X) k :
  Sorted R l -> Sorted R (take k l).
Proof.
  intros Hs. revert k. induction Hs as [|x l Hs IH Hd]; intros [|k]; simpl;
    try constructor; auto.
  destruct Hd as [|y l Hxy]; destruct k; simpl; constructor; auto.
Qed.

(** ** The order of the keys *)

Lemma key_order_trans a b c :
  key_not_nan a -> key_not_nan b -> key_not_nan c ->
  key_before b a = false -> key_before c b = false -> key_before c a = false.
Proof.
  unfold key_not_nan, key_before, fgt.
  intros [Hla Hba] [Hlb Hbb] [Hlc Hbc] H1 H2.
  apply orb_false_iff in H1 as [H1 H1']. apply orb_false_iff in H2 as [H2 H2'].
  apply orb_false_iff.
  set (la := BufferAccessFeature.lines a) in *.
  set (lb := BufferAccessFeature.lines b) in *.
  set (lc := BufferAccessFeature.lines c) in *.
  set (ba := BufferAccessFeature.bytes a) in *.
  set (bb := BufferAccessFeature.bytes b) in *.
  set (bc := BufferAccessFeature.bytes c) in *.
  assert (Hfin : forall x y, flt y x = true -> flt x y = false /\ feq y x && flt ba bc = false).
  { intros x y Hlt. split; [now apply flt_asym|].
    destruct (feq y x) eqn:E; [|reflexivity].
    apply feq_not_flt in E as [E _]. congruence. }
  destruct (float_trichotomy la lb Hla Hlb) as [Hab|[Hab|Hab]]; [congruence| |];
  destruct (float_trichotomy lb lc Hlb Hlc) as [Hbc'|[Hbc'|Hbc']]; try congruence.
  - (* la = lb = lc *)
    rewrite (feq_sym _ _ Hab) in H1'. rewrite (feq_sym _ _ Hbc') in H2'.
    simpl in H1', H2'.
    assert (Hac : feq la lc = true) by (eapply feq_trans; eauto).
    destruct (feq_not_flt _ _ Hac) as [E1 E2]. split; [exact E1|].
    rewrite (feq_sym _ _ Hac). simpl.
    destruct (float_trichotomy ba bb Hba Hbb) as [F|[F|F]]; [congruence| |];
    destruct (float_trichotomy bb bc Hbb Hbc) as [G|[G|G]]; try congruence.
    + assert (Hq : feq ba bc = true) by (eapply feq_trans; eauto).
      apply (feq_not_flt _ _ Hq).
    + apply flt_asym. eapply flt_feq_r; eauto. now apply feq_sym.
    + apply flt_asym. eapply flt_feq_l; eauto. now apply feq_sym.
    + apply flt_asym. eapply flt_trans; eauto.
  - (* la = lb > lc *)
    apply Hfin. eapply flt_feq_r; eauto. now apply feq_sym.
  - (* la > lb = lc *)
    apply Hfin. eapply flt_feq_l; eauto. now apply feq_sym.
  - apply Hfin. eapply flt_trans; eauto.
Qed.

(** ** The emitters *)

Lemma one_hot_length last code : length (one_hot last code) = Z.to_nat (last + 1).
Proof. unfold one_hot. now rewrite length_map, length_seq. Qed.

Lemma emit_access_length a : length (emit_access a) = 18%nat.
Proof. unfold emit_access. rewrite !length_app, !one_hot_length. reflexivity. Qed.

Lemma emit_padding_zeros : emit_padding = repeat (FFin 0) 18.
Proof. reflexivity. Qed.

Lemma emit_compute_length f : length (emit_compute f) = 67%nat.
Proof.
  unfold emit_compute.
  rewrite !length_app, !one_hot_length, length_map, length_seq. reflexivity.
Qed.

Lemma emit_alloc_overall_length f : length (emit_alloc_overall f) = 7%nat.
Proof. reflexivity. Qed.

Lemma flat_map_length_const {X Y : Type} (f : X -> list Y) (l : list X) (k : nat) :
  (forall x, length (f x) = k) -> length (flat_map f l) = (k * length l)%nat.
Proof.
  intros H. induction l as [|x l IH]; simpl; [lia|].
  rewrite length_app, H, IH. lia.
Qed.

Lemma take_min_length {X : Type} (l : list X) (a : nat) :
  take (Nat.min a (length l)) l = take a l.
Proof.
  destruct (Nat.le_gt_cases a (length l)) as [H|H].
  - now rewrite Nat.min_l.
  - rewrite Nat.min_r by lia. rewrite !take_ge by lia. reflexivity.
Qed.

Lemma buf_order_keys_length feas : length (buf_order_keys feas) = length feas.
Proof. apply length_map. Qed.

Lemma sorted_indices_valid feas :
  List.Forall (fun i => is_Some (feas !! i))
    (std_sort (buf_order_cmp (buf_order_keys feas)) (seq 0 (length (buf_order_keys feas)))).
Proof.
  rewrite List.Forall_forall. intros i Hi.
  apply (Permutation_in _ (std_sort_Permutation _ _)) in Hi.
  apply in_seq in Hi. rewrite buf_order_keys_length in Hi.
  apply lookup_lt_is_Some. lia.
Qed.

Lemma sorted_access_feas_Permutation feas :
  Permutation (sorted_access_feas feas) feas.
Proof.
  unfold sorted_access_feas.
  rewrite (std_sort_Permutation _ _), buf_order_keys_length.
  now rewrite omap_lookup_seq.
Qed.

Lemma sorted_access_feas_Sorted feas :
  Sorted (fun a b => key_before b a = false) (sorted_access_feas feas).
Proof.
  unfold sorted_access_feas.
  eapply omap_Sorted; [|apply sorted_indices_valid|apply std_sort_Sorted].
  - intros i j a b Hi Hj H. cbv beta in H.
    now rewrite (buf_order_cmp_key_before feas j i b a Hj Hi) in H.
  - apply buf_order_cmp_asym.
Qed.

Lemma emit_access_feas_eq max_n_bufs feas :
  0 <= max_n_bufs ->
  emit_access_feas max_n_bufs feas
  = flat_map emit_access (take (Z.to_nat max_n_bufs) (sorted_access_feas feas))
    ++ flat_map (fun _ => repeat (FFin 0) 18)
         (seq 0 (Z.to_nat max_n_bufs
                 - length (take (Z.to_nat max_n_bufs) (sorted_access_feas feas)))).
Proof.
  intros Hn. unfold emit_access_feas, sorted_buf_order.
  pose proof (sorted_indices_valid feas) as Hv.
  assert (Hlen : length (std_sort (buf_order_cmp (buf_order_keys feas))
                          (seq 0 (length (buf_order_keys feas)))) = length feas).
  { rewrite (Permutation_length (std_sort_Permutation _ _)), length_seq.
    apply buf_order_keys_length. }
  assert (Hlo : length (sorted_access_feas feas) = length feas).
  { unfold sorted_access_feas. rewrite omap_length_total by exact Hv. exact Hlen. }
  rewrite flat_map_lookup, omap_take_total by exact Hv.
  fold (sorted_access_feas feas).
  rewrite Hlen.
  replace (Z.to_nat (Z.min max_n_bufs (Z.of_nat (length feas))))
    with (Nat.min (Z.to_nat max_n_bufs) (length (sorted_access_feas feas))) by lia.
  rewrite take_min_length. f_equal.
  rewrite length_take, Hlo.
  replace (Z.to_nat (max_n_bufs - Z.min max_n_bufs (Z.of_nat (length feas))))
    with (Z.to_nat max_n_bufs - Nat.min (Z.to_nat max_n_bufs) (length feas))%nat by lia.
  reflexivity.
Qed.

Lemma emit_access_feas_length max_n_bufs feas :
  0 <= max_n_bufs ->
  length (emit_access_feas max_n_bufs feas) = (18 * Z.to_nat max_n_bufs)%nat.
Proof.
  intros Hn. rewrite emit_access_feas_eq by assumption.
  rewrite length_app, (flat_map_length_const _ _ 18 emit_access_length).
  rewrite (flat_map_length_const _ _ 18) by (intros; reflexivity).
  rewrite length_seq, length_take. lia.
Qed.

(** C7: for every list of access features and every [max_n_bufs] that is not
    negative, the access part of the vector is [max_n_bufs] slots of 18 values:
    the slots of the first [max_n_bufs] features of a permutation of the list
    that is sorted by lines descending, ties broken by bytes descending (no
    feature is strictly before its predecessor; and, when no key is NaN, no
    feature is strictly before any earlier one), the features beyond
    [max_n_bufs] being dropped, followed by slots of 18 zeros. *)
Theorem C7_access_section :
  forall (max_n_bufs : Z) (access_feas : list BufferAccessFeature.t),
    0 <= max_n_bufs ->
    exists order : list BufferAccessFeature.t,
      Permutation order access_feas
      /\ Sorted (fun a b => key_before b a = false) order
      /\ (List.Forall key_not_nan access_feas ->
          StronglySorted (fun a b => key_before b a = false) order)
      /\ emit_access_feas max_n_bufs access_feas
         = flat_map emit_access (take (Z.to_nat max_n_bufs) order)
           ++ flat_map (fun _ => repeat (FFin 0) 18)
                (seq 0 (Z.to_nat max_n_bufs
                        - length (take (Z.to_nat max_n_bufs) order)))
      /\ (forall a, length (emit_access a) = 18%nat)
      /\ length (emit_access_feas max_n_bufs access_feas)
         = (18 * Z.to_nat max_n_bufs)%nat.
Proof.
  intros n feas Hn. exists (sorted_access_feas feas).
  split; [apply sorted_access_feas_Permutation|].
  split; [apply sorted_access_feas_Sorted|].
  split.
  - intros Hnan.
    apply (Sorted_StronglySorted_on key_not_nan).
    + intros a b c Ha Hb Hc Hab Hbc. cbv beta in *.
      now apply (key_order_trans a b c).
    + rewrite List.Forall_forall in Hnan |- *. intros a Ha. apply Hnan.
      eapply Permutation_in; [apply sorted_access_feas_Permutation|exact Ha].
    + apply sorted_access_feas_Sorted.
  - split; [now apply emit_access_feas_eq|].
    split; [apply emit_access_length|now apply emit_access_feas_length].
Qed.

(** C7 at [max_n_bufs = 3] and two access features: two real slots and one
    slot of zeros. *)
Lemma C7_access_section_witness :
  exists order : list BufferAccessFeature.t,
    Permutation order ex_access_feas
    /\ Sorted (fun a b => key_before b a = false) order
    /\ (List.Forall key_not_nan ex_access_feas ->
        StronglySorted (fun a b => key_before b a = false) order)
    /\ emit_access_feas 3 ex_access_feas
       = flat_map emit_access (take (Z.to_nat 3) order)
         ++ flat_map (fun _ => repeat (FFin 0) 18)
              (seq 0 (Z.to_nat 3 - length (take (Z.to_nat 3) order)))
    /\ (forall a, length (emit_access a) = 18%nat)
    /\ length (emit_access_feas 3 ex_access_feas) = (18 * Z.to_nat 3)%nat.
Proof. apply (C7_access_section 3 ex_access_feas). lia. Defined.

Lemma emit_feature_set_length max_n_bufs fea :
  0 <= max_n_bufs ->
  length (emit_feature_set max_n_bufs fea) = Z.to_nat (67 + max_n_bufs * 18 + 7).
Proof.
  intros Hn. unfold emit_feature_set.
  rewrite !length_app, emit_compute_length, emit_alloc_overall_length,
    emit_access_feas_length by assumption. lia.
Qed.

Lemma GetPerStoreFeatureName_length max_n_bufs :
  0 <= max_n_bufs ->
  length (GetPerStoreFeatureName max_n_bufs) = Z.to_nat (67 + max_n_bufs * 18 + 7).
Proof.
  intros Hn. unfold GetPerStoreFeatureName, pos_names.
  rewrite !length_app, !length_map, length_seq.
  rewrite (flat_map_length_const _ _ 18) by (intros; reflexivity).
  rewrite length_seq. simpl. lia.
Qed.

Lemma emit_features_length max_n_bufs (m : BufferMap FeatureSet.t) :
  0 <= max_n_bufs ->
  length (emit_features max_n_bufs m)
  = (1 + size m * Z.to_nat (67 + max_n_bufs * 18 + 7))%nat.
Proof.
  intros Hn. unfold emit_features. simpl. f_equal.
  rewrite (flat_map_length_const _ _ (Z.to_nat (67 + max_n_bufs * 18 + 7))).
  - rewrite length_map_to_list. lia.
  - intros x. now apply emit_feature_set_length.
Qed.

(** The vector of the whole program: the count, then one segment per entry of
    [buffer_features]. *)
Lemma emit_features_segments max_n_bufs (m : BufferMap FeatureSet.t) :
  0 <= max_n_bufs ->
  exists segments : list (list cfloat),
    emit_features max_n_bufs m
    = of_int (Z.of_nat (length segments)) :: concat segments
    /\ length segments = size m
    /\ List.Forall (fun seg => length seg = Z.to_nat (67 + max_n_bufs * 18 + 7)) segments.
Proof.
  intros Hn.
  exists (map (fun x => emit_feature_set max_n_bufs (snd (snd x))) (map_to_list m)).
  split; [|split].
  - unfold emit_features. rewrite length_map, length_map_to_list.
    f_equal. apply flat_map_concat_map.
  - rewrite length_map. apply length_map_to_list.
  - rewrite List.Forall_forall. intros seg Hseg.
    apply in_map_iff in Hseg as (x & <- & _). now apply emit_feature_set_length.
Qed.

(** C1, as stated, fails: with [max_n_bufs = 0] the vector of a feature set
    and the name vector have 74 entries, not [65 + 0 * 18 + 7 = 72]. *)
Lemma C1_length_counterexample :
  length (emit_feature_set 0 FeatureSet.default) <> Z.to_nat (65 + 0 * 18 + 7)
  /\ length (GetPerStoreFeatureName 0) <> Z.to_nat (65 + 0 * 18 + 7).
Proof. vm_compute. split; discriminate. Qed.

(** C1 (amended): for every [max_n_bufs] that is not negative, the vector
    GetPerStoreFeature emits for one feature set has exactly
    [67 + max_n_bufs * 18 + 7] entries, GetPerStoreFeatureName emits as many
    names, and the whole output is one leading count followed by that many
    segments of this length. *)
Theorem C1_feature_vector_length :
  forall max_n_bufs : Z,
    0 <= max_n_bufs ->
    (forall fea_set : FeatureSet.t,
        length (emit_feature_set max_n_bufs fea_set)
        = Z.to_nat (67 + max_n_bufs * 18 + 7))
    /\ length (GetPerStoreFeatureName max_n_bufs) = Z.to_nat (67 + max_n_bufs * 18 + 7)
    /\ (forall (A : AnalyzerOps) (is_gpu0 : bool) (stmt : Stmt) (cache_line_size : Z)
               (ret : list cfloat),
          GetPerStoreFeature A is_gpu0 stmt cache_line_size max_n_bufs = Some ret ->
          exists segments : list (list cfloat),
            ret = of_int (Z.of_nat (length segments)) :: concat segments
            /\ List.Forall
                 (fun seg => length seg = Z.to_nat (67 + max_n_bufs * 18 + 7))
                 segments).
Proof.
  intros n Hn. split; [|split].
  - intros fea. now apply emit_feature_set_length.
  - now apply GetPerStoreFeatureName_length.
  - intros A g stmt cl ret H. unfold GetPerStoreFeature in H.
    destruct (PerStoreFeatureExtractor.VisitStmt A cl stmt _) as [e|]; [|discriminate].
    simpl in H. injection H as <-.
    destruct (emit_features_segments n (PerStoreFeatureExtractor.buffer_features e) Hn)
      as (segments & Heq & _ & Hall).
    exists segments. auto.
Qed.

(** C1 at [max_n_bufs = 5]: 164 entries per feature set. *)
Lemma C1_feature_vector_length_witness :
  (forall fea_set : FeatureSet.t,
      length (emit_feature_set 5 fea_set) = Z.to_nat (67 + 5 * 18 + 7))
  /\ length (GetPerStoreFeatureName 5) = Z.to_nat (67 + 5 * 18 + 7)
  /\ (forall (A : AnalyzerOps) (is_gpu0 : bool) (stmt : Stmt) (cache_line_size : Z)
             (ret : list cfloat),
        GetPerStoreFeature A is_gpu0 stmt cache_line_size 5 = Some ret ->
        exists segments : list (list cfloat),
          ret = of_int (Z.of_nat (length segments)) :: concat segments
          /\ List.Forall (fun seg => length seg = Z.to_nat (67 + 5 * 18 + 7)) segments).
Proof. apply (C1_feature_vector_length 5). lia. Defined.

(** ** Strides and cache lines *)

(** The lines of the example with the reduce_ratio the source computes (4) *)
Lemma ex_lines_code :
  PerStoreFeatureExtractor.compute_lines (of_int 384) 4 1 4 64 = FFin 6.
Proof.
  unfold PerStoreFeatureExtractor.compute_lines, of_int, fmax, fmin, fmul, fdiv, flt.
  real_decide. cbn iota. real_decide. cbn iota. real_decide. f_equal. lra.
Qed.

(** The lines of the example with the product of the skipped extents (6) *)
Lemma ex_lines_claim :
  PerStoreFeatureExtractor.compute_lines (of_int 384) 6 1 4 64 = FFin 4.
Proof.
  unfold PerStoreFeatureExtractor.compute_lines, of_int, fmax, fmin, fmul, fdiv, flt.
  real_decide. cbn iota. real_decide. cbn iota. real_decide. f_equal. lra.
Qed.

(** The search multiplies [reduce_ratio] by the extent of [back], the innermost
    loop, once for every loop it skips. *)
Lemma stride_search_reduce_ratio indices int_shape back rstack r0 stride rr i :
  PerStoreFeatureExtractor.stride_search indices int_shape back rstack r0
  = Some (stride, rr, i) ->
  rr = fold_left (fun p _ => to_int64 (p * GetLoopExtent back))
         (skipped_loops indices int_shape (map snd rstack)) r0.
Proof.
  revert r0. induction rstack as [|[n p_for] rest IH]; intros r0 H; simpl in *.
  - now injection H as _ <- _.
  - destruct (ComputeStride indices int_shape (loop_var p_for)) as [[|p|p]|];
      simpl in H; try discriminate.
    + now apply IH.
    + now injection H as _ <- _.
    + now injection H as _ <- _.
Qed.

(** The lines feature the walk of the whole nest leaves for the access [C[k]] *)
Lemma ex_nest_lines :
  (s ← PerStoreFeatureExtractor.VisitStmt interval_analyzer 64 ex_nest_kji
         (PerStoreFeatureExtractor.init false);
   x ← PerStoreFeatureExtractor.buffer_features s !! buffer_id ex_buffer_C;
   Some (BufferAccessFeature.lines <$> FeatureSet.access_feas (snd x)))
  = Some [FFin 6].
Proof. vm_compute. decide_reals. do 3 f_equal. field. Qed.

(** C2: the code at the failing input.  Under
    [for k in 0..64: for j in 0..3: for i in 0..2] with the access [C[k]]
    (4-byte elements, 64-byte cache lines) the search skips the loops [i] and
    [j] and stops at [k] with stride 1.  It leaves [reduce_ratio = 2 * 2 = 4]
    (the extent of the innermost loop, once per skipped loop), where the
    product of the extents of the skipped loops is [2 * 3 = 6]; so lines is
    [384 / 4 * min(1, 4 / 64) = 6], also in the feature set the walk of the
    nest leaves, where the claim gives [384 / 6 * min(1, 4 / 64) = 4]. *)
Theorem C2_reduce_ratio_innermost_extent :
  PerStoreFeatureExtractor.stride_search [[VarE ex_var_k]] [64]
    (ex_loop 3 ex_var_i 2) (PerStoreFeatureExtractor.rev_stack ex_stack_kji) 1
  = Some (1, 4, 0)
  /\ skipped_extent_product [[VarE ex_var_k]] [64] ex_stack_kji = 6
  /\ PerStoreFeatureExtractor.compute_lines (of_int 384) 4 1 4 64 = FFin 6
  /\ PerStoreFeatureExtractor.compute_lines (of_int 384) 6 1 4 64 = FFin 4
  /\ (s ← PerStoreFeatureExtractor.VisitStmt interval_analyzer 64 ex_nest_kji
             (PerStoreFeatureExtractor.init false);
       x ← PerStoreFeatureExtractor.buffer_features s !! buffer_id ex_buffer_C;
       Some (BufferAccessFeature.lines <$> FeatureSet.access_feas (snd x)))
      = Some [FFin 6].
Proof.
  split; [vm_compute; reflexivity|].
  split; [vm_compute; reflexivity|].
  split; [apply ex_lines_code|].
  split; [apply ex_lines_claim|apply ex_nest_lines].
Qed.

(** ** The reuse classifier *)

Lemma fnonneg_of_int z : 0 <= z -> fnonneg (of_int z).
Proof. intros H. simpl. now apply IZR_le. Qed.

Lemma fnonneg_fadd x y : fnonneg x -> fnonneg y -> fnonneg (fadd x y).
Proof. destruct x, y; simpl; try tauto. lra. Qed.

Lemma fnonneg_fmin x y : fnonneg x -> fnonneg y -> fnonneg (fmin x y).
Proof. unfold fmin. now destruct (flt y x). Qed.

Lemma fnonneg_fmul_int x z : fnonneg x -> 0 <= z -> fnonneg (fmul x (of_int z)).
Proof.
  destruct x; simpl; try tauto. intros Hr Hz. apply IZR_le in Hz.
  now apply Rmult_le_pos.
Qed.

Lemma fnonneg_fdiv_int x z : fnonneg x -> 1 <= z -> fnonneg (fdiv x (of_int z)).
Proof.
  destruct x; simpl; try tauto. intros Hr Hz. apply IZR_le in Hz.
  replace (Reqb (IZR z) 0) with false by (symmetry; apply Reqb_false; lra).
  simpl. apply Rmult_le_pos; [exact Hr|].
  left. apply Rinv_0_lt_compat. lra.
Qed.

Lemma fnonneg_FLT_MAX : fnonneg FLT_MAX.
Proof. simpl. apply IZR_le. vm_compute. discriminate. Qed.

Lemma touched_bytes_nonneg e : entry_wf e -> 0 <= touched_bytes e.
Proof.
  destruct e as [[k n] b]. unfold entry_wf, touched_bytes. simpl.
  intros (Hn & Hb & Hp). rewrite to_int64_small; [nia|].
  unfold INT64_MIN, INT64_MAX in *. nia.
Qed.

Lemma single_bytes_nonneg e : entry_wf e -> 0 <= single_bytes e.
Proof.
  destruct e as [[k n] b]. unfold entry_wf, single_bytes. simpl.
  intros (Hn & Hb & Hp). rewrite Z.mul_1_l || idtac.
  destruct b; try lia;
  rewrite to_int32_small; unfold INT32_MIN, INT32_MAX in *; lia.
Qed.

Lemma sum_touched_nonneg weight (table : gmap N (Buffer * list RegionEntry)) :
  (forall e, entry_wf e -> 0 <= weight e) ->
  (forall b x, table !! b = Some x -> List.Forall entry_wf (snd x)) ->
  fnonneg (sum_touched weight table).
Proof.
  intros Hw Ht. unfold sum_touched.
  assert (Hl : List.Forall (fun iter => List.Forall entry_wf (snd (snd iter)))
                 (map_to_list table)).
  { rewrite List.Forall_forall. intros [b x] Hin.
    apply list_elem_of_In, elem_of_map_to_list in Hin. simpl. eauto. }
  assert (H0 : fnonneg fzero) by (simpl; lra).
  revert H0. generalize fzero.
  induction Hl as [|iter l Hi _ IH]; intros acc Hacc; simpl; [exact Hacc|].
  apply IH. clear IH. revert acc Hacc.
  induction Hi as [|e es He _ IHe]; intros acc Hacc; simpl; [exact Hacc|].
  apply IHe. apply fnonneg_fadd; [exact Hacc|]. apply fnonneg_of_int. auto.
Qed.

Lemma fold_fmin_nonneg (entries : list RegionEntry) acc :
  List.Forall entry_wf entries -> fnonneg acc ->
  fnonneg (fold_left (fun m acc_info => fmin m (of_int (snd (fst acc_info)))) entries acc).
Proof.
  intros H. revert acc. induction H as [|e es He _ IH]; intros acc Hacc; simpl;
    [exact Hacc|].
  apply IH. apply fnonneg_fmin; [exact Hacc|]. apply fnonneg_of_int. apply He.
Qed.

Lemma reuse_loop_nonneg buf indices regions rstack :
  regions_wf regions ->
  List.Forall (fun f => 1 <= GetLoopExtent f) rstack ->
  forall it by_ rt it' by' ct,
    fnonneg it -> (by_ = FFin (-1) \/ fnonneg by_) ->
    reuse_loop buf indices regions rstack it by_ = Some (rt, it', by', ct) ->
    fnonneg it' /\ fnonneg by' /\ fnonneg ct.
Proof.
  intros Hwf Hst. induction Hst as [|f rest Hf _ IH]; intros it by_ rt it' by' ct Hit Hby H;
    simpl in H.
  - injection H as _ <- <- <-. simpl. lra.
  - destruct (index_uses_var indices (loop_var f)).
    + destruct (regions !! node_id f) as [table|] eqn:Et; simpl in H; [|discriminate].
      destruct (table !! buffer_id buf) as [entry|] eqn:Ee; simpl in H; [|discriminate].
      assert (Hsum : fnonneg (sum_touched touched_bytes table)).
      { apply sum_touched_nonneg; [apply touched_bytes_nonneg|]. intros b x Hx.
        eapply Hwf; eauto. }
      destruct (0 <? to_int32 (Z.of_nat (length (snd entry))) - 1) eqn:Es.
      * injection H as _ <- <- <-. split; [|split].
        -- apply fnonneg_fdiv_int; [|exact Hf]. apply fold_fmin_nonneg.
           ++ eapply Hwf; eauto.
           ++ apply fnonneg_FLT_MAX.
        -- now apply fnonneg_fdiv_int.
        -- apply fnonneg_of_int. apply Z.ltb_lt in Es. lia.
      * eapply IH; [| |exact H].
        -- apply fnonneg_fmul_int; [exact Hit|lia].
        -- now right.
    + destruct Hby as [-> | Hby].
      * replace (flt (FFin (-1)) (of_int 0)) with true in H
          by (symmetry; simpl; apply Rltb_true; lra).
        destruct (regions !! node_id f) as [table|] eqn:Et; simpl in H; [|discriminate].
        injection H as _ <- <- <-. split; [exact Hit|]. split.
        -- apply sum_touched_nonneg; [apply single_bytes_nonneg|]. intros b x Hx.
           eapply Hwf; eauto.
        -- apply fnonneg_of_int. lia.
      * replace (flt by_ (of_int 0)) with false in H.
        2:{ symmetry. destruct by_; simpl in *; try tauto. apply Rltb_false. exact Hby. }
        simpl in H. injection H as _ <- <- <-.
        split; [exact Hit|]. split; [exact Hby|]. apply fnonneg_of_int. lia.
Qed.

Lemma reuse_loop_NoReuse buf indices regions rstack :
  forall it by_ it' by' ct,
    reuse_loop buf indices regions rstack it by_ = Some (kNoReuse, it', by', ct) ->
    it' = of_int 0 /\ by' = of_int 0 /\ ct = of_int 0.
Proof.
  induction rstack as [|f rest IH]; intros it by_ it' by' ct H; simpl in H.
  - injection H as <- <- <-. auto.
  - destruct (index_uses_var indices (loop_var f)).
    + destruct (regions !! node_id f) as [table|]; simpl in H; [|discriminate].
      destruct (table !! buffer_id buf) as [entry|]; simpl in H; [|discriminate].
      destruct (0 <? to_int32 (Z.of_nat (length (snd entry))) - 1); [discriminate|].
      eapply IH; eauto.
    + destruct (flt by_ (of_int 0)); simpl in H.
      * destruct (regions !! node_id f); simpl in H; discriminate.
      * discriminate.
Qed.

(** The extent of a dimension whose index has no known bound:
    [kPosInf - kNegInf + 1] wraps around to -1. *)
Lemma region_extent_unbounded : region_extent kNegInf kPosInf = -1.
Proof. reflexivity. Qed.

Lemma ex_reuse_AB :
  ComputeReuse ex_buffer_A [[IntImm Int32_t 0]] [ex_loop 1 ex_var_j 32] ex_regions_AB
  = Some (kLoopMultipleRead, FFin 1, FFin (0 + 4 + 4), FFin 32).
Proof. vm_compute. decide_reals. reflexivity. Qed.

Lemma ex_regions_AB_wf : regions_wf ex_regions_AB.
Proof.
  intros p table b x Hp Hb. unfold ex_regions_AB in Hp.
  apply lookup_singleton_Some in Hp as [_ <-].
  apply lookup_insert_Some in Hb as [[_ <-]|[_ Hb]].
  - repeat constructor; vm_compute; discriminate.
  - apply lookup_singleton_Some in Hb as [_ <-].
    repeat constructor; vm_compute; discriminate.
Qed.

Section Curve_properties.
Import PerStoreFeatureExtractor.

(** ** The arithmetic intensity curve *)

Lemma log2R_nonneg (x : R) : (1 <= x)%R -> (0 <= log2R x)%R.
Proof.
  intros Hx. unfold log2R.
  assert (H2 : (0 < ln 2)%R).
  { rewrite <- ln_1. apply ln_increasing; lra. }
  assert (Hl : (0 <= ln x)%R).
  { destruct Hx as [Hx| <-].
    - left. rewrite <- ln_1. apply ln_increasing; lra.
    - rewrite ln_1. lra. }
  apply Rmult_le_pos; [exact Hl|]. left. now apply Rinv_0_lt_compat.
Qed.

Lemma flog2_of_int_pos z :
  0 < z -> exists r, flog2 (of_int z) = FFin r /\ (0 <= r)%R.
Proof.
  intros Hz. assert (H1 : (1 <= IZR z)%R) by (apply IZR_le; lia).
  exists (log2R (IZR z)). split; [|now apply log2R_nonneg].
  unfold flog2, of_int.
  replace (Rltb (IZR z) 0) with false by (symmetry; apply Rltb_false; lra).
  replace (Reqb (IZR z) 0) with false by (symmetry; apply Reqb_false; lra).
  reflexivity.
Qed.

(** The sample points do not exceed the last element (by more than the
    tolerance) when the last element is a finite value that is not negative. *)
Lemma sample_point_le_last (l : list cfloat) (r : R) (i : nat) :
  List.last l FNaN = FFin r -> (0 <= r)%R -> (i < ARITH_INTENSITY_CURVE_SAMPLE_N)%nat ->
  flt (List.last l FNaN) (fsub (sample_point l i) (FFin (1 / 10000))) = false.
Proof.
  intros Hl Hr Hi. unfold sample_point. rewrite Hl. unfold of_int, fmul, fdiv.
  change (Z.of_nat ARITH_INTENSITY_CURVE_SAMPLE_N) with 10.
  replace (Reqb (IZR 10) 0) with false by (symmetry; apply Reqb_false; lra).
  simpl. apply Rltb_false.
  assert (Hk : (IZR (Z.of_nat i + 1) <= 10)%R).
  { apply IZR_le. unfold ARITH_INTENSITY_CURVE_SAMPLE_N in Hi. lia. }
  assert (Hk0 : (0 <= IZR (Z.of_nat i + 1))%R) by (apply IZR_le; lia).
  assert (Hm : (r * IZR (Z.of_nat i + 1) <= r * 10)%R) by (apply Rmult_le_compat_l; lra).
  lra.
Qed.

Lemma advance_pt_in_bounds (rest : list cfloat) (pt : nat) (x : cfloat) :
  rest <> [] ->
  flt (List.last rest FNaN) (fsub x (FFin (1 / 10000))) = false ->
  exists pt', advance_pt rest pt x = Some pt' /\ (pt <= pt' < pt + length rest)%nat.
Proof.
  revert pt. induction rest as [|v rest IH]; intros pt Hne Hlast; [congruence|].
  simpl. destruct (flt v (fsub x (FFin (1 / 10000)))) eqn:E.
  - destruct rest as [|w rest'].
    + simpl in Hlast. congruence.
    + destruct (IH (S pt)) as (pt' & Hpt & Hb); [discriminate|exact Hlast|].
      exists pt'. split; [exact Hpt|]. simpl in *. lia.
  - exists pt. split; [reflexivity|]. simpl. lia.
Qed.

Lemma last_drop {X : Type} (l : list X) (d : X) (n : nat) :
  (n < length l)%nat -> List.last (drop n l) d = List.last l d.
Proof.
  revert n. induction l as [|x l IH]; intros n Hn; simpl in Hn; [lia|].
  destruct n as [|n]; [reflexivity|].
  change (drop (S n) (x :: l)) with (drop n l).
  rewrite IH by lia. destruct l; [simpl in Hn; lia|reflexivity].
Qed.

Lemma interpolate_in_bounds (ops mem : list cfloat) (pt : nat) (x : cfloat) :
  length mem = length ops -> (pt < length ops)%nat ->
  is_Some (interpolate ops mem pt x).
Proof.
  intros Hlen Hpt. unfold interpolate.
  destruct pt as [|pt1].
  - destruct (lookup_lt_is_Some_2 ops 0%nat Hpt) as [c ->].
    destruct (lookup_lt_is_Some_2 mem 0%nat ltac:(lia)) as [m ->]. simpl. eauto.
  - destruct (lookup_lt_is_Some_2 ops pt1 ltac:(lia)) as [c1 ->].
    destruct (lookup_lt_is_Some_2 mem pt1 ltac:(lia)) as [m1 ->].
    destruct (lookup_lt_is_Some_2 ops (S pt1) Hpt) as [c ->].
    destruct (lookup_lt_is_Some_2 mem (S pt1) ltac:(lia)) as [m ->]. simpl. eauto.
Qed.

Lemma curve_loop_in_bounds (ops mem : list cfloat) (samples : list nat) :
  length mem = length ops ->
  List.Forall (fun i => flt (List.last ops FNaN)
                        (fsub (sample_point ops i) (FFin (1 / 10000))) = false) samples ->
  forall pt, (pt < length ops)%nat ->
    exists values pts,
      curve_loop ops mem samples pt = Some (values, pts)
      /\ length values = length samples
      /\ length pts = length samples
      /\ List.Forall (fun pt => (pt < length ops)%nat) pts.
Proof.
  intros Hlen Hs. induction Hs as [|i samples Hi _ IH]; intros pt Hpt; simpl.
  - exists [], []. repeat split; constructor.
  - destruct (advance_pt_in_bounds (drop pt ops) pt (sample_point ops i))
      as (pt' & -> & Hb).
    + intros Hnil. apply (f_equal length) in Hnil. rewrite length_drop in Hnil.
      simpl in Hnil. lia.
    + now rewrite last_drop.
    + rewrite length_drop in Hb. assert (Hpt' : (pt' < length ops)%nat) by lia.
      simpl. destruct (interpolate_in_bounds ops mem pt' (sample_point ops i) Hlen Hpt')
        as [value ->].
      simpl. destruct (IH pt' Hpt') as (values & pts & -> & Hv & Hp & Hall).
      simpl. exists (value :: values), (pt' :: pts).
      repeat split; simpl; try lia. now constructor.
Qed.

Lemma compute_curve_length cur ops mem curve :
  compute_curve cur ops mem = Some curve ->
  length curve = ARITH_INTENSITY_CURVE_SAMPLE_N.
Proof.
  unfold compute_curve.
  destruct ((cur <=? 0) || (length ops =? 0)%nat).
  - intros [= <-]. reflexivity.
  - destruct (curve_loop ops mem (seq 0 ARITH_INTENSITY_CURVE_SAMPLE_N) 0)
      as [[values pts]|] eqn:E; simpl; [|discriminate].
    intros [= <-].
    assert (H : forall samples pt values pts,
               curve_loop ops mem samples pt = Some (values, pts) ->
               length values = length samples).
    { clear. induction samples as [|i samples IH]; intros pt values pts H; simpl in H.
      - now injection H as <- <-.
      - destruct (advance_pt _ _ _) as [pt'|]; simpl in H; [|discriminate].
        destruct (interpolate _ _ _ _) as [v|]; simpl in H; [|discriminate].
        destruct (curve_loop ops mem samples pt') as [[vs ps]|] eqn:E; simpl in H;
          [|discriminate].
        injection H as <- <-. simpl. f_equal. eapply IH; eauto. }
    rewrite (H _ _ _ _ E). apply length_seq.
Qed.

(** ** The loop over the loop stack *)

Section Touch.
Variable A : AnalyzerOps.

Lemma to_int32_0 : to_int32 0 = 0.
Proof. reflexivity. Qed.

Lemma touch_loops_lists buf_accesses rstack :
  forall st st',
    touch_loops A buf_accesses rstack st = Some st' ->
    length (ts_compute_ops_list A st')
    = (length (ts_compute_ops_list A st) + length rstack)%nat
    /\ length (ts_mem_bytes_list A st')
       = (length (ts_mem_bytes_list A st) + length rstack)%nat
    /\ (rstack <> [] ->
        List.last (ts_compute_ops_list A st') FNaN
        = flog2 (of_int (ts_cur_compute_ops A st')))
    /\ (ts_cur_compute_ops A st = 0 -> ts_cur_compute_ops A st' = 0)
    /\ (rstack = [] -> st' = st).
Proof.
  induction rstack as [|p_for rest IH]; intros st st' H; simpl in H.
  - injection H as <-. repeat split; auto; try lia. congruence.
  - destruct (touch_buffers A _ p_for buf_accesses _) as [[[regions tmp] mem]|];
      simpl in H; [|discriminate].
    apply IH in H as (Hops & Hmem & Hlast & Hzero & Hnil). simpl in *.
    rewrite length_app in Hops, Hmem. simpl in *.
    split; [lia|]. split; [lia|]. split; [|split].
    + intros _. destruct rest as [|q rest'].
      * rewrite (Hnil eq_refl). simpl. now rewrite last_last.
      * apply Hlast. discriminate.
    + intros H0. apply Hzero. now rewrite H0.
    + discriminate.
Qed.
End Touch.

Lemma curve_pointer_in_bounds (A : AnalyzerOps) buf_accesses rstack st ts :
  length (ts_mem_bytes_list A st) = length (ts_compute_ops_list A st) ->
  touch_loops A buf_accesses rstack st = Some ts ->
  rstack <> [] ->
  0 < ts_cur_compute_ops A ts ->
  (forall i, (i < ARITH_INTENSITY_CURVE_SAMPLE_N)%nat ->
     flt (List.last (ts_compute_ops_list A ts) FNaN)
       (fsub (sample_point (ts_compute_ops_list A ts) i) (FFin (1 / 10000))) = false)
  /\ exists values pts,
      curve_loop (ts_compute_ops_list A ts) (ts_mem_bytes_list A ts)
        (seq 0 ARITH_INTENSITY_CURVE_SAMPLE_N) 0 = Some (values, pts)
      /\ length values = ARITH_INTENSITY_CURVE_SAMPLE_N
      /\ length pts = ARITH_INTENSITY_CURVE_SAMPLE_N
      /\ List.Forall (fun pt => (pt < length (ts_compute_ops_list A ts))%nat) pts.
Proof.
  intros Hlen0 Ht Hne Hpos.
  destruct (touch_loops_lists A buf_accesses rstack st ts Ht)
    as (Hops & Hmem & Hlast & _ & _).
  specialize (Hlast Hne).
  destruct (flog2_of_int_pos _ Hpos) as (r & Hr & Hr0). rewrite Hr in Hlast.
  assert (Hsamples : forall i, (i < ARITH_INTENSITY_CURVE_SAMPLE_N)%nat ->
            flt (List.last (ts_compute_ops_list A ts) FNaN)
              (fsub (sample_point (ts_compute_ops_list A ts) i) (FFin (1 / 10000)))
            = false).
  { intros i Hi. eapply sample_point_le_last; eauto. }
  split; [exact Hsamples|].
  destruct (curve_loop_in_bounds (ts_compute_ops_list A ts) (ts_mem_bytes_list A ts)
              (seq 0 ARITH_INTENSITY_CURVE_SAMPLE_N)) with (pt := 0%nat)
    as (values & pts & Hc & Hv & Hp & Hall).
  - lia.
  - rewrite List.Forall_forall. intros i Hi. apply Hsamples. apply in_seq in Hi. lia.
  - destruct rstack; [congruence|]. simpl in Hops. lia.
  - exists values, pts. rewrite length_seq in Hv, Hp. auto.
Qed.

Lemma store_curve_zero (A : AnalyzerOps) buf_accesses (s : PerStoreFeatureExtractor.t)
    (mathops : MathOpCounter.t) ts curve :
  touch_loops A buf_accesses (rev (for_loop_stack s)) (touch_init A s mathops) = Some ts ->
  compute_curve (ts_cur_compute_ops A ts) (ts_compute_ops_list A ts)
    (ts_mem_bytes_list A ts) = Some curve ->
  MathOpCounter.float_ops mathops = 0 \/ for_loop_stack s = [] ->
  curve = repeat (FFin 0) ARITH_INTENSITY_CURVE_SAMPLE_N.
Proof.
  intros Ht Hc Hz.
  destruct (touch_loops_lists A _ _ _ _ Ht) as (_ & _ & _ & Hzero & Hnil).
  unfold compute_curve in Hc.
  assert (Hb : (ts_cur_compute_ops A ts <=? 0)
               || (length (ts_compute_ops_list A ts) =? 0)%nat = true).
  { destruct Hz as [Hz|Hz].
    - rewrite Hzero; [reflexivity|]. simpl. now rewrite Hz.
    - rewrite Hnil by (now rewrite Hz). simpl. apply orb_true_r. }
  rewrite Hb in Hc. now injection Hc as <-.
Qed.

Lemma buffer_features_store_result (s : PerStoreFeatureExtractor.t) regions m :
  buffer_features (set_for_touch_regions regions (set_buffer_features m s)) = m.
Proof. now destruct s. Qed.

Lemma store_features_curve s mathops curve acc_feas fea :
  FeatureSet.arith_intensity_curve (store_features s mathops curve acc_feas fea) = curve.
Proof.
  unfold store_features.
  destruct (annotation_feas (vec_for_stack s) _) as [[[? ?] ?] ?].
  destruct (annotation_feas (unroll_for_stack s) _) as [[[? ?] ?] ?].
  destruct (annotation_feas (parallel_for_stack s) _) as [[[? ?] ?] ?].
  reflexivity.
Qed.

(** The store leaves the curve of [compute_curve] in the feature set of its
    buffer. *)
Lemma VisitBufferStore_curve (A : AnalyzerOps) cl buffer value indices s ts curve acc_feas :
  touch_loops A (map_to_list (store_accesses buffer value indices))
    (rev (for_loop_stack s)) (touch_init A s (MathOpCounter.run value)) = Some ts ->
  compute_curve (ts_cur_compute_ops A ts) (ts_compute_ops_list A ts)
    (ts_mem_bytes_list A ts) = Some curve ->
  mapM (access_feature cl s (ts_regions A ts) (ts_tmp_region A ts))
    (snd <$> map_to_list (store_accesses buffer value indices)) = Some acc_feas ->
  exists s' key fea,
    VisitBufferStore A cl buffer value indices s = Some s'
    /\ buffer_features s' !! buffer_id buffer = Some (key, fea)
    /\ FeatureSet.arith_intensity_curve fea = curve.
Proof.
  intros Ht Hc Ha. unfold VisitBufferStore.
  destruct (features_at (buffer_features s) buffer) as [key fea].
  rewrite Ht. simpl. rewrite Hc. simpl. rewrite Ha. simpl.
  eexists _, key, _. split; [reflexivity|].
  rewrite buffer_features_store_result, lookup_insert_eq. split; [reflexivity|].
  apply store_features_curve.
Qed.

Lemma flog2_of_int_1 : flog2 (of_int 1) = FFin 0.
Proof.
  unfold flog2, of_int. real_decide.
  f_equal. unfold log2R. rewrite ln_1. lra.
Qed.

Lemma flog2_of_int_gt_1 z :
  1 < z -> exists m, flog2 (of_int z) = FFin m /\ (0 < m)%R.
Proof.
  intros Hz. assert (H1 : (1 < IZR z)%R) by (apply IZR_lt; lia).
  exists (log2R (IZR z)). unfold flog2, of_int.
  real_decide. split; [reflexivity|].
  unfold log2R. apply Rdiv_lt_0_compat.
  - rewrite <- ln_1. apply ln_increasing; lra.
  - rewrite <- ln_1. apply ln_increasing; lra.
Qed.

(** One floating-point op under loops whose extents multiply to 1:
    [compute_ops_list] is [[log2(1)]], and every sample is [0 / log2(mem_bytes)]. *)
Lemma sample_point_unit i : sample_point [FFin 0] i = FFin 0.
Proof.
  unfold sample_point, of_int. simpl.
  replace (Reqb (IZR (Z.of_nat ARITH_INTENSITY_CURVE_SAMPLE_N)) 0) with false
    by (symmetry; apply Reqb_false; vm_compute; lra).
  f_equal. unfold Rdiv. now rewrite !Rmult_0_l.
Qed.

Lemma curve_loop_unit m samples :
  (0 < m)%R ->
  curve_loop [FFin 0] [FFin m] samples 0
  = Some (repeat (FFin 0) (length samples), repeat 0%nat (length samples)).
Proof.
  intros Hm. induction samples as [|i samples IH]; [reflexivity|].
  simpl. rewrite sample_point_unit. simpl.
  replace (Rltb 0 (0 + - (1 / 10000))) with false
    by (symmetry; apply Rltb_false; lra).
  simpl. replace (Reqb m 0) with false by (symmetry; apply Reqb_false; lra).
  rewrite IH. simpl. do 3 f_equal. unfold Rdiv. now rewrite Rmult_0_l.
Qed.

Lemma compute_curve_unit m :
  (0 < m)%R ->
  compute_curve 1 [FFin 0] [FFin m]
  = Some (repeat (FFin 0) ARITH_INTENSITY_CURVE_SAMPLE_N).
Proof.
  intros Hm. unfold compute_curve. simpl orb. cbv iota.
  rewrite (curve_loop_unit m _ Hm). now rewrite length_seq.
Qed.

(** The curve a store leaves in its feature set has exactly 10 entries, and
    all of them are zero if the value of the store contains no floating-point
    op or the store has no enclosing loop. *)
Lemma store_curve_entries :
  forall (A : AnalyzerOps) (cache_line_size : Z) (buffer : Buffer) (value : PrimExpr)
         (indices : list PrimExpr) (s s' : PerStoreFeatureExtractor.t),
    VisitBufferStore A cache_line_size buffer value indices s = Some s' ->
    exists (key : Buffer) (fea : FeatureSet.t),
      buffer_features s' !! buffer_id buffer = Some (key, fea)
      /\ length (FeatureSet.arith_intensity_curve fea) = 10%nat
      /\ (MathOpCounter.float_ops (MathOpCounter.run value) = 0
          \/ for_loop_stack s = [] ->
          FeatureSet.arith_intensity_curve fea = repeat (FFin 0) 10).
Proof.
  intros A cl buffer value indices s s' H. unfold VisitBufferStore in H.
  destruct (features_at (buffer_features s) buffer) as [key fea].
  destruct (touch_loops A _ _ _) as [ts|] eqn:Et; simpl in H; [|discriminate].
  destruct (compute_curve _ _ _) as [curve|] eqn:Ec; simpl in H; [|discriminate].
  destruct (mapM _ _) as [acc_feas|]; simpl in H; [|discriminate].
  injection H as <-.
  exists key, (store_features s (MathOpCounter.run value) curve acc_feas fea).
  rewrite buffer_features_store_result, lookup_insert_eq, store_features_curve.
  split; [reflexivity|]. split.
  - apply (compute_curve_length _ _ _ _ Ec).
  - intros Hz. eapply store_curve_zero; eauto.
Qed.

(** The store of [for (i, 0, 1) { B[i] = A[i] + 1.0f }], whose value has one
    floating-point op under one loop, leaves 10 zeros in its feature set
    ([compute_ops_list] is [[log2(1)]], so every sample is
    [0 / log2(mem_bytes) = 0]). *)
Lemma ex_unit_store_curve :
  MathOpCounter.float_ops (MathOpCounter.run ex_value_add) = 1
  /\ length (for_loop_stack ex_in_unit_loop) = 1%nat
  /\ exists s' key fea,
      VisitBufferStore interval_analyzer 64 ex_buffer_B ex_value_add [VarE ex_var_i]
        ex_in_unit_loop = Some s'
      /\ buffer_features s' !! buffer_id ex_buffer_B = Some (key, fea)
      /\ FeatureSet.arith_intensity_curve fea = repeat (FFin 0) 10.
Proof.
  split; [vm_compute; reflexivity|]. split; [vm_compute; reflexivity|].
  apply (VisitBufferStore_curve interval_analyzer 64 ex_buffer_B ex_value_add
           [VarE ex_var_i] ex_in_unit_loop ex_unit_touch_state _
           (default [] (mapM (access_feature 64 ex_in_unit_loop
                               (ts_regions _ ex_unit_touch_state)
                               (ts_tmp_region _ ex_unit_touch_state))
                          (snd <$> map_to_list (store_accesses ex_buffer_B ex_value_add
                                                  [VarE ex_var_i]))))).
  - vm_compute. reflexivity.
  - replace (ts_cur_compute_ops _ ex_unit_touch_state) with 1
      by (vm_compute; reflexivity).
    replace (ts_compute_ops_list _ ex_unit_touch_state) with [flog2 (of_int 1)]
      by (vm_compute; reflexivity).
    replace (ts_mem_bytes_list _ ex_unit_touch_state) with [flog2 (of_int 8)]
      by (vm_compute; reflexivity).
    rewrite flog2_of_int_1.
    destruct (flog2_of_int_gt_1 8) as (m & -> & Hm); [lia|].
    exact (compute_curve_unit m Hm).
  - vm_compute. decide_reals. reflexivity.
Qed.

(** The zero branch is also taken under a loop of extent 0: in
    [for (i, 0, 0) { B[i] = A[i] + 1.0f }], [cur_compute_ops] is [1 * 0 = 0]. *)
Lemma empty_loop_curve_zero :
  (s ← VisitStmt interval_analyzer 64 ex_empty_loop (init false);
   x ← buffer_features s !! buffer_id ex_buffer_B;
   Some (FeatureSet.num_loops (snd x), FeatureSet.arith_intensity_curve (snd x)))
  = Some (FFin 1, repeat (FFin 0) 10).
Proof. vm_compute. reflexivity. Qed.

End Curve_properties.

#[local] Set Warnings "-clear-no-such-hyp".

(** ** The walk *)

Section Walk_properties.
Import PerStoreFeatureExtractor.

Lemma fdiv_fmul_int (x : cfloat) (e : Z) :
  e <> 0 -> fdiv (fmul x (of_int e)) (of_int e) = x.
Proof.
  intros He. assert (Hr : IZR e <> 0%R) by now apply not_0_IZR.
  destruct x as [|sg|r]; simpl; [reflexivity| |].
  - replace (Reqb (IZR e) 0) with false by (symmetry; now apply Reqb_false).
    simpl. now destruct sg, (Rltb (IZR e) 0).
  - replace (Reqb (IZR e) 0) with false by (symmetry; now apply Reqb_false).
    f_equal. now field.
Qed.

Lemma fmul_of_int (a b : Z) : fmul (of_int a) (of_int b) = of_int (a * b).
Proof. unfold of_int. simpl. now rewrite mult_IZR. Qed.

Lemma extent_product_push stack node :
  extent_product (push_back node stack) = extent_product stack * GetLoopExtent node.
Proof. unfold extent_product, push_back. now rewrite fold_left_app. Qed.

Lemma pop_push {X : Type} (x : X) (l : list X) : pop_back (push_back x l) = l.
Proof. apply removelast_last. Qed.

Lemma frame_push_kind_stack node s : frame (push_kind_stack node s) = frame s.
Proof. unfold push_kind_stack. destruct (for_type node), s; reflexivity. Qed.

Lemma frame_pop_kind_stack node s : frame (pop_kind_stack node s) = frame s.
Proof. unfold pop_kind_stack. destruct (for_type node), s; reflexivity. Qed.

Lemma frame_set_next_node n s : frame (set_next_node n s) = frame s.
Proof. now destruct s. Qed.

Lemma frame_set_len f x s : frame (set_len f x s) = frame s.
Proof. now destruct f, s. Qed.

Lemma frame_set_is_gpu x s : frame (set_is_gpu x s) = frame s.
Proof. now destruct s. Qed.

Lemma frame_set_cur_auto_unroll_max_step x s :
  frame (set_cur_auto_unroll_max_step x s) = frame s.
Proof. now destruct s. Qed.

Lemma frame_set_buffer_features x s : frame (set_buffer_features x s) = frame s.
Proof. now destruct s. Qed.

Lemma frame_set_for_touch_regions x s : frame (set_for_touch_regions x s) = frame s.
Proof. now destruct s. Qed.

Lemma frame_push_frame node e s :
  frame (push_frame node e s)
  = (push_back node (fst (frame s)), fmul (snd (frame s)) (of_int e)).
Proof. now destruct s. Qed.

Lemma frame_pop_frame e s :
  frame (pop_frame e s) = (pop_back (fst (frame s)), fdiv (snd (frame s)) (of_int e)).
Proof. now destruct s. Qed.

Lemma frame_enter_loop v mn ex ft s :
  frame (snd (enter_loop v mn ex ft s))
  = (push_back (fst (enter_loop v mn ex ft s)) (fst (frame s)),
     fmul (snd (frame s)) (of_int (GetLoopExtent (fst (enter_loop v mn ex ft s))))).
Proof.
  unfold enter_loop. simpl.
  now rewrite frame_push_frame, frame_push_kind_stack, frame_set_next_node.
Qed.

Lemma frame_leave_loop node s :
  frame (leave_loop node s)
  = (pop_back (fst (frame s)), fdiv (snd (frame s)) (of_int (GetLoopExtent node))).
Proof. unfold leave_loop. now rewrite frame_pop_kind_stack, frame_pop_frame. Qed.

Lemma frame_enter_thread_scope node key value s sc s1 :
  enter_thread_scope node key value s = Some (sc, s1) ->
  exists fake v,
    GetIntImm value = Some v /\ extent sc = to_int32 v
    /\ GetLoopExtent fake = extent sc
    /\ frame s1 = (push_back fake (fst (frame s)), fmul (snd (frame s)) (of_int (extent sc))).
Proof.
  unfold enter_thread_scope. destruct node as [var|]; [|discriminate].
  destruct (GetIntImm value) as [v|]; [|discriminate].
  change (to_int32 <$> Some v) with (Some (to_int32 v)).
  remember (to_int32 v) as e eqn:He. simpl.
  destruct (if String.eqb key thread_extent then _ else _) as [pl|]; simpl; [|discriminate].
  intros [= <- <-].
  exists (mkForNode (next_node s) var (IntImm Int32_t 0) (IntImm Int32_t e) Parallel), v.
  split; [reflexivity|]. split; [exact He|]. split; [reflexivity|].
  destruct (String.eqb key thread_extent), pl, s; reflexivity.
Qed.

Lemma frame_leave_thread_scope sc s :
  frame (leave_thread_scope sc s)
  = (pop_back (fst (frame s)), fdiv (snd (frame s)) (of_int (extent sc))).
Proof. unfold leave_thread_scope. now rewrite frame_set_len, frame_pop_frame. Qed.

Lemma frame_enter_pragma value s old s1 :
  enter_pragma value s = Some (old, s1) -> frame s1 = frame s.
Proof.
  unfold enter_pragma. destruct (GetIntImm value); simpl; [|discriminate].
  intros [= <- <-]. apply frame_set_cur_auto_unroll_max_step.
Qed.

Section WithAnalyzer.
Variable A : AnalyzerOps.
Variable cache_line_size_ : Z.

Lemma VisitBufferStore_result buffer value indices s s' :
  VisitBufferStore A cache_line_size_ buffer value indices s = Some s' ->
  exists ts curve acc_feas,
    s' = set_for_touch_regions (ts_regions A ts)
           (set_buffer_features
              (<[buffer_id buffer :=
                   (fst (features_at (buffer_features s) buffer),
                    store_features s (MathOpCounter.run value) curve acc_feas
                      (snd (features_at (buffer_features s) buffer)))]>
                 (buffer_features s)) s).
Proof.
  unfold VisitBufferStore.
  destruct (features_at (buffer_features s) buffer) as [key fea].
  destruct (touch_loops A _ _ _) as [ts|]; simpl; [|discriminate].
  destruct (compute_curve _ _ _) as [curve|]; simpl; [|discriminate].
  destruct (mapM _ _) as [acc_feas|]; simpl; [|discriminate].
  intros [= <-]. eauto.
Qed.

Lemma frame_VisitBufferStore buffer value indices s s' :
  VisitBufferStore A cache_line_size_ buffer value indices s = Some s' ->
  frame s' = frame s.
Proof.
  intros H. apply VisitBufferStore_result in H as (ts & curve & accs & ->).
  now rewrite frame_set_for_touch_regions, frame_set_buffer_features.
Qed.

Lemma realize_features_result buffer bounds s s' :
  realize_features buffer bounds s = Some s' ->
  exists fea,
    s' = set_buffer_features
           (<[buffer_id buffer := (fst (features_at (buffer_features s) buffer), fea)]>
              (buffer_features s)) s.
Proof.
  unfold realize_features.
  destruct (features_at (buffer_features s) buffer) as [key fea].
  destruct (foldl _ _ _) as [a|]; simpl; [|discriminate].
  intros [= <-]. eauto.
Qed.

Lemma frame_realize_features buffer bounds s s' :
  realize_features buffer bounds s = Some s' -> frame s' = frame s.
Proof.
  intros H. apply realize_features_result in H as (fea & ->).
  apply frame_set_buffer_features.
Qed.

Lemma visit_seq_None (seq : list Stmt) :
  fold_left (fun acc st => s ← acc; VisitStmt A cache_line_size_ st s) seq None = None.
Proof. induction seq; simpl; auto. Qed.

Lemma visit_seq_cons st seq s :
  VisitStmt A cache_line_size_ (SeqStmt (st :: seq)) s
  = s1 ← VisitStmt A cache_line_size_ st s; VisitStmt A cache_line_size_ (SeqStmt seq) s1.
Proof.
  simpl. destruct (VisitStmt A cache_line_size_ st s); simpl; [reflexivity|].
  apply visit_seq_None.
Qed.

Lemma visit_seq_app before after s :
  VisitStmt A cache_line_size_ (SeqStmt (before ++ after)) s
  = s1 ← VisitStmt A cache_line_size_ (SeqStmt before) s;
    VisitStmt A cache_line_size_ (SeqStmt after) s1.
Proof.
  revert s. induction before as [|st before IH]; intros s; [reflexivity|].
  change ((st :: before) ++ after) with (st :: (before ++ after)).
  rewrite !visit_seq_cons.
  destruct (VisitStmt A cache_line_size_ st s) as [s1|]; simpl; [apply IH|reflexivity].
Qed.

Lemma VisitStmt_For v mn ex ft body s :
  VisitStmt A cache_line_size_ (For v mn ex ft body) s
  = s2 ← VisitStmt A cache_line_size_ body (snd (enter_loop v mn ex ft s));
    Some (leave_loop (fst (enter_loop v mn ex ft s)) s2).
Proof. simpl. now destruct (enter_loop v mn ex ft s). Qed.

Lemma VisitStmt_thread node key value body s :
  attr_pushes_frame key = true ->
  VisitStmt A cache_line_size_ (AttrStmt node key value body) s
  = x ← enter_thread_scope node key value s;
    s2 ← VisitStmt A cache_line_size_ body (snd x);
    Some (leave_thread_scope (fst x) s2).
Proof.
  intros Hk. simpl. rewrite Hk.
  now destruct (enter_thread_scope node key value s) as [[sc s1]|].
Qed.

Lemma VisitStmt_pragma node key value body s :
  attr_pushes_frame key = false ->
  String.eqb key pragma_auto_unroll_max_step = true ->
  VisitStmt A cache_line_size_ (AttrStmt node key value body) s
  = x ← enter_pragma value s;
    s2 ← VisitStmt A cache_line_size_ body (snd x);
    Some (set_cur_auto_unroll_max_step (fst x) s2).
Proof.
  intros Hk Hp. simpl. rewrite Hk, Hp.
  now destruct (enter_pragma value s) as [[old s1]|].
Qed.

Lemma VisitStmt_attr node key value body s :
  attr_pushes_frame key = false ->
  String.eqb key pragma_auto_unroll_max_step = false ->
  VisitStmt A cache_line_size_ (AttrStmt node key value body) s
  = VisitStmt A cache_line_size_ body s.
Proof. intros Hk Hp. simpl. now rewrite Hk, Hp. Qed.

(** Pushing a frame and popping it restores the stack and the product when
    the extent is not zero. *)
Lemma frame_restore (fr : list ForNode * cfloat) node e :
  e <> 0 ->
  (pop_back (push_back node (fst fr)), fdiv (fmul (snd fr) (of_int e)) (of_int e)) = fr.
Proof. intros He. destruct fr. simpl. now rewrite pop_push, fdiv_fmul_int. Qed.

Lemma VisitStmt_restores stmt :
  nonzero_extents stmt = true ->
  forall s s', VisitStmt A cache_line_size_ stmt s = Some s' -> frame s' = frame s.
Proof.
  induction stmt as [v mn ex ft body IH|node key value body IH|buf v idx
                    |buf bs c body IH|seq IH|c t e IHt IHe|v e body IH|e]
    using Stmt_nested_ind; intros Hnz s s' H.
  - simpl in Hnz. apply andb_prop in Hnz as [He Hb].
    apply negb_true_iff, Z.eqb_neq in He.
    rewrite VisitStmt_For in H.
    destruct (VisitStmt A cache_line_size_ body _) as [s2|] eqn:E2; simpl in H;
      [|discriminate].
    injection H as <-.
    rewrite frame_leave_loop, (IH Hb _ _ E2), frame_enter_loop.
    apply (frame_restore (frame s)). exact He.
  - simpl in Hnz. apply andb_prop in Hnz as [He Hb].
    destruct (attr_pushes_frame key) eqn:Ek.
    + rewrite VisitStmt_thread in H by assumption.
      destruct (enter_thread_scope node key value s) as [[sc s1]|] eqn:E;
        simpl in H; [|discriminate].
      destruct (VisitStmt A cache_line_size_ body s1) as [s2|] eqn:E2; simpl in H;
        [|discriminate].
      injection H as <-.
      apply frame_enter_thread_scope in E as (fake & v & Hv & Hext & _ & Hf).
      rewrite frame_leave_thread_scope, (IH Hb _ _ E2), Hf.
      apply (frame_restore (frame s)). rewrite Hv in He. apply negb_true_iff, Z.eqb_neq in He.
      now rewrite Hext.
    + destruct (String.eqb key pragma_auto_unroll_max_step) eqn:Ep.
      * rewrite VisitStmt_pragma in H by assumption.
        destruct (enter_pragma value s) as [[old s1]|] eqn:E; simpl in H; [|discriminate].
        destruct (VisitStmt A cache_line_size_ body s1) as [s2|] eqn:E2; simpl in H;
          [|discriminate].
        injection H as <-.
        rewrite frame_set_cur_auto_unroll_max_step, (IH Hb _ _ E2).
        eapply frame_enter_pragma; eauto.
      * rewrite VisitStmt_attr in H by assumption. eapply IH; eauto.
  - eapply frame_VisitBufferStore; eauto.
  - simpl in Hnz, H.
    destruct (VisitStmt A cache_line_size_ body s) as [s1|] eqn:E; simpl in H;
      [|discriminate].
    rewrite (frame_realize_features _ _ _ _ H). eapply IH; eauto.
  - revert s s' H. simpl in Hnz.
    induction IH as [|st seq Hst _ IHseq]; intros s s' H.
    + simpl in H. now injection H as <-.
    + simpl in Hnz. apply andb_prop in Hnz as [Hn1 Hn2].
      rewrite visit_seq_cons in H.
      destruct (VisitStmt A cache_line_size_ st s) as [s1|] eqn:E; simpl in H;
        [|discriminate].
      rewrite (IHseq Hn2 _ _ H). eapply Hst; eauto.
  - simpl in Hnz, H. apply andb_prop in Hnz as [Hn1 Hn2].
    destruct (VisitStmt A cache_line_size_ t s) as [s1|] eqn:E; simpl in H;
      [|discriminate].
    destruct e as [e|].
    + rewrite (IHe e eq_refl Hn2 _ _ H). eapply IHt; eauto.
    + injection H as <-. eapply IHt; eauto.
  - simpl in Hnz, H. eapply IH; eauto.
  - simpl in H. now injection H as <-.
Qed.

Lemma prod_invariant_frame s s' :
  frame s' = frame s -> prod_invariant s -> prod_invariant s'.
Proof. unfold prod_invariant, frame. now intros [= -> ->]. Qed.

Lemma prod_invariant_pushed s s1 node e :
  frame s1 = (push_back node (fst (frame s)), fmul (snd (frame s)) (of_int e)) ->
  GetLoopExtent node = e ->
  prod_invariant s -> prod_invariant s1.
Proof.
  unfold prod_invariant, frame. simpl. intros [= -> ->] He Hs.
  now rewrite Hs, fmul_of_int, extent_product_push, He.
Qed.

Lemma nonzero_extents_seq_app before st after :
  nonzero_extents (SeqStmt (before ++ st :: after)) = true ->
  nonzero_extents (SeqStmt before) = true /\ nonzero_extents st = true.
Proof.
  simpl. rewrite forallb_app. simpl. intros H.
  apply andb_prop in H as [H1 H2]. apply andb_prop in H2 as [H2 _]. auto.
Qed.

Lemma visits_invariant stmt s sub s' :
  visits A cache_line_size_ stmt s sub s' ->
  nonzero_extents stmt = true -> prod_invariant s -> prod_invariant s'.
Proof.
  induction 1 as [stmt s|v mn ex ft body s sub s' _ IH
                 |node key value body s sc s1 sub s' Hk He _ IH
                 |node key value body s old s1 sub s' Hk Hp He _ IH
                 |node key value body s sub s' Hk Hp _ IH
                 |buffer bounds c body s sub s' _ IH
                 |before st after s s1 sub s' Hb _ IH
                 |c t e s sub s' _ IH
                 |c t e s s1 sub s' Ht _ IH
                 |v e body s sub s' _ IH]; intros Hnz Hinv.
  - exact Hinv.
  - simpl in Hnz. apply andb_prop in Hnz as [_ Hb]. apply IH; [exact Hb|].
    eapply prod_invariant_pushed; [apply frame_enter_loop|reflexivity|exact Hinv].
  - simpl in Hnz. apply andb_prop in Hnz as [_ Hb]. apply IH; [exact Hb|].
    apply frame_enter_thread_scope in He as (fake & v & _ & _ & Hext & Hf).
    exact (prod_invariant_pushed s s1 fake (extent sc) Hf Hext Hinv).
  - simpl in Hnz. apply andb_prop in Hnz as [_ Hb]. apply IH; [exact Hb|].
    eapply prod_invariant_frame; [|exact Hinv]. eapply frame_enter_pragma; eauto.
  - simpl in Hnz. apply andb_prop in Hnz as [_ Hb]. now apply IH.
  - simpl in Hnz. now apply IH.
  - apply nonzero_extents_seq_app in Hnz as [Hn1 Hn2]. apply IH; [exact Hn2|].
    eapply prod_invariant_frame; [|exact Hinv].
    exact (VisitStmt_restores (SeqStmt before) Hn1 s s1 Hb).
  - simpl in Hnz. apply andb_prop in Hnz as [Hn1 _]. now apply IH.
  - simpl in Hnz. apply andb_prop in Hnz as [Hn1 Hn2]. apply IH; [exact Hn2|].
    eapply prod_invariant_frame; [|exact Hinv].
    exact (VisitStmt_restores t Hn1 s s1 Ht).
  - simpl in Hnz. now apply IH.
Qed.

End WithAnalyzer.

Lemma prod_invariant_init is_gpu0 : prod_invariant (init is_gpu0).
Proof. reflexivity. Qed.

(** With the exact arithmetic and every frame the walk pushes (the loops, and
    the synthetic frames of the thread_extent and virtual_thread scopes) of an
    extent other than zero, [outer_loop_prod] is the product of the integer
    extents of the pushed frames at every statement the walk reaches, the
    visit of a statement leaves [outer_loop_prod] and the loop stack as it
    found them, and after the full walk [outer_loop_prod] is 1. *)
Lemma walk_restores_frames :
  forall (A : AnalyzerOps) (cache_line_size : Z) (stmt : Stmt),
    nonzero_extents stmt = true ->
    (forall s sub s',
        prod_invariant s -> visits A cache_line_size stmt s sub s' -> prod_invariant s')
    /\ (forall is_gpu0 sub s',
          visits A cache_line_size stmt (init is_gpu0) sub s' -> prod_invariant s')
    /\ (forall s s',
          VisitStmt A cache_line_size stmt s = Some s' ->
          outer_loop_prod s' = outer_loop_prod s
          /\ for_loop_stack s' = for_loop_stack s)
    /\ (forall is_gpu0 s',
          VisitStmt A cache_line_size stmt (init is_gpu0) = Some s' ->
          outer_loop_prod s' = FFin 1).
Proof.
  intros A cl stmt Hnz. split; [|split; [|split]].
  - intros s sub s' Hinv Hv. eapply visits_invariant; eauto.
  - intros g sub s' Hv. eapply visits_invariant; eauto. apply prod_invariant_init.
  - intros s s' H. apply (VisitStmt_restores A cl stmt Hnz) in H.
    unfold frame in H. now injection H as -> ->.
  - intros g s' H. apply (VisitStmt_restores A cl stmt Hnz) in H.
    unfold frame in H. now injection H as _ ->.
Qed.

(** After the walk of [for (i, 0, 0) { B[i] = A[i] + 1.0f }],
    [outer_loop_prod] is [1 * 0 / 0], a NaN, and not 1. *)
Lemma ex_empty_loop_walk :
  nonzero_extents ex_empty_loop = false
  /\ (outer_loop_prod <$> VisitStmt interval_analyzer 64 ex_empty_loop (init false))
     = Some FNaN
  /\ FNaN <> FFin 1.
Proof.
  split; [reflexivity|]. split; [|discriminate].
  vm_compute. decide_reals. reflexivity.
Qed.

(** The walk of the example returns, so the statement above is not vacuous. *)
Lemma ex_copy_loop_returns :
  is_Some (VisitStmt interval_analyzer 64 ex_copy_loop (init false)).
Proof. vm_compute. eauto. Qed.

(** ** The feature sets of a program *)

Lemma bf_push_kind_stack node s :
  buffer_features (push_kind_stack node s) = buffer_features s.
Proof. unfold push_kind_stack. destruct (for_type node), s; reflexivity. Qed.

Lemma bf_pop_kind_stack node s :
  buffer_features (pop_kind_stack node s) = buffer_features s.
Proof. unfold pop_kind_stack. destruct (for_type node), s; reflexivity. Qed.

Lemma bf_enter_loop v mn ex ft s :
  buffer_features (snd (enter_loop v mn ex ft s)) = buffer_features s.
Proof. unfold enter_loop, push_kind_stack. simpl. destruct ft, s; reflexivity. Qed.

Lemma bf_leave_loop node s : buffer_features (leave_loop node s) = buffer_features s.
Proof. unfold leave_loop, pop_kind_stack. destruct (for_type node), s; reflexivity. Qed.

Lemma bf_enter_thread_scope node key value s sc s1 :
  enter_thread_scope node key value s = Some (sc, s1) ->
  buffer_features s1 = buffer_features s.
Proof.
  unfold enter_thread_scope. destruct node as [var|]; [|discriminate].
  destruct (GetIntImm value) as [v|]; [|discriminate].
  change (to_int32 <$> Some v) with (Some (to_int32 v)).
  generalize (to_int32 v) as e. intros e. simpl.
  destruct (if String.eqb key thread_extent then _ else _) as [pl|]; simpl; [|discriminate].
  intros [= <- <-]. destruct (String.eqb key thread_extent), pl, s; reflexivity.
Qed.

Lemma bf_leave_thread_scope sc s :
  buffer_features (leave_thread_scope sc s) = buffer_features s.
Proof. unfold leave_thread_scope. destruct (plen sc), s; reflexivity. Qed.

Lemma bf_enter_pragma value s old s1 :
  enter_pragma value s = Some (old, s1) -> buffer_features s1 = buffer_features s.
Proof.
  unfold enter_pragma. destruct (GetIntImm value); simpl; [|discriminate].
  intros [= <- <-]. now destruct s.
Qed.

Lemma bf_set_cur_auto_unroll_max_step x s :
  buffer_features (set_cur_auto_unroll_max_step x s) = buffer_features s.
Proof. now destruct s. Qed.

Lemma bf_set_buffer_features m s : buffer_features (set_buffer_features m s) = m.
Proof. now destruct s. Qed.

Lemma bf_set_for_touch_regions r s :
  buffer_features (set_for_touch_regions r s) = buffer_features s.
Proof. now destruct s. Qed.

Section Dom.
Variable A : AnalyzerOps.
Variable cache_line_size_ : Z.

Lemma VisitStmt_dom stmt :
  forall s s',
    VisitStmt A cache_line_size_ stmt s = Some s' ->
    dom (buffer_features s') = featured_buffers stmt ∪ dom (buffer_features s).
Proof.
  induction stmt as [v mn ex ft body IH|node key value body IH|buf v idx
                    |buf bs c body IH|seq IH|c t e IHt IHe|v e body IH|e]
    using Stmt_nested_ind; intros s s' H.
  - rewrite VisitStmt_For in H.
    destruct (VisitStmt A cache_line_size_ body _) as [s2|] eqn:E2; simpl in H;
      [|discriminate].
    injection H as <-. rewrite bf_leave_loop, (IH _ _ E2), bf_enter_loop. reflexivity.
  - destruct (attr_pushes_frame key) eqn:Ek.
    + rewrite VisitStmt_thread in H by assumption.
      destruct (enter_thread_scope node key value s) as [[sc s1]|] eqn:E;
        simpl in H; [|discriminate].
      destruct (VisitStmt A cache_line_size_ body s1) as [s2|] eqn:E2; simpl in H;
        [|discriminate].
      injection H as <-.
      rewrite bf_leave_thread_scope, (IH _ _ E2), (bf_enter_thread_scope _ _ _ _ _ _ E).
      reflexivity.
    + destruct (String.eqb key pragma_auto_unroll_max_step) eqn:Ep.
      * rewrite VisitStmt_pragma in H by assumption.
        destruct (enter_pragma value s) as [[old s1]|] eqn:E; simpl in H; [|discriminate].
        destruct (VisitStmt A cache_line_size_ body s1) as [s2|] eqn:E2; simpl in H;
          [|discriminate].
        injection H as <-.
        rewrite bf_set_cur_auto_unroll_max_step, (IH _ _ E2), (bf_enter_pragma _ _ _ _ E).
        reflexivity.
      * rewrite VisitStmt_attr in H by assumption. now apply IH.
  - simpl in H. apply VisitBufferStore_result in H as (ts & curve & accs & ->).
    rewrite bf_set_for_touch_regions, bf_set_buffer_features, dom_insert_L. reflexivity.
  - simpl in H.
    destruct (VisitStmt A cache_line_size_ body s) as [s1|] eqn:E; simpl in H;
      [|discriminate].
    apply realize_features_result in H as (fea & ->).
    rewrite bf_set_buffer_features, dom_insert_L, (IH _ _ E). simpl. set_solver.
  - revert s s' H.
    induction IH as [|st seq Hst _ IHseq]; intros s s' H.
    + simpl in H. injection H as <-. simpl. set_solver.
    + rewrite visit_seq_cons in H.
      destruct (VisitStmt A cache_line_size_ st s) as [s1|] eqn:E; simpl in H;
        [|discriminate].
      rewrite (IHseq _ _ H), (Hst _ _ E). simpl. set_solver.
  - simpl in H.
    destruct (VisitStmt A cache_line_size_ t s) as [s1|] eqn:E; simpl in H;
      [|discriminate].
    destruct e as [e|].
    + rewrite (IHe e eq_refl _ _ H), (IHt _ _ E). simpl. set_solver.
    + injection H as <-. rewrite (IHt _ _ E). simpl. set_solver.
  - simpl in H. now apply IH.
  - simpl in H. injection H as <-. simpl. set_solver.
Qed.

Lemma VisitBufferStore_overwrites buffer value indices s s' :
  VisitBufferStore A cache_line_size_ buffer value indices s = Some s' ->
  (exists curve acc_feas,
      buffer_features s' !! buffer_id buffer
      = Some (fst (features_at (buffer_features s) buffer),
              store_features s (MathOpCounter.run value) curve acc_feas
                (snd (features_at (buffer_features s) buffer))))
  /\ (forall b, b <> buffer_id buffer ->
        buffer_features s' !! b = buffer_features s !! b).
Proof.
  intros H. apply VisitBufferStore_result in H as (ts & curve & accs & ->).
  rewrite bf_set_for_touch_regions, bf_set_buffer_features. split.
  - exists curve, accs. apply lookup_insert_eq.
  - intros b Hb. now apply lookup_insert_ne.
Qed.

End Dom.

End Walk_properties.

(** C3, as stated, fails: [B[0] = 1.0f; B[0] = 2.0f] visits two stores and
    the output holds the count 1 followed by one vector; and
    [realize B([0, 1024)) { 0 }] visits no store and the output holds the
    count 1 followed by one vector all the same. *)
Lemma C3_store_count_counterexample :
  (count_stores ex_two_stores = 2%nat
   /\ (ret ← GetPerStoreFeature interval_analyzer false ex_two_stores 64 5;
       Some (head ret, length ret))
      = Some (Some (FFin 1), (1 + 1 * Z.to_nat (67 + 5 * 18 + 7))%nat))
  /\ (count_stores ex_realize_only = 0%nat
      /\ (ret ← GetPerStoreFeature interval_analyzer false ex_realize_only 64 5;
          Some (head ret, length ret))
         = Some (Some (FFin 1), (1 + 1 * Z.to_nat (67 + 5 * 18 + 7))%nat)).
Proof. split; (split; [reflexivity|vm_compute; reflexivity]). Qed.

(** C3 (amended): the output holds one vector per buffer that the statement
    stores to or realizes (the count first, then the vectors of the entries
    of [buffer_features] in the iteration order of that map); a store
    overwrites the entry of its buffer with its own features and leaves the
    entries of the other buffers as they are, so that of several stores to
    one buffer the last one visited is the one emitted. *)
Theorem C3_one_vector_per_buffer :
  forall (A : AnalyzerOps) (is_gpu0 : bool) (stmt : Stmt) (cache_line_size max_n_bufs : Z)
         (ret : list cfloat),
    0 <= max_n_bufs ->
    GetPerStoreFeature A is_gpu0 stmt cache_line_size max_n_bufs = Some ret ->
    (exists extractor : PerStoreFeatureExtractor.t,
        PerStoreFeatureExtractor.VisitStmt A cache_line_size stmt
          (PerStoreFeatureExtractor.init is_gpu0) = Some extractor
        /\ dom (PerStoreFeatureExtractor.buffer_features extractor) = featured_buffers stmt
        /\ exists segments : list (list cfloat),
            ret = of_int (Z.of_nat (length segments)) :: concat segments
            /\ length segments = size (featured_buffers stmt)
            /\ segments
               = map (fun x => emit_feature_set max_n_bufs (snd (snd x)))
                   (map_to_list (PerStoreFeatureExtractor.buffer_features extractor)))
    /\ (forall buffer value indices s s',
          PerStoreFeatureExtractor.VisitBufferStore A cache_line_size buffer value indices s
          = Some s' ->
          (exists curve acc_feas,
              PerStoreFeatureExtractor.buffer_features s' !! buffer_id buffer
              = Some (fst (PerStoreFeatureExtractor.features_at
                             (PerStoreFeatureExtractor.buffer_features s) buffer),
                      PerStoreFeatureExtractor.store_features s (MathOpCounter.run value)
                        curve acc_feas
                        (snd (PerStoreFeatureExtractor.features_at
                                (PerStoreFeatureExtractor.buffer_features s) buffer))))
          /\ (forall b, b <> buffer_id buffer ->
                PerStoreFeatureExtractor.buffer_features s' !! b
                = PerStoreFeatureExtractor.buffer_features s !! b)).
Proof.
  intros A g stmt cl n ret Hn H. split.
  - unfold GetPerStoreFeature in H.
    destruct (PerStoreFeatureExtractor.VisitStmt A cl stmt _) as [e|] eqn:E;
      simpl in H; [|discriminate].
    injection H as <-. exists e. split; [reflexivity|].
    assert (Hdom : dom (PerStoreFeatureExtractor.buffer_features e) = featured_buffers stmt).
    { rewrite (VisitStmt_dom A cl stmt _ _ E). simpl. set_solver. }
    split; [exact Hdom|].
    eexists. split; [|split; [|reflexivity]].
    + unfold emit_features. rewrite length_map, length_map_to_list.
      f_equal. apply flat_map_concat_map.
    + rewrite length_map, length_map_to_list, <- Hdom. symmetry. apply size_dom.
  - intros buffer value indices s s' Hs.
    now apply VisitBufferStore_overwrites in Hs.
Qed.

(** C3 at [B[0] = 1.0f; B[0] = 2.0f] with [max_n_bufs = 5] *)
Lemma C3_one_vector_per_buffer_witness :
  exists ret,
    GetPerStoreFeature interval_analyzer false ex_two_stores 64 5 = Some ret
    /\ exists segments : list (list cfloat),
        ret = of_int (Z.of_nat (length segments)) :: concat segments
        /\ length segments = size (featured_buffers ex_two_stores).
Proof.
  eexists. split; [vm_compute; reflexivity|].
  edestruct (C3_one_vector_per_buffer interval_analyzer false ex_two_stores 64 5)
    as [(e & _ & _ & segments & Hret & Hlen & _) _];
    [lia|vm_compute; reflexivity|].
  exists segments. split; [exact Hret|exact Hlen].
Defined.

(** ** The math-op counter *)

Section MathOpCounter_properties.
Import MathOpCounter.

Lemma counter_total_incr f c : counter_total (incr f c) = counter_total c + 1.
Proof. destruct c, f; unfold counter_total; simpl; lia. Qed.

Lemma mad_incr f c :
  float_mad (incr f c) = float_mad c /\ int_mad (incr f c) = int_mad c.
Proof. destruct c, f; simpl; auto. Qed.

Lemma counters_incr_nonneg f c :
  List.Forall (fun n => 0 <= n) (counters c) ->
  List.Forall (fun n => 0 <= n) (counters (incr f c)).
Proof.
  destruct c, f; unfold counters; simpl; intros H;
    repeat (apply List.Forall_cons_iff in H as [? H]);
    repeat (constructor; try lia).
Qed.

(** What a visit adds to a counter that already holds counts *)
Lemma VisitExpr_accumulates e :
  forall c,
    counter_total (VisitExpr e c) = counter_total c + op_nodes e
    /\ float_mad (VisitExpr e c) = float_mad c
    /\ int_mad (VisitExpr e c) = int_mad c
    /\ (List.Forall (fun n => 0 <= n) (counters c) ->
        List.Forall (fun n => 0 <= n) (counters (VisitExpr e c))).
Proof.
  induction e as [v|t z|t q|t e IH|op a b IHa IHb|a IH|c0 tv fv IHc IHt IHf
                  |buf idx IH|t op args IH] using PrimExpr_nested_ind;
    intros c; simpl.
  - repeat split; auto; lia.
  - repeat split; auto; lia.
  - repeat split; auto; lia.
  - apply IH.
  - destruct (IHa (incr (binary_field op (is_float (expr_dtype a))) c))
      as (Ta & Fa & Ia & Na).
    destruct (IHb (VisitExpr a (incr (binary_field op (is_float (expr_dtype a))) c)))
      as (Tb & Fb & Ib & Nb).
    destruct (mad_incr (binary_field op (is_float (expr_dtype a))) c) as [Fi Ii].
    rewrite Tb, Ta, counter_total_incr, Fb, Fa, Ib, Ia.
    repeat split; auto; try lia.
    intros H. apply Nb, Na. now apply counters_incr_nonneg.
  - destruct (IH (incr f_bool_op c)) as (Ta & Fa & Ia & Na).
    destruct (mad_incr f_bool_op c) as [Fi Ii].
    rewrite Ta, counter_total_incr, Fa, Ia.
    repeat split; auto; try lia.
    intros H. apply Na. now apply counters_incr_nonneg.
  - destruct (IHc (incr f_select_op c)) as (Tc & Fc & Ic & Nc).
    destruct (IHt (VisitExpr c0 (incr f_select_op c))) as (Tt & Ft & It & Nt).
    destruct (IHf (VisitExpr tv (VisitExpr c0 (incr f_select_op c))))
      as (Tf & Ff & If_ & Nf).
    destruct (mad_incr f_select_op c) as [Fi Ii].
    rewrite Tf, Tt, Tc, counter_total_incr, Ff, Ft, Fc, If_, It, Ic.
    repeat split; auto; try lia.
    intros H. apply Nf, Nt, Nc. now apply counters_incr_nonneg.
  - revert c. induction IH as [|x idx Hx _ IHl]; intros c; simpl.
    + repeat split; auto; lia.
    + destruct (Hx c) as (Tx & Fx & Ix & Nx).
      destruct (IHl (VisitExpr x c)) as (Tl & Fl & Il & Nl).
      rewrite Tl, Tx, Fl, Fx, Il, Ix. repeat split; auto; try lia.
  - destruct (mad_incr (call_field t op) c) as [Fi Ii].
    rewrite <- Fi, <- Ii.
    assert (Hn : List.Forall (fun n => 0 <= n) (counters c) ->
                 List.Forall (fun n => 0 <= n) (counters (incr (call_field t op) c)))
      by apply counters_incr_nonneg.
    replace (counter_total c + (1 + fold_right (fun x n => op_nodes x + n) 0 args))
      with (counter_total (incr (call_field t op) c)
            + fold_right (fun x n => op_nodes x + n) 0 args)
      by (rewrite counter_total_incr; lia).
    revert Hn. generalize (incr (call_field t op) c) as c1.
    induction IH as [|x args Hx _ IHl]; intros c1 Hn; simpl.
    + repeat split; auto; lia.
    + destruct (Hx c1) as (Tx & Fx & Ix & Nx).
      destruct (IHl (VisitExpr x c1)) as (Tl & Fl & Il & Nl); [auto|].
      rewrite Tl, Tx, Fl, Fx, Il, Ix. repeat split; auto; try lia.
Qed.

(** X1: the math-op counter counts every operator node of an expression
    (binary operators, Not, Select and calls, also inside the indices of a
    load and the arguments of a call) exactly once, in exactly one of its
    counters: after [mathops(e)] on a new counter the sixteen counters add up
    to the number of operator nodes of [e], none of them is negative, and the
    two MAD counters are 0. *)
Theorem MathOpCounter_counts_every_op :
  forall e : PrimExpr,
    counter_total (run e) = op_nodes e
    /\ List.Forall (fun n => 0 <= n) (counters (run e))
    /\ float_mad (run e) = 0
    /\ int_mad (run e) = 0.
Proof.
  intros e. unfold run.
  destruct (VisitExpr_accumulates e init) as (T & F & I & N).
  rewrite T, F, I. repeat split; auto.
  apply N. unfold counters, init. simpl. repeat constructor; lia.
Qed.

End MathOpCounter_properties.

(** ** The coefficient extractor and ComputeStride *)

Section Stride_properties.
Import CoefficientExtractor.

Lemma visited_var_visit_mul a b s : visited_var (visit_mul a b s) = visited_var s.
Proof.
  unfold visit_mul. destruct (visited_var s) eqn:E; [|exact E].
  destruct (negb (visited_add s)); [|exact E].
  destruct a; try (destruct b); first [reflexivity|exact E].
Qed.

Lemma visited_var_visit_add s : visited_var (visit_add s) = visited_var s.
Proof.
  unfold visit_add. destruct (visited_var s) eqn:E; [|exact E].
  destruct (negb (visited_mul s)); first [reflexivity|exact E].
Qed.

Lemma visited_var_fold var_ (l : list PrimExpr) :
  List.Forall
    (fun e => forall s, visited_var (VisitExpr var_ e s) = visited_var s || VarInExpr var_ e) l ->
  forall s,
    visited_var (fold_left (fun s x => VisitExpr var_ x s) l s)
    = visited_var s || existsb (VarInExpr var_) l.
Proof.
  induction 1 as [|x l Hx _ IH]; intros s; simpl.
  - now rewrite orb_false_r.
  - now rewrite IH, Hx, orb_assoc.
Qed.

(** The visit sets [visited_var] when it meets the variable and never resets
    it. *)
Lemma visited_var_VisitExpr var_ e :
  forall s, visited_var (VisitExpr var_ e s) = visited_var s || VarInExpr var_ e.
Proof.
  induction e as [v|t z|t q|t e IH|op a b IHa IHb|a IH|c tv fv IHc IHt IHf
                 |buf idx IH|t op args IH] using PrimExpr_nested_ind;
    intros s; simpl.
  - destruct (var_same v var_); simpl; [now rewrite orb_true_r|now rewrite orb_false_r].
  - now rewrite orb_false_r.
  - now rewrite orb_false_r.
  - apply IH.
  - assert (H : visited_var (VisitExpr var_ b (VisitExpr var_ a s))
                = visited_var s || (VarInExpr var_ a || VarInExpr var_ b))
      by (now rewrite IHb, IHa, orb_assoc).
    destruct op; try exact H.
    + now rewrite visited_var_visit_add.
    + now rewrite visited_var_visit_mul.
  - apply IH.
  - now rewrite IHf, IHt, IHc, !orb_assoc.
  - now apply visited_var_fold.
  - now apply visited_var_fold.
Qed.

(** X2: after ExtractCoefficient(expr, var), whatever the extractor held
    before, [visited_var] tells whether the variable occurs in the expression
    (VarInExpr): the flag ComputeStride reads is exact, only the coefficient is
    an approximation. *)
Theorem ExtractCoefficient_visited_var :
  forall (expr : PrimExpr) (var : Var) (s : CoefficientExtractor.t),
    visited_var (snd (ExtractCoefficient expr var s)) = VarInExpr var expr.
Proof.
  intros expr var s. unfold ExtractCoefficient.
  match goal with
  | |- context [if ?c then _ else _] => destruct c
  end; simpl; now rewrite visited_var_VisitExpr.
Qed.

(** The extractor after a call on an expression without the variable *)
Lemma ExtractCoefficient_absent expr var s :
  VarInExpr var expr = false ->
  snd (ExtractCoefficient expr var s) = mk false false false (stride s).
Proof.
  intros Hin. unfold ExtractCoefficient.
  rewrite !(VisitExpr_absent var expr Hin) by reflexivity. reflexivity.
Qed.

Lemma ExtractCoefficient_var var s :
  ExtractCoefficient (VarE var) var s = (1, mk true false false 2).
Proof. unfold ExtractCoefficient. simpl. now rewrite var_same_refl. Qed.

Lemma combine_app_same {X Y : Type} (l1 l2 : list X) (k1 k2 : list Y) :
  length l1 = length k1 ->
  combine (l1 ++ l2) (k1 ++ k2) = combine l1 k1 ++ combine l2 k2.
Proof.
  revert k1. induction l1 as [|x l1 IH]; intros [|y k1] H; simpl in *;
    try discriminate; [reflexivity|].
  f_equal. apply IH. lia.
Qed.

Lemma dims_from_snoc a l x :
  dims_from a (l ++ [x]) = dims_from a l ++ [((a + length l)%nat, x)].
Proof.
  unfold dims_from. rewrite length_app. simpl.
  rewrite Nat.add_1_r, seq_S.
  rewrite combine_app_same by (now rewrite length_seq). reflexivity.
Qed.

Lemma dims_from_app a l1 l2 :
  dims_from a (l1 ++ l2) = dims_from a l1 ++ dims_from (a + length l1) l2.
Proof.
  unfold dims_from. rewrite length_app, seq_app.
  rewrite combine_app_same by (now rewrite length_seq). reflexivity.
Qed.

(** The scan of the dimensions that do not hold the variable: every one of
    them multiplies [shape_stride] by its extent. *)
Lemma stride_of_index_skip var shape (post : list PrimExpr) :
  forall a rest shape_stride extractor,
    List.Forall (fun e => VarInExpr var e = false) post ->
    (a + length post <= length shape)%nat ->
    exists extractor',
      stride extractor' = stride extractor
      /\ stride_of_index var shape (rev (dims_from a post) ++ rest) shape_stride extractor
         = stride_of_index var shape rest
             (fold_left (fun s d => to_int64 (s * d))
                (rev (take (length post) (drop a shape))) shape_stride)
             extractor'.
Proof.
  induction post as [|x post IH] using rev_ind; intros a rest ss ex Hall Hlen.
  - exists ex. simpl. auto.
  - apply Forall_app in Hall as [Hpost Hx]. apply List.Forall_cons_iff in Hx as [Hx _].
    rewrite length_app in Hlen. simpl in Hlen.
    rewrite dims_from_snoc, rev_app_distr. simpl.
    destruct (ExtractCoefficient x var ex) as [coefficient ex1] eqn:E.
    assert (Hex1 : ex1 = mk false false false (stride ex)).
    { rewrite <- (ExtractCoefficient_absent x var ex Hx). now rewrite E. }
    rewrite Hex1. simpl.
    destruct (lookup_lt_is_Some_2 shape (a + length post)) as [d Hd]; [lia|].
    rewrite Hd.
    destruct (IH a rest (to_int64 (ss * d)) (mk false false false (stride ex)) Hpost)
      as (ex' & Hs & Heq); [lia|].
    exists ex'. split; [exact Hs|]. rewrite Heq. f_equal.
    rewrite length_app. simpl.
    replace (length post + 1)%nat with (S (length post)) by lia.
    rewrite (take_S_r _ (length post) d).
    + rewrite rev_app_distr. reflexivity.
    + now rewrite lookup_drop.
Qed.

Lemma stride_of_index_absent var shape index shape_stride extractor :
  List.Forall (fun e => VarInExpr var e = false) index ->
  (length index <= length shape)%nat ->
  exists extractor',
    stride_of_index var shape (rev_dims index) shape_stride extractor
    = Some (None, extractor').
Proof.
  intros Hall Hlen.
  destruct (stride_of_index_skip var shape index 0 [] shape_stride extractor Hall)
    as (ex' & _ & Heq); [simpl; lia|].
  rewrite app_nil_r in Heq. unfold rev_dims. unfold dims_from in Heq.
  rewrite Heq. simpl. eauto.
Qed.

(** The scan of one index tuple returns as soon as the shape has a dimension
    for every dimension of the tuple. *)
Lemma stride_of_index_returns var shape (index : list PrimExpr) :
  forall a rest shape_stride extractor,
    (a + length index <= length shape)%nat ->
    (forall ss ex, is_Some (stride_of_index var shape rest ss ex)) ->
    is_Some (stride_of_index var shape (rev (dims_from a index) ++ rest)
               shape_stride extractor).
Proof.
  induction index as [|x index IH] using rev_ind; intros a rest ss ex Hlen Hrest.
  - simpl. apply Hrest.
  - rewrite length_app in Hlen. simpl in Hlen.
    rewrite dims_from_snoc, rev_app_distr. simpl.
    destruct (ExtractCoefficient x var ex) as [coefficient ex1].
    destruct (visited_var ex1); [eauto|].
    destruct (lookup_lt_is_Some_2 shape (a + length index)) as [d Hd]; [lia|].
    rewrite Hd. apply IH; [lia|exact Hrest].
Qed.

Lemma stride_loop_returns var shape indices :
  List.Forall (fun index : list PrimExpr => (length index <= length shape)%nat) indices ->
  forall min_stride find extractor,
    is_Some (stride_loop var shape indices min_stride find extractor).
Proof.
  induction 1 as [|index indices Hlen _ IH]; intros m f ex; simpl; [eauto|].
  destruct (stride_of_index_returns var shape index 0 [] 1 ex) as [[[s|] ex1] E].
  - simpl. lia.
  - intros. simpl. eauto.
  - unfold rev_dims. unfold dims_from in E. rewrite app_nil_r in E. rewrite E. apply IH.
  - unfold rev_dims. unfold dims_from in E. rewrite app_nil_r in E. rewrite E. apply IH.
Qed.

Lemma stride_loop_absent var shape indices :
  List.Forall (fun index : list PrimExpr => (length index <= length shape)%nat) indices ->
  List.Forall (fun index => List.Forall (fun e => VarInExpr var e = false) index) indices ->
  forall min_stride find extractor,
    stride_loop var shape indices min_stride find extractor = Some (min_stride, find).
Proof.
  induction 1 as [|index indices Hlen _ IH]; intros Habs m f ex; simpl; [reflexivity|].
  apply List.Forall_cons_iff in Habs as [Hidx Habs].
  destruct (stride_of_index_absent var shape index 1 ex Hidx Hlen) as (ex' & ->).
  now apply IH.
Qed.

(** X3: when the shape has a dimension for every dimension of every index
    tuple, ComputeStride returns (it reads no [shape[i]] past the end of the
    vector); and when moreover the variable occurs in none of the indices, the
    stride it returns is 0. *)
Theorem ComputeStride_returns :
  forall (indices : list (list PrimExpr)) (shape : list Z) (stride_var : Var),
    List.Forall (fun index : list PrimExpr => (length index <= length shape)%nat) indices ->
    is_Some (ComputeStride indices shape stride_var)
    /\ (List.Forall (fun index => List.Forall (fun e => VarInExpr stride_var e = false) index)
          indices ->
        ComputeStride indices shape stride_var = Some 0).
Proof.
  intros indices shape var Hlen. unfold ComputeStride. split.
  - destruct (stride_loop_returns var shape indices Hlen INT64_MAX false init)
      as [[m f] ->]. eauto.
  - intros Habs. now rewrite (stride_loop_absent var shape indices Hlen Habs).
Qed.

(** ComputeStride at [A[i][j]] with the shape [[8; 16]] and a variable [k] *)
Lemma ComputeStride_returns_witness :
  is_Some (ComputeStride [[VarE ex_var_i; VarE ex_var_j]] [8; 16] ex_var_k)
  /\ ComputeStride [[VarE ex_var_i; VarE ex_var_j]] [8; 16] ex_var_k = Some 0.
Proof.
  destruct (ComputeStride_returns [[VarE ex_var_i; VarE ex_var_j]] [8; 16] ex_var_k)
    as [H1 H2].
  - repeat constructor.
  - split; [exact H1|]. apply H2. repeat constructor.
Defined.

Lemma wrapped_product_exact (l : list Z) :
  forall s,
    List.Forall (fun d => 1 <= d) l -> 1 <= s ->
    s * fold_right Z.mul 1 l <= INT64_MAX ->
    fold_left (fun s d => to_int64 (s * d)) l s = s * fold_right Z.mul 1 l.
Proof.
  induction l as [|d l IH]; intros s Hall Hs Hmax; simpl in *; [lia|].
  apply List.Forall_cons_iff in Hall as [Hd Hall].
  assert (Hp : 1 <= fold_right Z.mul 1 l).
  { clear -Hall. induction Hall; simpl; nia. }
  assert (Hsd : to_int64 (s * d) = s * d).
  { apply to_int64_small. unfold INT64_MIN, INT64_MAX in *. nia. }
  rewrite Hsd, IH; [lia|exact Hall|nia|].
  replace (s * d * fold_right Z.mul 1 l) with (s * (d * fold_right Z.mul 1 l)) by lia.
  exact Hmax.
Qed.

Lemma fold_right_mul_rev (l : list Z) :
  fold_right Z.mul 1 (rev l) = fold_right Z.mul 1 l.
Proof.
  induction l as [|d l IH]; simpl; [reflexivity|].
  rewrite fold_right_app. simpl. rewrite <- IH.
  generalize (rev l) as r. induction r as [|x r IHr]; simpl; lia.
Qed.

(** X4: the stride of a row-major access.  For one index tuple with as many
    dimensions as the shape, whose dimension [k] is the variable itself and
    whose later dimensions do not hold the variable, ComputeStride returns the
    product of the extents of the dimensions after [k] (1 for the last
    dimension), provided these extents are at least 1 and their product fits
    [int64_t]. *)
Theorem ComputeStride_row_major :
  forall (index : list PrimExpr) (shape : list Z) (stride_var : Var) (k : nat),
    length index = length shape ->
    index !! k = Some (VarE stride_var) ->
    List.Forall (fun e => VarInExpr stride_var e = false) (drop (S k) index) ->
    List.Forall (fun d => 1 <= d) (drop (S k) shape) ->
    inner_shape_product shape k <= INT64_MAX ->
    ComputeStride [index] shape stride_var = Some (inner_shape_product shape k).
Proof.
  intros index shape var k Hlen Hk Hpost Hdims Hmax.
  assert (Hsplit : index = take k index ++ VarE var :: drop (S k) index).
  { symmetry. now apply take_drop_middle. }
  assert (Hklt : (k < length index)%nat) by (eapply lookup_lt_Some; eauto).
  unfold ComputeStride. cbn [stride_loop]. unfold rev_dims.
  change (combine (seq 0 (length index)) index) with (dims_from 0 index).
  rewrite Hsplit at 1.
  rewrite dims_from_app. cbn [Nat.add].
  change (VarE var :: drop (S k) index) with ([VarE var] ++ drop (S k) index).
  rewrite dims_from_app.
  rewrite length_take, Nat.min_l by lia.
  rewrite !rev_app_distr, <- app_assoc.
  destruct (stride_of_index_skip var shape (drop (S k) index) (k + length [VarE var])
              (rev (dims_from k [VarE var]) ++ rev (dims_from 0 (take k index)))
              1 init Hpost)
    as (ex' & _ & Heq).
  { rewrite length_drop. simpl. lia. }
  rewrite Heq. unfold dims_from at 1. cbn [length seq combine rev app stride_of_index].
  rewrite ExtractCoefficient_var. cbn [visited_var].
  rewrite length_drop.
  replace (k + 1)%nat with (S k) by lia.
  rewrite take_ge by (rewrite length_drop; lia).
  rewrite wrapped_product_exact.
  - rewrite fold_right_mul_rev. fold (inner_shape_product shape k).
    assert (Hp : 1 <= inner_shape_product shape k).
    { unfold inner_shape_product. clear -Hdims. induction Hdims; simpl; nia. }
    rewrite Z.mul_1_l.
    change (to_int32 (Z.abs 1)) with 1. rewrite Z.mul_1_l.
    rewrite to_int64_small by (unfold INT64_MIN, INT64_MAX in *; lia).
    rewrite Z.min_r by lia. reflexivity.
  - rewrite List.Forall_forall in Hdims |- *. intros d Hd. apply Hdims.
    now apply in_rev.
  - lia.
  - rewrite fold_right_mul_rev. fold (inner_shape_product shape k). lia.
Qed.

(** ComputeStride at [A[i][j][k]] with the shape [[4; 8; 16]]: the stride of
    [j] is 16 *)
Lemma ComputeStride_row_major_witness :
  ComputeStride [[VarE ex_var_i; VarE ex_var_j; VarE ex_var_k]] [4; 8; 16] ex_var_j
  = Some (inner_shape_product [4; 8; 16] 1).
Proof.
  apply (ComputeStride_row_major [VarE ex_var_i; VarE ex_var_j; VarE ex_var_k]
           [4; 8; 16] ex_var_j 1).
  - reflexivity.
  - reflexivity.
  - repeat constructor.
  - repeat constructor; lia.
  - vm_compute. discriminate.
Defined.

End Stride_properties.

(** ** ComputeRegion *)

Section Region_properties.
Variable A : AnalyzerOps.

Lemma region_dimension_returns (ana : Analyzer A) (indices : list (list PrimExpr)) i :
  is_Some (bounds ← mapM (fun index : list PrimExpr =>
                            const_int_bound A ana <$> index !! i) indices;
           let minimum := fold_left (fun m b => Z.min m (fst b)) bounds kPosInf in
           let maximum := fold_left (fun m b => Z.max m (snd b)) bounds kNegInf in
           Some (region_extent minimum maximum))
  <-> List.Forall (fun index : list PrimExpr => (i < length index)%nat) indices.
Proof.
  split.
  - intros [r Hr]. apply bind_Some in Hr as (bounds & Hb & _).
    assert (Hs : is_Some (mapM (fun index : list PrimExpr =>
                                  const_int_bound A ana <$> index !! i) indices))
      by eauto.
    apply mapM_is_Some in Hs.
    rewrite List.Forall_forall in Hs |- *.
    intros index Hin. specialize (Hs index Hin).
    simpl in Hs. apply fmap_is_Some in Hs. now apply lookup_lt_is_Some.
  - intros Hall.
    assert (Hs : is_Some (mapM (fun index : list PrimExpr =>
                                  const_int_bound A ana <$> index !! i) indices)).
    { apply mapM_is_Some. rewrite List.Forall_forall in Hall |- *.
      intros index Hin. specialize (Hall index Hin).
      simpl. apply fmap_is_Some. now apply lookup_lt_is_Some. }
    destruct Hs as [bounds ->]. simpl. eauto.
Qed.

(** X5: ComputeRegion returns exactly when no index tuple is shorter than the
    first one (otherwise it reads [indices[j][i]] past the end of a tuple), and
    the region it returns has one extent per dimension of the first tuple; it
    is empty when there is no tuple. *)
Theorem ComputeRegion_dimensions :
  forall (indices : list (list PrimExpr)) (ana : Analyzer A),
    (is_Some (ComputeRegion A indices ana)
     <-> List.Forall
           (fun index : list PrimExpr => (length (hd [] indices) <= length index)%nat)
           indices)
    /\ (forall region,
          ComputeRegion A indices ana = Some region ->
          length region = length (hd [] indices)).
Proof.
  intros indices ana. destruct indices as [|index0 [|index1 rest]].
  - simpl. split; [split; eauto|]. now intros region [= <-].
  - simpl. split.
    + split; [intros _; repeat constructor|eauto].
    + intros region [= <-]. now rewrite length_map.
  - unfold ComputeRegion. cbn [hd]. split.
    + rewrite mapM_is_Some. split.
      * intros Hall. rewrite List.Forall_forall in Hall |- *.
        intros index Hin.
        destruct (Nat.le_gt_cases (length index0) (length index)) as [Hle|Hgt];
          [exact Hle|exfalso].
        assert (Hi : In (length index) (seq 0 (length index0))).
        { apply in_seq. lia. }
        specialize (Hall _ Hi). apply region_dimension_returns in Hall.
        rewrite List.Forall_forall in Hall. specialize (Hall index Hin). lia.
      * intros Hall. rewrite List.Forall_forall. intros i Hi.
        apply in_seq in Hi.
        apply region_dimension_returns.
        rewrite List.Forall_forall in Hall |- *. intros index Hin.
        specialize (Hall index Hin). lia.
    + intros region Hr. apply length_mapM in Hr. now rewrite length_seq in Hr.
Qed.

End Region_properties.

(** ** More on the walk *)

Section Walk_observations.
Import PerStoreFeatureExtractor.
Variable A : AnalyzerOps.
Variable cache_line_size_ : Z.

(** A walk restores every observation of the extractor that the stores and
    the realizes leave alone and that every scope restores when it is left. *)
Section Restored.
Context {X : Type} (obs : PerStoreFeatureExtractor.t -> X).
Hypothesis obs_store : forall buffer value indices s s',
  VisitBufferStore A cache_line_size_ buffer value indices s = Some s' -> obs s' = obs s.
Hypothesis obs_realize : forall buffer bounds s s',
  realize_features buffer bounds s = Some s' -> obs s' = obs s.
Hypothesis obs_loop : forall v mn ex ft s s2,
  obs s2 = obs (snd (enter_loop v mn ex ft s)) ->
  obs (leave_loop (fst (enter_loop v mn ex ft s)) s2) = obs s.
Hypothesis obs_thread : forall node key value s sc s1 s2,
  enter_thread_scope node key value s = Some (sc, s1) ->
  obs s2 = obs s1 -> obs (leave_thread_scope sc s2) = obs s.
Hypothesis obs_pragma : forall value s old s1 s2,
  enter_pragma value s = Some (old, s1) ->
  obs s2 = obs s1 -> obs (set_cur_auto_unroll_max_step old s2) = obs s.

Lemma walk_restores stmt :
  forall s s', VisitStmt A cache_line_size_ stmt s = Some s' -> obs s' = obs s.
Proof.
  induction stmt as [v mn ex ft body IH|node key value body IH|buf v idx
                    |buf bs c body IH|seq IH|c t e IHt IHe|v e body IH|e]
    using Stmt_nested_ind; intros s s' H.
  - rewrite VisitStmt_For in H.
    destruct (VisitStmt A cache_line_size_ body _) as [s2|] eqn:E2; simpl in H;
      [|discriminate].
    injection H as <-. apply obs_loop. eapply IH; eauto.
  - destruct (attr_pushes_frame key) eqn:Ek.
    + rewrite VisitStmt_thread in H by assumption.
      destruct (enter_thread_scope node key value s) as [[sc s1]|] eqn:E;
        simpl in H; [|discriminate].
      destruct (VisitStmt A cache_line_size_ body s1) as [s2|] eqn:E2; simpl in H;
        [|discriminate].
      injection H as <-. eapply obs_thread; eauto.
    + destruct (String.eqb key pragma_auto_unroll_max_step) eqn:Ep.
      * rewrite VisitStmt_pragma in H by assumption.
        destruct (enter_pragma value s) as [[old s1]|] eqn:E; simpl in H; [|discriminate].
        destruct (VisitStmt A cache_line_size_ body s1) as [s2|] eqn:E2; simpl in H;
          [|discriminate].
        injection H as <-. eapply obs_pragma; eauto.
      * rewrite VisitStmt_attr in H by assumption. eapply IH; eauto.
  - eapply obs_store; eauto.
  - simpl in H.
    destruct (VisitStmt A cache_line_size_ body s) as [s1|] eqn:E; simpl in H;
      [|discriminate].
    rewrite (obs_realize _ _ _ _ H). eapply IH; eauto.
  - revert s s' H.
    induction IH as [|st seq Hst _ IHseq]; intros s s' H.
    + simpl in H. now injection H as <-.
    + rewrite visit_seq_cons in H.
      destruct (VisitStmt A cache_line_size_ st s) as [s1|] eqn:E; simpl in H;
        [|discriminate].
      rewrite (IHseq _ _ H). eapply Hst; eauto.
  - simpl in H.
    destruct (VisitStmt A cache_line_size_ t s) as [s1|] eqn:E; simpl in H;
      [|discriminate].
    destruct e as [e|].
    + rewrite (IHe e eq_refl _ _ H). eapply IHt; eauto.
    + injection H as <-. eapply IHt; eauto.
  - simpl in H. eapply IH; eauto.
  - simpl in H. now injection H as <-.
Qed.

End Restored.

Lemma scoped_members_store buffer value indices s s' :
  VisitBufferStore A cache_line_size_ buffer value indices s = Some s' ->
  scoped_members s' = scoped_members s.
Proof.
  intros H. apply VisitBufferStore_result in H as (ts & curve & accs & ->).
  now destruct s.
Qed.

Lemma scoped_members_realize buffer bounds s s' :
  realize_features buffer bounds s = Some s' ->
  scoped_members s' = scoped_members s.
Proof.
  intros H. apply realize_features_result in H as (fea & ->). now destruct s.
Qed.

Lemma scoped_members_loop v mn ex ft s s2 :
  scoped_members s2 = scoped_members (snd (enter_loop v mn ex ft s)) ->
  scoped_members (leave_loop (fst (enter_loop v mn ex ft s)) s2) = scoped_members s.
Proof.
  unfold enter_loop, leave_loop, push_kind_stack, pop_kind_stack, scoped_members.
  cbn [fst snd for_type].
  destruct s, s2, ft; cbn; intros [= -> -> -> -> -> -> -> -> -> -> ->];
    rewrite ?removelast_last; reflexivity.
Qed.

Lemma scoped_members_thread node key value s sc s1 s2 :
  enter_thread_scope node key value s = Some (sc, s1) ->
  scoped_members s2 = scoped_members s1 ->
  scoped_members (leave_thread_scope sc s2) = scoped_members s.
Proof.
  unfold enter_thread_scope. destruct node as [var|]; [|discriminate].
  destruct (GetIntImm value) as [v|]; [|discriminate].
  change (to_int32 <$> Some v) with (Some (to_int32 v)).
  remember (to_int32 v) as e eqn:He. cbn [mbind option_bind].
  destruct (if String.eqb key thread_extent then _ else _) as [pl|];
    cbn [mbind option_bind]; [|discriminate].
  intros [= <- <-]. unfold leave_thread_scope, scoped_members.
  destruct (String.eqb key thread_extent), pl, s, s2; cbn;
    intros [= -> -> -> -> -> -> -> -> -> -> ->]; reflexivity.
Qed.

Lemma scoped_members_pragma value s old s1 s2 :
  enter_pragma value s = Some (old, s1) ->
  scoped_members s2 = scoped_members s1 ->
  scoped_members (set_cur_auto_unroll_max_step old s2) = scoped_members s.
Proof.
  unfold enter_pragma. destruct (GetIntImm value) as [v|]; [|discriminate].
  cbn. intros [= <- <-]. unfold scoped_members.
  destruct s, s2; cbn; intros [= -> -> -> -> -> -> -> -> -> -> ->]; reflexivity.
Qed.

End Walk_observations.

(** X7: a walk that returns leaves the three annotation stacks (vectorized,
    unrolled, parallel), the seven thread-length members and
    [cur_auto_unroll_max_step] as it found them, whatever the extents: every
    scope pops what it pushed and writes back the value it saved. *)
Theorem walk_restores_scoped_members :
  forall (A : AnalyzerOps) (cache_line_size : Z) (stmt : Stmt)
         (s s' : PerStoreFeatureExtractor.t),
    PerStoreFeatureExtractor.VisitStmt A cache_line_size stmt s = Some s' ->
    scoped_members s' = scoped_members s.
Proof.
  intros A cl stmt s s' H.
  apply (walk_restores A cl scoped_members) with (stmt := stmt); try exact H.
  - apply scoped_members_store.
  - apply scoped_members_realize.
  - apply scoped_members_loop.
  - apply scoped_members_thread.
  - apply scoped_members_pragma.
Qed.

(** The walk of [ex_gpu_nest] returns. *)
Lemma ex_gpu_nest_returns :
  is_Some (PerStoreFeatureExtractor.VisitStmt interval_analyzer 64 ex_gpu_nest
             (PerStoreFeatureExtractor.init false)).
Proof.
  destruct (PerStoreFeatureExtractor.VisitStmt interval_analyzer 64 ex_gpu_nest
              (PerStoreFeatureExtractor.init false)) as [s'|] eqn:E; [eauto|].
  exfalso. revert E. vm_compute. decide_reals. discriminate.
Qed.

(** X7 at the walk of [ex_gpu_nest] *)
Lemma walk_restores_scoped_members_witness :
  exists s',
    PerStoreFeatureExtractor.VisitStmt interval_analyzer 64 ex_gpu_nest
      (PerStoreFeatureExtractor.init false) = Some s'
    /\ scoped_members s' = scoped_members (PerStoreFeatureExtractor.init false).
Proof.
  destruct ex_gpu_nest_returns as [s' E]. exists s'. split; [exact E|].
  exact (walk_restores_scoped_members interval_analyzer 64 ex_gpu_nest _ s' E).
Defined.

Section Walk_flags.
Import PerStoreFeatureExtractor.
Variable A : AnalyzerOps.
Variable cache_line_size_ : Z.

Lemma is_gpu_store buffer value indices s s' :
  VisitBufferStore A cache_line_size_ buffer value indices s = Some s' ->
  is_gpu s' = is_gpu s.
Proof.
  intros H. apply VisitBufferStore_result in H as (ts & curve & accs & ->).
  now destruct s.
Qed.

Lemma is_gpu_realize buffer bounds s s' :
  realize_features buffer bounds s = Some s' -> is_gpu s' = is_gpu s.
Proof.
  intros H. apply realize_features_result in H as (fea & ->). now destruct s.
Qed.

Lemma is_gpu_enter_loop v mn ex ft s :
  is_gpu (snd (enter_loop v mn ex ft s)) = is_gpu s.
Proof. unfold enter_loop, push_kind_stack. cbn [snd for_type]. now destruct ft, s. Qed.

Lemma is_gpu_leave_loop node s : is_gpu (leave_loop node s) = is_gpu s.
Proof. unfold leave_loop, pop_kind_stack. now destruct (for_type node), s. Qed.

Lemma is_gpu_enter_thread_scope node key value s sc s1 :
  enter_thread_scope node key value s = Some (sc, s1) -> is_gpu s1 = true.
Proof.
  unfold enter_thread_scope. destruct node as [var|]; [|discriminate].
  destruct (GetIntImm value) as [v|]; [|discriminate].
  change (to_int32 <$> Some v) with (Some (to_int32 v)).
  remember (to_int32 v) as e eqn:He. cbn [mbind option_bind].
  destruct (if String.eqb key thread_extent then _ else _) as [pl|];
    cbn [mbind option_bind]; [|discriminate].
  intros [= <- <-]. now destruct (String.eqb key thread_extent), pl, s.
Qed.

Lemma is_gpu_leave_thread_scope sc s : is_gpu (leave_thread_scope sc s) = is_gpu s.
Proof. unfold leave_thread_scope. now destruct (plen sc), s. Qed.

Lemma is_gpu_enter_pragma value s old s1 :
  enter_pragma value s = Some (old, s1) -> is_gpu s1 = is_gpu s.
Proof.
  unfold enter_pragma. destruct (GetIntImm value); cbn; [|discriminate].
  intros [= <- <-]. now destruct s.
Qed.

Lemma is_gpu_set_cur_auto_unroll_max_step x s :
  is_gpu (set_cur_auto_unroll_max_step x s) = is_gpu s.
Proof. now destruct s. Qed.

Lemma is_gpu_walk stmt :
  forall s s',
    VisitStmt A cache_line_size_ stmt s = Some s' ->
    is_gpu s' = is_gpu s || has_thread_scope stmt.
Proof.
  induction stmt as [v mn ex ft body IH|node key value body IH|buf v idx
                    |buf bs c body IH|seq IH|c t e IHt IHe|v e body IH|e]
    using Stmt_nested_ind; intros s s' H.
  - rewrite VisitStmt_For in H.
    destruct (VisitStmt A cache_line_size_ body _) as [s2|] eqn:E2; simpl in H;
      [|discriminate].
    injection H as <-.
    now rewrite is_gpu_leave_loop, (IH _ _ E2), is_gpu_enter_loop.
  - cbn [has_thread_scope]. destruct (attr_pushes_frame key) eqn:Ek.
    + rewrite VisitStmt_thread in H by assumption.
      destruct (enter_thread_scope node key value s) as [[sc s1]|] eqn:E;
        simpl in H; [|discriminate].
      destruct (VisitStmt A cache_line_size_ body s1) as [s2|] eqn:E2; simpl in H;
        [|discriminate].
      injection H as <-.
      rewrite is_gpu_leave_thread_scope, (IH _ _ E2),
        (is_gpu_enter_thread_scope _ _ _ _ _ _ E).
      now rewrite orb_true_r.
    + destruct (String.eqb key pragma_auto_unroll_max_step) eqn:Ep.
      * rewrite VisitStmt_pragma in H by assumption.
        destruct (enter_pragma value s) as [[old s1]|] eqn:E; simpl in H; [|discriminate].
        destruct (VisitStmt A cache_line_size_ body s1) as [s2|] eqn:E2; simpl in H;
          [|discriminate].
        injection H as <-.
        now rewrite is_gpu_set_cur_auto_unroll_max_step, (IH _ _ E2),
          (is_gpu_enter_pragma _ _ _ _ E).
      * rewrite VisitStmt_attr in H by assumption. now apply IH.
  - simpl. rewrite orb_false_r. eapply is_gpu_store; eauto.
  - simpl in H.
    destruct (VisitStmt A cache_line_size_ body s) as [s1|] eqn:E; simpl in H;
      [|discriminate].
    rewrite (is_gpu_realize _ _ _ _ H). cbn [has_thread_scope]. now apply IH.
  - revert s s' H. cbn [has_thread_scope].
    induction IH as [|st seq Hst _ IHseq]; intros s s' H.
    + simpl in H. injection H as <-. simpl. now rewrite orb_false_r.
    + rewrite visit_seq_cons in H.
      destruct (VisitStmt A cache_line_size_ st s) as [s1|] eqn:E; simpl in H;
        [|discriminate].
      rewrite (IHseq _ _ H), (Hst _ _ E). simpl. now rewrite orb_assoc.
  - simpl in H. cbn [has_thread_scope].
    destruct (VisitStmt A cache_line_size_ t s) as [s1|] eqn:E; simpl in H;
      [|discriminate].
    destruct e as [e|].
    + rewrite (IHe e eq_refl _ _ H), (IHt _ _ E). now rewrite orb_assoc.
    + injection H as <-. rewrite (IHt _ _ E). now rewrite orb_false_r.
  - simpl in H. cbn [has_thread_scope]. now apply IH.
  - simpl in H. injection H as <-. simpl. now rewrite orb_false_r.
Qed.

(** An abort at a statement the walk reaches aborts the walk: the extractor
    catches nothing. *)
Lemma visits_abort stmt s sub s1 :
  visits A cache_line_size_ stmt s sub s1 ->
  VisitStmt A cache_line_size_ sub s1 = None ->
  VisitStmt A cache_line_size_ stmt s = None.
Proof.
  induction 1 as [stmt s|v mn ex ft body s sub s' _ IH
                 |node key value body s sc s1 sub s' Hk He _ IH
                 |node key value body s old s1 sub s' Hk Hp He _ IH
                 |node key value body s sub s' Hk Hp _ IH
                 |buffer bounds c body s sub s' _ IH
                 |before st after s s1 sub s' Hb _ IH
                 |c t e s sub s' _ IH
                 |c t e s s1 sub s' Ht _ IH
                 |v e body s sub s' _ IH]; intros Hn.
  - exact Hn.
  - rewrite VisitStmt_For, (IH Hn). reflexivity.
  - rewrite VisitStmt_thread, He by assumption. cbn [mbind option_bind fst snd].
    now rewrite (IH Hn).
  - rewrite VisitStmt_pragma, He by assumption. cbn [mbind option_bind fst snd].
    now rewrite (IH Hn).
  - rewrite VisitStmt_attr by assumption. now apply IH.
  - simpl. now rewrite (IH Hn).
  - rewrite visit_seq_app, Hb. cbn [mbind option_bind].
    rewrite visit_seq_cons, (IH Hn). reflexivity.
  - simpl. now rewrite (IH Hn).
  - simpl. rewrite Ht. cbn [mbind option_bind]. now apply IH.
  - simpl. now apply IH.
Qed.

End Walk_flags.

(** X8: [is_gpu] is set by the thread_extent and virtual_thread scopes and
    never reset.  After a walk that returns, it holds what it held before or
    true when the statement has such a scope; so without one the extractor
    still holds the value its uninitialised member started with, and after one
    every later store is marked as GPU code. *)
Theorem walk_is_gpu :
  forall (A : AnalyzerOps) (cache_line_size : Z) (stmt : Stmt)
         (s s' : PerStoreFeatureExtractor.t),
    PerStoreFeatureExtractor.VisitStmt A cache_line_size stmt s = Some s' ->
    PerStoreFeatureExtractor.is_gpu s'
    = PerStoreFeatureExtractor.is_gpu s || has_thread_scope stmt.
Proof. intros A cl stmt s s' H. now apply (is_gpu_walk A cl stmt). Qed.

(** X8 at the walk of [ex_gpu_nest] *)
Lemma walk_is_gpu_witness :
  exists s',
    PerStoreFeatureExtractor.VisitStmt interval_analyzer 64 ex_gpu_nest
      (PerStoreFeatureExtractor.init false) = Some s'
    /\ PerStoreFeatureExtractor.is_gpu s' = false || has_thread_scope ex_gpu_nest.
Proof.
  destruct ex_gpu_nest_returns as [s' E]. exists s'. split; [exact E|].
  exact (walk_is_gpu interval_analyzer 64 ex_gpu_nest _ s' E).
Defined.

(** X9: the extractor catches nothing.  When the walk reaches a statement at
    which the visitor aborts, the whole walk aborts and GetPerStoreFeature
    returns no vector; this is the case of a thread_extent scope whose
    iteration variable is not named blockIdx.x/y/z or threadIdx.x/y/z
    (LOG(FATAL) "invalid thread itervar"), wherever it stands in the
    statement. *)
Theorem walk_abort_propagates :
  forall (A : AnalyzerOps) (is_gpu0 : bool) (stmt : Stmt) (cache_line_size max_n_bufs : Z)
         (sub : Stmt) (s1 : PerStoreFeatureExtractor.t),
    PerStoreFeatureExtractor.visits A cache_line_size stmt
      (PerStoreFeatureExtractor.init is_gpu0) sub s1 ->
    (PerStoreFeatureExtractor.VisitStmt A cache_line_size sub s1 = None
     \/ exists var value body,
         sub = AttrStmt (IterVarNode var) PerStoreFeatureExtractor.thread_extent value body
         /\ PerStoreFeatureExtractor.thread_len_field (name_hint var) = None) ->
    GetPerStoreFeature A is_gpu0 stmt cache_line_size max_n_bufs = None.
Proof.
  intros A g stmt cl n sub s1 Hv Hsub.
  assert (Hn : PerStoreFeatureExtractor.VisitStmt A cl sub s1 = None).
  { destruct Hsub as [Hn|(var & value & body & -> & Hname)]; [exact Hn|].
    rewrite VisitStmt_thread by reflexivity.
    unfold PerStoreFeatureExtractor.enter_thread_scope.
    destruct (GetIntImm value) as [v|]; [|reflexivity].
    cbn. now rewrite Hname. }
  unfold GetPerStoreFeature. now rewrite (visits_abort A cl stmt _ sub s1 Hv Hn).
Qed.

(** X9 at [for (i, 0, 4) { attr thread_extent(tx) = 32 { 0 } }] *)
Lemma walk_abort_propagates_witness :
  GetPerStoreFeature interval_analyzer false ex_bad_thread 64 5 = None.
Proof.
  apply (walk_abort_propagates interval_analyzer false ex_bad_thread 64 5
           (AttrStmt (IterVarNode (mkVar 21 "tx" Int32_t))
              PerStoreFeatureExtractor.thread_extent (IntImm Int32_t 32)
              (Evaluate (IntImm Int32_t 0)))
           (snd (PerStoreFeatureExtractor.enter_loop ex_var_i (IntImm Int32_t 0)
                   (IntImm Int32_t 4) Serial (PerStoreFeatureExtractor.init false)))).
  - apply PerStoreFeatureExtractor.visits_For, PerStoreFeatureExtractor.visits_here.
  - right. exists (mkVar 21 "tx" Int32_t), (IntImm Int32_t 32), (Evaluate (IntImm Int32_t 0)).
    split; reflexivity.
Defined.

(** ** The accesses and the features of a store *)

Section Access_properties.
Import BufferAccessExtractor.

Lemma dom_visit_load buf idx m :
  dom (visit_load buf idx m) = dom m ∪ {[ buffer_id buf ]}.
Proof.
  unfold visit_load. destruct (at_or_default m buf) as [key acc].
  destruct (is_kReadWrite _); rewrite dom_insert_L; set_solver.
Qed.

Lemma dom_InsertAccess buf k idx m :
  dom (InsertAccess buf k idx m) = dom m ∪ {[ buffer_id buf ]}.
Proof.
  unfold InsertAccess. destruct (at_or_default m buf) as [key acc].
  rewrite dom_insert_L. set_solver.
Qed.

Lemma accesses_wf_at_or_default m buf key acc :
  accesses_wf m -> at_or_default m buf = (key, acc) ->
  buffer_id key = buffer_id buf
  /\ (BufferAccess.acc_type acc = kUnknownRW \/ BufferAccess.indices acc <> []).
Proof.
  unfold at_or_default. intros Hwf.
  destruct (m !! buffer_id buf) as [[k a]|] eqn:E.
  - intros [= <- <-]. destruct (Hwf _ _ _ E) as (Hid & _ & Hidx). auto.
  - intros [= <- <-]. auto.
Qed.

Lemma accesses_wf_visit_load buf idx m :
  accesses_wf m -> accesses_wf (visit_load buf idx m).
Proof.
  intros Hwf b key acc. unfold visit_load.
  destruct (at_or_default m buf) as [key0 acc0] eqn:E.
  destruct (accesses_wf_at_or_default m buf key0 acc0 Hwf E) as [Hid Hk].
  destruct (N.eq_dec (buffer_id buf) b) as [<-|Hne].
  - destruct (is_kReadWrite _) eqn:Erw; rewrite lookup_insert_eq; intros [= <- <-];
      simpl.
    + split; [exact Hid|]. split.
      * now destruct (BufferAccess.acc_type acc0).
      * destruct Hk as [Hk|Hk]; [|exact Hk]. now rewrite Hk in Erw.
    + split; [exact Hid|]. split.
      * now destruct (BufferAccess.acc_type acc0).
      * now destruct (BufferAccess.indices acc0).
  - destruct (is_kReadWrite _); rewrite lookup_insert_ne by exact Hne; apply Hwf.
Qed.

Lemma accesses_wf_InsertAccess buf k idx m :
  k <> kUnknownRW -> accesses_wf m -> accesses_wf (InsertAccess buf k idx m).
Proof.
  intros Hk Hwf b key acc. unfold InsertAccess.
  destruct (at_or_default m buf) as [key0 acc0] eqn:E.
  destruct (accesses_wf_at_or_default m buf key0 acc0 Hwf E) as [Hid _].
  destruct (N.eq_dec (buffer_id buf) b) as [<-|Hne].
  - rewrite lookup_insert_eq. intros [= <- <-]. simpl.
    split; [exact Hid|]. split; [exact Hk|]. now destruct (BufferAccess.indices acc0).
  - rewrite lookup_insert_ne by exact Hne. apply Hwf.
Qed.

Lemma extractor_fold (P : BufferMap BufferAccess.t -> Prop) (l : list PrimExpr) :
  List.Forall (fun e => forall m, P m -> P (VisitExpr e m)) l ->
  forall m, P m -> P (fold_left (fun m x => VisitExpr x m) l m).
Proof.
  induction 1 as [|x l Hx _ IH]; intros m Hm; simpl; [exact Hm|]. apply IH, Hx, Hm.
Qed.

Lemma accesses_wf_VisitExpr e :
  forall m, accesses_wf m -> accesses_wf (VisitExpr e m).
Proof.
  induction e as [v|t z|t q|t e IH|op a b IHa IHb|a IH|c tv fv IHc IHt IHf
                 |buf idx IH|t op args IH] using PrimExpr_nested_ind;
    intros m Hm; simpl; auto.
  - apply (extractor_fold accesses_wf idx IH). now apply accesses_wf_visit_load.
  - now apply (extractor_fold accesses_wf args IH).
Qed.

Lemma dom_fold (l : list PrimExpr) :
  List.Forall
    (fun e => forall m,
       dom (VisitExpr e m) = dom m ∪ list_to_set (buffer_id <$> loaded_buffers e)) l ->
  forall m,
    dom (fold_left (fun m x => VisitExpr x m) l m)
    = dom m ∪ list_to_set (buffer_id <$> flat_map loaded_buffers l).
Proof.
  induction 1 as [|x l Hx _ IH]; intros m; simpl.
  - set_solver.
  - rewrite IH, Hx, fmap_app, list_to_set_app_L. set_solver.
Qed.

Lemma dom_VisitExpr e :
  forall m,
    dom (VisitExpr e m) = dom m ∪ list_to_set (buffer_id <$> loaded_buffers e).
Proof.
  induction e as [v|t z|t q|t e IH|op a b IHa IHb|a IH|c tv fv IHc IHt IHf
                 |buf idx IH|t op args IH] using PrimExpr_nested_ind;
    intros m; simpl.
  - set_solver.
  - set_solver.
  - set_solver.
  - apply IH.
  - rewrite IHb, IHa, fmap_app, list_to_set_app_L. set_solver.
  - apply IH.
  - rewrite IHf, IHt, IHc, !fmap_app, !list_to_set_app_L. set_solver.
  - rewrite (dom_fold idx IH), dom_visit_load. set_solver.
  - apply (dom_fold args IH).
Qed.

End Access_properties.

(** X6: the accesses a store collects.  After
    [InsertAccess(buffer, kWrite, indices)] and [ExtractReads(value)] on a new
    extractor, the access map has one entry for the destination buffer and one
    for every buffer the value loads, and no other; every entry is filed under
    its own buffer, has a kind other than kUnknownRW and holds at least one
    index tuple. *)
Theorem store_accesses_entries :
  forall (buffer : Buffer) (value : PrimExpr) (indices : list PrimExpr),
    dom (PerStoreFeatureExtractor.store_accesses buffer value indices)
    = accessed_buffers buffer value
    /\ (forall b key acc,
          PerStoreFeatureExtractor.store_accesses buffer value indices !! b
          = Some (key, acc) ->
          buffer_id key = b
          /\ BufferAccess.acc_type acc <> kUnknownRW
          /\ BufferAccess.indices acc <> []).
Proof.
  intros buffer value indices. unfold PerStoreFeatureExtractor.store_accesses,
    BufferAccessExtractor.ExtractReads. split.
  - rewrite dom_VisitExpr, dom_InsertAccess, dom_empty_L.
    unfold accessed_buffers. set_solver.
  - apply accesses_wf_VisitExpr, accesses_wf_InsertAccess; [discriminate|].
    intros b key acc H. now rewrite lookup_empty in H.
Qed.

Section Store_properties.
Import PerStoreFeatureExtractor.
Variable A : AnalyzerOps.
Variable cache_line_size_ : Z.

Lemma store_features_fields s mathops curve acc_feas fea :
  FeatureSet.access_feas (store_features s mathops curve acc_feas fea) = acc_feas
  /\ compute_features (store_features s mathops curve acc_feas fea)
     = (fun n => fmul (outer_loop_prod s) (of_int n)) <$> counters mathops
  /\ alloc_features (store_features s mathops curve acc_feas fea) = alloc_features fea
  /\ FeatureSet.outer_prod (store_features s mathops curve acc_feas fea)
     = outer_loop_prod s
  /\ FeatureSet.num_loops (store_features s mathops curve acc_feas fea)
     = of_int (Z.of_nat (length (for_loop_stack s)))
  /\ FeatureSet.is_gpu (store_features s mathops curve acc_feas fea)
     = of_bool (is_gpu s)
  /\ FeatureSet.auto_unroll_max_step (store_features s mathops curve acc_feas fea)
     = of_int (cur_auto_unroll_max_step s).
Proof.
  unfold store_features.
  destruct (annotation_feas (vec_for_stack s) _) as [[[? ?] ?] ?].
  destruct (annotation_feas (unroll_for_stack s) _) as [[[? ?] ?] ?].
  destruct (annotation_feas (parallel_for_stack s) _) as [[[? ?] ?] ?].
  repeat split.
Qed.

(** The feature set a store leaves for its buffer *)
Lemma VisitBufferStore_entry buffer value indices s s' :
  VisitBufferStore A cache_line_size_ buffer value indices s = Some s' ->
  exists ts curve acc_feas,
    mapM (access_feature cache_line_size_ s (ts_regions A ts) (ts_tmp_region A ts))
      (snd <$> map_to_list (store_accesses buffer value indices)) = Some acc_feas
    /\ buffer_features s' !! buffer_id buffer
       = Some (fst (features_at (buffer_features s) buffer),
               store_features s (MathOpCounter.run value) curve acc_feas
                 (snd (features_at (buffer_features s) buffer))).
Proof.
  unfold VisitBufferStore.
  destruct (features_at (buffer_features s) buffer) as [key fea].
  destruct (touch_loops A _ _ _) as [ts|]; simpl; [|discriminate].
  destruct (compute_curve _ _ _) as [curve|]; simpl; [|discriminate].
  destruct (mapM _ _) as [acc_feas|] eqn:Ea; simpl; [|discriminate].
  intros [= <-]. exists ts, curve, acc_feas. split; [exact Ea|].
  now rewrite buffer_features_store_result, lookup_insert_eq.
Qed.

Lemma fmax_not_below (a : cfloat) (r : R) : flt (fmax a (FFin r)) (FFin r) = false.
Proof.
  unfold fmax. destruct (flt a (FFin r)) eqn:E; [|exact E].
  simpl. apply Rltb_false. lra.
Qed.

Lemma access_feature_lines s regions tmp_region x f :
  access_feature cache_line_size_ s regions tmp_region x = Some f ->
  flt (BufferAccessFeature.lines f) (FFin 1) = false
  /\ flt (BufferAccessFeature.unique_lines f) (FFin 1) = false.
Proof.
  unfold access_feature. destruct x as [t acc].
  destruct (mapM _ (shape t)) as [int_shape|]; cbn [mbind option_bind]; [|discriminate].
  destruct (rev (for_loop_stack s)) as [|back rest].
  - cbn [mbind option_bind].
    destruct (ComputeReuse _ _ _ _) as [[[[rt it] by_] ct]|];
      cbn [mbind option_bind]; [|discriminate].
    intros [= <-]. cbn. split; apply Rltb_false; lra.
  - destruct (head (for_loop_stack s)) as [front|]; cbn [mbind option_bind];
      [|discriminate].
    destruct (regions !! node_id front) as [table|]; cbn [mbind option_bind];
      [|discriminate].
    destruct (table !! buffer_id t) as [entry|]; cbn [mbind option_bind];
      [|discriminate].
    destruct (head (snd entry)) as [first|]; cbn [mbind option_bind]; [|discriminate].
    destruct (stride_search _ _ _ _ _) as [[[stride rr] i]|];
      cbn [mbind option_bind]; [|discriminate].
    destruct (continuous_scan _ _ _) as [n_continuous|]; cbn [mbind option_bind];
      [|discriminate].
    destruct (ComputeReuse _ _ _ _) as [[[[rt it] by_] ct]|];
      cbn [mbind option_bind]; [|discriminate].
    intros [= <-]. cbn [BufferAccessFeature.lines BufferAccessFeature.unique_lines].
    split; [unfold compute_lines|]; apply fmax_not_below.
Qed.

End Store_properties.

(** X10: a store emits one access feature per buffer it accesses: the feature
    set it leaves for its destination buffer holds as many access features as
    there are distinct buffers among the destination and the buffers the value
    loads. *)
Theorem store_access_feature_count :
  forall (A : AnalyzerOps) (cache_line_size : Z) (buffer : Buffer) (value : PrimExpr)
         (indices : list PrimExpr) (s s' : PerStoreFeatureExtractor.t),
    PerStoreFeatureExtractor.VisitBufferStore A cache_line_size buffer value indices s
    = Some s' ->
    exists key fea,
      PerStoreFeatureExtractor.buffer_features s' !! buffer_id buffer = Some (key, fea)
      /\ length (FeatureSet.access_feas fea) = size (accessed_buffers buffer value).
Proof.
  intros A cl buffer value indices s s' H.
  apply VisitBufferStore_entry in H as (ts & curve & acc_feas & Ha & Hl).
  eexists _, _. split; [exact Hl|].
  destruct (store_features_fields s (MathOpCounter.run value) curve acc_feas
              (snd (PerStoreFeatureExtractor.features_at
                      (PerStoreFeatureExtractor.buffer_features s) buffer)))
    as (-> & _).
  apply length_mapM in Ha. rewrite <- Ha, length_fmap, length_map_to_list.
  rewrite <- (proj1 (store_accesses_entries buffer value indices)).
  symmetry. apply size_dom.
Qed.

Section Store_walk.
Import PerStoreFeatureExtractor.
Variable A : AnalyzerOps.
Variable cache_line_size_ : Z.

Lemma alloc_of_features_at m buffer :
  alloc_features (snd (features_at m buffer)) = alloc_of m (buffer_id buffer).
Proof. unfold features_at, alloc_of. now destruct (m !! buffer_id buffer). Qed.

Lemma alloc_of_store buffer value indices s s' b :
  VisitBufferStore A cache_line_size_ buffer value indices s = Some s' ->
  alloc_of (buffer_features s') b = alloc_of (buffer_features s) b.
Proof.
  intros H. apply VisitBufferStore_result in H as (ts & curve & accs & ->).
  rewrite bf_set_for_touch_regions, bf_set_buffer_features.
  destruct (N.eq_dec (buffer_id buffer) b) as [<-|Hne].
  - rewrite <- (alloc_of_features_at (buffer_features s) buffer).
    unfold alloc_of. rewrite lookup_insert_eq. cbn [snd].
    now destruct (store_features_fields s (MathOpCounter.run value) curve accs
                    (snd (features_at (buffer_features s) buffer)))
      as (_ & _ & -> & _).
  - unfold alloc_of. now rewrite lookup_insert_ne.
Qed.

Lemma alloc_of_realize buffer bounds s s' b :
  realize_features buffer bounds s = Some s' -> b <> buffer_id buffer ->
  alloc_of (buffer_features s') b = alloc_of (buffer_features s) b.
Proof.
  intros H Hne. apply realize_features_result in H as (fea & ->).
  rewrite bf_set_buffer_features. unfold alloc_of. now rewrite lookup_insert_ne.
Qed.

Lemma alloc_of_walk b stmt :
  b ∉ realized_buffers stmt ->
  forall s s',
    VisitStmt A cache_line_size_ stmt s = Some s' ->
    alloc_of (buffer_features s') b = alloc_of (buffer_features s) b.
Proof.
  induction stmt as [v mn ex ft body IH|node key value body IH|buf v idx
                    |buf bs c body IH|seq IH|c t e IHt IHe|v e body IH|e]
    using Stmt_nested_ind; intros Hb s s' H.
  - rewrite VisitStmt_For in H.
    destruct (VisitStmt A cache_line_size_ body _) as [s2|] eqn:E2; simpl in H;
      [|discriminate].
    injection H as <-. rewrite bf_leave_loop, (IH Hb _ _ E2), bf_enter_loop. reflexivity.
  - destruct (attr_pushes_frame key) eqn:Ek.
    + rewrite VisitStmt_thread in H by assumption.
      destruct (enter_thread_scope node key value s) as [[sc s1]|] eqn:E;
        simpl in H; [|discriminate].
      destruct (VisitStmt A cache_line_size_ body s1) as [s2|] eqn:E2; simpl in H;
        [|discriminate].
      injection H as <-.
      rewrite bf_leave_thread_scope, (IH Hb _ _ E2), (bf_enter_thread_scope _ _ _ _ _ _ E).
      reflexivity.
    + destruct (String.eqb key pragma_auto_unroll_max_step) eqn:Ep.
      * rewrite VisitStmt_pragma in H by assumption.
        destruct (enter_pragma value s) as [[old s1]|] eqn:E; simpl in H; [|discriminate].
        destruct (VisitStmt A cache_line_size_ body s1) as [s2|] eqn:E2; simpl in H;
          [|discriminate].
        injection H as <-.
        rewrite bf_set_cur_auto_unroll_max_step, (IH Hb _ _ E2), (bf_enter_pragma _ _ _ _ E).
        reflexivity.
      * rewrite VisitStmt_attr in H by assumption. now apply IH.
  - simpl in H. eapply alloc_of_store; eauto.
  - simpl in H, Hb.
    destruct (VisitStmt A cache_line_size_ body s) as [s1|] eqn:E; simpl in H;
      [|discriminate].
    rewrite (alloc_of_realize _ _ _ _ b H) by set_solver.
    apply IH; [set_solver|exact E].
  - revert s s' H. simpl in Hb.
    induction IH as [|st seq Hst _ IHseq]; intros s s' H.
    + simpl in H. now injection H as <-.
    + rewrite visit_seq_cons in H. simpl in Hb.
      destruct (VisitStmt A cache_line_size_ st s) as [s1|] eqn:E; simpl in H;
        [|discriminate].
      rewrite (IHseq ltac:(set_solver) _ _ H). apply Hst; [set_solver|exact E].
  - simpl in H, Hb.
    destruct (VisitStmt A cache_line_size_ t s) as [s1|] eqn:E; simpl in H;
      [|discriminate].
    destruct e as [e|].
    + rewrite (IHe e eq_refl ltac:(set_solver) _ _ H). apply IHt; [set_solver|exact E].
    + injection H as <-. apply IHt; [set_solver|exact E].
  - simpl in H, Hb. now apply IH.
  - simpl in H. now injection H as <-.
Qed.

End Store_walk.

(** The store of [ex_copy_loop], visited inside its loop, returns. *)
Lemma ex_copy_store_returns :
  is_Some (PerStoreFeatureExtractor.VisitBufferStore interval_analyzer 64 ex_buffer_B
             (BufferLoad ex_buffer_A [VarE ex_var_i]) [VarE ex_var_i] ex_in_loop).
Proof.
  destruct (PerStoreFeatureExtractor.VisitBufferStore interval_analyzer 64 ex_buffer_B
              (BufferLoad ex_buffer_A [VarE ex_var_i]) [VarE ex_var_i] ex_in_loop)
    as [s'|] eqn:E; [eauto|].
  exfalso. revert E. vm_compute. decide_reals. discriminate.
Qed.

(** X10 at the same store *)
Lemma store_access_feature_count_witness :
  exists s' key fea,
    PerStoreFeatureExtractor.VisitBufferStore interval_analyzer 64 ex_buffer_B
      (BufferLoad ex_buffer_A [VarE ex_var_i]) [VarE ex_var_i] ex_in_loop = Some s'
    /\ PerStoreFeatureExtractor.buffer_features s' !! buffer_id ex_buffer_B
       = Some (key, fea)
    /\ length (FeatureSet.access_feas fea)
       = size (accessed_buffers ex_buffer_B (BufferLoad ex_buffer_A [VarE ex_var_i])).
Proof.
  destruct ex_copy_store_returns as [s' E]. exists s'.
  destruct (store_access_feature_count interval_analyzer 64 ex_buffer_B
              (BufferLoad ex_buffer_A [VarE ex_var_i]) [VarE ex_var_i] ex_in_loop s' E)
    as (key & fea & Hl & Hn).
  exists key, fea. auto.
Defined.

(** X12: the cache-line counts of an access feature are never below 1: for
    every access feature a store records, neither [lines < 1] nor
    [unique_lines < 1] holds (each is at least 1, or a NaN). *)
Theorem store_lines_not_below_one :
  forall (A : AnalyzerOps) (cache_line_size : Z) (buffer : Buffer) (value : PrimExpr)
         (indices : list PrimExpr) (s s' : PerStoreFeatureExtractor.t),
    PerStoreFeatureExtractor.VisitBufferStore A cache_line_size buffer value indices s
    = Some s' ->
    exists key fea,
      PerStoreFeatureExtractor.buffer_features s' !! buffer_id buffer = Some (key, fea)
      /\ List.Forall
           (fun f =>
              flt (BufferAccessFeature.lines f) (FFin 1) = false
              /\ flt (BufferAccessFeature.unique_lines f) (FFin 1) = false)
           (FeatureSet.access_feas fea).
Proof.
  intros A cl buffer value indices s s' H.
  apply VisitBufferStore_entry in H as (ts & curve & acc_feas & Ha & Hl).
  eexists _, _. split; [exact Hl|].
  destruct (store_features_fields s (MathOpCounter.run value) curve acc_feas
              (snd (PerStoreFeatureExtractor.features_at
                      (PerStoreFeatureExtractor.buffer_features s) buffer)))
    as (-> & _).
  apply mapM_Some in Ha. clear Hl.
  induction Ha as [|x f l k Hx _ IH]; [constructor|].
  constructor; [|exact IH]. eapply access_feature_lines; eauto.
Qed.

(** X12 at the store of [for (i, 0, 1024) { B[i] = A[i] }] *)
Lemma store_lines_not_below_one_witness :
  exists s' key fea,
    PerStoreFeatureExtractor.VisitBufferStore interval_analyzer 64 ex_buffer_B
      (BufferLoad ex_buffer_A [VarE ex_var_i]) [VarE ex_var_i] ex_in_loop = Some s'
    /\ PerStoreFeatureExtractor.buffer_features s' !! buffer_id ex_buffer_B
       = Some (key, fea)
    /\ List.Forall
         (fun f =>
            flt (BufferAccessFeature.lines f) (FFin 1) = false
            /\ flt (BufferAccessFeature.unique_lines f) (FFin 1) = false)
         (FeatureSet.access_feas fea).
Proof.
  destruct ex_copy_store_returns as [s' E]. exists s'.
  destruct (store_lines_not_below_one interval_analyzer 64 ex_buffer_B
              (BufferLoad ex_buffer_A [VarE ex_var_i]) [VarE ex_var_i] ex_in_loop s' E)
    as (key & fea & Hl & Hn).
  exists key, fea. auto.
Defined.

(** X13: the allocation features come from the realize only.  After the walk
    of a new extractor, the feature set of a buffer that the statement stores
    to and never realizes has the four allocation features at 0: a store keeps
    the allocation features of the entry it overwrites. *)
Theorem unrealized_buffer_alloc_zero :
  forall (A : AnalyzerOps) (cache_line_size : Z) (stmt : Stmt) (is_gpu0 : bool)
         (s' : PerStoreFeatureExtractor.t) (b : N) (key : Buffer) (fea : FeatureSet.t),
    PerStoreFeatureExtractor.VisitStmt A cache_line_size stmt
      (PerStoreFeatureExtractor.init is_gpu0) = Some s' ->
    b ∉ realized_buffers stmt ->
    PerStoreFeatureExtractor.buffer_features s' !! b = Some (key, fea) ->
    alloc_features fea = [FFin 0; FFin 0; FFin 0; FFin 0].
Proof.
  intros A cl stmt g s' b key fea H Hb Hl.
  pose proof (alloc_of_walk A cl b stmt Hb _ _ H) as Ha.
  unfold alloc_of in Ha. rewrite Hl in Ha. cbn [snd] in Ha. rewrite Ha.
  reflexivity.
Qed.

(** X13 at [for (i, 0, 1024) { B[i] = A[i] }] *)
Lemma unrealized_buffer_alloc_zero_witness :
  exists s' key fea,
    PerStoreFeatureExtractor.VisitStmt interval_analyzer 64 ex_copy_loop
      (PerStoreFeatureExtractor.init false) = Some s'
    /\ PerStoreFeatureExtractor.buffer_features s' !! buffer_id ex_buffer_B
       = Some (key, fea)
    /\ alloc_features fea = [FFin 0; FFin 0; FFin 0; FFin 0].
Proof.
  destruct ex_copy_loop_returns as [s' E]. exists s'.
  assert (Hd : buffer_id ex_buffer_B
               ∈ dom (PerStoreFeatureExtractor.buffer_features s')).
  { rewrite (VisitStmt_dom interval_analyzer 64 ex_copy_loop _ _ E). set_solver. }
  apply elem_of_dom in Hd as [[key fea] Hl]. exists key, fea.
  split; [exact E|]. split; [exact Hl|].
  apply (unrealized_buffer_alloc_zero interval_analyzer 64 ex_copy_loop false s'
           (buffer_id ex_buffer_B) key fea E); [set_solver|exact Hl].
Defined.

(** X14: a statement that holds no store and no realize yields the vector
    that holds the count 0 and nothing else. *)
Theorem no_store_no_features :
  forall (A : AnalyzerOps) (is_gpu0 : bool) (stmt : Stmt) (cache_line_size max_n_bufs : Z)
         (ret : list cfloat),
    GetPerStoreFeature A is_gpu0 stmt cache_line_size max_n_bufs = Some ret ->
    featured_buffers stmt = ∅ ->
    ret = [FFin 0].
Proof.
  intros A g stmt cl n ret H He. unfold GetPerStoreFeature in H.
  destruct (PerStoreFeatureExtractor.VisitStmt A cl stmt _) as [e|] eqn:E;
    simpl in H; [|discriminate].
  injection H as <-.
  pose proof (VisitStmt_dom A cl stmt _ _ E) as Hd. rewrite He in Hd. simpl in Hd.
  assert (Hm : PerStoreFeatureExtractor.buffer_features e = ∅).
  { apply dom_empty_inv_L. rewrite Hd. set_solver. }
  rewrite Hm. unfold emit_features. rewrite map_to_list_empty, map_size_empty.
  reflexivity.
Qed.

(** X14 at [for (i, 0, 4) { if (1) { 0 } }] *)
Lemma no_store_no_features_witness :
  GetPerStoreFeature interval_analyzer false ex_no_store 64 5 = Some [FFin 0].
Proof.
  destruct (GetPerStoreFeature interval_analyzer false ex_no_store 64 5) as [ret|] eqn:E.
  - f_equal.
    exact (no_store_no_features interval_analyzer false ex_no_store 64 5 ret E eq_refl).
  - exfalso. revert E. vm_compute. decide_reals. discriminate.
Defined.

(** ** The emitted values and names *)

Section slog_properties.
Local Open Scope R_scope.

Lemma ln2_pos : 0 < ln 2.
Proof. rewrite <- ln_1. apply ln_increasing; lra. Qed.

Lemma log2R_1 : log2R 1 = 0.
Proof. unfold log2R. rewrite ln_1. lra. Qed.

Lemma log2R_increasing x y : 0 < x -> x < y -> log2R x < log2R y.
Proof.
  intros Hx Hxy. unfold log2R, Rdiv.
  apply Rmult_lt_compat_r; [apply Rinv_0_lt_compat, ln2_pos|].
  now apply ln_increasing.
Qed.

Lemma flog2_pos r : 0 < r -> flog2 (FFin r) = FFin (log2R r).
Proof. intros Hr. unfold flog2. real_decide. reflexivity. Qed.

(** [slog] on a finite value *)
Lemma slog_finite r : slog (FFin r) = FFin (slogR r).
Proof.
  unfold slog, slogR. cbn [flt]. destruct (Rltb r 0) eqn:E.
  - apply Rltb_true in E. cbn [fneg fadd]. rewrite flog2_pos by lra. reflexivity.
  - apply Rltb_false in E. cbn [fadd]. now rewrite flog2_pos by lra.
Qed.

Lemma slogR_neg r : r < 0 -> slogR r = - log2R (- r + 1).
Proof. intros H. unfold slogR. now rewrite (proj2 (Rltb_true r 0) H). Qed.

Lemma slogR_nonneg r : 0 <= r -> slogR r = log2R (r + 1).
Proof. intros H. unfold slogR. now rewrite (proj2 (Rltb_false r 0) H). Qed.

Lemma slogR_odd r : slogR (- r) = - slogR r.
Proof.
  destruct (Rtotal_order r 0) as [Hr|[->|Hr]].
  - rewrite (slogR_neg r Hr), slogR_nonneg by lra. lra.
  - rewrite Ropp_0, slogR_nonneg by lra.
    replace (0 + 1) with 1 by lra. rewrite log2R_1. lra.
  - rewrite slogR_neg, (slogR_nonneg r) by lra.
    now replace (- - r + 1) with (r + 1) by lra.
Qed.

Lemma slogR_0 : slogR 0 = 0.
Proof.
  rewrite slogR_nonneg by lra. replace (0 + 1) with 1 by lra. apply log2R_1.
Qed.

Lemma slogR_increasing x y : x < y -> slogR x < slogR y.
Proof.
  intros Hxy.
  destruct (Rlt_le_dec x 0) as [Hx|Hx]; destruct (Rlt_le_dec y 0) as [Hy|Hy].
  - rewrite !slogR_neg by assumption.
    apply Ropp_lt_contravar, log2R_increasing; lra.
  - rewrite slogR_neg, slogR_nonneg by assumption.
    assert (0 < log2R (- x + 1)).
    { rewrite <- log2R_1. apply log2R_increasing; lra. }
    assert (0 <= log2R (y + 1)) by (apply log2R_nonneg; lra).
    lra.
  - lra.
  - rewrite !slogR_nonneg by assumption. apply log2R_increasing; lra.
Qed.

End slog_properties.

Lemma map_constant {X Y : Type} (f : X -> Y) (c : Y) (l : list X) :
  (forall x, In x l -> f x = c) -> map f l = repeat c (length l).
Proof.
  induction l as [|x l IH]; intros H; simpl; [reflexivity|].
  rewrite H by now left. f_equal. apply IH. intros y Hy. apply H. now right.
Qed.

(** X17: the one-hot blocks are one-hot: for a code between 0 and the last
    code, the block holds a 1 at the position of the code and 0 everywhere
    else; for a code above the last one (as kUnknownRW is for the access type)
    it holds zeros only. *)
Theorem one_hot_block :
  forall (last code : nat),
    one_hot (Z.of_nat last) (Z.of_nat code)
    = if (code <=? last)%nat
      then repeat (FFin 0) code ++ [FFin 1] ++ repeat (FFin 0) (last - code)
      else repeat (FFin 0) (S last).
Proof.
  intros last code. unfold one_hot.
  replace (Z.to_nat (Z.of_nat last + 1)) with (S last) by lia.
  destruct (code <=? last)%nat eqn:E.
  - apply Nat.leb_le in E.
    replace (S last) with (code + (1 + (last - code)))%nat by lia.
    rewrite !seq_app, !map_app. cbn [seq map]. rewrite Z.eqb_refl. cbn [of_bool].
    rewrite (map_constant _ (FFin 0) (seq 0 code)), length_seq.
    + rewrite (map_constant _ (FFin 0) (seq _ (last - code))), length_seq;
        [reflexivity|].
      intros i Hi. apply in_seq in Hi.
      replace (Z.of_nat i =? Z.of_nat code) with false
        by (symmetry; apply Z.eqb_neq; lia).
      reflexivity.
    + intros i Hi. apply in_seq in Hi.
      replace (Z.of_nat i =? Z.of_nat code) with false
        by (symmetry; apply Z.eqb_neq; lia).
      reflexivity.
  - apply Nat.leb_gt in E.
    rewrite (map_constant _ (FFin 0) (seq 0 (S last))), length_seq; [reflexivity|].
    intros i Hi. apply in_seq in Hi.
    replace (Z.of_nat i =? Z.of_nat code) with false
      by (symmetry; apply Z.eqb_neq; lia).
    reflexivity.
Qed.

(** ** The feature names *)

Lemma string_app_cons (x : Ascii.ascii) (a b : string) :
  String x a +:+ b = String x (a +:+ b).
Proof. reflexivity. Qed.

Lemma string_app_nil (b : string) : "" +:+ b = b.
Proof. reflexivity. Qed.

Lemma string_app_assoc (a b c : string) : (a +:+ b) +:+ c = a +:+ (b +:+ c).
Proof.
  induction a as [|x a IH]; [reflexivity|]. rewrite !string_app_cons. f_equal. exact IH.
Qed.

Lemma pretty_N_char_digit x : is_digit (pretty_N_char x) = true.
Proof. unfold pretty_N_char. repeat case_match; reflexivity. Qed.

Lemma pretty_N_go_digits x :
  forall s, digits_only s = true -> digits_only (pretty_N_go x s) = true.
Proof.
  induction (N.lt_wf_0 x) as [x _ IH]. intros s Hs.
  destruct (N.eq_dec x 0%N) as [->|Hx].
  - now rewrite pretty_N_go_0.
  - rewrite pretty_N_go_step by lia. apply IH.
    + apply N.div_lt; lia.
    + simpl. now rewrite pretty_N_char_digit, Hs.
Qed.

Lemma pretty_nat_digits (n : nat) : digits_only (pretty n) = true.
Proof.
  unfold pretty, pretty_nat, pretty, pretty_N.
  destruct (decide (N.of_nat n = 0%N)); [reflexivity|].
  now apply pretty_N_go_digits.
Qed.

(** A numeral followed by a dot determines the numeral and what follows. *)
Lemma numeral_dot_inj (s1 : string) :
  forall s2 f1 f2,
    digits_only s1 = true -> digits_only s2 = true ->
    s1 +:+ "." +:+ f1 = s2 +:+ "." +:+ f2 -> s1 = s2 /\ f1 = f2.
Proof.
  induction s1 as [|c1 s1 IH]; intros [|c2 s2] f1 f2 H1 H2 H;
    rewrite ?string_app_cons, ?string_app_nil in H; simpl in H1, H2.
  - injection H as ->. auto.
  - injection H as <- _. discriminate.
  - injection H as -> _. discriminate.
  - injection H as -> H.
    apply andb_prop in H1 as [_ H1]. apply andb_prop in H2 as [_ H2].
    destruct (IH s2 f1 f2 H1 H2 H) as [-> ->]. auto.
Qed.

Lemma access_name_inj (i j : nat) (f g : string) :
  ("B" +:+ pretty i +:+ ".") +:+ f = ("B" +:+ pretty j +:+ ".") +:+ g ->
  i = j /\ f = g.
Proof.
  intros H. rewrite !string_app_assoc, !string_app_cons, !string_app_nil in H.
  injection H as H.
  apply numeral_dot_inj in H as [Hp ->]; try apply pretty_nat_digits.
  split; [|reflexivity]. now apply (inj pretty).
Qed.

Lemma elem_of_access_names i x :
  x ∈ access_names i ->
  starts_with_B x = true /\ exists f, x = ("B" +:+ pretty i +:+ ".") +:+ f.
Proof.
  unfold access_names. intros H. apply list_elem_of_In, in_map_iff in H as (f & <- & _).
  split; [reflexivity|]. eauto.
Qed.

Lemma NoDup_access_names i : NoDup (access_names i).
Proof.
  unfold access_names. apply NoDup_ListNoDup, Finite.Injective_map_NoDup.
  - intros f g H. now apply access_name_inj in H.
  - apply NoDup_ListNoDup. refine (bool_decide_unpack _ _). vm_compute. exact I.
Qed.

Lemma NoDup_access_slots (slots : list nat) :
  NoDup slots -> NoDup (flat_map access_names slots).
Proof.
  induction 1 as [|i slots Hi _ IH]; cbn [flat_map]; [constructor|].
  apply NoDup_app. split; [apply NoDup_access_names|]. split; [|exact IH].
  intros x Hx Hin. apply elem_of_access_names in Hx as (_ & f & ->).
  apply list_elem_of_In, in_flat_map in Hin as (j & Hj & Hin).
  apply list_elem_of_In, elem_of_access_names in Hin as (_ & g & Heq).
  apply access_name_inj in Heq as [-> _]. apply Hi. now apply list_elem_of_In.
Qed.

(** X18: the names GetPerStoreFeatureName emits are pairwise distinct, for
    every [max_n_bufs]: no two entries of the feature vector share a name. *)
Theorem GetPerStoreFeatureName_NoDup :
  forall max_n_bufs : Z, List.NoDup (GetPerStoreFeatureName max_n_bufs).
Proof.
  intros n. apply NoDup_ListNoDup. unfold GetPerStoreFeatureName.
  rewrite !app_assoc. rewrite <- app_assoc.
  match goal with
  | |- NoDup ((?P ++ _) ++ ?S) =>
      assert (Hnd : NoDup (P ++ S))
        by (refine (bool_decide_unpack _ _); vm_compute; exact I);
      assert (Hb : forallb (fun x => negb (starts_with_B x)) (P ++ S) = true)
        by (vm_compute; reflexivity);
      generalize dependent S; generalize dependent P
  end.
  intros front back Hnd Hb. rewrite <- app_assoc.
  apply NoDup_app in Hnd as (Hf & Hfb & Hbk).
  rewrite forallb_app in Hb. apply andb_prop in Hb as [Hbf Hbb].
  rewrite forallb_forall in Hbf, Hbb.
  assert (Hslots : NoDup (flat_map access_names (seq 0 (Z.to_nat n)))).
  { apply NoDup_access_slots, NoDup_ListNoDup, seq_NoDup. }
  assert (Hacc : forall x, x ∈ flat_map access_names (seq 0 (Z.to_nat n)) ->
                           starts_with_B x = true).
  { intros x Hx. apply list_elem_of_In, in_flat_map in Hx as (j & _ & Hx).
    now apply list_elem_of_In, elem_of_access_names in Hx as [Hx _]. }
  apply NoDup_app. split; [exact Hf|]. split.
  - intros x Hx Hin. apply elem_of_app in Hin as [Hin|Hin].
    + apply list_elem_of_In, Hbf in Hx. rewrite (Hacc x Hin) in Hx. discriminate.
    + exact (Hfb x Hx Hin).
  - apply NoDup_app. split; [exact Hslots|]. split; [|exact Hbk].
    intros x Hx Hin. apply list_elem_of_In, Hbb in Hin.
    rewrite (Hacc x Hx) in Hin. discriminate.
Qed.

(** ** GetAnnotationPosEncoding *)

Section Annotation_properties.

Lemma last_match_from_found {X : Type} (matches : X -> bool) (l : list X) :
  forall a found,
    last_match_from matches a l found
    = match last_match_from matches a l None with
      | Some i => Some i
      | None => found
      end.
Proof.
  induction l as [|x l IH]; intros a found; simpl; [reflexivity|].
  rewrite (IH (S a) (if matches x then Some a else found)).
  rewrite (IH (S a) (if matches x then Some a else None)).
  destruct (last_match_from matches (S a) l None); [reflexivity|].
  now destruct (matches x).
Qed.

Lemma scan_matches_from {X : Type} (matches : X -> bool) (l : list X) :
  forall a find_i find_ct,
    fold_left
      (fun st x => if matches (snd x) then (Z.of_nat (fst x), snd st + 1) else st)
      (combine (seq a (length l)) l) (find_i, find_ct)
    = (match last_match_from matches a l None with
       | Some i => Z.of_nat i
       | None => find_i
       end,
       find_ct + Z.of_nat (count_matching matches l)).
Proof.
  unfold count_matching.
  induction l as [|x l IH]; intros a fi fc;
    cbn [List.filter seq length combine fold_left fst snd last_match_from];
    [f_equal; lia|].
  destruct (matches x) eqn:Ex; cbn [length].
  - rewrite IH, (last_match_from_found matches l (S a) (Some a)), Nat2Z.inj_succ.
    destruct (last_match_from matches (S a) l None); f_equal; lia.
  - now rewrite IH.
Qed.

Lemma last_match_from_None {X : Type} (matches : X -> bool) (l : list X) :
  forall a,
    last_match_from matches a l None = None <-> count_matching matches l = 0%nat.
Proof.
  unfold count_matching.
  induction l as [|x l IH]; intros a; simpl; [tauto|].
  destruct (matches x); simpl; [|apply IH].
  rewrite (last_match_from_found matches l (S a) (Some a)).
  destruct (last_match_from matches (S a) l None); split; discriminate.
Qed.

Lemma last_match_from_range {X : Type} (matches : X -> bool) (l : list X) :
  forall a i,
    last_match_from matches a l None = Some i -> (a <= i < a + length l)%nat.
Proof.
  induction l as [|x l IH]; intros a i; simpl; [discriminate|].
  rewrite (last_match_from_found matches l (S a) (if matches x then Some a else None)).
  destruct (last_match_from matches (S a) l None) as [j|] eqn:Ej.
  - intros [= <-]. specialize (IH (S a) j Ej). lia.
  - destruct (matches x); [|discriminate]. intros [= <-]. lia.
Qed.

Lemma scan_matches_result {X : Type} (matches : X -> bool) (l : list X) find_i find_ct :
  scan_matches matches l (find_i, find_ct)
  = (match last_match matches l with Some i => Z.of_nat i | None => find_i end,
     find_ct + Z.of_nat (count_matching matches l)).
Proof. unfold scan_matches, last_match. apply scan_matches_from. Qed.

Lemma last_match_None {X : Type} (matches : X -> bool) (l : list X) :
  last_match matches l = None <-> count_matching matches l = 0%nat.
Proof. apply last_match_from_None. Qed.

Lemma last_match_range {X : Type} (matches : X -> bool) (l : list X) i :
  last_match matches l = Some i -> (i < length l)%nat.
Proof. intros H. apply last_match_from_range in H. lia. Qed.

End Annotation_properties.

(** X19: the position encoding of an annotated iterator.  The result is never
    kPosNone; it is kPosMixed exactly when the variable occurs in two or more
    of the spatial arguments; it is one of the three spatial positions when it
    occurs in exactly one; and when it occurs in none, it is kPosOuterSpatial
    if the name of no reduce axis occurs in the name of the variable, and one
    of the three reduce positions otherwise. *)
Theorem GetAnnotationPosEncoding_classes :
  forall (var : Var) (spatial_args : list PrimExpr) (axis reduce_axis : list IterVar),
    GetAnnotationPosEncoding var spatial_args axis reduce_axis <> kPosNone
    /\ (GetAnnotationPosEncoding var spatial_args axis reduce_axis = kPosMixed
        <-> (2 <= count_matching (VarInExpr var) spatial_args)%nat)
    /\ (count_matching (VarInExpr var) spatial_args = 1%nat ->
        In (GetAnnotationPosEncoding var spatial_args axis reduce_axis)
           [kPosInnerSpatial; kPosMiddleSpatial; kPosOuterSpatial])
    /\ (count_matching (VarInExpr var) spatial_args = 0%nat ->
        if (count_matching (axis_name_in var) reduce_axis =? 0)%nat
        then GetAnnotationPosEncoding var spatial_args axis reduce_axis = kPosOuterSpatial
        else In (GetAnnotationPosEncoding var spatial_args axis reduce_axis)
                [kPosInnerReduce; kPosMiddleReduce; kPosOuterReduce]).
Proof.
  intros var spatial_args axis reduce_axis. unfold GetAnnotationPosEncoding.
  rewrite scan_matches_result.
  set (ct := count_matching (VarInExpr var) spatial_args).
  set (fi := match last_match (VarInExpr var) spatial_args with
             | Some i => Z.of_nat i | None => 0 end).
  destruct (Z.eqb_spec (0 + Z.of_nat ct) 0) as [H0|H0].
  - fold (axis_name_in var). rewrite scan_matches_result.
    set (rt := count_matching (axis_name_in var) reduce_axis).
    set (ri := match last_match (axis_name_in var) reduce_axis with
               | Some i => Z.of_nat i | None => fi end).
    assert (Hct : ct = 0%nat) by lia.
    destruct (Z.leb_spec 1 (0 + Z.of_nat ct + Z.of_nat rt)) as [H1|H1].
    + assert (Hrt : (rt =? 0)%nat = false) by (apply Nat.eqb_neq; lia).
      rewrite Hrt.
      destruct (ri =? 0); [|destruct (ri =? _)];
        (split; [discriminate|]); (split; [split; [discriminate|lia]|]);
        (split; [lia|]); intros _; simpl; tauto.
    + assert (Hrt : (rt =? 0)%nat = true) by (apply Nat.eqb_eq; lia).
      rewrite Hrt.
      split; [discriminate|]. split; [split; [discriminate|lia]|].
      split; [lia|]. reflexivity.
  - destruct (Z.eqb_spec (0 + Z.of_nat ct) 1) as [H1|H1].
    + destruct (fi =? _); [|destruct (fi =? 0)];
        (split; [discriminate|]); (split; [split; [discriminate|lia]|]);
        (split; [|lia]); intros _; simpl; tauto.
    + split; [discriminate|]. split; [split; [lia|reflexivity]|].
      split; lia.
Qed.

(** X20: which position.  When no list holds 2^64 members or more: if the
    variable occurs in exactly one spatial argument, the last one gives
    kPosInnerSpatial, otherwise the first one gives kPosOuterSpatial and any
    other one kPosMiddleSpatial; if it occurs in none and the name of a reduce
    axis occurs in its name, the last such axis decides: the first axis gives
    kPosInnerReduce, otherwise the last one gives kPosOuterReduce and any other
    one kPosMiddleReduce. *)
Theorem GetAnnotationPosEncoding_position :
  forall (var : Var) (spatial_args : list PrimExpr) (axis reduce_axis : list IterVar)
         (i : nat),
    Z.of_nat (length spatial_args) <= 2 ^ 64 ->
    Z.of_nat (length reduce_axis) <= 2 ^ 64 ->
    (count_matching (VarInExpr var) spatial_args = 1%nat ->
     last_match (VarInExpr var) spatial_args = Some i ->
     GetAnnotationPosEncoding var spatial_args axis reduce_axis
     = if (i =? length spatial_args - 1)%nat then kPosInnerSpatial
       else if (i =? 0)%nat then kPosOuterSpatial else kPosMiddleSpatial)
    /\ (count_matching (VarInExpr var) spatial_args = 0%nat ->
        last_match (axis_name_in var) reduce_axis = Some i ->
        GetAnnotationPosEncoding var spatial_args axis reduce_axis
        = if (i =? 0)%nat then kPosInnerReduce
          else if (i =? length reduce_axis - 1)%nat then kPosOuterReduce
               else kPosMiddleReduce).
Proof.
  intros var spatial_args axis reduce_axis i Hls Hlr.
  unfold GetAnnotationPosEncoding. rewrite scan_matches_result. split.
  - intros Hct Hi. rewrite Hct, Hi.
    change (0 + Z.of_nat 1) with 1. change (1 =? 0) with false.
    change (1 =? 1) with true. cbn iota.
    pose proof (last_match_range _ _ _ Hi) as Hr.
    unfold to_uint64. rewrite Z.mod_small by lia.
    destruct (Nat.eqb_spec i (length spatial_args - 1)) as [He|He].
    + replace (Z.of_nat i =? Z.of_nat (length spatial_args) - 1) with true
        by (symmetry; apply Z.eqb_eq; lia).
      reflexivity.
    + replace (Z.of_nat i =? Z.of_nat (length spatial_args) - 1) with false
        by (symmetry; apply Z.eqb_neq; lia).
      destruct (Nat.eqb_spec i 0) as [->|Hz]; [reflexivity|].
      replace (Z.of_nat i =? 0) with false by (symmetry; apply Z.eqb_neq; lia).
      reflexivity.
  - intros Hct Hi. rewrite Hct.
    change (0 + Z.of_nat 0) with 0. change (0 =? 0) with true. cbn iota.
    fold (axis_name_in var). rewrite scan_matches_result, Hi.
    pose proof (last_match_range _ _ _ Hi) as Hr.
    assert (Hrt : count_matching (axis_name_in var) reduce_axis <> 0%nat).
    { intros Hz. apply last_match_None in Hz. congruence. }
    replace (1 <=? 0 + Z.of_nat (count_matching (axis_name_in var) reduce_axis))
      with true by (symmetry; apply Z.leb_le; lia).
    cbn iota. unfold to_uint64. rewrite Z.mod_small by lia.
    destruct (Nat.eqb_spec i 0) as [->|Hz]; [reflexivity|].
    replace (Z.of_nat i =? 0) with false by (symmetry; apply Z.eqb_neq; lia).
    destruct (Nat.eqb_spec i (length reduce_axis - 1)) as [He|He].
    + replace (Z.of_nat i =? Z.of_nat (length reduce_axis) - 1) with true
        by (symmetry; apply Z.eqb_eq; lia).
      reflexivity.
    + replace (Z.of_nat i =? Z.of_nat (length reduce_axis) - 1) with false
        by (symmetry; apply Z.eqb_neq; lia).
      reflexivity.
Qed.

(** X20 at the iterator [j] of [C[i][j]] with the reduce axis [k] *)
Lemma GetAnnotationPosEncoding_position_witness :
  GetAnnotationPosEncoding ex_var_j [VarE ex_var_i; VarE ex_var_j] []
    [mkIterVar ex_var_k]
  = kPosInnerSpatial.
Proof.
  apply (proj1 (GetAnnotationPosEncoding_position ex_var_j
                  [VarE ex_var_i; VarE ex_var_j] [] [mkIterVar ex_var_k] 1
                  ltac:(vm_compute; discriminate) ltac:(vm_compute; discriminate)));
    reflexivity.
Defined.

(** ** The drivers *)

Section States_properties.
Import Drivers DriverProps.
Context {SearchTask State : Type}.
Variable worker : SearchTask -> State -> Z -> list cfloat -> list cfloat * bool.

Lemma lookup_repeat_lt {X : Type} (x : X) (n j : nat) :
  (j < n)%nat -> repeat x n !! j = Some x.
Proof.
  revert j. induction n as [|n IH]; intros [|j] H; simpl; try lia; [reflexivity|].
  apply IH. lia.
Qed.

Lemma features_upto_unfold task_at states first i n :
  features_upto worker task_at states first i n
  = imap (fun j state =>
            if (first <=? j)%nat && (j <? i)%nat
            then match task_at j with
                 | Some task => fst (worker task state n [])
                 | None => []
                 end
            else []) states.
Proof. reflexivity. Qed.

Lemma features_upto_first task_at states first n :
  features_upto worker task_at states first first n = repeat [] (length states).
Proof.
  unfold features_upto. apply list_eq. intros j.
  rewrite list_lookup_imap.
  destruct (states !! j) as [state|] eqn:E; simpl.
  - rewrite lookup_repeat_lt by (eapply lookup_lt_Some; eauto).
    destruct (first <=? j)%nat eqn:E1; [|reflexivity].
    apply Nat.leb_le in E1.
    now replace (j <? first)%nat with false by (symmetry; apply Nat.ltb_ge; lia).
  - symmetry. apply lookup_ge_None. rewrite repeat_length.
    now apply lookup_ge_None in E.
Qed.

Lemma features_upto_step task_at states first i n task state :
  (first <= i)%nat -> task_at i = Some task -> states !! i = Some state ->
  <[i := fst (worker task state n [])]> (features_upto worker task_at states first i n)
  = features_upto worker task_at states first (S i) n.
Proof.
  intros Hfi Ht Hs. unfold features_upto. apply list_eq. intros j.
  destruct (Nat.eq_dec i j) as [<-|Hne].
  - rewrite list_lookup_insert_eq
      by (rewrite length_imap; eapply lookup_lt_Some; eauto).
    rewrite list_lookup_imap, Hs. simpl. rewrite Ht.
    replace (first <=? i)%nat with true by (symmetry; apply Nat.leb_le; lia).
    now replace (i <? S i)%nat with true by (symmetry; apply Nat.ltb_lt; lia).
  - rewrite list_lookup_insert_ne by exact Hne.
    rewrite !list_lookup_imap. destruct (states !! j); simpl; [|reflexivity].
    replace (j <? S i)%nat with (j <? i)%nat; [reflexivity|].
    destruct (Nat.ltb_spec j i), (Nat.ltb_spec j (S i)); try reflexivity; lia.
Qed.

Lemma features_upto_here task_at states first i n :
  (i < length states)%nat ->
  features_upto worker task_at states first i n !! i = Some [].
Proof.
  intros Hi. unfold features_upto. rewrite list_lookup_imap.
  destruct (lookup_lt_is_Some_2 states i Hi) as [state ->]. simpl.
  replace (i <? i)%nat with false by (symmetry; apply Nat.ltb_ge; lia).
  now rewrite andb_false_r.
Qed.

Lemma features_loop task_at states first n (k : nat) :
  forall i error_ct,
    (first <= i)%nat -> (i + k <= length states)%nat ->
    (forall j, (j < length states)%nat -> is_Some (task_at j)) ->
    exists error_ct',
      foldl (fun acc i =>
               '(features, error_ct) ← acc;
               task ← task_at i;
               state ← states !! i;
               feature ← features !! i;
               let '(feature, failed) := worker task state n feature in
               Some (<[i := feature]> features,
                     if failed then to_int32 (error_ct + 1) else error_ct))
            (Some (features_upto worker task_at states first i n, error_ct))
            (seq i k)
      = Some (features_upto worker task_at states first (i + k) n, error_ct').
Proof.
  induction k as [|k IH]; intros i ec Hfi Hik Htask; simpl.
  - exists ec. now rewrite Nat.add_0_r.
  - destruct (Htask i) as [task Ht]; [lia|]. rewrite Ht. simpl.
    destruct (lookup_lt_is_Some_2 states i) as [state Hs]; [lia|]. rewrite Hs. simpl.
    rewrite features_upto_here by lia. simpl.
    destruct (worker task state n []) as [feature failed] eqn:Ew.
    replace feature with (fst (worker task state n [])) by now rewrite Ew.
    rewrite (features_upto_step task_at states first i n task state Hfi Ht Hs).
    destruct (IH (S i) (if failed then to_int32 (ec + 1) else ec)) as [ec' Hec];
      [lia|lia|exact Htask|].
    exists ec'. rewrite Hec. f_equal. f_equal. f_equal. lia.
Qed.

Lemma features_upto_all task_at states first n :
  (first <= length states)%nat ->
  features_upto worker task_at states first (length states) n
  = expected_features worker task_at states first n.
Proof.
  intros Hf. unfold features_upto, expected_features. apply list_eq. intros j.
  rewrite !list_lookup_imap. destruct (states !! j) as [state|] eqn:E; simpl;
    [|reflexivity].
  apply lookup_lt_Some in E.
  replace (j <? length states)%nat with true by (symmetry; apply Nat.ltb_lt; lia).
  rewrite andb_true_r.
  destruct (Nat.leb_spec first j), (Nat.ltb_spec j first); try reflexivity; lia.
Qed.

Lemma expected_features_skipped task_at states first n :
  (length states <= first)%nat ->
  expected_features worker task_at states first n = repeat [] (length states).
Proof.
  intros Hf. unfold expected_features. apply list_eq. intros j.
  rewrite list_lookup_imap. destruct (states !! j) as [state|] eqn:E; simpl.
  - apply lookup_lt_Some in E.
    replace (j <? first)%nat with true by (symmetry; apply Nat.ltb_lt; lia).
    symmetry. apply lookup_repeat_lt. lia.
  - symmetry. apply lookup_ge_None. rewrite repeat_length.
    now apply lookup_ge_None in E.
Qed.

Lemma features_from_states_result task_at states skip n :
  (forall j, (j < length states)%nat -> is_Some (task_at j)) ->
  exists error_ct,
    features_from_states SearchTask State worker task_at states skip n
    = Some (expected_features worker task_at states (Z.to_nat (to_uint64 skip)) n,
            error_ct)
    /\ ((length states <= Z.to_nat (to_uint64 skip))%nat -> error_ct = 0).
Proof.
  intros Htask. unfold features_from_states.
  set (first := Z.to_nat (to_uint64 skip)).
  destruct (Nat.le_gt_cases first (length states)) as [Hle|Hgt].
  - rewrite <- (features_upto_first task_at states first n).
    destruct (features_loop task_at states first n (length states - first) first 0)
      as [ec Hec]; [lia|lia|exact Htask|].
    exists ec. rewrite Hec.
    replace (first + (length states - first))%nat with (length states) by lia.
    rewrite features_upto_all by exact Hle. split; [reflexivity|].
    intros Hl. assert (first = length states) by lia.
    revert Hec. replace (length states - first)%nat with 0%nat by lia.
    simpl. now intros [= _ <-].
  - replace (length states - first)%nat with 0%nat by lia. simpl.
    exists 0. rewrite expected_features_skipped by lia. auto.
Qed.

End States_properties.

(** X21: GetPerStoreFeaturesFromStates returns one feature vector per state:
    an empty vector for each of the first [skip_first_n_feature_extraction]
    states and, for every other state, the vector the worker leaves in the
    empty vector it is handed, whether it counted an error or not.  The
    overload with one task per state does so when there are as many tasks as
    states. *)
Theorem GetPerStoreFeaturesFromStates_features :
  forall (SearchTask State : Type)
         (worker : SearchTask -> State -> Z -> list cfloat -> list cfloat * bool)
         (states : list State) (task : SearchTask) (tasks : list SearchTask)
         (skip_first_n_feature_extraction max_n_bufs : Z),
    (exists error_ct,
        Drivers.GetPerStoreFeaturesFromStates SearchTask State worker states task
          skip_first_n_feature_extraction max_n_bufs
        = Some (DriverProps.expected_features worker (fun _ => Some task) states
                  (Z.to_nat (to_uint64 skip_first_n_feature_extraction)) max_n_bufs,
                error_ct))
    /\ ((length states <= length tasks)%nat ->
        exists error_ct,
          Drivers.GetPerStoreFeaturesFromStates_tasks SearchTask State worker states tasks
            skip_first_n_feature_extraction max_n_bufs
          = Some (DriverProps.expected_features worker (fun i => tasks !! i) states
                    (Z.to_nat (to_uint64 skip_first_n_feature_extraction)) max_n_bufs,
                  error_ct))
    /\ (forall task_at first,
          length (DriverProps.expected_features worker task_at states first max_n_bufs)
          = length states).
Proof.
  intros SearchTask State worker states task tasks skip n. split; [|split].
  - destruct (features_from_states_result worker (fun _ => Some task) states skip n)
      as (ec & Hec & _); [eauto|]. eauto.
  - intros Hlen.
    destruct (features_from_states_result worker (fun i => tasks !! i) states skip n)
      as (ec & Hec & _); [|eauto].
    intros j Hj. apply lookup_lt_is_Some_2. lia.
  - intros task_at first. unfold DriverProps.expected_features. apply length_imap.
Qed.

(** X22: a negative [skip_first_n_feature_extraction] skips every state: the
    loop counter is a [size_t], so the count wraps around to a huge number, no
    state is lowered, every feature vector is left empty and no error is
    counted. *)
Theorem GetPerStoreFeaturesFromStates_negative_skip :
  forall (SearchTask State : Type)
         (worker : SearchTask -> State -> Z -> list cfloat -> list cfloat * bool)
         (states : list State) (task : SearchTask)
         (skip_first_n_feature_extraction max_n_bufs : Z),
    INT32_MIN <= skip_first_n_feature_extraction < 0 ->
    Z.of_nat (length states) <= INT64_MAX ->
    Drivers.GetPerStoreFeaturesFromStates SearchTask State worker states task
      skip_first_n_feature_extraction max_n_bufs
    = Some (repeat [] (length states), 0).
Proof.
  intros SearchTask State worker states task skip n Hskip Hlen.
  assert (Hfirst : (length states <= Z.to_nat (to_uint64 skip))%nat).
  { unfold to_uint64, INT32_MIN, INT64_MAX in *.
    replace (skip mod 2 ^ 64) with (skip + 2 ^ 64).
    - lia.
    - apply (Z.mod_unique_pos _ _ (-1)); lia. }
  destruct (features_from_states_result worker (fun _ => Some task) states skip n)
    as (ec & Hec & Hz); [eauto|].
  unfold Drivers.GetPerStoreFeaturesFromStates. rewrite Hec, (Hz Hfirst).
  now rewrite expected_features_skipped.
Qed.

(** X22 at three states and the skip count -1, with a worker that would emit
    one value *)
Lemma GetPerStoreFeaturesFromStates_negative_skip_witness :
  Drivers.GetPerStoreFeaturesFromStates unit unit
    (fun _ _ _ feature => (feature ++ [FFin 1], false)) [tt; tt; tt] tt (-1) 5
  = Some (repeat [] 3, 0).
Proof.
  apply (GetPerStoreFeaturesFromStates_negative_skip unit unit
           (fun _ _ _ feature => (feature ++ [FFin 1], false)) [tt; tt; tt] tt (-1) 5).
  - vm_compute. split; [discriminate|reflexivity].
  - vm_compute. discriminate.
Defined.

(** ** The task cache and the normalized throughputs *)

Section Measure_properties.
Import Drivers DriverProps MeasureProps.
Context {SearchTask State Costs : Type}.
Variable FloatArrayMean : Costs -> cfloat.
Variable new_task : MeasureInput SearchTask State -> SearchTask.


Lemma task_min_cost_snoc key (pairs : list (MeasureInput SearchTask State * MeasureResult Costs)) p :
  task_min_cost FloatArrayMean key (pairs ++ [p])
  = if decide (cache_key (fst p) = key)
    then Some (match task_min_cost FloatArrayMean key pairs with
               | Some m => fmin m (FloatArrayMean (costs _ (snd p)))
               | None => FloatArrayMean (costs _ (snd p))
               end)
    else task_min_cost FloatArrayMean key pairs.
Proof. unfold task_min_cost. now rewrite fold_left_app. Qed.

Lemma task_min_cost_absent key (pairs : list (MeasureInput SearchTask State * MeasureResult Costs)) :
  (forall p, In p pairs -> cache_key (fst p) <> key) ->
  task_min_cost FloatArrayMean key pairs = None.
Proof.
  induction pairs as [|p pairs IH] using rev_ind; intros H; [reflexivity|].
  rewrite task_min_cost_snoc.
  destruct (decide (cache_key (fst p) = key)) as [He|_].
  - exfalso. apply (H p); [apply in_or_app; right; now left|exact He].
  - apply IH. intros q Hq. apply H, in_or_app. now left.
Qed.

Lemma measure_inv_init : measure_inv FloatArrayMean [] (measure_init SearchTask State).
Proof.
  unfold measure_inv, measure_init. simpl. rewrite map_size_empty.
  do 6 (split; [first [reflexivity|lia]|]).
  split; [|split].
  - intros key task id H. now rewrite lookup_empty in H.
  - intros k1 k2 t1 t2 id H. now rewrite lookup_empty in H.
  - intros j p H. now rewrite lookup_nil in H.
Qed.

(** The body of the loops never writes past the end of [min_costs] and keeps
    the cache and the vectors in step. *)
Lemma measure_step_inv (pairs : list (MeasureInput SearchTask State * MeasureResult Costs)) st inp res :
  measure_inv FloatArrayMean pairs st ->
  exists st',
    measure_step _ _ _ FloatArrayMean new_task inp res st = Some st'
    /\ measure_inv FloatArrayMean (pairs ++ [(inp, res)]) st'.
Proof.
  intros (Hnt & Hst & Hlt & Hli & Hlm & Hsz & Hcache & Hinj & Hrec).
  unfold measure_step.
  fold (cache_key inp).
  destruct (task_cache _ _ st !! cache_key inp) as [[task id]|] eqn:Ec.
  - (* a key of the cache *)
    destruct (Hcache _ _ _ Ec) as (Hid & [m Hm] & Hmin).
    rewrite Hm in Hmin. rewrite Hmin. cbn [mbind option_bind].
    eexists. split; [reflexivity|].
    unfold measure_inv. cbn [normalized_throughputs states tasks task_ids min_costs
                               task_cache].
    rewrite !fmap_app, !length_app, length_insert. cbn [fmap list_fmap length fst snd].
    split; [now rewrite Hnt|]. split; [now rewrite Hst|].
    split; [lia|]. split; [lia|]. split; [exact Hlm|]. split; [lia|].
    split; [|split].
    + intros key task' id' Hk. destruct (Hcache _ _ _ Hk) as (Hid' & Hs' & Hmin').
      split; [exact Hid'|]. rewrite task_min_cost_snoc. cbn [fst snd].
      destruct (decide (cache_key inp = key)) as [<-|Hne].
      * rewrite Ec in Hk. injection Hk as <- <-. rewrite Hm.
        split; [eauto|]. apply list_lookup_insert_eq. lia.
      * split; [exact Hs'|]. rewrite list_lookup_insert_ne; [exact Hmin'|].
        intros Heq. apply Hne. apply (Hinj _ _ task task' id Ec).
        replace id with id' by lia. exact Hk.
    + exact Hinj.
    + intros j p Hj. apply lookup_app_Some in Hj as [Hj|[Hge Hj]].
      * destruct (Hrec j p Hj) as (t & i & H1 & H2 & H3).
        exists t, i. split; [exact H1|]. split; [|exact H3].
        now apply lookup_app_l_Some.
      * apply list_lookup_singleton_Some in Hj as [Hz <-]. cbn [fst].
        exists task, id. split; [exact Ec|].
        assert (j = length pairs) by lia. subst j.
        split; [|lia].
        rewrite lookup_app_r by lia. now rewrite Hli, Nat.sub_diag.
  - (* a new key *)
    cbn [mbind option_bind].
    eexists. split; [reflexivity|].
    assert (Hnew : forall p, In p pairs -> cache_key (fst p) <> cache_key inp).
    { intros p Hp Heq. apply list_elem_of_In, list_elem_of_lookup in Hp as [j Hl].
      destruct (Hrec j p Hl) as (t & i & H1 & _). rewrite Heq, Ec in H1. discriminate. }
    unfold measure_inv. cbn [normalized_throughputs states tasks task_ids min_costs
                               task_cache].
    rewrite !fmap_app, !length_app, map_size_insert_None by exact Ec.
    cbn [fmap list_fmap length fst snd].
    split; [now rewrite Hnt|]. split; [now rewrite Hst|].
    split; [lia|]. split; [lia|]. split; [lia|]. split; [lia|].
    split; [|split].
    + intros key task' id' Hk. rewrite task_min_cost_snoc. cbn [fst snd].
      destruct (decide (cache_key inp = key)) as [<-|Hne].
      * rewrite lookup_insert_eq in Hk. injection Hk as <- <-.
        split; [lia|]. split; [eauto|].
        rewrite (task_min_cost_absent _ _ Hnew).
        rewrite Nat2Z.id, lookup_app_r by lia. now rewrite Hlm, Nat.sub_diag.
      * rewrite lookup_insert_ne in Hk by exact Hne.
        destruct (Hcache _ _ _ Hk) as (Hid' & Hs' & Hmin').
        split; [lia|]. split; [exact Hs'|].
        rewrite lookup_app_l by lia. exact Hmin'.
    + intros k1 k2 t1 t2 id H1 H2.
      destruct (decide (cache_key inp = k1)) as [<-|Hn1];
        destruct (decide (cache_key inp = k2)) as [<-|Hn2]; [reflexivity| | |].
      * rewrite lookup_insert_eq in H1. injection H1 as <- <-.
        rewrite lookup_insert_ne in H2 by exact Hn2.
        destruct (Hcache _ _ _ H2) as (Hid' & _). lia.
      * rewrite lookup_insert_eq in H2. injection H2 as <- <-.
        rewrite lookup_insert_ne in H1 by exact Hn1.
        destruct (Hcache _ _ _ H1) as (Hid' & _). lia.
      * rewrite lookup_insert_ne in H1 by exact Hn1.
        rewrite lookup_insert_ne in H2 by exact Hn2. eapply Hinj; eauto.
    + intros j p Hj. apply lookup_app_Some in Hj as [Hj|[Hge Hj]].
      * destruct (Hrec j p Hj) as (t & i & H1 & H2 & H3).
        exists t, i. split; [|split; [|exact H3]].
        -- rewrite lookup_insert_ne; [exact H1|].
           intros Heq. rewrite <- Heq, Ec in H1. discriminate.
        -- now apply lookup_app_l_Some.
      * apply list_lookup_singleton_Some in Hj as [Hz <-]. cbn [fst].
        exists (new_task inp), (Z.of_nat (size (task_cache _ _ st))).
        split; [apply lookup_insert_eq|].
        assert (j = length pairs) by lia. subst j.
        split; [|lia].
        rewrite lookup_app_r by lia. now rewrite Hli, Nat.sub_diag.
Qed.

Lemma measure_fold_snoc pairs p st :
  measure_fold FloatArrayMean new_task (pairs ++ [p]) st
  = st' ← measure_fold FloatArrayMean new_task pairs st;
    measure_step _ _ _ FloatArrayMean new_task (fst p) (snd p) st'.
Proof. unfold measure_fold. now rewrite foldl_app. Qed.

Lemma measure_fold_inv (pairs : list (MeasureInput SearchTask State * MeasureResult Costs)) :
  exists st,
    measure_fold FloatArrayMean new_task pairs (measure_init _ _) = Some st
    /\ measure_inv FloatArrayMean pairs st.
Proof.
  induction pairs as [|[inp res] pairs IH] using rev_ind.
  - exists (measure_init _ _). split; [reflexivity|apply measure_inv_init].
  - destruct IH as (st & Hf & Hinv).
    destruct (measure_step_inv pairs st inp res Hinv) as (st' & Hs & Hinv').
    exists st'. split; [|exact Hinv'].
    rewrite measure_fold_snoc, Hf. exact Hs.
Qed.

Lemma measure_fold_None pairs :
  foldl (fun acc p =>
           st ← acc;
           measure_step SearchTask State Costs FloatArrayMean new_task (fst p) (snd p) st)
        None pairs = None.
Proof. induction pairs as [|p pairs IH]; [reflexivity|exact IH]. Qed.

Lemma measure_step_states st inp res st' :
  measure_step _ _ _ FloatArrayMean new_task inp res st = Some st' ->
  length (states _ _ st') = S (length (states _ _ st)).
Proof.
  unfold measure_step. intros H.
  destruct (task_cache _ _ st !! _) as [[task id]|];
    [destruct (min_costs _ _ st !! _); [|discriminate]|];
    cbn [mbind option_bind] in H; injection H as <-;
    cbn [states]; rewrite length_app; simpl; lia.
Qed.

(** The vectors the drivers return from the state the loop leaves *)
Lemma measure_finish (worker : SearchTask -> State -> Z -> list cfloat -> list cfloat * bool)
    (pairs : list (MeasureInput SearchTask State * MeasureResult Costs)) st skip n :
  measure_inv FloatArrayMean pairs st ->
  Z.of_nat (length pairs) <= INT32_MAX ->
  exists normalized features error_ct,
    normalize_throughputs (min_costs _ _ st) (task_ids _ _ st)
      (normalized_throughputs _ _ st) = Some normalized
    /\ GetPerStoreFeaturesFromStates_tasks _ _ worker (states _ _ st) (tasks _ _ st) skip n
       = Some (features, error_ct)
    /\ length features = length pairs
    /\ length normalized = length pairs
    /\ length (task_ids _ _ st) = length pairs
    /\ (forall j p,
          pairs !! j = Some p ->
          exists m id,
            task_min_cost FloatArrayMean (cache_key (fst p)) pairs = Some m
            /\ normalized !! j = Some (fdiv m (FloatArrayMean (costs _ (snd p))))
            /\ task_ids _ _ st !! j = Some id
            /\ 0 <= id <= Z.of_nat j
            /\ (forall i q id',
                  pairs !! i = Some q -> task_ids _ _ st !! i = Some id' ->
                  id = id' <-> cache_key (fst p) = cache_key (fst q))).
Proof.
  intros (Hnt & Hst & Hlt & Hli & Hlm & Hsz & Hcache & Hinj & Hrec) Hlen.
  assert (Hid : forall j p, pairs !! j = Some p ->
            exists task id m,
              task_cache _ _ st !! cache_key (fst p) = Some (task, id)
              /\ task_ids _ _ st !! j = Some id
              /\ 0 <= id <= Z.of_nat j
              /\ task_min_cost FloatArrayMean (cache_key (fst p)) pairs = Some m
              /\ min_costs _ _ st !! Z.to_nat (to_uint64 id) = Some m).
  { intros j p Hj. destruct (Hrec j p Hj) as (task & id & Hc & Hi & Hle).
    destruct (Hcache _ _ _ Hc) as (Hr & [m Hm] & Hmin).
    exists task, id, m.
    assert (Hlt' : (j < length pairs)%nat) by (apply lookup_lt_is_Some; eauto).
    rewrite to_int32_small in Hi by (unfold INT32_MIN, INT32_MAX in *; lia).
    split; [exact Hc|]. split; [exact Hi|]. split; [lia|]. split; [exact Hm|].
    unfold to_uint64. rewrite Z.mod_small by (unfold INT32_MAX in *; lia).
    now rewrite Hmin. }
  assert (Hnorm : is_Some (normalize_throughputs (min_costs _ _ st) (task_ids _ _ st)
                             (normalized_throughputs _ _ st))).
  { unfold normalize_throughputs. apply mapM_is_Some, List.Forall_forall.
    intros [j c] Hin. apply list_elem_of_In, list_elem_of_lookup in Hin as [k Hk].
    assert (Hjk : (seq 0 (length (normalized_throughputs _ _ st))) !! k = Some j
                  /\ normalized_throughputs _ _ st !! k = Some c).
    { clear -Hk. revert Hk. generalize 0%nat.
      generalize (normalized_throughputs _ _ st). intros l. revert k.
      induction l as [|x l IH]; intros [|k] a H; simpl in *; try discriminate.
      - now injection H as <- <-.
      - apply (IH k (S a)). exact H. }
    destruct Hjk as [Hj Hc]. apply lookup_seq in Hj as [-> Hlt'].
    rewrite Hnt, length_fmap in Hlt'.
    destruct (lookup_lt_is_Some_2 pairs k Hlt') as [p Hp].
    destruct (Hid k p Hp) as (task & id & m & _ & Hi & _ & _ & Hm).
    cbn [fst snd]. simpl. rewrite Hi. cbn [mbind option_bind]. rewrite Hm. eauto. }
  destruct Hnorm as [normalized Hnorm].
  destruct (features_from_states_result worker (fun i => tasks _ _ st !! i)
              (states _ _ st) skip n) as (ec & Hec & _).
  { intros j Hj. apply lookup_lt_is_Some_2. rewrite Hst, length_fmap in Hj. lia. }
  exists normalized, (expected_features worker (fun i => tasks _ _ st !! i)
                        (states _ _ st) (Z.to_nat (to_uint64 skip)) n), ec.
  assert (Hln : length normalized = length pairs).
  { unfold normalize_throughputs in Hnorm. apply length_mapM in Hnorm.
    rewrite <- Hnorm, length_combine, length_seq, Hnt, length_fmap. lia. }
  split; [exact Hnorm|]. split; [exact Hec|].
  split; [unfold expected_features; now rewrite length_imap, Hst, length_fmap|].
  split; [exact Hln|]. split; [exact Hli|].
  intros j p Hj. destruct (Hid j p Hj) as (task & id & m & Hc & Hi & Hle & Hm & Hmc).
  exists m, id. split; [exact Hm|]. split; [|split; [exact Hi|split; [exact Hle|]]].
  - unfold normalize_throughputs in Hnorm. apply mapM_Some in Hnorm.
    assert (Hlt' : (j < length pairs)%nat) by (apply lookup_lt_is_Some; eauto).
    assert (Hx : combine (seq 0 (length (normalized_throughputs _ _ st)))
                   (normalized_throughputs _ _ st) !! j
                 = Some (j, FloatArrayMean (costs _ (snd p)))).
    { rewrite Hnt, length_fmap.
      assert (Hc' : ((fun p0 : MeasureInput SearchTask State * MeasureResult Costs =>
                        FloatArrayMean (costs _ (snd p0))) <$> pairs) !! j
                    = Some (FloatArrayMean (costs _ (snd p))))
        by (now rewrite list_lookup_fmap, Hj).
      revert Hc'. generalize ((fun p0 : MeasureInput SearchTask State * MeasureResult Costs =>
                        FloatArrayMean (costs _ (snd p0))) <$> pairs).
      intros l. clear -Hlt'. revert Hlt'. generalize (length pairs). intros len.
      replace (Some (j, FloatArrayMean (costs Costs p.2)))
        with (Some ((0 + j)%nat, FloatArrayMean (costs Costs p.2))) by reflexivity.
      generalize 0%nat. revert j len.
      induction l as [|x l IH]; intros [|j] [|len] a Hlt' H; simpl in *;
        try discriminate; try lia.
      - injection H as ->. now rewrite Nat.add_0_r.
      - rewrite (IH j len (S a)); [do 2 f_equal; lia|lia|exact H]. }
    destruct (Forall2_lookup_l _ _ _ _ _ Hnorm Hx) as (y & Hy & Hfy).
    cbn [fst snd] in Hfy. rewrite Hi in Hfy. cbn [mbind option_bind] in Hfy.
    rewrite Hmc in Hfy. cbn [mbind option_bind] in Hfy. injection Hfy as <-. exact Hy.
  - intros i q id' Hq Hi'.
    destruct (Hid i q Hq) as (task' & id'' & m' & Hc' & Hi'' & _).
    rewrite Hi' in Hi''. injection Hi'' as <-. split.
    + intros <-. eapply Hinj; eauto.
    + intros Heq. rewrite Heq, Hc' in Hc. now injection Hc.
Qed.

Lemma lookup_combine_Some {X Y : Type} (l : list X) (k : list Y) j x y :
  combine l k !! j = Some (x, y) <-> l !! j = Some x /\ k !! j = Some y.
Proof.
  revert k j. induction l as [|a l IH]; intros [|b k] [|j]; simpl;
    try (split; [discriminate|intros [? ?]; discriminate]).
  - split; [now intros [= <- <-]|now intros [[= <-] [= <-]]].
  - apply IH.
Qed.

Lemma measure_pairs_loop_gen (results : list (MeasureResult Costs))
    (inputs : list (MeasureInput SearchTask State)) a acc :
  (a + length inputs <= length results)%nat ->
  foldl (fun acc x =>
           st ← acc;
           res ← results !! fst x;
           measure_step _ _ _ FloatArrayMean new_task (snd x) res st)
        acc (combine (seq a (length inputs)) inputs)
  = foldl (fun acc p =>
             st ← acc;
             measure_step _ _ _ FloatArrayMean new_task (fst p) (snd p) st)
          acc (combine inputs (drop a results)).
Proof.
  revert a acc. induction inputs as [|x inputs IH]; intros a acc Hlen; [reflexivity|].
  simpl in Hlen. destruct (lookup_lt_is_Some_2 results a) as [r Hr]; [lia|].
  rewrite (drop_S _ _ _ Hr). cbn [length seq combine foldl fst snd].
  rewrite IH by lia. f_equal. destruct acc as [st|]; [|reflexivity].
  cbn [mbind option_bind]. now rewrite Hr.
Qed.

Lemma measure_pairs_loop_short (results : list (MeasureResult Costs))
    (inputs : list (MeasureInput SearchTask State)) a acc :
  (a <= length results)%nat ->
  (length results < a + length inputs)%nat ->
  foldl (fun acc x =>
           st ← acc;
           res ← results !! fst x;
           measure_step _ _ _ FloatArrayMean new_task (snd x) res st)
        acc (combine (seq a (length inputs)) inputs)
  = None.
Proof.
  assert (Hnone : forall l : list (nat * MeasureInput SearchTask State),
            foldl (fun acc x =>
                     st ← acc;
                     res ← results !! fst x;
                     measure_step _ _ _ FloatArrayMean new_task (snd x) res st)
                  None l = None).
  { induction l as [|y l IH]; [reflexivity|exact IH]. }
  revert a acc. induction inputs as [|x inputs IH]; intros a acc Ha Hlen;
    [simpl in Hlen; lia|].
  simpl in Hlen. cbn [length seq combine foldl fst snd].
  destruct (results !! a) as [r|] eqn:Hr.
  - apply lookup_lt_Some in Hr. apply IH; lia.
  - destruct acc as [st|]; cbn [mbind option_bind]; apply Hnone.
Qed.

(** The least cost of a key among pairs of positive cost *)
Lemma task_min_cost_positive key
    (pairs : list (MeasureInput SearchTask State * MeasureResult Costs)) m :
  Forall (cost_positive FloatArrayMean) pairs ->
  task_min_cost FloatArrayMean key pairs = Some m ->
  exists r, m = FFin r /\ (0 < r)%R
    /\ (forall j p c, pairs !! j = Some p -> cache_key (fst p) = key ->
          FloatArrayMean (costs _ (snd p)) = FFin c -> (r <= c)%R)
    /\ (exists j p, pairs !! j = Some p /\ cache_key (fst p) = key
          /\ FloatArrayMean (costs _ (snd p)) = FFin r).
Proof.
  revert m. induction pairs as [|p pairs IH] using rev_ind; intros m Hpos Hm;
    [discriminate|].
  apply Forall_app in Hpos as [Hpos Hp]. apply Forall_inv in Hp.
  destruct Hp as (c & Hc & Hc0).
  rewrite task_min_cost_snoc in Hm.
  destruct (decide (cache_key (fst p) = key)) as [Hk|Hk].
  - destruct (task_min_cost FloatArrayMean key pairs) as [m0|] eqn:Hm0.
    + destruct (IH m0 Hpos eq_refl) as (r0 & -> & Hr0 & Hle & (j & q & Hj & Hq & Hqc)).
      injection Hm as <-. rewrite Hc. unfold fmin, flt.
      destruct (Rlt_dec c r0) as [Hlt|Hge].
      * replace (Rltb c r0) with true by (symmetry; apply Rltb_true; lra).
        exists c. split; [reflexivity|]. split; [exact Hc0|]. split.
        -- intros i q' c' Hi Hq' Hc'. apply lookup_app_Some in Hi as [Hi|[_ Hi]].
           ++ pose proof (Hle i q' c' Hi Hq' Hc'). lra.
           ++ apply list_lookup_singleton_Some in Hi as [_ <-].
              rewrite Hc in Hc'. injection Hc' as <-. lra.
        -- exists (length pairs), p. split; [|auto].
           rewrite lookup_app_r by lia. now rewrite Nat.sub_diag.
      * replace (Rltb c r0) with false by (symmetry; apply Rltb_false; lra).
        exists r0. split; [reflexivity|]. split; [exact Hr0|]. split.
        -- intros i q' c' Hi Hq' Hc'. apply lookup_app_Some in Hi as [Hi|[_ Hi]].
           ++ exact (Hle i q' c' Hi Hq' Hc').
           ++ apply list_lookup_singleton_Some in Hi as [_ <-].
              rewrite Hc in Hc'. injection Hc' as <-. lra.
        -- exists j, q. split; [now apply lookup_app_l_Some|auto].
    + injection Hm as <-. exists c. split; [exact Hc|]. split; [exact Hc0|]. split.
      * intros i q' c' Hi Hq' Hc'. apply lookup_app_Some in Hi as [Hi|[_ Hi]].
        -- exfalso. assert (Hin : In q' pairs)
             by (apply list_elem_of_In, list_elem_of_lookup; eauto).
           clear -Hm0 Hin Hq'. revert Hm0 Hin.
           induction pairs as [|x pairs IH] using rev_ind; intros Hm0 Hin; [easy|].
           rewrite task_min_cost_snoc in Hm0.
           destruct (decide (cache_key (fst x) = key)) as [Hx|Hx]; [discriminate|].
           apply in_app_or in Hin as [Hin|[<-|[]]]; [now apply IH|contradiction].
        -- apply list_lookup_singleton_Some in Hi as [_ <-].
           rewrite Hc in Hc'. injection Hc' as <-. lra.
      * exists (length pairs), p. split; [|auto].
        rewrite lookup_app_r by lia. now rewrite Nat.sub_diag.
  - destruct (IH m Hpos Hm) as (r0 & -> & Hr0 & Hle & (j & q & Hj & Hq & Hqc)).
    exists r0. split; [reflexivity|]. split; [exact Hr0|]. split.
    + intros i q' c' Hi Hq' Hc'. apply lookup_app_Some in Hi as [Hi|[_ Hi]].
      * exact (Hle i q' c' Hi Hq' Hc').
      * apply list_lookup_singleton_Some in Hi as [_ <-]. contradiction.
    + exists j, q. split; [now apply lookup_app_l_Some|auto].
Qed.

End Measure_properties.

Section Measure_drivers.
Import Drivers DriverProps MeasureProps.
Context {SearchTask State Costs : Type}.
Variable FloatArrayMean : Costs -> cfloat.
Variable rebuild_task : MeasureInput SearchTask State -> SearchTask.
Variable worker : SearchTask -> State -> Z -> list cfloat -> list cfloat * bool.

(** What GetPerStoreFeaturesFromMeasurePairs returns for inputs that each
    have a result *)
Lemma FromMeasurePairs_result (inputs : list (MeasureInput SearchTask State))
    (results : list (MeasureResult Costs)) skip n :
  Z.of_nat (length inputs) <= INT32_MAX ->
  (length inputs <= length results)%nat ->
  exists features normalized ids error_ct,
    GetPerStoreFeaturesFromMeasurePairs _ _ _ FloatArrayMean rebuild_task worker
      inputs results skip n = Some (features, normalized, ids, error_ct)
    /\ length features = length inputs
    /\ length normalized = length inputs
    /\ length ids = length inputs
    /\ (forall j inp res,
          inputs !! j = Some inp -> results !! j = Some res ->
          exists m id,
            task_min_cost FloatArrayMean (cache_key inp) (combine inputs results) = Some m
            /\ normalized !! j = Some (fdiv m (FloatArrayMean (costs _ res)))
            /\ ids !! j = Some id
            /\ 0 <= id <= Z.of_nat j
            /\ (forall i inp' id',
                  inputs !! i = Some inp' -> ids !! i = Some id' ->
                  id = id' <-> cache_key inp = cache_key inp')).
Proof.
  intros Hmax Hlen.
  assert (Hlc : length (combine inputs results) = length inputs)
    by (rewrite length_combine; lia).
  unfold GetPerStoreFeaturesFromMeasurePairs, measure_pairs_loop.
  rewrite (measure_pairs_loop_gen FloatArrayMean (pair_task _ _ rebuild_task)
             results inputs 0 (Some (measure_init _ _))) by (simpl; lia).
  rewrite drop_0.
  destruct (measure_fold_inv FloatArrayMean (pair_task _ _ rebuild_task)
              (combine inputs results)) as (st & Hf & Hinv).
  unfold measure_fold in Hf. rewrite Hf. cbn [mbind option_bind].
  destruct (measure_finish FloatArrayMean worker (combine inputs results) st skip n Hinv)
    as (normalized & features & ec & Hn & Hfe & Hlf & Hln & Hli & Hrec); [lia|].
  rewrite Hn. cbn [mbind option_bind]. rewrite Hfe. cbn [mbind option_bind].
  exists features, normalized, (task_ids _ _ st), ec.
  split; [reflexivity|]. split; [lia|]. split; [lia|]. split; [lia|].
  intros j inp res Hi Hr.
  destruct (Hrec j (inp, res)) as (m & id & Hm & Hnj & Hid & Hle & Hsame);
    [now apply lookup_combine_Some|].
  exists m, id. cbn [fst snd] in *. do 4 (split; [assumption|]).
  intros i inp' id' Hi' Hid'.
  assert (Hlt : (i < length results)%nat) by (apply lookup_lt_Some in Hi'; lia).
  destruct (lookup_lt_is_Some_2 results i Hlt) as [res' Hres'].
  apply (Hsame i (inp', res') id'); [now apply lookup_combine_Some|exact Hid'].
Qed.

Lemma FromMeasurePairs_short (inputs : list (MeasureInput SearchTask State))
    (results : list (MeasureResult Costs)) skip n :
  (length results < length inputs)%nat ->
  GetPerStoreFeaturesFromMeasurePairs _ _ _ FloatArrayMean rebuild_task worker
    inputs results skip n = None.
Proof.
  intros Hlen. unfold GetPerStoreFeaturesFromMeasurePairs, measure_pairs_loop.
  rewrite (measure_pairs_loop_short FloatArrayMean (pair_task _ _ rebuild_task)
             results inputs 0 (Some (measure_init _ _))) by (simpl; lia).
  reflexivity.
Qed.

(** The reading loop stops after [max_lines] records when [max_lines] is
    positive and reads every record otherwise. *)
Lemma read_records_fold max_lines
    (records : list (MeasureInput SearchTask State * MeasureResult Costs)) st :
  Z.of_nat (length (states _ _ st) + length records) <= INT32_MAX ->
  (0 < max_lines -> Z.of_nat (length (states _ _ st)) < max_lines) ->
  read_records _ _ _ FloatArrayMean rebuild_task max_lines records st
  = measure_fold FloatArrayMean rebuild_task
      (take (if 0 <? max_lines
             then Z.to_nat (max_lines - Z.of_nat (length (states _ _ st)))
             else length records) records) st.
Proof.
  revert st. induction records as [|[inp res] records IH]; intros st Hmax Hlines.
  - now rewrite take_nil.
  - cbn [read_records].
    assert (Hk : exists k, (if 0 <? max_lines
                            then Z.to_nat (max_lines - Z.of_nat (length (states _ _ st)))
                            else length ((inp, res) :: records)) = S k
                 /\ forall st' : MeasureState SearchTask State, length (states _ _ st') = S (length (states _ _ st)) ->
                      ((0 <? max_lines)
                       && (max_lines <=? to_int32 (Z.of_nat (length (states _ _ st')))) = true
                       -> k = 0%nat)
                      /\ ((0 <? max_lines)
                       && (max_lines <=? to_int32 (Z.of_nat (length (states _ _ st')))) = false
                       -> k = if 0 <? max_lines
                              then Z.to_nat (max_lines - Z.of_nat (length (states _ _ st')))
                              else length records)).
    { simpl in Hmax. destruct (0 <? max_lines) eqn:Hpos.
      - apply Z.ltb_lt in Hpos. specialize (Hlines Hpos).
        exists (Z.to_nat (max_lines - Z.of_nat (length (states _ _ st)) - 1)).
        split; [lia|]. intros st' Hst'.
        rewrite to_int32_small by (unfold INT32_MIN, INT32_MAX in *; lia).
        rewrite Hst'. cbn [andb]. split; intros Hb.
        + apply Z.leb_le in Hb. lia.
        + apply Z.leb_gt in Hb. lia.
      - exists (length records). split; [reflexivity|]. intros st' _. cbn [andb].
        split; [discriminate|reflexivity]. }
    destruct Hk as (k & -> & Hk). cbn [take].
    unfold measure_fold. cbn [foldl mbind option_bind fst snd].
    destruct (measure_step _ _ _ FloatArrayMean rebuild_task inp res st) as [st'|] eqn:Hs.
    + cbn [mbind option_bind].
      pose proof (measure_step_states FloatArrayMean rebuild_task _ _ _ _ Hs) as Hst'.
      destruct (Hk st' Hst') as [Hbreak Hgo].
      destruct ((0 <? max_lines)
                && (max_lines <=? to_int32 (Z.of_nat (length (states _ _ st'))))) eqn:Hb.
      * rewrite (Hbreak eq_refl). now rewrite take_0.
      * rewrite (Hgo eq_refl). rewrite IH; [reflexivity| |].
        -- simpl in Hmax. lia.
        -- intros Hpos. apply andb_false_iff in Hb as [Hb|Hb].
           ++ apply Z.ltb_ge in Hb. lia.
           ++ apply Z.leb_gt in Hb.
              rewrite to_int32_small in Hb
                by (simpl in Hmax; unfold INT32_MIN, INT32_MAX in *; lia).
              exact Hb.
    + cbn [mbind option_bind]. symmetry.
      apply (measure_fold_None FloatArrayMean rebuild_task).
Qed.

Lemma measure_fold_ext (new1 new2 : MeasureInput SearchTask State -> SearchTask)
    (pairs : list (MeasureInput SearchTask State * MeasureResult Costs)) st :
  Forall (fun p => new1 (fst p) = new2 (fst p)) pairs ->
  measure_fold FloatArrayMean new1 pairs st = measure_fold FloatArrayMean new2 pairs st.
Proof.
  unfold measure_fold. generalize (Some st). clear st.
  induction pairs as [|p pairs IH]; intros acc Hall; [reflexivity|].
  apply Forall_cons in Hall as [Hp Hall]. cbn [foldl]. rewrite <- (IH _ Hall).
  f_equal. destruct acc as [st|]; [|reflexivity]. cbn [mbind option_bind].
  unfold measure_step. now rewrite Hp.
Qed.

Lemma combine_fst_snd {X Y : Type} (l : list (X * Y)) :
  combine (fst <$> l) (snd <$> l) = l.
Proof. induction l as [|[x y] l IH]; [reflexivity|]. simpl. f_equal. exact IH. Qed.

(** GetPerStoreFeaturesFromFile as a fold of the loop body over the records
    it reads *)
Lemma FromFile_fold (records : list (MeasureInput SearchTask State * MeasureResult Costs))
    max_lines n :
  Z.of_nat (length records) <= INT32_MAX ->
  GetPerStoreFeaturesFromFile _ _ _ FloatArrayMean rebuild_task worker records max_lines n
  = st ← measure_fold FloatArrayMean rebuild_task
           (take (if 0 <? max_lines then Z.to_nat max_lines else length records) records)
           (measure_init _ _);
    normalized ← normalize_throughputs (min_costs _ _ st) (task_ids _ _ st)
                    (normalized_throughputs _ _ st);
    '(features, error_ct) ←
      GetPerStoreFeaturesFromStates_tasks _ _ worker (states _ _ st) (tasks _ _ st) 0 n;
    Some (features, normalized, task_ids _ _ st, error_ct).
Proof.
  intros Hmax. unfold GetPerStoreFeaturesFromFile.
  rewrite read_records_fold; [|simpl; lia|simpl; lia].
  cbn [measure_init states length]. now rewrite Z.sub_0_r.
Qed.

Lemma FromMeasurePairs_fold (inputs : list (MeasureInput SearchTask State))
    (results : list (MeasureResult Costs)) skip n :
  (length inputs <= length results)%nat ->
  GetPerStoreFeaturesFromMeasurePairs _ _ _ FloatArrayMean rebuild_task worker
    inputs results skip n
  = st ← measure_fold FloatArrayMean (pair_task _ _ rebuild_task)
           (combine inputs results) (measure_init _ _);
    normalized ← normalize_throughputs (min_costs _ _ st) (task_ids _ _ st)
                    (normalized_throughputs _ _ st);
    '(features, error_ct) ←
      GetPerStoreFeaturesFromStates_tasks _ _ worker (states _ _ st) (tasks _ _ st) skip n;
    Some (features, normalized, task_ids _ _ st, error_ct).
Proof.
  intros Hlen. unfold GetPerStoreFeaturesFromMeasurePairs, measure_pairs_loop.
  rewrite (measure_pairs_loop_gen FloatArrayMean (pair_task _ _ rebuild_task)
             results inputs 0 (Some (measure_init _ _))) by (simpl; lia).
  now rewrite drop_0.
Qed.

Lemma FromFile_result (records : list (MeasureInput SearchTask State * MeasureResult Costs))
    max_lines n :
  Z.of_nat (length records) <= INT32_MAX ->
  exists features normalized ids error_ct,
    GetPerStoreFeaturesFromFile _ _ _ FloatArrayMean rebuild_task worker records max_lines n
    = Some (features, normalized, ids, error_ct)
    /\ length features = length ids
    /\ length normalized = length ids
    /\ length ids = (if 0 <? max_lines
                     then Nat.min (Z.to_nat max_lines) (length records)
                     else length records).
Proof.
  intros Hmax. rewrite FromFile_fold by exact Hmax.
  set (k := if 0 <? max_lines then Z.to_nat max_lines else length records).
  destruct (measure_fold_inv FloatArrayMean rebuild_task (take k records))
    as (st & Hf & Hinv).
  rewrite Hf. cbn [mbind option_bind].
  assert (Hlk : length (take k records)
                = if 0 <? max_lines then Nat.min (Z.to_nat max_lines) (length records)
                  else length records).
  { rewrite length_take. subst k. destruct (0 <? max_lines); lia. }
  destruct (measure_finish FloatArrayMean worker (take k records) st 0 n Hinv)
    as (normalized & features & ec & Hn & Hfe & Hlf & Hln & Hli & _).
  { rewrite length_take. lia. }
  rewrite Hn. cbn [mbind option_bind]. rewrite Hfe. cbn [mbind option_bind].
  exists features, normalized, (task_ids _ _ st), ec.
  split; [reflexivity|]. split; [lia|]. split; [lia|]. lia.
Qed.

End Measure_drivers.

(** ** The drivers over measure records *)

(** X23: GetPerStoreFeaturesFromMeasurePairs returns one feature vector, one
    normalized throughput and one task id per input when every input has a
    result, and fails at the first input without one. *)
Theorem GetPerStoreFeaturesFromMeasurePairs_returns :
  forall (SearchTask State Costs : Type) (FloatArrayMean : Costs -> cfloat)
         (rebuild_task : Drivers.MeasureInput SearchTask State -> SearchTask)
         (worker : SearchTask -> State -> Z -> list cfloat -> list cfloat * bool)
         (inputs : list (Drivers.MeasureInput SearchTask State))
         (results : list (Drivers.MeasureResult Costs))
         (skip_first_n_feature_extraction max_n_bufs : Z),
    Z.of_nat (length inputs) <= INT32_MAX ->
    ((length inputs <= length results)%nat ->
     exists features normalized_throughputs task_ids error_ct,
       Drivers.GetPerStoreFeaturesFromMeasurePairs SearchTask State Costs FloatArrayMean
         rebuild_task worker inputs results skip_first_n_feature_extraction max_n_bufs
       = Some (features, normalized_throughputs, task_ids, error_ct)
       /\ length features = length inputs
       /\ length normalized_throughputs = length inputs
       /\ length task_ids = length inputs)
    /\ ((length results < length inputs)%nat ->
        Drivers.GetPerStoreFeaturesFromMeasurePairs SearchTask State Costs FloatArrayMean
          rebuild_task worker inputs results skip_first_n_feature_extraction max_n_bufs
        = None).
Proof.
  intros SearchTask State Costs FloatArrayMean rebuild_task worker inputs results
         skip n Hmax.
  split.
  - intros Hlen.
    destruct (FromMeasurePairs_result FloatArrayMean rebuild_task worker inputs results
                skip n Hmax Hlen)
      as (features & normalized & ids & ec & E & Hf & Hn & Hi & _).
    exists features, normalized, ids, ec. auto.
  - apply FromMeasurePairs_short.
Qed.

(** X23 at three records with their results, and at the same records with
    two results *)
Lemma GetPerStoreFeaturesFromMeasurePairs_returns_witness :
  (exists features normalized_throughputs task_ids error_ct,
      Drivers.GetPerStoreFeaturesFromMeasurePairs unit unit cfloat (fun c => c)
        (fun _ => tt) ex_worker ex_measure_inputs ex_measure_results 0 5
      = Some (features, normalized_throughputs, task_ids, error_ct)
      /\ length features = 3%nat
      /\ length normalized_throughputs = 3%nat
      /\ length task_ids = 3%nat)
  /\ Drivers.GetPerStoreFeaturesFromMeasurePairs unit unit cfloat (fun c => c)
       (fun _ => tt) ex_worker ex_measure_inputs (take 2 ex_measure_results) 0 5
     = None.
Proof.
  split.
  - apply (GetPerStoreFeaturesFromMeasurePairs_returns unit unit cfloat (fun c => c)
             (fun _ => tt) ex_worker ex_measure_inputs ex_measure_results 0 5).
    + vm_compute. discriminate.
    + simpl. lia.
  - apply (GetPerStoreFeaturesFromMeasurePairs_returns unit unit cfloat (fun c => c)
             (fun _ => tt) ex_worker ex_measure_inputs (take 2 ex_measure_results) 0 5).
    + vm_compute. discriminate.
    + simpl. lia.
Defined.

(** X24: the task ids GetPerStoreFeaturesFromMeasurePairs returns number the
    (workload key, target) pairs in the order of their first record: two
    records get the same id exactly when their workload keys and their targets
    are equal, and the id of record [i] lies between 0 and [i]. *)
Theorem GetPerStoreFeaturesFromMeasurePairs_task_ids :
  forall (SearchTask State Costs : Type) (FloatArrayMean : Costs -> cfloat)
         (rebuild_task : Drivers.MeasureInput SearchTask State -> SearchTask)
         (worker : SearchTask -> State -> Z -> list cfloat -> list cfloat * bool)
         (inputs : list (Drivers.MeasureInput SearchTask State))
         (results : list (Drivers.MeasureResult Costs))
         (skip_first_n_feature_extraction max_n_bufs : Z)
         features normalized_throughputs task_ids error_ct,
    Z.of_nat (length inputs) <= INT32_MAX ->
    Drivers.GetPerStoreFeaturesFromMeasurePairs SearchTask State Costs FloatArrayMean
      rebuild_task worker inputs results skip_first_n_feature_extraction max_n_bufs
    = Some (features, normalized_throughputs, task_ids, error_ct) ->
    forall i j a b,
      inputs !! i = Some a -> inputs !! j = Some b ->
      exists id_a id_b,
        task_ids !! i = Some id_a /\ task_ids !! j = Some id_b
        /\ 0 <= id_a <= Z.of_nat i
        /\ (id_a = id_b
            <-> Drivers.workload_key _ _ a = Drivers.workload_key _ _ b
                /\ Drivers.target_str _ _ a = Drivers.target_str _ _ b).
Proof.
  intros SearchTask State Costs FloatArrayMean rebuild_task worker inputs results
         skip n features normalized ids ec Hmax E i j a b Hi Hj.
  destruct (Nat.le_gt_cases (length inputs) (length results)) as [Hlen|Hlen];
    [|rewrite FromMeasurePairs_short in E by exact Hlen; discriminate].
  destruct (FromMeasurePairs_result FloatArrayMean rebuild_task worker inputs results
              skip n Hmax Hlen)
    as (features' & normalized' & ids' & ec' & E' & _ & _ & Hli & Hrec).
  rewrite E in E'. injection E' as <- <- <- <-.
  assert (Hri : is_Some (results !! i))
    by (apply lookup_lt_is_Some_2; apply lookup_lt_Some in Hi; lia).
  assert (Hrj : is_Some (results !! j))
    by (apply lookup_lt_is_Some_2; apply lookup_lt_Some in Hj; lia).
  destruct Hri as [ri Hri]. destruct Hrj as [rj Hrj].
  destruct (Hrec i a ri Hi Hri) as (_ & ida & _ & _ & Hida & Hle & Hsame).
  destruct (Hrec j b rj Hj Hrj) as (_ & idb & _ & _ & Hidb & _ & _).
  exists ida, idb. do 3 (split; [assumption|]).
  rewrite (Hsame j b idb Hj Hidb). unfold DriverProps.cache_key. split.
  - now intros [= -> ->].
  - now intros [-> ->].
Qed.

Lemma ex_measure_pairs_returns :
  exists features normalized_throughputs task_ids error_ct,
    Drivers.GetPerStoreFeaturesFromMeasurePairs unit unit cfloat (fun c => c)
      (fun _ => tt) ex_worker ex_measure_inputs ex_measure_results 0 5
    = Some (features, normalized_throughputs, task_ids, error_ct).
Proof.
  destruct (FromMeasurePairs_result (fun c : cfloat => c) (fun _ => tt) ex_worker
              ex_measure_inputs ex_measure_results 0 5)
    as (features & normalized & ids & ec & E & _).
  - vm_compute. discriminate.
  - simpl. lia.
  - eauto.
Qed.

(** X24 at the first and the third of three records, which are of the same
    workload *)
Lemma GetPerStoreFeaturesFromMeasurePairs_task_ids_witness :
  exists features normalized_throughputs task_ids error_ct,
    Drivers.GetPerStoreFeaturesFromMeasurePairs unit unit cfloat (fun c => c)
      (fun _ => tt) ex_worker ex_measure_inputs ex_measure_results 0 5
    = Some (features, normalized_throughputs, task_ids, error_ct)
    /\ exists id_a id_b,
         task_ids !! 0%nat = Some id_a /\ task_ids !! 2%nat = Some id_b
         /\ 0 <= id_a <= Z.of_nat 0
         /\ (id_a = id_b <-> "matmul"%string = "matmul"%string
                             /\ "llvm"%string = "llvm"%string).
Proof.
  destruct ex_measure_pairs_returns as (features & normalized & ids & ec & E).
  exists features, normalized, ids, ec. split; [exact E|].
  refine (GetPerStoreFeaturesFromMeasurePairs_task_ids unit unit cfloat (fun c => c)
            (fun _ => tt) ex_worker ex_measure_inputs ex_measure_results 0 5
            features normalized ids ec _ E 0%nat 2%nat _ _ eq_refl eq_refl).
  vm_compute. discriminate.
Defined.

(** X25: the normalized throughput of a record is the least cost of the
    records of its (workload key, target) pair, folded with [std::min] in the
    order of the records, divided by the cost of the record. *)
Theorem GetPerStoreFeaturesFromMeasurePairs_normalized :
  forall (SearchTask State Costs : Type) (FloatArrayMean : Costs -> cfloat)
         (rebuild_task : Drivers.MeasureInput SearchTask State -> SearchTask)
         (worker : SearchTask -> State -> Z -> list cfloat -> list cfloat * bool)
         (inputs : list (Drivers.MeasureInput SearchTask State))
         (results : list (Drivers.MeasureResult Costs))
         (skip_first_n_feature_extraction max_n_bufs : Z)
         features normalized_throughputs task_ids error_ct,
    Z.of_nat (length inputs) <= INT32_MAX ->
    Drivers.GetPerStoreFeaturesFromMeasurePairs SearchTask State Costs FloatArrayMean
      rebuild_task worker inputs results skip_first_n_feature_extraction max_n_bufs
    = Some (features, normalized_throughputs, task_ids, error_ct) ->
    forall i inp res,
      inputs !! i = Some inp -> results !! i = Some res ->
      exists min_cost,
        DriverProps.task_min_cost FloatArrayMean (DriverProps.cache_key inp)
          (combine inputs results) = Some min_cost
        /\ normalized_throughputs !! i
           = Some (fdiv min_cost (FloatArrayMean (Drivers.costs _ res))).
Proof.
  intros SearchTask State Costs FloatArrayMean rebuild_task worker inputs results
         skip n features normalized ids ec Hmax E i inp res Hi Hr.
  destruct (Nat.le_gt_cases (length inputs) (length results)) as [Hlen|Hlen];
    [|rewrite FromMeasurePairs_short in E by exact Hlen; discriminate].
  destruct (FromMeasurePairs_result FloatArrayMean rebuild_task worker inputs results
              skip n Hmax Hlen)
    as (features' & normalized' & ids' & ec' & E' & _ & _ & _ & Hrec).
  rewrite E in E'. injection E' as <- <- <- <-.
  destruct (Hrec i inp res Hi Hr) as (m & _ & Hm & Hn & _).
  exists m. auto.
Qed.

(** X25 at the first of three records *)
Lemma GetPerStoreFeaturesFromMeasurePairs_normalized_witness :
  exists features normalized_throughputs task_ids error_ct,
    Drivers.GetPerStoreFeaturesFromMeasurePairs unit unit cfloat (fun c => c)
      (fun _ => tt) ex_worker ex_measure_inputs ex_measure_results 0 5
    = Some (features, normalized_throughputs, task_ids, error_ct)
    /\ exists min_cost,
         DriverProps.task_min_cost (fun c => c) ("matmul"%string, "llvm"%string)
           (combine ex_measure_inputs ex_measure_results) = Some min_cost
         /\ normalized_throughputs !! 0%nat = Some (fdiv min_cost (FFin 4)).
Proof.
  destruct ex_measure_pairs_returns as (features & normalized & ids & ec & E).
  exists features, normalized, ids, ec. split; [exact E|].
  refine (GetPerStoreFeaturesFromMeasurePairs_normalized unit unit cfloat (fun c => c)
            (fun _ => tt) ex_worker ex_measure_inputs ex_measure_results 0 5
            features normalized ids ec _ E 0%nat _ _ eq_refl eq_refl).
  vm_compute. discriminate.
Defined.

(** X27: GetPerStoreFeaturesFromFile reads every record of the file when
    [max_lines] is zero or negative and the first [max_lines] records
    otherwise, and returns one feature vector, one normalized throughput and
    one task id per record it read. *)
Theorem GetPerStoreFeaturesFromFile_record_count :
  forall (SearchTask State Costs : Type) (FloatArrayMean : Costs -> cfloat)
         (rebuild_task : Drivers.MeasureInput SearchTask State -> SearchTask)
         (worker : SearchTask -> State -> Z -> list cfloat -> list cfloat * bool)
         (records : list (Drivers.MeasureInput SearchTask State
                          * Drivers.MeasureResult Costs))
         (max_lines max_n_bufs : Z),
    Z.of_nat (length records) <= INT32_MAX ->
    exists features normalized_throughputs task_ids error_ct,
      Drivers.GetPerStoreFeaturesFromFile SearchTask State Costs FloatArrayMean
        rebuild_task worker records max_lines max_n_bufs
      = Some (features, normalized_throughputs, task_ids, error_ct)
      /\ length features = length task_ids
      /\ length normalized_throughputs = length task_ids
      /\ length task_ids = (if 0 <? max_lines
                            then Nat.min (Z.to_nat max_lines) (length records)
                            else length records).
Proof.
  intros SearchTask State Costs FloatArrayMean rebuild_task worker records
         max_lines n Hmax.
  apply FromFile_result. exact Hmax.
Qed.

(** X27 at three records and [max_lines] 2 *)
Lemma GetPerStoreFeaturesFromFile_record_count_witness :
  exists features normalized_throughputs task_ids error_ct,
    Drivers.GetPerStoreFeaturesFromFile unit unit cfloat (fun c => c) (fun _ => tt)
      ex_worker ex_measure_records 2 5
    = Some (features, normalized_throughputs, task_ids, error_ct)
    /\ length features = length task_ids
    /\ length normalized_throughputs = length task_ids
    /\ length task_ids = 2%nat.
Proof.
  apply (GetPerStoreFeaturesFromFile_record_count unit unit cfloat (fun c => c)
           (fun _ => tt) ex_worker ex_measure_records 2 5).
  vm_compute. discriminate.
Defined.

(** X28: on records without a compute DAG, GetPerStoreFeaturesFromFile
    returns what GetPerStoreFeaturesFromMeasurePairs returns for the records
    it reads with no feature extraction skipped. *)
Theorem GetPerStoreFeaturesFromFile_as_measure_pairs :
  forall (SearchTask State Costs : Type) (FloatArrayMean : Costs -> cfloat)
         (rebuild_task : Drivers.MeasureInput SearchTask State -> SearchTask)
         (worker : SearchTask -> State -> Z -> list cfloat -> list cfloat * bool)
         (records : list (Drivers.MeasureInput SearchTask State
                          * Drivers.MeasureResult Costs))
         (max_lines max_n_bufs : Z),
    Z.of_nat (length records) <= INT32_MAX ->
    Forall (fun p => Drivers.compute_dag_defined _ _ (fst p) = false) records ->
    let read := take (if 0 <? max_lines then Z.to_nat max_lines else length records)
                     records in
    Drivers.GetPerStoreFeaturesFromFile SearchTask State Costs FloatArrayMean
      rebuild_task worker records max_lines max_n_bufs
    = Drivers.GetPerStoreFeaturesFromMeasurePairs SearchTask State Costs FloatArrayMean
        rebuild_task worker (fst <$> read) (snd <$> read) 0 max_n_bufs.
Proof.
  intros SearchTask State Costs FloatArrayMean rebuild_task worker records
         max_lines n Hmax Hdag read.
  rewrite FromFile_fold by exact Hmax.
  rewrite FromMeasurePairs_fold by (now rewrite !length_fmap).
  rewrite combine_fst_snd. fold read.
  rewrite (measure_fold_ext FloatArrayMean rebuild_task
             (Drivers.pair_task _ _ rebuild_task) read); [reflexivity|].
  apply List.Forall_forall. intros p Hp. unfold Drivers.pair_task.
  assert (Hin : In p records).
  { rewrite <- (take_drop (if 0 <? max_lines then Z.to_nat max_lines else length records)
                   records).
    apply in_or_app. now left. }
  now rewrite (proj1 (List.Forall_forall _ _) Hdag p Hin).
Qed.

(** X28 at three records and [max_lines] 2 *)
Lemma GetPerStoreFeaturesFromFile_as_measure_pairs_witness :
  Drivers.GetPerStoreFeaturesFromFile unit unit cfloat (fun c => c) (fun _ => tt)
    ex_worker ex_measure_records 2 5
  = Drivers.GetPerStoreFeaturesFromMeasurePairs unit unit cfloat (fun c => c)
      (fun _ => tt) ex_worker (fst <$> take 2 ex_measure_records)
      (snd <$> take 2 ex_measure_records) 0 5.
Proof.
  apply (GetPerStoreFeaturesFromFile_as_measure_pairs unit unit cfloat (fun c => c)
           (fun _ => tt) ex_worker ex_measure_records 2 5).
  - vm_compute. discriminate.
  - repeat constructor.
Defined.

(** ** SerializeFeatures *)

Lemma to_uint64_add_l a b : to_uint64 (to_uint64 a + b) = to_uint64 (a + b).
Proof. unfold to_uint64. now rewrite Zplus_mod_idemp_l. Qed.

Lemma to_uint64_add_l2 a b c : to_uint64 (to_uint64 a + b + c) = to_uint64 (a + b + c).
Proof.
  unfold to_uint64. rewrite <- Z.add_assoc, Zplus_mod_idemp_l. now rewrite Z.add_assoc.
Qed.

Lemma serialize_sizes_fold (features : list (list cfloat)) size_vector total :
  fold_left
    (fun acc x =>
       (fst acc ++ [to_int32 (Z.of_nat (length x))],
        to_uint64 (snd acc + 4 * Z.of_nat (length x))))
    features (size_vector, to_uint64 total)
  = (size_vector ++ ((fun x => to_int32 (Z.of_nat (length x))) <$> features),
     to_uint64 (total + 4 * Z.of_nat (length (concat features)))).
Proof.
  revert size_vector total. induction features as [|x features IH]; intros sv total.
  - simpl. now rewrite app_nil_r, Z.add_0_r.
  - cbn [fold_left fst snd]. rewrite to_uint64_add_l, IH.
    cbn [fmap list_fmap concat]. rewrite <- app_assoc, length_app. cbn [app].
    do 2 f_equal. lia.
Qed.

Lemma serialize_written_fold (features : list (list cfloat)) p :
  fold_left (fun p x => p + 4 * Z.of_nat (length x)) features p
  = p + 4 * Z.of_nat (length (concat features)).
Proof.
  revert p. induction features as [|x features IH]; intros p; simpl; [lia|].
  rewrite IH, length_app. lia.
Qed.

Lemma flat_map_floats (features : list (list cfloat)) :
  flat_map (fun x => WFloat <$> x) features = WFloat <$> concat features.
Proof.
  induction features as [|x features IH]; [reflexivity|].
  cbn [flat_map concat]. now rewrite fmap_app, IH.
Qed.

Lemma sizes_of_fit (features : list (list cfloat)) :
  Forall (fun x => Z.of_nat (length x) <= INT32_MAX) features ->
  ((fun x => to_int32 (Z.of_nat (length x))) <$> features)
  = ((fun x => Z.of_nat (length x)) <$> features).
Proof.
  induction 1 as [|x features Hx _ IH]; [reflexivity|].
  cbn [fmap list_fmap]. f_equal; [|exact IH].
  apply to_int32_small. unfold INT32_MIN, INT32_MAX in *. lia.
Qed.

Lemma concat_same_sizes {X : Type} (l k : list (list X)) :
  length <$> l = length <$> k -> concat l = concat k -> l = k.
Proof.
  revert k. induction l as [|x l IH]; intros [|y k] Hs Hc; try discriminate;
    [reflexivity|].
  cbn [fmap list_fmap concat] in *. injection Hs as Hxy Hs.
  apply app_inj_1 in Hc as [-> Hc]; [|exact Hxy].
  f_equal. now apply IH.
Qed.

(** The array SerializeFeatures fills *)
Lemma SerializeFeatures_unfold features normalized_throughputs task_ids :
  Z.of_nat (length features) + 3 <= INT32_MAX ->
  SerializeFeatures features normalized_throughputs task_ids
  = if 4 * Z.of_nat (serialized_words features normalized_throughputs task_ids)
       =? to_uint64
            (4 * Z.of_nat (serialized_words features normalized_throughputs task_ids))
    then
      Some ((WInt <$> (Z.of_nat (length features)
                       :: ((fun x => to_int32 (Z.of_nat (length x))) <$> features)
                       ++ [to_int32 (Z.of_nat (length normalized_throughputs));
                           to_int32 (Z.of_nat (length task_ids))]))
            ++ (WFloat <$> concat features)
            ++ (WFloat <$> normalized_throughputs)
            ++ (WInt <$> task_ids),
            to_uint64
              (4 * Z.of_nat (serialized_words features normalized_throughputs task_ids)))
    else None.
Proof.
  intros Hn. unfold SerializeFeatures.
  rewrite (to_int32_small (Z.of_nat (length features)))
    by (unfold INT32_MIN, INT32_MAX in *; lia).
  assert (Hsv : to_uint64 (1 + Z.of_nat (length features) + 2)
                = Z.of_nat (length features) + 3).
  { unfold to_uint64. rewrite Z.mod_small; unfold INT32_MAX in *; lia. }
  rewrite Hsv, serialize_sizes_fold, !to_uint64_add_l.
  rewrite serialize_written_fold, flat_map_floats.
  rewrite !length_app, length_fmap. cbn [length app].
  replace (Z.of_nat (1 + length features + 1 + 1) =? Z.of_nat (length features) + 3)
    with true by (symmetry; apply Z.eqb_eq; lia).
  cbn [negb]. rewrite !to_uint64_add_l2.
  replace ((Z.of_nat (length features) + 3) * 4
           + 4 * Z.of_nat (length (concat features))
           + 4 * Z.of_nat (length normalized_throughputs)
           + 4 * Z.of_nat (length task_ids))
    with (4 * Z.of_nat (serialized_words features normalized_throughputs task_ids))
    by (unfold serialized_words; lia).
  replace (Z.of_nat (1 + length features + 1 + 1) * 4
           + (0 + 4 * Z.of_nat (length (concat features)))
           + Z.of_nat (length normalized_throughputs) * 4
           + Z.of_nat (length task_ids) * 4)
    with (4 * Z.of_nat (serialized_words features normalized_throughputs task_ids))
    by (unfold serialized_words; lia).
  rewrite <- !app_assoc.
  destruct (_ =? _); reflexivity.
Qed.

(** The array and the byte count of SerializeFeatures when the byte count is
    one a [size_t] holds *)
Lemma SerializeFeatures_layout features normalized_throughputs task_ids :
  Z.of_nat (length features) + 3 <= INT32_MAX ->
  4 * Z.of_nat (serialized_words features normalized_throughputs task_ids) < 2 ^ 64 ->
  SerializeFeatures features normalized_throughputs task_ids
  = Some ((WInt <$> (Z.of_nat (length features)
                     :: ((fun x => to_int32 (Z.of_nat (length x))) <$> features)
                     ++ [to_int32 (Z.of_nat (length normalized_throughputs));
                         to_int32 (Z.of_nat (length task_ids))]))
          ++ (WFloat <$> concat features)
          ++ (WFloat <$> normalized_throughputs)
          ++ (WInt <$> task_ids),
          4 * Z.of_nat (serialized_words features normalized_throughputs task_ids)).
Proof.
  intros Hn Htotal. rewrite SerializeFeatures_unfold by exact Hn.
  unfold to_uint64. rewrite Z.mod_small by lia. now rewrite Z.eqb_refl.
Qed.

(** The array of sizes that fit *)
Lemma SerializeFeatures_data features normalized_throughputs task_ids data total_bytes :
  sizes_fit features normalized_throughputs task_ids ->
  SerializeFeatures features normalized_throughputs task_ids = Some (data, total_bytes) ->
  data = (WInt <$> (Z.of_nat (length features)
                    :: ((fun x => Z.of_nat (length x)) <$> features)
                    ++ [Z.of_nat (length normalized_throughputs);
                        Z.of_nat (length task_ids)]))
         ++ (WFloat <$> concat features)
         ++ (WFloat <$> normalized_throughputs)
         ++ (WInt <$> task_ids).
Proof.
  intros (Hn & Hf & Hnt & Hids) E.
  rewrite SerializeFeatures_unfold in E by exact Hn.
  destruct (_ =? _); [|discriminate]. injection E as <- _.
  rewrite sizes_of_fit by exact Hf.
  now rewrite !to_int32_small by (unfold INT32_MIN, INT32_MAX in *; lia).
Qed.

(** X29: SerializeFeatures passes both of its checks and returns an array of
    [4 * (3 + n + the number of feature values + the number of throughputs +
    the number of task ids)] bytes that starts with the number [n] of feature
    vectors, when [n + 3] is a number an [int] holds. *)
Theorem SerializeFeatures_returns :
  forall (features : list (list cfloat)) (normalized_throughputs : list cfloat)
         (task_ids : list Z),
    Z.of_nat (length features) + 3 <= INT32_MAX ->
    4 * Z.of_nat (serialized_words features normalized_throughputs task_ids) < 2 ^ 64 ->
    exists data,
      SerializeFeatures features normalized_throughputs task_ids
      = Some (data,
              4 * Z.of_nat (serialized_words features normalized_throughputs task_ids))
      /\ length data = serialized_words features normalized_throughputs task_ids
      /\ head data = Some (WInt (Z.of_nat (length features))).
Proof.
  intros features nt ids Hn Htotal.
  rewrite SerializeFeatures_layout by assumption.
  eexists. split; [reflexivity|]. split.
  - rewrite !length_app, !length_fmap. cbn [length]. rewrite length_app, length_fmap.
    unfold serialized_words. simpl. lia.
  - reflexivity.
Qed.

(** X29 at two feature vectors of two values and one value *)
Lemma SerializeFeatures_returns_witness :
  exists data,
    SerializeFeatures [[FFin 1; FFin 2]; [FFin 3]] [FFin 1; FFin 1] [0; 1]
    = Some (data, 4 * 12)
    /\ length data = 12%nat
    /\ head data = Some (WInt 2).
Proof.
  apply (SerializeFeatures_returns [[FFin 1; FFin 2]; [FFin 3]] [FFin 1; FFin 1] [0; 1]).
  - vm_compute. discriminate.
  - vm_compute. reflexivity.
Defined.

(** X30: the array SerializeFeatures returns determines the feature vectors,
    the normalized throughputs and the task ids, when each of the sizes it
    writes is a number an [int] holds. *)
Theorem SerializeFeatures_injective :
  forall (features features' : list (list cfloat))
         (normalized_throughputs normalized_throughputs' : list cfloat)
         (task_ids task_ids' : list Z) (data : list Word) (total_bytes total_bytes' : Z),
    sizes_fit features normalized_throughputs task_ids ->
    sizes_fit features' normalized_throughputs' task_ids' ->
    SerializeFeatures features normalized_throughputs task_ids
    = Some (data, total_bytes) ->
    SerializeFeatures features' normalized_throughputs' task_ids'
    = Some (data, total_bytes') ->
    features = features'
    /\ normalized_throughputs = normalized_throughputs'
    /\ task_ids = task_ids'.
Proof.
  intros f f' nt nt' ids ids' data tb tb' Hfit Hfit' E E'.
  apply (SerializeFeatures_data _ _ _ _ _ Hfit) in E.
  apply (SerializeFeatures_data _ _ _ _ _ Hfit') in E'.
  rewrite E in E'. clear E data.
  cbn [fmap list_fmap app] in E'. injection E' as Hlen E'.
  apply Nat2Z.inj in Hlen.
  rewrite !fmap_app in E'. rewrite <- !app_assoc in E'.
  apply app_inj_1 in E' as [Hsizes E']; [|now rewrite !length_fmap].
  cbn [fmap list_fmap app] in E'. injection E' as Hlnt Hlids E'.
  apply Nat2Z.inj in Hlnt. apply Nat2Z.inj in Hlids.
  assert (Hsz : length <$> f = length <$> f').
  { clear -Hsizes. revert f' Hsizes.
    induction f as [|x f IH]; intros [|y f'] H; try discriminate; [reflexivity|].
    cbn [fmap list_fmap] in *. injection H as Hxy H.
    apply Nat2Z.inj in Hxy. rewrite Hxy. f_equal. now apply IH. }
  assert (Hcl : length (concat f) = length (concat f')).
  { clear -Hsz. revert f' Hsz.
    induction f as [|x f IH]; intros [|y f'] H; try discriminate; [reflexivity|].
    cbn [fmap list_fmap concat] in *. injection H as Hxy H.
    rewrite !length_app, Hxy. f_equal. now apply IH. }
  apply app_inj_1 in E' as [Hc E']; [|now rewrite !length_fmap].
  apply app_inj_1 in E' as [Hnt E']; [|now rewrite !length_fmap].
  assert (Hinj_f : forall l k : list cfloat, WFloat <$> l = WFloat <$> k -> l = k).
  { induction l as [|x l IH]; intros [|y k] H; try discriminate; [reflexivity|].
    cbn [fmap list_fmap] in H. injection H as -> H. f_equal. now apply IH. }
  assert (Hinj_i : forall l k : list Z, WInt <$> l = WInt <$> k -> l = k).
  { induction l as [|x l IH]; intros [|y k] H; try discriminate; [reflexivity|].
    cbn [fmap list_fmap] in H. injection H as -> H. f_equal. now apply IH. }
  split; [|split].
  - apply concat_same_sizes; [exact Hsz|]. now apply Hinj_f.
  - now apply Hinj_f.
  - now apply Hinj_i.
Qed.

Lemma ex_serialize_returns :
  exists data total_bytes,
    SerializeFeatures [[FFin 1; FFin 2]; [FFin 3]] [FFin 1; FFin 1] [0; 1]
    = Some (data, total_bytes).
Proof.
  rewrite SerializeFeatures_layout; [eauto|vm_compute; discriminate|vm_compute; reflexivity].
Qed.

(** X30 at two feature vectors of two values and one value *)
Lemma SerializeFeatures_injective_witness :
  exists data total_bytes,
    SerializeFeatures [[FFin 1; FFin 2]; [FFin 3]] [FFin 1; FFin 1] [0; 1]
    = Some (data, total_bytes)
    /\ forall features' normalized_throughputs' task_ids' total_bytes',
         sizes_fit features' normalized_throughputs' task_ids' ->
         SerializeFeatures features' normalized_throughputs' task_ids'
         = Some (data, total_bytes') ->
         [[FFin 1; FFin 2]; [FFin 3]] = features'
         /\ [FFin 1; FFin 1] = normalized_throughputs'
         /\ [0; 1] = task_ids'.
Proof.
  destruct ex_serialize_returns as (data & total_bytes & E).
  exists data, total_bytes. split; [exact E|].
  intros features' normalized_throughputs' task_ids' total_bytes' Hfit' E'.
  refine (SerializeFeatures_injective [[FFin 1; FFin 2]; [FFin 3]] features'
            [FFin 1; FFin 1] normalized_throughputs' [0; 1] task_ids'
            data total_bytes total_bytes' _ Hfit' E E').
  unfold sizes_fit. split; [vm_compute; discriminate|].
  split; [repeat constructor; vm_compute; discriminate|].
  split; vm_compute; discriminate.
Defined.
(** ** Binary floating-point arithmetic *)

Section Rounding.
Local Open Scope R_scope.

Lemma bpow_pos e : 0 < bpow e.
Proof. unfold bpow. apply powerRZ_lt. lra. Qed.

Lemma bpow_add a b : bpow (a + b) = bpow a * bpow b.
Proof. unfold bpow. apply powerRZ_add. lra. Qed.

Lemma bpow_opp e : bpow (- e) = / bpow e.
Proof. unfold bpow. apply powerRZ_neg'. Qed.

Lemma bpow_IZR (k : Z) : (0 <= k)%Z -> bpow k = IZR (2 ^ k).
Proof.
  revert k. apply natlike_ind; [reflexivity|].
  intros k Hk IH. unfold Z.succ. rewrite bpow_add, IH, Z.pow_add_r by lia.
  rewrite mult_IZR. f_equal. unfold bpow. simpl. lra.
Qed.

Lemma bpow_ge_1 (k : Z) : (0 <= k)%Z -> 1 <= bpow k.
Proof.
  intros Hk. rewrite bpow_IZR by exact Hk. apply IZR_le.
  pose proof (Z.pow_pos_nonneg 2 k). lia.
Qed.

Lemma bpow_le a b : (a <= b)%Z -> bpow a <= bpow b.
Proof.
  intros H. replace b with (a + (b - a))%Z by lia. rewrite bpow_add.
  pose proof (bpow_pos a). pose proof (bpow_ge_1 (b - a) ltac:(lia)). nra.
Qed.

Lemma bpow_lt a b : (a < b)%Z -> bpow a < bpow b.
Proof.
  intros H. replace b with (a + 1 + (b - a - 1))%Z by lia. rewrite !bpow_add.
  pose proof (bpow_pos a). pose proof (bpow_ge_1 (b - a - 1) ltac:(lia)).
  assert (Hb1 : bpow 1 = 2) by (unfold bpow; simpl; lra). rewrite Hb1. nra.
Qed.

Lemma bpow_lt_inv a b : bpow a < bpow b -> (a < b)%Z.
Proof.
  intros H. destruct (Z_lt_le_dec a b) as [Hlt|Hge]; [exact Hlt|].
  pose proof (bpow_le b a Hge). lra.
Qed.

Lemma log2R_bpow e : log2R (bpow e) = IZR e.
Proof.
  unfold log2R, bpow. rewrite powerRZ_Rpower by lra. rewrite ln_Rpower.
  pose proof ln2_pos. field. lra.
Qed.

Lemma log2R_le x y : 0 < x -> x <= y -> log2R x <= log2R y.
Proof.
  intros Hx [Hlt| ->]; [|lra]. left. now apply log2R_increasing.
Qed.

(** [mag2] is the exponent of the binade *)
Lemma mag2_unique (x : R) (e : Z) :
  bpow e <= Rabs x < bpow (e + 1) -> mag2 x = e.
Proof.
  intros [Hlo Hhi]. unfold mag2. apply Zfloor_eq.
  pose proof (bpow_pos e).
  rewrite <- (log2R_bpow e). split.
  - apply log2R_le; lra.
  - replace (log2R (bpow e) + 1) with (log2R (bpow (e + 1)))
      by (rewrite !log2R_bpow, plus_IZR; lra).
    apply log2R_increasing; lra.
Qed.

Lemma mag2_bounds (x : R) : x <> 0 -> bpow (mag2 x) <= Rabs x < bpow (mag2 x + 1).
Proof.
  intros Hx. assert (Ha : 0 < Rabs x) by now apply Rabs_pos_lt.
  unfold mag2. pose proof (Zfloor_bound (log2R (Rabs x))) as [Hlo Hhi].
  set (e := Zfloor (log2R (Rabs x))) in *.
  split.
  - destruct (Rle_lt_dec (bpow e) (Rabs x)) as [H|H]; [exact H|exfalso].
    pose proof (log2R_increasing _ _ Ha H) as Hl. rewrite log2R_bpow in Hl. lra.
  - destruct (Rlt_le_dec (Rabs x) (bpow (e + 1))) as [H|H]; [exact H|exfalso].
    pose proof (log2R_le _ _ (bpow_pos (e + 1)) H) as Hl.
    rewrite log2R_bpow, plus_IZR in Hl. lra.
Qed.

(** Rounding to the nearest integer *)
Lemma round_half_even_error (x : R) : Rabs (IZR (round_half_even x) - x) <= 1 / 2.
Proof.
  unfold round_half_even. pose proof (Zfloor_bound x) as [Hlo Hhi].
  destruct (Rltb (x - IZR (Zfloor x)) (1 / 2)) eqn:E1; real_bools.
  - apply Rabs_le. lra.
  - destruct (Rltb (1 / 2) (x - IZR (Zfloor x))) eqn:E2; real_bools.
    + rewrite plus_IZR. apply Rabs_le. lra.
    + destruct (Z.even (Zfloor x)); [|rewrite plus_IZR]; apply Rabs_le; lra.
Qed.

Lemma round_half_even_IZR (n : Z) : round_half_even (IZR n) = n.
Proof.
  unfold round_half_even. rewrite ZfloorZ.
  replace (Rltb (IZR n - IZR n) (1 / 2)) with true
    by (symmetry; apply Rltb_true; lra).
  reflexivity.
Qed.

Lemma round_half_even_ge (x : R) (n : Z) : IZR n <= x -> (n <= round_half_even x)%Z.
Proof.
  intros H. pose proof (Zfloor_lub n x H) as Hf. unfold round_half_even.
  destruct (Rltb _ _); [exact Hf|].
  destruct (Rltb _ _); [lia|]. destruct (Z.even _); lia.
Qed.

Lemma round_half_even_le (x : R) (n : Z) : x <= IZR n -> (round_half_even x <= n)%Z.
Proof.
  intros H. pose proof (Zfloor_bound x) as [Hlo Hhi].
  assert (Hf : (Zfloor x <= n)%Z) by (apply le_IZR; lra).
  unfold round_half_even.
  destruct (Rltb (x - IZR (Zfloor x)) (1 / 2)) eqn:E1; [exact Hf|]. real_bools.
  assert (Hn : (Zfloor x < n)%Z).
  { apply lt_IZR. lra. }
  destruct (Rltb _ _); [lia|]. destruct (Z.even _); lia.
Qed.

Lemma round_half_even_down (x : R) (f : Z) :
  IZR f <= x -> x - IZR f < 1 / 2 -> round_half_even x = f.
Proof.
  intros Hlo Hhi. unfold round_half_even.
  rewrite (Zfloor_eq f x) by lra.
  now replace (Rltb (x - IZR f) (1 / 2)) with true by (symmetry; apply Rltb_true; lra).
Qed.

Lemma round_half_even_up (x : R) (f : Z) :
  1 / 2 < x - IZR f -> x < IZR f + 1 -> round_half_even x = (f + 1)%Z.
Proof.
  intros Hlo Hhi. unfold round_half_even.
  rewrite (Zfloor_eq f x) by lra.
  replace (Rltb (x - IZR f) (1 / 2)) with false by (symmetry; apply Rltb_false; lra).
  now replace (Rltb (1 / 2) (x - IZR f)) with true by (symmetry; apply Rltb_true; lra).
Qed.

Lemma round_half_even_tie (x : R) (f : Z) :
  x - IZR f = 1 / 2 -> round_half_even x = if Z.even f then f else (f + 1)%Z.
Proof.
  intros H. unfold round_half_even.
  rewrite (Zfloor_eq f x) by lra.
  replace (Rltb (x - IZR f) (1 / 2)) with false by (symmetry; apply Rltb_false; lra).
  now replace (Rltb (1 / 2) (x - IZR f)) with false by (symmetry; apply Rltb_false; lra).
Qed.

(** The exponent of the last place *)
Lemma ulp_exponent_normal (fmt : FloatFormat) (x : R) (e : Z) :
  bpow (e + (fmt_prec fmt - 1)) <= Rabs x < bpow (e + fmt_prec fmt) ->
  (fmt_emin fmt <= e)%Z ->
  ulp_exponent fmt x = e.
Proof.
  intros Hx He. unfold ulp_exponent.
  rewrite (mag2_unique x (e + (fmt_prec fmt - 1))).
  - lia.
  - now replace (e + (fmt_prec fmt - 1) + 1)%Z with (e + fmt_prec fmt)%Z by lia.
Qed.

Lemma ulp_exponent_ge (fmt : FloatFormat) (x : R) :
  (fmt_emin fmt <= ulp_exponent fmt x)%Z.
Proof. unfold ulp_exponent. lia. Qed.

Lemma round_float_0 (fmt : FloatFormat) : round_float fmt 0 = FFin 0.
Proof.
  unfold round_float. set (e := ulp_exponent fmt 0).
  replace (0 / bpow e) with (IZR 0) by (unfold Rdiv; lra).
  rewrite round_half_even_IZR. rewrite Rmult_0_l, Rabs_R0.
  now replace (Rltb 0 (bpow (fmt_emax fmt))) with true
    by (symmetry; apply Rltb_true, bpow_pos).
Qed.

(** The value the rounding yields when the scaled argument is known *)
Lemma round_float_value (fmt : FloatFormat) (x : R) (e m : Z) :
  ulp_exponent fmt x = e ->
  round_half_even (x / bpow e) = m ->
  Rabs (IZR m * bpow e) < bpow (fmt_emax fmt) ->
  round_float fmt x = FFin (IZR m * bpow e).
Proof.
  intros He Hm Hlt. unfold round_float. rewrite He, Hm.
  now replace (Rltb _ _) with true by (symmetry; now apply Rltb_true).
Qed.

(** A value that is a multiple of its last place is not changed *)
Lemma round_float_exact (fmt : FloatFormat) (x : R) (n : Z) :
  x = IZR n * bpow (ulp_exponent fmt x) ->
  Rabs x < bpow (fmt_emax fmt) ->
  round_float fmt x = FFin x.
Proof.
  intros Hx Hlt. set (e := ulp_exponent fmt x) in *.
  rewrite (round_float_value fmt x e n); [now rewrite <- Hx|reflexivity| |now rewrite <- Hx].
  pose proof (bpow_pos e).
  replace (x / bpow e) with (IZR n) by (rewrite Hx at 1; field; lra).
  apply round_half_even_IZR.
Qed.

(** The error of a rounding that does not overflow *)
Lemma round_float_error (fmt : FloatFormat) (x : R) :
  (1 <= fmt_prec fmt)%Z -> (fmt_emin fmt < fmt_emax fmt)%Z ->
  Rabs x <= bpow (fmt_emax fmt - 1) ->
  exists r,
    round_float fmt x = FFin r
    /\ Rabs (r - x) <= bpow (- fmt_prec fmt) * Rabs x + bpow (fmt_emin fmt - 1)
    /\ (0 <= x -> 0 <= r).
Proof.
  intros Hp Hemin Hx.
  destruct (Req_dec_T x 0) as [->|Hnz].
  { exists 0. rewrite round_float_0. rewrite Rminus_0_r, Rabs_R0.
    pose proof (bpow_pos (fmt_emin fmt - 1)). split; [reflexivity|]. split; lra. }
  set (e := ulp_exponent fmt x).
  set (m := round_half_even (x / bpow e)).
  pose proof (bpow_pos e) as He.
  assert (Herr : Rabs (IZR m * bpow e - x) <= bpow (e - 1)).
  { pose proof (round_half_even_error (x / bpow e)) as Hr. fold m in Hr.
    replace (IZR m * bpow e - x) with ((IZR m - x / bpow e) * bpow e) by (field; lra).
    rewrite Rabs_mult, (Rabs_pos_eq (bpow e)) by lra.
    replace (bpow (e - 1)) with (1 / 2 * bpow e).
    - apply Rmult_le_compat_r; lra.
    - unfold Z.sub. rewrite bpow_add, bpow_opp.
      assert (Hb1 : bpow 1 = 2) by (unfold bpow; simpl; lra). rewrite Hb1. field. }
  pose proof (mag2_bounds x Hnz) as [Hmlo Hmhi].
  assert (Hmag : (mag2 x <= fmt_emax fmt - 1)%Z).
  { assert (Hlt : bpow (mag2 x) < bpow (fmt_emax fmt - 1 + 1)).
    { eapply Rle_lt_trans; [exact Hmlo|]. eapply Rle_lt_trans; [exact Hx|].
      apply bpow_lt. lia. }
    apply bpow_lt_inv in Hlt. lia. }
  assert (Hbound : bpow (e - 1) <= bpow (- fmt_prec fmt) * Rabs x + bpow (fmt_emin fmt - 1)).
  { unfold e, ulp_exponent.
    pose proof (bpow_pos (fmt_emin fmt - 1)). pose proof (bpow_pos (- fmt_prec fmt)).
    assert (0 <= Rabs x) by apply Rabs_pos.
    destruct (Z.max_spec (mag2 x - (fmt_prec fmt - 1)) (fmt_emin fmt)) as [[_ ->]|[_ ->]].
    - assert (0 <= bpow (- fmt_prec fmt) * Rabs x) by nra. lra.
    - replace (mag2 x - (fmt_prec fmt - 1) - 1)%Z with (- fmt_prec fmt + mag2 x)%Z by lia.
      rewrite bpow_add. assert (bpow (- fmt_prec fmt) * bpow (mag2 x)
                                <= bpow (- fmt_prec fmt) * Rabs x) by nra. lra. }
  assert (Hsmall : bpow (e - 1) <= bpow (fmt_emax fmt - 2)).
  { apply bpow_le. unfold e, ulp_exponent. lia. }
  exists (IZR m * bpow e). split; [|split].
  - apply (round_float_value fmt x e m); [reflexivity|reflexivity|].
    assert (Hr : Rabs (IZR m * bpow e) <= Rabs x + bpow (e - 1)).
    { replace (IZR m * bpow e) with (x + (IZR m * bpow e - x)) by lra.
      eapply Rle_trans; [apply Rabs_triang|]. lra. }
    assert (Hsum : bpow (fmt_emax fmt - 1) + bpow (fmt_emax fmt - 2) < bpow (fmt_emax fmt)).
    { replace (fmt_emax fmt) with (fmt_emax fmt - 2 + 2)%Z at 3 by lia.
      replace (fmt_emax fmt - 1)%Z with (fmt_emax fmt - 2 + 1)%Z by lia.
      rewrite !bpow_add. pose proof (bpow_pos (fmt_emax fmt - 2)).
      assert (Hb1 : bpow 1 = 2) by (unfold bpow; simpl; lra).
      assert (Hb2 : bpow 2 = 4) by (unfold bpow; simpl; lra).
      rewrite Hb1, Hb2. lra. }
    lra.
  - lra.
  - intros Hx0. apply Rmult_le_pos; [|lra]. apply IZR_le.
    apply (round_half_even_ge _ 0). apply Rmult_le_pos; [lra|].
    left. now apply Rinv_0_lt_compat.
Qed.

(** A rounding of a value that is not negative is not negative, and it is no
    NaN *)
Lemma round_float_nonneg (fmt : FloatFormat) (x : R) :
  0 <= x ->
  (exists r, round_float fmt x = FFin r /\ 0 <= r) \/ round_float fmt x = FInf false.
Proof.
  intros Hx. unfold round_float.
  set (e := ulp_exponent fmt x). pose proof (bpow_pos e) as He.
  destruct (Rltb _ _).
  - left. eexists. split; [reflexivity|].
    apply Rmult_le_pos; [|lra]. apply IZR_le.
    apply (round_half_even_ge _ 0). apply Rmult_le_pos; [lra|].
    left. now apply Rinv_0_lt_compat.
  - right. now replace (Rltb x 0) with false by (symmetry; apply Rltb_false; lra).
Qed.

(** A value that reaches [2^fmt_emax] overflows *)
Lemma round_float_overflow (fmt : FloatFormat) (x : R) :
  (1 <= fmt_prec fmt)%Z -> (fmt_emin fmt + fmt_prec fmt - 1 <= fmt_emax fmt)%Z ->
  bpow (fmt_emax fmt) <= x ->
  round_float fmt x = FInf false.
Proof.
  intros Hp Hemin Hx. pose proof (bpow_pos (fmt_emax fmt)) as Hmax.
  assert (Hnz : x <> 0) by lra.
  pose proof (mag2_bounds x Hnz) as [Hmlo Hmhi].
  rewrite (Rabs_pos_eq x) in Hmlo, Hmhi by lra.
  assert (Hmag : (fmt_emax fmt <= mag2 x)%Z).
  { assert (Hlt : bpow (fmt_emax fmt) < bpow (mag2 x + 1)) by lra.
    apply bpow_lt_inv in Hlt. lia. }
  unfold round_float.
  assert (He : ulp_exponent fmt x = (mag2 x - (fmt_prec fmt - 1))%Z)
    by (unfold ulp_exponent; lia).
  rewrite He. set (e := (mag2 x - (fmt_prec fmt - 1))%Z).
  pose proof (bpow_pos e) as Hepos.
  assert (Hm : (2 ^ (fmt_prec fmt - 1) <= round_half_even (x / bpow e))%Z).
  { apply round_half_even_ge. rewrite <- bpow_IZR by lia.
    apply (Rmult_le_reg_r (bpow e)); [lra|].
    rewrite <- bpow_add. replace (fmt_prec fmt - 1 + e)%Z with (mag2 x) by (unfold e; lia).
    replace (x / bpow e * bpow e) with x by (field; lra). lra. }
  apply IZR_le in Hm. rewrite <- bpow_IZR in Hm by lia.
  assert (Hr : bpow (mag2 x) <= IZR (round_half_even (x / bpow e)) * bpow e).
  { replace (mag2 x) with (fmt_prec fmt - 1 + e)%Z by (unfold e; lia).
    rewrite bpow_add. nra. }
  pose proof (bpow_le _ _ Hmag).
  replace (Rltb _ (bpow (fmt_emax fmt))) with false.
  - now replace (Rltb x 0) with false by (symmetry; apply Rltb_false; lra).
  - symmetry. apply Rltb_false. rewrite Rabs_pos_eq; lra.
Qed.

(** An integer of at most 24 significant bits is a binary32 value. *)
Lemma round_float_binary32_int (z : Z) :
  binary32_int z = true -> round_float binary32 (IZR z) = FFin (IZR z).
Proof.
  unfold binary32_int. intros H. apply andb_prop in H as [Hdiv Hlt].
  apply Z.eqb_eq in Hdiv. apply Z.ltb_lt in Hlt.
  destruct (Z.eq_dec z 0%Z) as [->|Hnz]; [apply round_float_0|].
  set (a := Z.abs z) in *. assert (Ha : (0 < a)%Z) by (unfold a; lia).
  pose proof (Z.log2_spec a Ha) as [Hlo Hhi].
  pose proof (Z.log2_nonneg a) as Hl0.
  assert (Habs : Rabs (IZR z) = IZR a) by (unfold a; now rewrite abs_IZR).
  assert (Hmag : mag2 (IZR z) = Z.log2 a).
  { apply mag2_unique. rewrite Habs, !bpow_IZR by lia. split.
    - now apply IZR_le.
    - apply IZR_lt. now rewrite <- Z.add_1_r in Hhi. }
  assert (He : ulp_exponent binary32 (IZR z) = (Z.log2 a - 23)%Z).
  { unfold ulp_exponent. rewrite Hmag. simpl. lia. }
  set (e := (Z.log2 a - 23)%Z) in *.
  assert (Hn : exists n : Z, IZR z = IZR n * bpow e).
  { destruct (Z_le_gt_dec 0 e) as [Hge|Hneg].
    - rewrite Z.max_r in Hdiv by exact Hge.
      apply Z.mod_divide in Hdiv; [|pose proof (Z.pow_pos_nonneg 2 e); lia].
      assert (Hz : (2 ^ e | z)%Z) by (apply Z.divide_abs_r; exact Hdiv).
      destruct Hz as [n Hn]. exists n.
      rewrite bpow_IZR by exact Hge. now rewrite <- mult_IZR, Hn.
    - exists (z * 2 ^ (- e))%Z. rewrite mult_IZR, <- bpow_IZR by lia.
      rewrite Rmult_assoc, <- bpow_add. replace (- e + e)%Z with 0%Z by lia.
      unfold bpow. simpl. lra. }
  destruct Hn as [n Hn].
  apply (round_float_exact binary32 (IZR z) n).
  - now rewrite He.
  - rewrite Habs. change (fmt_emax binary32) with 128%Z.
    rewrite bpow_IZR by lia. now apply IZR_lt.
Qed.

End Rounding.


Section Rounding_order.
Local Open Scope R_scope.

(** The rounding does not cross a power of two from above *)
Lemma round_float_ge_bpow (fmt : FloatFormat) (x : R) (k : Z) :
  (1 <= fmt_prec fmt)%Z -> (fmt_emin fmt <= k)%Z -> bpow k <= x ->
  (exists r, round_float fmt x = FFin r /\ bpow k <= r) \/ round_float fmt x = FInf false.
Proof.
  intros Hp Hk Hx. pose proof (bpow_pos k) as Hk0.
  assert (Hnz : x <> 0) by lra.
  pose proof (mag2_bounds x Hnz) as [Hmlo Hmhi].
  rewrite (Rabs_pos_eq x) in Hmlo, Hmhi by lra.
  assert (Hmag : (k <= mag2 x)%Z).
  { assert (Hlt : bpow k < bpow (mag2 x + 1)) by lra. apply bpow_lt_inv in Hlt. lia. }
  unfold round_float. set (e := ulp_exponent fmt x).
  assert (He : (e <= mag2 x)%Z) by (unfold e, ulp_exponent; lia).
  pose proof (bpow_pos e) as Hepos.
  assert (Hm : (2 ^ (mag2 x - e) <= round_half_even (x / bpow e))%Z).
  { apply round_half_even_ge. rewrite <- bpow_IZR by lia.
    apply (Rmult_le_reg_r (bpow e)); [lra|].
    rewrite <- bpow_add. replace (mag2 x - e + e)%Z with (mag2 x) by lia.
    replace (x / bpow e * bpow e) with x by (field; lra). lra. }
  apply IZR_le in Hm. rewrite <- bpow_IZR in Hm by lia.
  assert (Hr : bpow (mag2 x) <= IZR (round_half_even (x / bpow e)) * bpow e).
  { assert (Hs : bpow (mag2 x) = bpow (mag2 x - e) * bpow e)
      by (rewrite <- bpow_add; f_equal; lia).
    rewrite Hs. nra. }
  pose proof (bpow_le _ _ Hmag).
  destruct (Rltb _ _).
  - left. eexists. split; [reflexivity|]. lra.
  - right. now replace (Rltb x 0) with false by (symmetry; apply Rltb_false; lra).
Qed.

(** The rounding does not cross a power of two from below *)
Lemma round_float_le_bpow (fmt : FloatFormat) (x : R) (k : Z) :
  (1 <= fmt_prec fmt)%Z -> (fmt_emin fmt <= k < fmt_emax fmt)%Z -> 0 <= x <= bpow k ->
  exists r, round_float fmt x = FFin r /\ 0 <= r <= bpow k.
Proof.
  intros Hp Hk Hx. pose proof (bpow_pos k) as Hk0.
  destruct (Req_dec_T x 0) as [->|Hnz].
  { exists 0. rewrite round_float_0. split; [reflexivity|lra]. }
  pose proof (mag2_bounds x Hnz) as [Hmlo Hmhi].
  rewrite (Rabs_pos_eq x) in Hmlo, Hmhi by lra.
  assert (Hmag : (mag2 x <= k)%Z).
  { destruct (Z_le_gt_dec (mag2 x) k) as [Hle|Hgt]; [exact Hle|].
    assert (Hlt : bpow k < bpow (mag2 x)) by (apply bpow_lt; lia). lra. }
  set (e := ulp_exponent fmt x).
  assert (He : (e <= k)%Z) by (unfold e, ulp_exponent; lia).
  pose proof (bpow_pos e) as Hepos.
  assert (Hm : (round_half_even (x / bpow e) <= 2 ^ (k - e))%Z).
  { apply round_half_even_le. rewrite <- bpow_IZR by lia.
    apply (Rmult_le_reg_r (bpow e)); [lra|].
    rewrite <- bpow_add. replace (k - e + e)%Z with k by lia.
    replace (x / bpow e * bpow e) with x by (field; lra). lra. }
  assert (Hm0 : (0 <= round_half_even (x / bpow e))%Z).
  { apply round_half_even_ge. apply Rmult_le_pos; [lra|].
    left. now apply Rinv_0_lt_compat. }
  apply IZR_le in Hm, Hm0. rewrite <- bpow_IZR in Hm by lia.
  assert (Hr : IZR (round_half_even (x / bpow e)) * bpow e <= bpow k).
  { assert (Hs : bpow k = bpow (k - e) * bpow e)
      by (rewrite <- bpow_add; f_equal; lia).
    rewrite Hs. nra. }
  exists (IZR (round_half_even (x / bpow e)) * bpow e). split.
  - apply (round_float_value fmt x e); [reflexivity|reflexivity|].
    rewrite Rabs_pos_eq by nra.
    eapply Rle_lt_trans; [exact Hr|]. apply bpow_lt. lia.
  - split; [nra|exact Hr].
Qed.

End Rounding_order.

(** ** [outer_loop_prod] in binary32 *)

Section Frames_binary32.
Import PerStoreFeatureExtractor.

Lemma of_int_binary32 (z : Z) :
  binary32_int z = true -> fo_of_int binary32_ops z = of_int z.
Proof. intros H. simpl. now apply round_float_binary32_int. Qed.

Lemma prod_push_exact (e prod : Z) :
  binary32_int e = true -> binary32_int (prod * e) = true ->
  prod_push binary32_ops e (of_int prod) = of_int (prod * e).
Proof.
  intros He Hp. unfold prod_push. rewrite of_int_binary32 by exact He.
  unfold of_int. cbn [fo_mul binary32_ops fmul fround]. rewrite <- mult_IZR.
  now apply round_float_binary32_int.
Qed.

Lemma prod_pop_exact (e prod : Z) :
  e <> 0 -> binary32_int e = true -> binary32_int prod = true ->
  prod_pop binary32_ops e (of_int (prod * e)) = of_int prod.
Proof.
  intros Hnz He Hp. unfold prod_pop. rewrite of_int_binary32 by exact He.
  unfold of_int. cbn [fo_div binary32_ops fdiv].
  assert (Hr : IZR e <> 0%R) by now apply not_0_IZR.
  replace (Reqb (IZR e) 0) with false by (symmetry; now apply Reqb_false).
  cbn [fround]. replace (IZR (prod * e) / IZR e)%R with (IZR prod)
    by (rewrite mult_IZR; now field).
  now apply round_float_binary32_int.
Qed.

Lemma stack_product_push (stack : list Z) (e : Z) :
  stack_product (stack ++ [e]) = stack_product stack * e.
Proof. unfold stack_product. now rewrite fold_left_app. Qed.

Lemma frame_ok_inv (e prod : Z) :
  frame_ok e prod = true ->
  e <> 0 /\ binary32_int e = true /\ binary32_int (prod * e) = true.
Proof.
  unfold frame_ok. intros H. apply andb_prop in H as [H Hp].
  apply andb_prop in H as [Hz He]. apply negb_true_iff, Z.eqb_neq in Hz. auto.
Qed.

Lemma frame_restored (e prod : Z) (p : cfloat) :
  binary32_int prod = true -> frame_ok e prod = true ->
  p = of_int (prod * e) ->
  prod_pop binary32_ops e p = of_int prod.
Proof.
  intros Hp Hok ->. apply frame_ok_inv in Hok as (Hz & He & _).
  now apply prod_pop_exact.
Qed.

(** The visit of a statement leaves [outer_loop_prod] as it found it. *)
Lemma walk_prod_restores (stmt : Stmt) :
  forall prod,
    binary32_int prod = true -> exact_frames stmt prod = true ->
    walk_prod binary32_ops stmt (of_int prod) = of_int prod.
Proof.
  induction stmt as [v mn ex ft body IH|node key value body IH|buf v idx
                    |buf bs c body IH|seq IH|c t e IHt IHe|v e body IH|e]
    using Stmt_nested_ind; intros prod Hp Hok; cbn [walk_prod exact_frames] in *.
  - apply andb_prop in Hok as [Hf Hb].
    pose proof (frame_ok_inv _ _ Hf) as (Hz & He & Hpe).
    apply (frame_restored _ prod); [exact Hp|exact Hf|].
    rewrite prod_push_exact by assumption. now apply IH.
  - destruct (attr_pushes_frame key).
    + destruct (GetIntImm value) as [e|]; [|reflexivity].
      apply andb_prop in Hok as [Hf Hb].
      pose proof (frame_ok_inv _ _ Hf) as (Hz & He & Hpe).
      apply (frame_restored _ prod); [exact Hp|exact Hf|].
      rewrite prod_push_exact by assumption. now apply IH.
    + now apply IH.
  - reflexivity.
  - now apply IH.
  - induction IH as [|st seq Hst _ IHseq]; [reflexivity|].
    cbn [forallb] in Hok. apply andb_prop in Hok as [H1 H2].
    cbn [fold_left]. rewrite (Hst prod Hp H1). now apply IHseq.
  - apply andb_prop in Hok as [H1 H2]. rewrite (IHt prod Hp H1).
    destruct e as [e|]; [|reflexivity]. now apply (IHe e eq_refl).
  - now apply IH.
  - reflexivity.
Qed.

Lemma exact_frames_seq_app (before : list Stmt) (st : Stmt) (after : list Stmt) prod :
  exact_frames (SeqStmt (before ++ st :: after)) prod = true ->
  exact_frames (SeqStmt before) prod = true /\ exact_frames st prod = true.
Proof.
  cbn [exact_frames]. rewrite forallb_app. cbn [forallb]. intros H.
  apply andb_prop in H as [H1 H2]. apply andb_prop in H2 as [H2 _]. auto.
Qed.

(** At every statement the walk reaches, [outer_loop_prod] is the product of
    the extents of the pushed frames. *)
Lemma prod_at_product stmt p stack sub p' stack' :
  prod_at binary32_ops stmt p stack sub p' stack' ->
  p = of_int (stack_product stack) ->
  binary32_int (stack_product stack) = true ->
  exact_frames stmt (stack_product stack) = true ->
  p' = of_int (stack_product stack')
  /\ binary32_int (stack_product stack') = true
  /\ exact_frames sub (stack_product stack') = true.
Proof.
  induction 1 as [stmt p stack
                 |v mn ex ft body p stack sub p' stack' _ IH
                 |node key value body e p stack sub p' stack' Hk He _ IH
                 |node key value body p stack sub p' stack' Hk _ IH
                 |buffer bounds c body p stack sub p' stack' _ IH
                 |before st after p stack sub p' stack' _ IH
                 |c t e p stack sub p' stack' _ IH
                 |c t e p stack sub p' stack' _ IH
                 |v e body p stack sub p' stack' _ IH]; intros Hp Hb Hok.
  - auto.
  - cbn [exact_frames] in Hok. apply andb_prop in Hok as [Hf Hbody].
    pose proof (frame_ok_inv _ _ Hf) as (Hz & He & Hpe).
    apply IH; rewrite stack_product_push; [|exact Hpe|exact Hbody].
    subst p. now apply prod_push_exact.
  - cbn [exact_frames] in Hok. rewrite Hk, He in Hok.
    apply andb_prop in Hok as [Hf Hbody].
    pose proof (frame_ok_inv _ _ Hf) as (Hz & He' & Hpe).
    apply IH; rewrite stack_product_push; [|exact Hpe|exact Hbody].
    subst p. now apply prod_push_exact.
  - cbn [exact_frames] in Hok. rewrite Hk in Hok. now apply IH.
  - cbn [exact_frames] in Hok. now apply IH.
  - apply exact_frames_seq_app in Hok as [H1 H2]. apply IH; [|exact Hb|exact H2].
    subst p. now apply walk_prod_restores.
  - cbn [exact_frames] in Hok. apply andb_prop in Hok as [H1 _]. now apply IH.
  - cbn [exact_frames] in Hok. apply andb_prop in Hok as [H1 H2].
    apply IH; [|exact Hb|exact H2]. subst p. now apply walk_prod_restores.
  - cbn [exact_frames] in Hok. now apply IH.
Qed.

End Frames_binary32.

(** C8 (amended): when every frame the walk pushes (the loops, and the
    synthetic frames of the thread_extent and virtual_thread scopes) has an
    extent other than zero, and this extent and the product of the extents of
    the frames pushed with it are binary32 values, then in binary32 arithmetic
    [outer_loop_prod] is the product of the integer extents of the pushed
    frames at every statement the walk reaches, the visit of each of these
    statements leaves [outer_loop_prod] as it found it, and after the full walk
    [outer_loop_prod] is 1. *)
Theorem C8_outer_loop_prod_restored :
  forall stmt : Stmt,
    exact_frames stmt 1 = true ->
    (forall sub p stack,
        prod_at binary32_ops stmt (FFin 1) [] sub p stack ->
        p = of_int (stack_product stack)
        /\ walk_prod binary32_ops sub p = p)
    /\ walk_prod binary32_ops stmt (FFin 1) = FFin 1.
Proof.
  intros stmt Hok. split.
  - intros sub p stack Hat.
    destruct (prod_at_product stmt (FFin 1) [] sub p stack Hat)
      as (Hp & Hb & Hsub); [reflexivity|reflexivity|exact Hok|].
    split; [exact Hp|]. rewrite Hp. now apply walk_prod_restores.
  - now apply (walk_prod_restores stmt 1).
Qed.

Section Rounding_evaluation.
Local Open Scope R_scope.

Lemma bpow_Zneg (p : positive) : bpow (Zneg p) = / IZR (2 ^ Zpos p).
Proof.
  change (Zneg p) with (- Zpos p)%Z. rewrite bpow_opp, bpow_IZR; [reflexivity|lia].
Qed.

Lemma bpow_Zpos (p : positive) : bpow (Zpos p) = IZR (2 ^ Zpos p).
Proof. apply bpow_IZR. lia. Qed.

Lemma round_float_eval (fmt : FloatFormat) (x : R) (e m : Z) :
  bpow (e + (fmt_prec fmt - 1)) <= Rabs x < bpow (e + fmt_prec fmt) ->
  (fmt_emin fmt <= e)%Z ->
  round_half_even (x / bpow e) = m ->
  Rabs (IZR m * bpow e) < bpow (fmt_emax fmt) ->
  round_float fmt x = FFin (IZR m * bpow e).
Proof.
  intros Hx He Hm Hlt. apply round_float_value; [|exact Hm|exact Hlt].
  now apply ulp_exponent_normal.
Qed.

End Rounding_evaluation.

(** The powers of two of a goal, written out *)
Ltac bpow_eval :=
  repeat match goal with
         | |- context [bpow ?k] =>
             let v := eval vm_compute in k in progress (change (bpow k) with (bpow v))
         end;
  repeat match goal with
         | |- context [bpow (Zneg ?p)] => rewrite (bpow_Zneg p)
         | |- context [bpow (Zpos ?p)] => rewrite (bpow_Zpos p)
         | |- context [bpow 0] => change (bpow 0) with 1%R
         end;
  repeat match goal with
         | |- context [IZR (2 ^ ?k)] =>
             let v := eval vm_compute in (2 ^ k)%Z in
             change (2 ^ k)%Z with v
         end.

Section Rounding_of_the_nest.
Local Open Scope R_scope.

(** [3357 * 4999] is half way between two binary32 values and goes to the
    even one. *)
Lemma round_16781643 : round_float binary32 16781643 = FFin 16781644.
Proof.
  rewrite (round_float_eval binary32 16781643 1 8390822).
  - f_equal. bpow_eval. lra.
  - rewrite Rabs_pos_eq by lra. bpow_eval. lra.
  - simpl. lia.
  - rewrite (round_half_even_tie _ 8390821); [reflexivity|]. bpow_eval. lra.
  - bpow_eval. rewrite Rabs_pos_eq by lra. lra.
Qed.

Lemma round_16781644_div_4999 :
  round_float binary32 (16781644 / 4999) = FFin (13750273 / 4096).
Proof.
  rewrite (round_float_eval binary32 (16781644 / 4999) (-12) 13750273).
  - f_equal. bpow_eval. lra.
  - rewrite Rabs_pos_eq by lra. bpow_eval. lra.
  - simpl. lia.
  - rewrite (round_half_even_up _ 13750272); [reflexivity| |]; bpow_eval; lra.
  - bpow_eval. rewrite Rabs_pos_eq by lra. lra.
Qed.

Lemma round_13750273_div :
  round_float binary32 (13750273 / 4096 / 3357) = FFin (1 + / 8388608).
Proof.
  rewrite (round_float_eval binary32 (13750273 / 4096 / 3357) (-23) 8388609).
  - f_equal. bpow_eval. lra.
  - rewrite Rabs_pos_eq by lra. bpow_eval. lra.
  - simpl. lia.
  - rewrite (round_half_even_up _ 8388608); [reflexivity| |]; bpow_eval; lra.
  - bpow_eval. rewrite Rabs_pos_eq by lra. lra.
Qed.

(** [outer_loop_prod] after the walk of the nest of the extents 3357 and
    4999 *)
Lemma ex_rounding_nest_prod :
  walk_prod binary32_ops ex_rounding_nest (FFin 1) = FFin (1 + / 8388608).
Proof.
  unfold ex_rounding_nest. cbn [walk_prod GetLoopExtent loop_extent].
  unfold prod_push, prod_pop.
  rewrite !of_int_binary32 by reflexivity. unfold of_int.
  cbn [fo_mul fo_div binary32_ops fmul fround].
  replace (1 * 3357) with 3357 by lra.
  rewrite (round_float_binary32_int 3357) by reflexivity.
  cbn [fmul fround]. replace (3357 * 4999) with 16781643 by lra.
  rewrite round_16781643. cbn [fdiv].
  replace (Reqb 4999 0) with false by (symmetry; apply Reqb_false; lra).
  cbn [fround]. rewrite round_16781644_div_4999. cbn [fdiv].
  replace (Reqb 3357 0) with false by (symmetry; apply Reqb_false; lra).
  cbn [fround]. apply round_13750273_div.
Qed.

End Rounding_of_the_nest.

(** *** Binary32 arithmetic on integers that are binary32 values *)

Lemma fadd_binary32_int (a b : Z) :
  binary32_int (a + b) = true ->
  fo_add binary32_ops (FFin (IZR a)) (FFin (IZR b)) = FFin (IZR (a + b)).
Proof.
  intros H. cbn [fo_add binary32_ops fadd fround]. rewrite <- plus_IZR.
  now apply round_float_binary32_int.
Qed.

Lemma fmul_binary32_int (a b : Z) :
  binary32_int (a * b) = true ->
  fo_mul binary32_ops (FFin (IZR a)) (FFin (IZR b)) = FFin (IZR (a * b)).
Proof.
  intros H. cbn [fo_mul binary32_ops fmul fround]. rewrite <- mult_IZR.
  now apply round_float_binary32_int.
Qed.

Lemma fdiv_binary32_one (a : Z) :
  binary32_int a = true ->
  fo_div binary32_ops (FFin (IZR a)) (FFin 1) = FFin (IZR a).
Proof.
  intros H. cbn [fo_div binary32_ops fdiv].
  replace (Reqb 1 0) with false by (symmetry; apply Reqb_false; lra).
  cbn [fround]. replace (IZR a / 1)%R with (IZR a) by (field).
  now apply round_float_binary32_int.
Qed.

Lemma fmul_binary32_overflow (a b : Z) :
  (2 ^ 128 <= a * b)%Z ->
  fo_mul binary32_ops (FFin (IZR a)) (FFin (IZR b)) = FInf false.
Proof.
  intros H. cbn [fo_mul binary32_ops fmul fround]. rewrite <- mult_IZR.
  apply round_float_overflow; [simpl; lia|simpl; lia|].
  change (fmt_emax binary32) with 128%Z. rewrite bpow_IZR by lia. now apply IZR_le.
Qed.

(** ** [walk_prod] and [prod_at] are the walk's [outer_loop_prod] *)

Section Frames_of_the_walk.
Import PerStoreFeatureExtractor.
Variable A : AnalyzerOps.
Variable cache_line_size_ : Z.

Lemma GetLoopExtent_enter_loop v mn ex ft s :
  GetLoopExtent (fst (enter_loop v mn ex ft s)) = GetLoopExtent (mkForNode 1 v mn ex ft).
Proof. reflexivity. Qed.

(** With the exact arithmetic, [walk_prod] is [outer_loop_prod] after the
    visit. *)
Lemma VisitStmt_walk_prod (stmt : Stmt) :
  forall s s',
    VisitStmt A cache_line_size_ stmt s = Some s' ->
    outer_loop_prod s' = walk_prod exact_ops stmt (outer_loop_prod s).
Proof.
  change (forall s s', VisitStmt A cache_line_size_ stmt s = Some s' ->
            snd (frame s') = walk_prod exact_ops stmt (snd (frame s))).
  induction stmt as [v mn ex ft body IH|node key value body IH|buf v idx
                    |buf bs c body IH|seq IH|c t e IHt IHe|v e body IH|e]
    using Stmt_nested_ind; intros s s' H.
  - rewrite VisitStmt_For in H.
    destruct (VisitStmt A cache_line_size_ body _) as [s2|] eqn:E2; simpl in H;
      [|discriminate].
    injection H as <-.
    rewrite frame_leave_loop. cbn [snd walk_prod]. rewrite (IH _ _ E2), frame_enter_loop.
    cbn [snd]. now rewrite GetLoopExtent_enter_loop.
  - destruct (attr_pushes_frame key) eqn:Ek.
    + rewrite VisitStmt_thread in H by assumption.
      destruct (enter_thread_scope node key value s) as [[sc s1]|] eqn:E;
        simpl in H; [|discriminate].
      destruct (VisitStmt A cache_line_size_ body s1) as [s2|] eqn:E2; simpl in H;
        [|discriminate].
      injection H as <-.
      apply frame_enter_thread_scope in E as (fake & v & Hv & Hext & _ & Hf).
      rewrite frame_leave_thread_scope. cbn [snd walk_prod]. rewrite Ek, Hv.
      rewrite (IH _ _ E2), Hf. cbn [snd]. now rewrite Hext.
    + cbn [walk_prod]. rewrite Ek.
      destruct (String.eqb key pragma_auto_unroll_max_step) eqn:Ep.
      * rewrite VisitStmt_pragma in H by assumption.
        destruct (enter_pragma value s) as [[old s1]|] eqn:E; simpl in H; [|discriminate].
        destruct (VisitStmt A cache_line_size_ body s1) as [s2|] eqn:E2; simpl in H;
          [|discriminate].
        injection H as <-.
        rewrite frame_set_cur_auto_unroll_max_step, (IH _ _ E2).
        now rewrite (frame_enter_pragma _ _ _ _ E).
      * rewrite VisitStmt_attr in H by assumption. now apply IH.
  - now rewrite (frame_VisitBufferStore A cache_line_size_ _ _ _ _ _ H).
  - simpl in H.
    destruct (VisitStmt A cache_line_size_ body s) as [s1|] eqn:E; simpl in H;
      [|discriminate].
    rewrite (frame_realize_features _ _ _ _ H). cbn [walk_prod]. now apply IH.
  - revert s s' H. induction IH as [|st seq Hst _ IHseq]; intros s s' H.
    + simpl in H. now injection H as <-.
    + rewrite visit_seq_cons in H.
      destruct (VisitStmt A cache_line_size_ st s) as [s1|] eqn:E; simpl in H;
        [|discriminate].
      change (walk_prod exact_ops (SeqStmt (st :: seq)) (snd (frame s)))
        with (walk_prod exact_ops (SeqStmt seq) (walk_prod exact_ops st (snd (frame s)))).
      rewrite <- (Hst _ _ E). now apply IHseq.
  - simpl in H.
    destruct (VisitStmt A cache_line_size_ t s) as [s1|] eqn:E; simpl in H;
      [|discriminate].
    cbn [walk_prod]. rewrite <- (IHt _ _ E).
    destruct e as [e|].
    + now apply (IHe e eq_refl).
    + now injection H as <-.
  - simpl in H. cbn [walk_prod]. now apply IH.
  - simpl in H. now injection H as <-.
Qed.

(** The visit of a statement leaves the loop stack as it found it. *)
Lemma VisitStmt_stack (stmt : Stmt) :
  forall s s',
    VisitStmt A cache_line_size_ stmt s = Some s' -> for_loop_stack s' = for_loop_stack s.
Proof.
  apply (walk_restores A cache_line_size_ (fun s => fst (frame s))).
  - intros buffer value indices s s' H. now rewrite (frame_VisitBufferStore _ _ _ _ _ _ _ H).
  - intros buffer bounds s s' H. now rewrite (frame_realize_features _ _ _ _ H).
  - intros v mn ex ft s s2 H. rewrite frame_leave_loop. cbn [fst]. rewrite H.
    rewrite frame_enter_loop. cbn [fst]. apply pop_push.
  - intros node key value s sc s1 s2 He H.
    apply frame_enter_thread_scope in He as (fake & v & _ & _ & _ & Hf).
    rewrite frame_leave_thread_scope. cbn [fst]. rewrite H, Hf. cbn [fst]. apply pop_push.
  - intros value s old s1 s2 He H. rewrite frame_set_cur_auto_unroll_max_step, H.
    now rewrite (frame_enter_pragma _ _ _ _ He).
Qed.

(** With the exact arithmetic, [prod_at] follows [visits]. *)
Lemma visits_prod_at stmt s sub s' :
  visits A cache_line_size_ stmt s sub s' ->
  prod_at exact_ops stmt (outer_loop_prod s) (GetLoopExtent <$> for_loop_stack s)
    sub (outer_loop_prod s') (GetLoopExtent <$> for_loop_stack s').
Proof.
  change (visits A cache_line_size_ stmt s sub s' ->
          prod_at exact_ops stmt (snd (frame s)) (GetLoopExtent <$> fst (frame s))
            sub (snd (frame s')) (GetLoopExtent <$> fst (frame s'))).
  induction 1 as [stmt s|v mn ex ft body s sub s' _ IH
                 |node key value body s sc s1 sub s' Hk He _ IH
                 |node key value body s old s1 sub s' Hk Hp He _ IH
                 |node key value body s sub s' Hk Hp _ IH
                 |buffer bounds c body s sub s' _ IH
                 |before st after s s1 sub s' Hb _ IH
                 |c t e s sub s' _ IH
                 |c t e s s1 sub s' Ht _ IH
                 |v e body s sub s' _ IH].
  - constructor.
  - apply prod_at_For. rewrite frame_enter_loop in IH. cbn [fst snd] in IH.
    unfold push_back in IH. rewrite fmap_app in IH.
    now rewrite GetLoopExtent_enter_loop in IH.
  - apply frame_enter_thread_scope in He as (fake & v & Hv & Hext & Hfake & Hf).
    apply (prod_at_thread exact_ops node key value body v); [exact Hk|exact Hv|].
    rewrite Hf in IH. cbn [fst snd] in IH. unfold push_back in IH.
    rewrite fmap_app in IH. cbn [fmap list_fmap] in IH.
    now rewrite Hfake, Hext in IH.
  - apply prod_at_attr; [exact Hk|].
    now rewrite (frame_enter_pragma _ _ _ _ He) in IH.
  - now apply prod_at_attr.
  - now apply prod_at_realize.
  - apply prod_at_seq.
    change (snd (frame s1)) with (outer_loop_prod s1) in IH.
    change (fst (frame s1)) with (for_loop_stack s1) in IH.
    now rewrite (VisitStmt_walk_prod (SeqStmt before) s s1 Hb),
      (VisitStmt_stack (SeqStmt before) s s1 Hb) in IH.
  - now apply prod_at_then.
  - apply prod_at_else.
    change (snd (frame s1)) with (outer_loop_prod s1) in IH.
    change (fst (frame s1)) with (for_loop_stack s1) in IH.
    now rewrite (VisitStmt_walk_prod t s s1 Ht), (VisitStmt_stack t s s1 Ht) in IH.
  - now apply prod_at_let.
Qed.

End Frames_of_the_walk.


(** [outer_loop_prod] after the walk of [for (i, 0, 0) { B[i] = A[i] + 1.0f }]:
    [1 * 0 / 0] *)
Lemma ex_empty_loop_prod : walk_prod binary32_ops ex_empty_loop (FFin 1) = FNaN.
Proof.
  unfold ex_empty_loop. cbn [walk_prod GetLoopExtent loop_extent].
  unfold prod_push, prod_pop. rewrite !of_int_binary32 by reflexivity. unfold of_int.
  rewrite (fmul_binary32_int 1 0) by reflexivity. change (1 * 0)%Z with 0%Z.
  cbn [fo_div binary32_ops fdiv].
  replace (Reqb 0 0) with true by (symmetry; apply Reqb_true; reflexivity).
  reflexivity.
Qed.

(** C8, as stated, fails.  After the walk of
    [for (i, 0, 0) { B[i] = A[i] + 1.0f }], [outer_loop_prod] is [1 * 0 / 0],
    a NaN, and not 1.  After the walk of a nest of the extents 3357 and 4999,
    none of them zero, it is not 1 either: the product 16781643 is rounded to
    16781644 when the inner frame is pushed, and the two divisions of the pops
    leave [1 + 2^-23]. *)
Lemma C8_outer_loop_prod_counterexample :
  (walk_prod binary32_ops ex_empty_loop (FFin 1) = FNaN /\ FNaN <> FFin 1)
  /\ (nonzero_extents ex_rounding_nest = true
      /\ walk_prod binary32_ops ex_rounding_nest (FFin 1) = FFin (1 + / 8388608)
      /\ FFin (1 + / 8388608) <> FFin 1).
Proof.
  split; [split; [exact ex_empty_loop_prod|discriminate]|].
  split; [reflexivity|]. split; [exact ex_rounding_nest_prod|].
  intros H. injection H as H. lra.
Qed.

(** C8 at [for (i, 0, 1024) { B[i] = A[i] }] *)
Lemma C8_outer_loop_prod_restored_witness :
  (forall sub p stack,
      prod_at binary32_ops ex_copy_loop (FFin 1) [] sub p stack ->
      p = of_int (stack_product stack) /\ walk_prod binary32_ops sub p = p)
  /\ walk_prod binary32_ops ex_copy_loop (FFin 1) = FFin 1.
Proof. apply (C8_outer_loop_prod_restored ex_copy_loop). reflexivity. Defined.


(** ** The compute features of a store in binary32 *)

(** With the exact arithmetic these are the compute features the store leaves
    in its feature set. *)
Lemma compute_features_with_exact (A : AnalyzerOps) (s : PerStoreFeatureExtractor.t)
    (mathops : MathOpCounter.t) curve acc_feas fea :
  compute_features (PerStoreFeatureExtractor.store_features s mathops curve acc_feas fea)
  = compute_features_with exact_ops (PerStoreFeatureExtractor.outer_loop_prod s) mathops.
Proof.
  now destruct (store_features_fields s mathops curve acc_feas fea) as (_ & -> & _).
Qed.



(** ** The reuse classifier in binary32 *)

Section Reuse_binary32.
Local Open Scope R_scope.

Lemma of_int_binary32_0 : fo_of_int binary32_ops 0 = FFin 0.
Proof. apply round_float_0. Qed.

Lemma fnonneg_or_inf_round (fmt : FloatFormat) (x : R) :
  0 <= x -> fnonneg_or_inf (round_float fmt x).
Proof.
  intros Hx. destruct (round_float_nonneg fmt x Hx) as [(r & -> & Hr)| ->];
    [exact Hr|reflexivity].
Qed.

Lemma fnonneg_fnonneg_or_inf x : fnonneg x -> fnonneg_or_inf x.
Proof. now destruct x. Qed.

(** An [int64_t] that is not negative becomes a finite [float] that is not
    negative. *)
Lemma of_int_binary32_fnonneg (z : Z) :
  (0 <= z <= INT64_MAX)%Z -> fnonneg (fo_of_int binary32_ops z).
Proof.
  intros Hz. cbn [fo_of_int binary32_ops].
  destruct (round_float_error binary32 (IZR z)) as (r & -> & _ & Hr).
  - simpl. lia.
  - simpl. lia.
  - rewrite Rabs_pos_eq by (apply IZR_le; lia).
    change (fmt_emax binary32 - 1)%Z with 127%Z. rewrite bpow_IZR by lia.
    apply IZR_le. unfold INT64_MAX in Hz.
    assert (2 ^ 63 <= 2 ^ 127)%Z by (apply Z.pow_le_mono_r; lia). lia.
  - apply Hr. apply IZR_le. lia.
Qed.

(** An [int64_t] of at least 1 becomes a positive [float]. *)
Lemma of_int_binary32_pos (z : Z) :
  (1 <= z <= INT64_MAX)%Z -> exists r, fo_of_int binary32_ops z = FFin r /\ 0 < r.
Proof.
  intros Hz. cbn [fo_of_int binary32_ops].
  assert (H1 : 1 <= IZR z) by (apply IZR_le; lia).
  destruct (round_float_error binary32 (IZR z)) as (r & -> & Herr & _).
  - simpl. lia.
  - simpl. lia.
  - rewrite Rabs_pos_eq by lra.
    change (fmt_emax binary32 - 1)%Z with 127%Z. rewrite bpow_IZR by lia.
    apply IZR_le. unfold INT64_MAX in Hz.
    assert (2 ^ 63 <= 2 ^ 127)%Z by (apply Z.pow_le_mono_r; lia). lia.
  - exists r. split; [reflexivity|].
    rewrite (Rabs_pos_eq (IZR z)) in Herr by lra.
    revert Herr. bpow_eval. unfold Rabs. destruct (Rcase_abs (r - IZR z)); intros Herr; lra.
Qed.

Lemma fnonneg_or_inf_add x y :
  fnonneg_or_inf x -> fnonneg_or_inf y -> fnonneg_or_inf (fo_add binary32_ops x y).
Proof.
  cbn [fo_add binary32_ops].
  destruct x as [|sx|a], y as [|sy|b]; cbn [fnonneg_or_inf fadd fround];
    try tauto; try (intros -> ->; reflexivity); try (intros -> _; reflexivity);
    try (intros _ ->; reflexivity).
  intros Ha Hb. apply fnonneg_or_inf_round. lra.
Qed.

Lemma fnonneg_or_inf_mul x r :
  fnonneg_or_inf x -> 0 < r -> fnonneg_or_inf (fo_mul binary32_ops x (FFin r)).
Proof.
  cbn [fo_mul binary32_ops]. intros Hx Hr.
  destruct x as [|sx|a]; cbn [fnonneg_or_inf fmul fround] in *; [tauto| |].
  - subst sx. replace (Reqb r 0) with false by (symmetry; apply Reqb_false; lra).
    now replace (Rltb r 0) with false by (symmetry; apply Rltb_false; lra).
  - apply fnonneg_or_inf_round. apply Rmult_le_pos; lra.
Qed.

Lemma fnonneg_or_inf_div x r :
  fnonneg_or_inf x -> 0 < r -> fnonneg_or_inf (fo_div binary32_ops x (FFin r)).
Proof.
  cbn [fo_div binary32_ops]. intros Hx Hr.
  destruct x as [|sx|a]; cbn [fnonneg_or_inf fdiv fround] in *; [tauto| |].
  - subst sx. now replace (Rltb r 0) with false by (symmetry; apply Rltb_false; lra).
  - replace (Reqb r 0) with false by (symmetry; apply Reqb_false; lra).
    cbn [fround]. apply fnonneg_or_inf_round.
    apply Rmult_le_pos; [lra|]. left. now apply Rinv_0_lt_compat.
Qed.

Lemma sum_touched_binary32 weight (table : gmap N (Buffer * list RegionEntry)) :
  (forall e, entry_wf e -> (0 <= weight e)%Z) ->
  (forall b x, table !! b = Some x -> List.Forall entry_wf (snd x)) ->
  fnonneg_or_inf (sum_touched_with binary32_ops weight table).
Proof.
  intros Hw Ht. unfold sum_touched_with.
  assert (Hl : List.Forall (fun iter => List.Forall entry_wf (snd (snd iter)))
                 (map_to_list table)).
  { rewrite List.Forall_forall. intros [b x] Hin.
    apply list_elem_of_In, elem_of_map_to_list in Hin. simpl. eauto. }
  assert (H0 : fnonneg_or_inf fzero) by (simpl; lra).
  revert H0. generalize fzero.
  induction Hl as [|iter l Hi _ IH]; intros acc Hacc; simpl; [exact Hacc|].
  apply IH. clear IH. revert acc Hacc.
  induction Hi as [|e es He _ IHe]; intros acc Hacc; simpl; [exact Hacc|].
  apply IHe. apply fnonneg_or_inf_add; [exact Hacc|].
  apply fnonneg_or_inf_round. apply IZR_le. auto.
Qed.

Lemma fold_fmin_binary32 (entries : list RegionEntry) acc :
  List.Forall entry_wf entries -> fnonneg acc ->
  fnonneg (fold_left (fun m acc_info => fmin m (fo_of_int binary32_ops (snd (fst acc_info))))
             entries acc).
Proof.
  intros H. revert acc. induction H as [|e es He _ IH]; intros acc Hacc; simpl;
    [exact Hacc|].
  apply IH. clear IH. destruct He as (Hn & _).
  pose proof (fnonneg_or_inf_round binary32 (IZR (snd (fst e)))
                ltac:(apply IZR_le; exact Hn)) as Hy.
  cbn [fo_of_int binary32_ops].
  destruct (round_float binary32 (IZR (snd (fst e)))) as [|sy|b];
    cbn [fnonneg_or_inf] in Hy; [tauto| |].
  - subst sy. destruct acc; cbn [fnonneg] in Hacc; try tauto; exact Hacc.
  - unfold fmin. now destruct (flt (FFin b) acc).
Qed.

Lemma reuse_loop_binary32 buf indices regions rstack :
  regions_wf regions ->
  List.Forall (fun f => (1 <= GetLoopExtent f <= INT64_MAX)%Z) rstack ->
  forall it by_ rt it' by' ct,
    fnonneg_or_inf it -> (by_ = FFin (-1) \/ fnonneg_or_inf by_) ->
    reuse_loop_with binary32_ops buf indices regions rstack it by_
    = Some (rt, it', by', ct) ->
    fnonneg_or_inf it' /\ fnonneg_or_inf by' /\ fnonneg ct.
Proof.
  intros Hwf Hst. induction Hst as [|f rest Hf _ IH]; intros it by_ rt it' by' ct Hit Hby H;
    cbn [reuse_loop_with] in H.
  - rewrite of_int_binary32_0 in H. injection H as _ <- <- <-. simpl. lra.
  - destruct (of_int_binary32_pos _ Hf) as (e & He & He0).
    rewrite He in H.
    destruct (index_uses_var indices (loop_var f)).
    + destruct (regions !! node_id f) as [table|] eqn:Et; simpl in H; [|discriminate].
      destruct (table !! buffer_id buf) as [entry|] eqn:Ee; simpl in H; [|discriminate].
      assert (Hsum : fnonneg_or_inf (sum_touched_with binary32_ops touched_bytes table)).
      { apply sum_touched_binary32; [apply touched_bytes_nonneg|]. intros b x Hx.
        eapply Hwf; eauto. }
      destruct (0 <? to_int32 (Z.of_nat (length (snd entry))) - 1)%Z eqn:Es.
      * injection H as _ <- <- <-. split; [|split].
        -- apply fnonneg_or_inf_div; [|exact He0]. apply fnonneg_fnonneg_or_inf.
           apply fold_fmin_binary32.
           ++ eapply Hwf; eauto.
           ++ apply fnonneg_FLT_MAX.
        -- now apply fnonneg_or_inf_div.
        -- apply of_int_binary32_fnonneg. apply Z.ltb_lt in Es.
           assert (Hr : (INT32_MIN <= to_int32 (Z.of_nat (length (snd entry))) <= INT32_MAX)%Z).
           { unfold to_int32, wrap_signed, INT32_MIN, INT32_MAX.
             pose proof (Z.mod_pos_bound (Z.of_nat (length (snd entry)) + 2 ^ (32 - 1))
                           (2 ^ 32) ltac:(lia)). lia. }
           unfold INT32_MIN, INT32_MAX, INT64_MAX in *. lia.
      * eapply IH; [| |exact H].
        -- now apply fnonneg_or_inf_mul.
        -- now right.
    + rewrite of_int_binary32_0 in H. destruct Hby as [-> | Hby].
      * replace (flt (FFin (-1)) (FFin 0)) with true in H
          by (symmetry; simpl; apply Rltb_true; lra).
        destruct (regions !! node_id f) as [table|] eqn:Et; simpl in H; [|discriminate].
        injection H as _ <- <- <-. split; [exact Hit|]. split.
        -- apply sum_touched_binary32; [apply single_bytes_nonneg|]. intros b x Hx.
           eapply Hwf; eauto.
        -- simpl. lra.
      * replace (flt by_ (FFin 0)) with false in H.
        2:{ symmetry. destruct by_ as [|s|r]; cbn [fnonneg_or_inf flt] in *;
              [tauto|congruence|apply Rltb_false; lra]. }
        simpl in H. injection H as _ <- <- <-.
        split; [exact Hit|]. split; [exact Hby|]. simpl. lra.
Qed.

Lemma reuse_loop_binary32_NoReuse buf indices regions rstack :
  forall it by_ it' by' ct,
    reuse_loop_with binary32_ops buf indices regions rstack it by_
    = Some (kNoReuse, it', by', ct) ->
    it' = FFin 0 /\ by' = FFin 0 /\ ct = FFin 0.
Proof.
  induction rstack as [|f rest IH]; intros it by_ it' by' ct H; cbn [reuse_loop_with] in H.
  - rewrite of_int_binary32_0 in H. injection H as <- <- <-. auto.
  - destruct (index_uses_var indices (loop_var f)).
    + destruct (regions !! node_id f) as [table|]; simpl in H; [|discriminate].
      destruct (table !! buffer_id buf) as [entry|]; simpl in H; [|discriminate].
      destruct (0 <? to_int32 (Z.of_nat (length (snd entry))) - 1)%Z; [discriminate|].
      eapply IH; eauto.
    + destruct (flt by_ _); simpl in H.
      * destruct (regions !! node_id f); simpl in H; discriminate.
      * discriminate.
Qed.

(** With the exact arithmetic the classifier is the one of the walk. *)
Lemma ComputeReuse_with_exact buf indices stack regions :
  ComputeReuse_with exact_ops buf indices stack regions
  = ComputeReuse buf indices stack regions.
Proof.
  unfold ComputeReuse_with, ComputeReuse.
  generalize (rev stack) fone (FFin (-1)).
  induction l as [|f rest IH]; intros it by_; [reflexivity|].
  cbn [reuse_loop_with reuse_loop].
  destruct (index_uses_var indices (loop_var f)); [|reflexivity].
  destruct (regions !! node_id f) as [table|]; [|reflexivity].
  cbn [mbind option_bind].
  destruct (table !! buffer_id buf) as [entry|]; [|reflexivity].
  cbn [mbind option_bind].
  destruct (0 <? to_int32 (Z.of_nat (length (snd entry))) - 1)%Z; [reflexivity|].
  apply IH.
Qed.

End Reuse_binary32.

(** C9 (amended): whenever ComputeReuse returns NoReuse, the three values are
    0; and when every loop of the stack has an extent of at least 1 and every
    entry of the region table has a non-negative element count and element
    size whose product fits [int64_t], then in binary32 arithmetic the three
    values are not negative and no NaN, [reuse_ct] is finite, and the two
    distances are finite or the infinity their computation overflows to. *)
Theorem C9_ComputeReuse_values :
  forall (buf : Buffer) (indices : list (list PrimExpr)) (for_loop_stack : list ForNode)
         (for_touch_regions : RegionTable)
         (reuse_type : ReuseType) (reuse_dis_iter reuse_dis_bytes reuse_ct : cfloat),
    ComputeReuse_with binary32_ops buf indices for_loop_stack for_touch_regions
    = Some (reuse_type, reuse_dis_iter, reuse_dis_bytes, reuse_ct) ->
    (reuse_type = kNoReuse ->
     reuse_dis_iter = FFin 0 /\ reuse_dis_bytes = FFin 0 /\ reuse_ct = FFin 0)
    /\ (List.Forall (fun f => 1 <= GetLoopExtent f <= INT64_MAX) for_loop_stack ->
        regions_wf for_touch_regions ->
        fnonneg_or_inf reuse_dis_iter /\ fnonneg_or_inf reuse_dis_bytes
        /\ fnonneg reuse_ct).
Proof.
  intros buf indices stack regions rt it by_ ct H. unfold ComputeReuse_with in H. split.
  - intros ->. now apply reuse_loop_binary32_NoReuse in H.
  - intros Hst Hwf.
    eapply (reuse_loop_binary32 buf indices regions (rev stack) Hwf); [| | |exact H].
    + rewrite List.Forall_forall in Hst |- *. intros f Hf. apply Hst.
      now apply in_rev.
    + simpl. lra.
    + now left.
Qed.


(** *** The classifier on the examples, for any arithmetic *)

Section Reuse_examples.
Variable ops : FloatOps.

Lemma ex_reuse_zero_with :
  ComputeReuse_with ops ex_buffer_B [[VarE ex_var_i]] [ex_loop 1 ex_var_i 0]
    ex_regions_zero
  = Some (kSerialMultipleReadWrite,
          fo_div ops (fmin (fmin FLT_MAX (fo_of_int ops 0)) (fo_of_int ops 0))
            (fo_of_int ops 0),
          fo_div ops (fo_add ops (fo_add ops fzero (fo_of_int ops 0)) (fo_of_int ops 0))
            (fo_of_int ops 0),
          fo_of_int ops 1).
Proof. reflexivity. Qed.

Lemma ex_reuse_negative_with :
  ComputeReuse_with ops ex_buffer_B [[VarE ex_var_i]] [ex_loop 1 ex_var_i 1]
    ex_regions_negative
  = Some (kSerialMultipleReadWrite,
          fo_div ops (fmin (fmin FLT_MAX (fo_of_int ops (-1))) (fo_of_int ops (-1)))
            (fo_of_int ops 1),
          fo_div ops
            (fo_add ops (fo_add ops fzero (fo_of_int ops (-4))) (fo_of_int ops (-4)))
            (fo_of_int ops 1),
          fo_of_int ops 1).
Proof. reflexivity. Qed.

Lemma ex_reuse_AB_with :
  ComputeReuse_with ops ex_buffer_A [[IntImm Int32_t 0]] [ex_loop 1 ex_var_j 32]
    ex_regions_AB
  = (by_ ← (if flt (FFin (-1)) (fo_of_int ops 0)
            then Some (fo_add ops (fo_add ops fzero (fo_of_int ops 4)) (fo_of_int ops 4))
            else Some (FFin (-1)));
     Some (kLoopMultipleRead, fone, by_, fo_of_int ops 32)).
Proof. reflexivity. Qed.

Lemma ex_reuse_huge_with :
  ComputeReuse_with ops ex_buffer_C [[VarE ex_var_i; VarE ex_var_j; VarE ex_var_k]]
    ex_stack_huge ex_regions_huge
  = (let by_ := fo_add ops fzero (fo_of_int ops 4) in
     by' ← (if flt by_ (fo_of_int ops 0) then None else Some by_);
     Some (kLoopMultipleRead,
           fo_mul ops
             (fo_mul ops (fo_mul ops fone (fo_of_int ops (2 ^ 62)))
                (fo_of_int ops (2 ^ 62)))
             (fo_of_int ops (2 ^ 62)),
           by', fo_of_int ops 2)).
Proof. reflexivity. Qed.

End Reuse_examples.

Lemma ex_reuse_zero_binary32 :
  ComputeReuse_with binary32_ops ex_buffer_B [[VarE ex_var_i]] [ex_loop 1 ex_var_i 0]
    ex_regions_zero
  = Some (kSerialMultipleReadWrite, FNaN, FNaN, FFin 1).
Proof.
  rewrite ex_reuse_zero_with.
  rewrite !(of_int_binary32 0), (of_int_binary32 1) by reflexivity.
  unfold of_int, fzero. rewrite (fadd_binary32_int 0 0) by reflexivity.
  change (0 + 0)%Z with 0%Z. rewrite (fadd_binary32_int 0 0) by reflexivity.
  change (0 + 0)%Z with 0%Z.
  replace (fmin FLT_MAX (FFin 0)) with (FFin 0)
    by (unfold fmin, FLT_MAX; cbn [flt];
        replace (Rltb 0 (IZR (2 ^ 128 - 2 ^ 104))) with true; [reflexivity|];
        symmetry; apply Rltb_true; apply IZR_lt; reflexivity).
  replace (fmin (FFin 0) (FFin 0)) with (FFin 0)
    by (unfold fmin; cbn [flt]; now destruct (Rltb 0 0)).
  cbn [fo_div binary32_ops fdiv].
  replace (Reqb 0 0) with true by (symmetry; apply Reqb_true; reflexivity).
  reflexivity.
Qed.

Lemma ex_reuse_negative_binary32 :
  ComputeReuse_with binary32_ops ex_buffer_B [[VarE ex_var_i]] [ex_loop 1 ex_var_i 1]
    ex_regions_negative
  = Some (kSerialMultipleReadWrite, FFin (-1), FFin (-8), FFin 1).
Proof.
  rewrite ex_reuse_negative_with.
  rewrite !(of_int_binary32 (-1)), !(of_int_binary32 (-4)), !(of_int_binary32 1)
    by reflexivity.
  unfold of_int, fzero. rewrite (fadd_binary32_int 0 (-4)) by reflexivity.
  rewrite (fadd_binary32_int (0 + -4) (-4)) by reflexivity.
  replace (fmin FLT_MAX (FFin (-1))) with (FFin (-1))
    by (unfold fmin, FLT_MAX; cbn [flt];
        replace (Rltb (-1) (IZR (2 ^ 128 - 2 ^ 104))) with true; [reflexivity|];
        symmetry; apply Rltb_true; apply IZR_lt; reflexivity).
  replace (fmin (FFin (-1)) (FFin (-1))) with (FFin (-1))
    by (unfold fmin; cbn [flt]; now destruct (Rltb (-1) (-1))).
  rewrite (fdiv_binary32_one (-1)), (fdiv_binary32_one (0 + -4 + -4)) by reflexivity.
  reflexivity.
Qed.

Lemma ex_reuse_huge_binary32 :
  ComputeReuse_with binary32_ops ex_buffer_C
    [[VarE ex_var_i; VarE ex_var_j; VarE ex_var_k]] ex_stack_huge ex_regions_huge
  = Some (kLoopMultipleRead, FInf false, FFin 4, FFin 2).
Proof.
  rewrite ex_reuse_huge_with.
  rewrite !(of_int_binary32 (2 ^ 62)), (of_int_binary32 4), (of_int_binary32 0),
    (of_int_binary32 2) by reflexivity.
  unfold of_int, fzero, fone. rewrite (fadd_binary32_int 0 4) by reflexivity.
  rewrite (fmul_binary32_int 1 (2 ^ 62)) by reflexivity.
  rewrite (fmul_binary32_int (1 * 2 ^ 62) (2 ^ 62)) by reflexivity.
  rewrite (fmul_binary32_overflow (1 * 2 ^ 62 * 2 ^ 62) (2 ^ 62)) by (vm_compute; discriminate).
  cbv zeta. cbn [flt].
  replace (Rltb (IZR (0 + 4)) 0) with false
    by (symmetry; apply Rltb_false; apply IZR_le; vm_compute; discriminate).
  reflexivity.
Qed.

Lemma ex_reuse_AB_binary32 :
  ComputeReuse_with binary32_ops ex_buffer_A [[IntImm Int32_t 0]] [ex_loop 1 ex_var_j 32]
    ex_regions_AB
  = Some (kLoopMultipleRead, FFin 1, FFin 8, FFin 32).
Proof.
  rewrite ex_reuse_AB_with.
  rewrite (of_int_binary32 0), !(of_int_binary32 4), (of_int_binary32 32) by reflexivity.
  unfold of_int, fzero, fone. rewrite (fadd_binary32_int 0 4) by reflexivity.
  rewrite (fadd_binary32_int (0 + 4) 4) by reflexivity.
  cbn [flt]. replace (Rltb (-1) 0) with true by (symmetry; apply Rltb_true; lra).
  reflexivity.
Qed.

(** C9, as stated, fails.  Under a loop of extent 0 whose table holds two
    entries for the buffer, the serial-reuse branch divides by the extent and
    returns NaN for both distances.  Under a loop whose table holds two
    entries with the element count -1, both distances are negative.  Under
    three loops of extent 2^62 that the indices use, the product of the
    extents overflows binary32 and the distance in iterations is infinite. *)
Lemma C9_ComputeReuse_counterexample :
  (ComputeReuse_with binary32_ops ex_buffer_B [[VarE ex_var_i]] [ex_loop 1 ex_var_i 0]
     ex_regions_zero
   = Some (kSerialMultipleReadWrite, FNaN, FNaN, FFin 1)
   /\ ~ is_finite FNaN)
  /\ (exists reuse_dis_iter reuse_dis_bytes : R,
        ComputeReuse_with binary32_ops ex_buffer_B [[VarE ex_var_i]]
          [ex_loop 1 ex_var_i 1] ex_regions_negative
        = Some (kSerialMultipleReadWrite, FFin reuse_dis_iter, FFin reuse_dis_bytes,
                FFin 1)
        /\ (reuse_dis_iter < 0)%R /\ (reuse_dis_bytes < 0)%R)
  /\ (List.Forall (fun f => 1 <= GetLoopExtent f <= INT64_MAX) ex_stack_huge
      /\ regions_wf ex_regions_huge
      /\ ComputeReuse_with binary32_ops ex_buffer_C
           [[VarE ex_var_i; VarE ex_var_j; VarE ex_var_k]] ex_stack_huge ex_regions_huge
         = Some (kLoopMultipleRead, FInf false, FFin 4, FFin 2)
      /\ ~ is_finite (FInf false)).
Proof.
  split; [split; [exact ex_reuse_zero_binary32|simpl; tauto]|]. split.
  - exists (-1)%R, (-8)%R. split; [exact ex_reuse_negative_binary32|]. split; lra.
  - split; [|split; [|split; [exact ex_reuse_huge_binary32|simpl; tauto]]].
    + repeat constructor; vm_compute; discriminate.
    + intros p table b x Hp Hb. unfold ex_regions_huge in Hp.
      assert (Ht : table = ex_table_C).
      { apply lookup_insert_Some in Hp as [[_ <-]|[_ Hp]]; [reflexivity|].
        apply lookup_insert_Some in Hp as [[_ <-]|[_ Hp]]; [reflexivity|].
        now apply lookup_singleton_Some in Hp as [_ <-]. }
      subst table. unfold ex_table_C in Hb. apply lookup_singleton_Some in Hb as [_ <-].
      repeat constructor; vm_compute; discriminate.
Qed.

(** C9 at a loop of extent 32 that the access does not depend on:
    LoopMultipleRead with distance 1, 8 bytes, count 32. *)
Lemma C9_ComputeReuse_values_witness :
  fnonneg_or_inf (FFin 1) /\ fnonneg_or_inf (FFin 8) /\ fnonneg (FFin 32).
Proof.
  refine (proj2 (C9_ComputeReuse_values ex_buffer_A [[IntImm Int32_t 0]]
                   [ex_loop 1 ex_var_j 32] ex_regions_AB
                   kLoopMultipleRead (FFin 1) (FFin 8) (FFin 32)
                   ex_reuse_AB_binary32) _ ex_regions_AB_wf).
  constructor; [|constructor]. vm_compute. split; discriminate.
Defined.

(** ** The sampling loop in binary32 *)

Section Curve_with.
Variable ops : FloatOps.

Lemma advance_pt_with_in_bounds (rest : list cfloat) (pt : nat) (x : cfloat) :
  rest <> [] ->
  flt (List.last rest FNaN) (fo_sub_tolerance ops x) = false ->
  exists pt', advance_pt_with ops rest pt x = Some pt' /\ (pt <= pt' < pt + length rest)%nat.
Proof.
  revert pt. induction rest as [|v rest IH]; intros pt Hne Hlast; [congruence|].
  simpl. destruct (flt v (fo_sub_tolerance ops x)) eqn:E.
  - destruct rest as [|w rest'].
    + simpl in Hlast. congruence.
    + destruct (IH (S pt)) as (pt' & Hpt & Hb); [discriminate|exact Hlast|].
      exists pt'. split; [exact Hpt|]. simpl in *. lia.
  - exists pt. split; [reflexivity|]. simpl. lia.
Qed.

Lemma interpolate_with_in_bounds (cl mem : list cfloat) (pt : nat) (x : cfloat) :
  length mem = length cl -> (pt < length cl)%nat ->
  is_Some (interpolate_with ops cl mem pt x).
Proof.
  intros Hlen Hpt. unfold interpolate_with.
  destruct pt as [|pt1].
  - destruct (lookup_lt_is_Some_2 cl 0%nat Hpt) as [c ->].
    destruct (lookup_lt_is_Some_2 mem 0%nat ltac:(lia)) as [m ->]. simpl. eauto.
  - destruct (lookup_lt_is_Some_2 cl pt1 ltac:(lia)) as [c1 ->].
    destruct (lookup_lt_is_Some_2 mem pt1 ltac:(lia)) as [m1 ->].
    destruct (lookup_lt_is_Some_2 cl (S pt1) Hpt) as [c ->].
    destruct (lookup_lt_is_Some_2 mem (S pt1) ltac:(lia)) as [m ->]. simpl. eauto.
Qed.

Lemma curve_loop_with_in_bounds (cl mem : list cfloat) (samples : list nat) :
  length mem = length cl ->
  List.Forall (fun i => flt (List.last cl FNaN)
                        (fo_sub_tolerance ops (sample_point_with ops cl i)) = false)
    samples ->
  forall pt, (pt < length cl)%nat ->
    exists values pts,
      curve_loop_with ops cl mem samples pt = Some (values, pts)
      /\ length values = length samples
      /\ length pts = length samples
      /\ List.Forall (fun pt => (pt < length cl)%nat) pts.
Proof.
  intros Hlen Hs. induction Hs as [|i samples Hi _ IH]; intros pt Hpt; simpl.
  - exists [], []. repeat split; constructor.
  - destruct (advance_pt_with_in_bounds (drop pt cl) pt (sample_point_with ops cl i))
      as (pt' & -> & Hb).
    + intros Hnil. apply (f_equal length) in Hnil. rewrite length_drop in Hnil.
      simpl in Hnil. lia.
    + now rewrite last_drop.
    + rewrite length_drop in Hb. assert (Hpt' : (pt' < length cl)%nat) by lia.
      simpl.
      destruct (interpolate_with_in_bounds cl mem pt' (sample_point_with ops cl i)
                  Hlen Hpt') as [value ->].
      simpl. destruct (IH pt' Hpt') as (values & pts & -> & Hv & Hp & Hall).
      simpl. exists (value :: values), (pt' :: pts).
      repeat split; simpl; try lia. now constructor.
Qed.

Lemma stored_list_length (l : list cfloat) : length (stored_list ops l) = length l.
Proof. apply length_fmap. Qed.

Lemma stored_list_last (l : list cfloat) :
  l <> [] -> List.last (stored_list ops l) FNaN = fo_store_log2 ops (List.last l FNaN).
Proof.
  unfold stored_list. induction l as [|x l IH]; intros Hne; [congruence|].
  destruct l as [|y l]; [reflexivity|].
  change (List.last (fo_store_log2 ops <$> x :: y :: l) FNaN)
    with (List.last (fo_store_log2 ops <$> y :: l) FNaN).
  rewrite IH by discriminate. reflexivity.
Qed.

End Curve_with.

(** With the exact arithmetic the sampling loop is the one of the walk. *)
Lemma curve_loop_with_exact (cl mem : list cfloat) (samples : list nat) (pt : nat) :
  curve_loop_with exact_ops cl mem samples pt = curve_loop cl mem samples pt.
Proof.
  assert (Hadv : forall rest pt x, advance_pt_with exact_ops rest pt x = advance_pt rest pt x).
  { induction rest as [|v rest IH]; intros p x; [reflexivity|].
    cbn [advance_pt_with advance_pt fo_sub_tolerance exact_ops]. now rewrite IH. }
  revert pt. induction samples as [|i samples IH]; intros pt; [reflexivity|].
  cbn [curve_loop_with curve_loop].
  change (sample_point_with exact_ops cl i) with (sample_point cl i).
  rewrite Hadv. destruct (advance_pt (drop pt cl) pt (sample_point cl i)) as [pt'|];
    [|reflexivity].
  cbn [mbind option_bind].
  change (interpolate_with exact_ops cl mem pt' (sample_point cl i))
    with (interpolate cl mem pt' (sample_point cl i)).
  destruct (interpolate cl mem pt' (sample_point cl i)); [|reflexivity].
  cbn [mbind option_bind]. now rewrite IH.
Qed.

Lemma stored_list_exact (l : list cfloat) : stored_list exact_ops l = l.
Proof. unfold stored_list. cbn [fo_store_log2 exact_ops]. apply list_fmap_id. Qed.

Section Curve_binary32.
Local Open Scope R_scope.

Lemma binary32_int_small (z : Z) : (Z.abs z < 2 ^ 24)%Z -> binary32_int z = true.
Proof.
  intros Hz. unfold binary32_int. cbv zeta.
  assert (Hl : (Z.log2 (Z.abs z) <= 23)%Z).
  { destruct (Z.eq_dec (Z.abs z) 0%Z) as [->|Hnz]; [simpl; lia|].
    assert (Z.log2 (Z.abs z) < 24)%Z by (apply Z.log2_lt_pow2; lia). lia. }
  replace (Z.max 0 (Z.log2 (Z.abs z) - 23)) with 0%Z by lia.
  rewrite Z.mod_1_r. simpl.
  apply Z.ltb_lt. assert (2 ^ 24 < 2 ^ 128)%Z by (apply Z.pow_lt_mono_r; lia). lia.
Qed.

(** The rounding of a small value to binary32 *)
Lemma round_binary32_near (x : R) :
  0 <= x <= 1024 ->
  exists r, round_float binary32 x = FFin r
            /\ 0 <= r /\ Rabs (r - x) <= x / 16777216 + / 1000000000.
Proof.
  intros Hx. destruct (round_float_error binary32 x) as (r & Hr & Herr & Hpos).
  - simpl. lia.
  - simpl. lia.
  - rewrite Rabs_pos_eq by lra. change (fmt_emax binary32 - 1)%Z with 127%Z.
    apply Rle_trans with (bpow 10); [rewrite bpow_IZR by lia; simpl; lra|].
    apply bpow_le. lia.
  - exists r. split; [exact Hr|]. split; [apply Hpos; lra|].
    rewrite (Rabs_pos_eq x) in Herr by lra. revert Herr. bpow_eval. intros Herr. lra.
Qed.

(** The rounding of a small value to binary64 *)
Lemma round_binary64_near (x : R) :
  Rabs x <= 1024 ->
  exists r, round_float binary64 x = FFin r
            /\ Rabs (r - x) <= / 1000000000 /\ (0 <= x -> 0 <= r).
Proof.
  intros Hx. destruct (round_float_error binary64 x) as (r & Hr & Herr & Hpos).
  - simpl. lia.
  - simpl. lia.
  - change (fmt_emax binary64 - 1)%Z with 1023%Z.
    apply Rle_trans with (bpow 10); [rewrite bpow_IZR by lia; simpl; lra|].
    apply bpow_le. lia.
  - exists r. split; [exact Hr|]. split; [|exact Hpos].
    assert (Hm : bpow (- fmt_prec binary64) * Rabs x <= bpow (- fmt_prec binary64) * 1024).
    { apply Rmult_le_compat_l; [left; apply bpow_pos|exact Hx]. }
    revert Herr Hm. bpow_eval. intros Herr Hm. lra.
Qed.

End Curve_binary32.


Section Curve_binary32_samples.
Local Open Scope R_scope.
Import PerStoreFeatureExtractor.

(** The logarithm of a positive [int], as the vector holds it, lies between 0
    and 32. *)
Lemma store_log2_range (c : Z) :
  (1 <= c <= INT32_MAX)%Z ->
  exists b, fo_store_log2 binary32_ops (flog2 (of_int c)) = FFin b /\ 0 <= b <= 32.
Proof.
  intros Hc. assert (H1 : 1 <= IZR c) by (apply IZR_le; lia).
  unfold flog2, of_int.
  replace (Rltb (IZR c) 0) with false by (symmetry; apply Rltb_false; lra).
  replace (Reqb (IZR c) 0) with false by (symmetry; apply Reqb_false; lra).
  assert (Hx0 : 0 <= log2R (IZR c)) by now apply log2R_nonneg.
  assert (Hx1 : log2R (IZR c) <= 31).
  { replace 31 with (IZR 31) by reflexivity. rewrite <- (log2R_bpow 31).
    apply log2R_le; [lra|]. rewrite bpow_IZR by lia. apply IZR_le.
    unfold INT32_MAX in Hc. simpl. lia. }
  cbn [fo_store_log2 binary32_ops fround].
  destruct (round_binary64_near (log2R (IZR c))) as (r1 & -> & He1 & Hp1).
  { rewrite Rabs_pos_eq by lra. lra. }
  specialize (Hp1 Hx0). cbn [fround].
  assert (Hr1 : r1 <= 31 + / 1000000000).
  { revert He1. unfold Rabs. destruct (Rcase_abs (r1 - log2R (IZR c))); intros; lra. }
  destruct (round_binary32_near r1) as (r2 & -> & Hp2 & He2); [lra|].
  exists r2. split; [reflexivity|]. split; [exact Hp2|].
  revert He2. unfold Rabs. destruct (Rcase_abs (r2 - r1)); intros; lra.
Qed.

(** In binary32 the sample point [back * (i + 1) / 10] can exceed [back], but
    by less than the tolerance [1e-4]: the scan stops at the last element. *)
Lemma sample_point_binary32_le_last (l : list cfloat) (b : R) (i : nat) :
  List.last l FNaN = FFin b -> 0 <= b <= 32 -> (i < ARITH_INTENSITY_CURVE_SAMPLE_N)%nat ->
  flt (List.last l FNaN)
    (fo_sub_tolerance binary32_ops (sample_point_with binary32_ops l i)) = false.
Proof.
  intros Hl Hb Hi. unfold sample_point_with. rewrite Hl.
  unfold ARITH_INTENSITY_CURVE_SAMPLE_N in *.
  rewrite (of_int_binary32 (Z.of_nat i + 1)) by (apply binary32_int_small; lia).
  rewrite (of_int_binary32 (Z.of_nat 10)) by reflexivity.
  unfold of_int. set (k := IZR (Z.of_nat i + 1)).
  assert (Hk : 1 <= k <= 10) by (split; apply IZR_le; lia).
  change (IZR (Z.of_nat 10)) with 10.
  cbn [fo_mul fo_div binary32_ops fmul fround].
  assert (Hx1 : 0 <= b * k <= b * 10).
  { split; [apply Rmult_le_pos; lra|apply Rmult_le_compat_l; lra]. }
  destruct (round_binary32_near (b * k)) as (y & -> & Hy0 & Hy); [lra|].
  cbn [fdiv]. replace (Reqb 10 0) with false by (symmetry; apply Reqb_false; lra).
  cbn [fround].
  assert (Hy1 : y <= b * 10 + b * 10 / 16777216 + / 1000000000).
  { revert Hy. unfold Rabs. destruct (Rcase_abs (y - b * k)); intros; lra. }
  destruct (round_binary32_near (y / 10)) as (s & -> & Hs0 & Hs); [lra|].
  assert (Hs1 : s <= y / 10 + y / 10 / 16777216 + / 1000000000).
  { revert Hs. unfold Rabs. destruct (Rcase_abs (s - y / 10)); intros; lra. }
  cbn [fo_sub_tolerance binary32_ops].
  destruct (round_binary64_near (1 / 10000)) as (t & -> & Ht & _).
  { rewrite Rabs_pos_eq by lra. lra. }
  assert (Ht1 : 1 / 10000 - / 1000000000 <= t <= 1 / 10000 + / 1000000000).
  { revert Ht. unfold Rabs. destruct (Rcase_abs (t - 1 / 10000)); intros; lra. }
  unfold fsub. cbn [fneg fadd fround].
  destruct (round_binary64_near (s + - t)) as (d & -> & Hd & _).
  { unfold Rabs. destruct (Rcase_abs (s + - t)); lra. }
  cbn [flt]. apply Rltb_false.
  revert Hd. unfold Rabs. destruct (Rcase_abs (d - (s + - t))); intros; lra.
Qed.

Lemma touch_loops_cur_range (A : AnalyzerOps) buf_accesses rstack :
  forall st st',
    touch_loops A buf_accesses rstack st = Some st' -> rstack <> [] ->
    (ts_cur_compute_ops A st' <= INT32_MAX)%Z.
Proof.
  induction rstack as [|p_for rest IH]; intros st st' H Hne; [congruence|].
  cbn [touch_loops] in H.
  destruct (touch_buffers A _ p_for buf_accesses _) as [[[regions tmp] mem]|];
    simpl in H; [|discriminate].
  destruct rest as [|q rest'].
  - simpl in H. injection H as <-. simpl.
    unfold to_int32, wrap_signed, INT32_MAX.
    pose proof (Z.mod_pos_bound (ts_cur_compute_ops A st * GetLoopExtent p_for + 2 ^ (32 - 1))
                  (2 ^ 32) ltac:(lia)). lia.
  - eapply IH; [exact H|discriminate].
Qed.

End Curve_binary32_samples.

(** In the sampling branch the scan of every sample stops inside
    [compute_ops_list], and the loop returns its 10 values. *)
Lemma curve_loop_binary32_returns (A : AnalyzerOps)
    (buf_accesses : list (N * (Buffer * BufferAccess.t))) (rstack : list ForNode)
    (st ts : PerStoreFeatureExtractor.TouchState A) :
  length (PerStoreFeatureExtractor.ts_mem_bytes_list A st)
  = length (PerStoreFeatureExtractor.ts_compute_ops_list A st) ->
  PerStoreFeatureExtractor.touch_loops A buf_accesses rstack st = Some ts ->
  rstack <> [] ->
  0 < PerStoreFeatureExtractor.ts_cur_compute_ops A ts ->
  let compute_ops_list :=
    stored_list binary32_ops (PerStoreFeatureExtractor.ts_compute_ops_list A ts) in
  let mem_bytes_list :=
    stored_list binary32_ops (PerStoreFeatureExtractor.ts_mem_bytes_list A ts) in
  (forall i, (i < ARITH_INTENSITY_CURVE_SAMPLE_N)%nat ->
     flt (List.last compute_ops_list FNaN)
       (fo_sub_tolerance binary32_ops (sample_point_with binary32_ops compute_ops_list i))
     = false)
  /\ exists values pts,
      curve_loop_with binary32_ops compute_ops_list mem_bytes_list
        (seq 0 ARITH_INTENSITY_CURVE_SAMPLE_N) 0 = Some (values, pts)
      /\ length values = ARITH_INTENSITY_CURVE_SAMPLE_N
      /\ length pts = ARITH_INTENSITY_CURVE_SAMPLE_N
      /\ List.Forall (fun pt => (pt < length compute_ops_list)%nat) pts.
Proof.
  intros Hlen0 Ht Hne Hcur cl mem.
  destruct (touch_loops_lists A buf_accesses _ _ ts Ht) as (Hops & Hmem & Hlast & _ & _).
  specialize (Hlast Hne).
  pose proof (touch_loops_cur_range A buf_accesses _ _ ts Ht Hne) as Hmax.
  destruct (store_log2_range (PerStoreFeatureExtractor.ts_cur_compute_ops A ts))
    as (b & Hb & Hb0); [lia|].
  assert (Hnil : PerStoreFeatureExtractor.ts_compute_ops_list A ts <> []).
  { intros Hnil. rewrite Hnil in Hops. destruct rstack; [congruence|]. simpl in Hops. lia. }
  assert (Hcl : List.last cl FNaN = FFin b).
  { unfold cl. rewrite stored_list_last by exact Hnil. now rewrite Hlast. }
  assert (Hsamples : forall i, (i < ARITH_INTENSITY_CURVE_SAMPLE_N)%nat ->
            flt (List.last cl FNaN)
              (fo_sub_tolerance binary32_ops (sample_point_with binary32_ops cl i))
            = false).
  { intros i Hi. eapply sample_point_binary32_le_last; eauto. }
  split; [exact Hsamples|].
  destruct (curve_loop_with_in_bounds binary32_ops cl mem
              (seq 0 ARITH_INTENSITY_CURVE_SAMPLE_N)) with (pt := 0%nat)
    as (values & pts & Hc & Hv & Hp & Hall).
  - unfold cl, mem. rewrite !stored_list_length. lia.
  - rewrite List.Forall_forall. intros i Hi. apply Hsamples. apply in_seq in Hi. lia.
  - unfold cl. rewrite stored_list_length. destruct rstack; [congruence|].
    simpl in Hops. lia.
  - exists values, pts. rewrite length_seq in Hv, Hp. auto.
Qed.

(** C10: when every enclosing loop has an extent of at least 1 and the store
    visitor takes the sampling branch ([cur_compute_ops > 0] and a non-empty
    list), then in the arithmetic of the machine (binary32 values in the two
    vectors and for the sample point, binary64 for the subtraction of the
    tolerance) the scan of every sample stops at the last element of
    [compute_ops_list] at the latest, the sampling loop runs through its 10
    iterations without reading past the end of the vectors, and at each of
    them [pt < compute_ops_list.size()]. *)
Theorem C10_curve_pointer_in_bounds :
  forall (A : AnalyzerOps) (s : PerStoreFeatureExtractor.t) (mathops : MathOpCounter.t)
         (buf_accesses : list (N * (Buffer * BufferAccess.t)))
         (ts : PerStoreFeatureExtractor.TouchState A),
    List.Forall (fun f => 1 <= GetLoopExtent f)
      (PerStoreFeatureExtractor.for_loop_stack s) ->
    PerStoreFeatureExtractor.touch_loops A buf_accesses
      (rev (PerStoreFeatureExtractor.for_loop_stack s))
      (PerStoreFeatureExtractor.touch_init A s mathops) = Some ts ->
    (PerStoreFeatureExtractor.ts_cur_compute_ops A ts <=? 0)
    || (length (PerStoreFeatureExtractor.ts_compute_ops_list A ts) =? 0)%nat = false ->
    let compute_ops_list :=
      stored_list binary32_ops (PerStoreFeatureExtractor.ts_compute_ops_list A ts) in
    let mem_bytes_list :=
      stored_list binary32_ops (PerStoreFeatureExtractor.ts_mem_bytes_list A ts) in
    (forall i, (i < ARITH_INTENSITY_CURVE_SAMPLE_N)%nat ->
       flt (List.last compute_ops_list FNaN)
         (fo_sub_tolerance binary32_ops (sample_point_with binary32_ops compute_ops_list i))
       = false)
    /\ exists values pts,
        curve_loop_with binary32_ops compute_ops_list mem_bytes_list
          (seq 0 ARITH_INTENSITY_CURVE_SAMPLE_N) 0 = Some (values, pts)
        /\ length values = ARITH_INTENSITY_CURVE_SAMPLE_N
        /\ length pts = ARITH_INTENSITY_CURVE_SAMPLE_N
        /\ List.Forall (fun pt => (pt < length compute_ops_list)%nat) pts.
Proof.
  intros A s mathops accs ts _ Ht Hbranch.
  apply orb_false_iff in Hbranch as [Hcur Hlen].
  apply Z.leb_gt in Hcur. apply Nat.eqb_neq in Hlen.
  apply (curve_loop_binary32_returns A accs
           (rev (PerStoreFeatureExtractor.for_loop_stack s))
           (PerStoreFeatureExtractor.touch_init A s mathops) ts);
    [reflexivity|exact Ht| |exact Hcur].
  intros Hnil. rewrite Hnil in Ht. simpl in Ht. injection Ht as <-. now simpl in Hlen.
Qed.

(** C10 at [for (i, 0, 1024) { B[i] = A[i] + 1.0f }] *)
Lemma C10_curve_pointer_in_bounds_witness :
  let compute_ops_list :=
    stored_list binary32_ops
      (PerStoreFeatureExtractor.ts_compute_ops_list interval_analyzer ex_touch_state) in
  let mem_bytes_list :=
    stored_list binary32_ops
      (PerStoreFeatureExtractor.ts_mem_bytes_list interval_analyzer ex_touch_state) in
  (forall i, (i < ARITH_INTENSITY_CURVE_SAMPLE_N)%nat ->
     flt (List.last compute_ops_list FNaN)
       (fo_sub_tolerance binary32_ops (sample_point_with binary32_ops compute_ops_list i))
     = false)
  /\ exists values pts,
      curve_loop_with binary32_ops compute_ops_list mem_bytes_list
        (seq 0 ARITH_INTENSITY_CURVE_SAMPLE_N) 0 = Some (values, pts)
      /\ length values = ARITH_INTENSITY_CURVE_SAMPLE_N
      /\ length pts = ARITH_INTENSITY_CURVE_SAMPLE_N
      /\ List.Forall (fun pt => (pt < length compute_ops_list)%nat) pts.
Proof.
  apply (C10_curve_pointer_in_bounds interval_analyzer ex_in_loop
           (MathOpCounter.run ex_value_add)
           (map_to_list (PerStoreFeatureExtractor.store_accesses ex_buffer_B ex_value_add [VarE ex_var_i]))
           ex_touch_state).
  - constructor; [vm_compute; discriminate|constructor].
  - vm_compute. reflexivity.
  - vm_compute. reflexivity.
Defined.

(** ** The interpolation in binary32 *)

Section Interpolation_binary32.
Local Open Scope R_scope.

Lemma Rabs_le_inv (x y : R) : Rabs x <= y -> - y <= x <= y.
Proof. unfold Rabs. destruct (Rcase_abs x); lra. Qed.

Lemma mul_bound (u v U V : R) :
  - U <= u <= U -> - V <= v <= V -> - (U * V) <= u * v <= U * V.
Proof. intros Hu Hv. nra. Qed.

Lemma div_bound (u d U dmin : R) :
  - U <= u <= U -> 0 < dmin <= d -> - (U / dmin) <= u / d <= U / dmin.
Proof.
  intros Hu Hd.
  assert (Hi : 0 < / d <= / dmin).
  { split; [apply Rinv_0_lt_compat; lra|apply Rinv_le_contravar; lra]. }
  assert (HU : 0 <= U) by lra.
  unfold Rdiv. nra.
Qed.

Lemma div_lower (a d amin dmax : R) :
  0 <= amin <= a -> 0 < d <= dmax -> amin / dmax <= a / d.
Proof.
  intros Ha Hd.
  assert (Hi : 0 < / dmax <= / d).
  { split; [apply Rinv_0_lt_compat; lra|apply Rinv_le_contravar; lra]. }
  unfold Rdiv. nra.
Qed.

(** The rounding to binary32 of a value of a magnitude of [B] at most *)
Lemma round_binary32_interval (x B : R) :
  - B <= x <= B -> B <= 2048 ->
  exists r, round_float binary32 x = FFin r
            /\ x - (B / 16777216 + / 1000000000) <= r <= x + (B / 16777216 + / 1000000000)
            /\ (0 <= x -> 0 <= r).
Proof.
  intros Hx HB.
  assert (Ha : Rabs x <= B) by (unfold Rabs; destruct (Rcase_abs x); lra).
  destruct (round_float_error binary32 x) as (r & Hr & Herr & Hpos).
  - simpl. lia.
  - simpl. lia.
  - change (fmt_emax binary32 - 1)%Z with 127%Z.
    apply Rle_trans with (bpow 11); [rewrite bpow_IZR by lia; simpl; lra|].
    apply bpow_le. lia.
  - exists r. split; [exact Hr|]. split; [|exact Hpos].
    assert (Hm : bpow (- fmt_prec binary32) * Rabs x <= bpow (- fmt_prec binary32) * B).
    { apply Rmult_le_compat_l; [left; apply bpow_pos|exact Ha]. }
    revert Herr Hm. bpow_eval. intros Herr Hm.
    apply Rabs_le_inv in Herr. lra.
Qed.

Lemma fo_add_binary32 (a b : R) :
  fo_add binary32_ops (FFin a) (FFin b) = round_float binary32 (a + b).
Proof. reflexivity. Qed.

Lemma fo_sub_binary32 (a b : R) :
  fo_sub binary32_ops (FFin a) (FFin b) = round_float binary32 (a - b).
Proof. reflexivity. Qed.

Lemma fo_mul_binary32 (a b : R) :
  fo_mul binary32_ops (FFin a) (FFin b) = round_float binary32 (a * b).
Proof. reflexivity. Qed.

Lemma fo_div_binary32 (a b : R) :
  b <> 0 -> fo_div binary32_ops (FFin a) (FFin b) = round_float binary32 (a / b).
Proof.
  intros Hb. cbn [fo_div binary32_ops fdiv].
  now replace (Reqb b 0) with false by (symmetry; now apply Reqb_false).
Qed.

(** The value of the interpolation between a point below the last element of
    [compute_ops_list] and the last element, at a sample next to the last
    element, is positive. *)
Lemma interpolate_binary32_positive (b1 m1 L m x : R) :
  0 <= b1 <= L - 99 / 100 -> L <= 32 ->
  99 / 100 <= m1 <= 64 -> 99 / 100 <= m <= 64 ->
  L - 1 / 100000 <= x <= L + 1 / 100000 ->
  exists v,
    fo_add binary32_ops (fo_div binary32_ops (FFin b1) (FFin m1))
      (fo_mul binary32_ops
         (fo_div binary32_ops
            (fo_sub binary32_ops (fo_div binary32_ops (FFin L) (FFin m))
               (fo_div binary32_ops (FFin b1) (FFin m1)))
            (fo_sub binary32_ops (FFin L) (FFin b1)))
         (fo_sub binary32_ops (FFin x) (FFin b1)))
    = FFin v /\ 0 < v.
Proof.
  intros Hb1 HL Hm1 Hm Hx.
  rewrite !(fo_div_binary32 b1 m1), (fo_div_binary32 L m), (fo_sub_binary32 L b1),
    (fo_sub_binary32 x b1) by lra.
  (* base *)
  assert (Hq1 : - 32 <= b1 / m1 <= 32 /\ 0 <= b1 / m1).
  { pose proof (div_bound b1 m1 (3101 / 100) (99 / 100) ltac:(lra) ltac:(lra)) as H.
    pose proof (div_lower b1 m1 0 64 ltac:(lra) ltac:(lra)) as H0.
    unfold Rdiv in H0 at 1. rewrite Rmult_0_l in H0. lra. }
  destruct (round_binary32_interval (b1 / m1) 32) as (B & -> & HB & HB0); [lra|lra|].
  specialize (HB0 (proj2 Hq1)).
  (* the quotient at the last element *)
  assert (Hq2 : 99 / 100 / 64 <= L / m <= 33).
  { pose proof (div_bound L m 32 (99 / 100) ltac:(lra) ltac:(lra)) as H.
    pose proof (div_lower L m (99 / 100) 64 ltac:(lra) ltac:(lra)) as H0. lra. }
  destruct (round_binary32_interval (L / m) 33) as (Q & -> & HQ & _); [lra|lra|].
  rewrite fo_sub_binary32.
  destruct (round_binary32_interval (Q - B) 34) as (N & -> & HN & _); [lra|lra|].
  destruct (round_binary32_interval (L - b1) 32) as (D & -> & HD & _); [lra|lra|].
  rewrite fo_div_binary32 by lra.
  assert (HND : - 36 <= N / D <= 36).
  { pose proof (div_bound N D 35 (98 / 100) ltac:(lra) ltac:(lra)) as H. lra. }
  destruct (round_binary32_interval (N / D) 36) as (S & -> & HS & _); [lra|lra|].
  destruct (round_binary32_interval (x - b1) 33) as (E & -> & HE & _); [lra|lra|].
  rewrite fo_mul_binary32.
  assert (HSE : - 2048 <= S * E <= 2048).
  { pose proof (mul_bound S E 37 33 ltac:(lra) ltac:(lra)) as H. lra. }
  destruct (round_binary32_interval (S * E) 2048) as (P & -> & HP & _); [lra|lra|].
  rewrite fo_add_binary32.
  (* S * E is N up to the errors of the slope and of the two differences *)
  assert (Hid : S * E - N = (S - N / D) * E + N / D * (E - D)) by (field; lra).
  pose proof (mul_bound (S - N / D) E (3 / 1000000) 33 ltac:(lra) ltac:(lra)) as Hp1.
  pose proof (mul_bound (N / D) (E - D) 36 (15 / 1000000) ltac:(lra) ltac:(lra)) as Hp2.
  assert (Hsum : 1 / 100 <= B + P <= 2048) by lra.
  destruct (round_binary32_interval (B + P) 2048) as (v & -> & Hv & _); [lra|lra|].
  exists v. split; [reflexivity|]. lra.
Qed.

End Interpolation_binary32.


(** ** The arithmetic intensity curve in binary32 *)

Section Curve_lists.
Import PerStoreFeatureExtractor.
Variable A : AnalyzerOps.

Lemma rstack_product_rev (stack : list ForNode) :
  rstack_product (rev stack) = extent_product stack.
Proof. unfold rstack_product, extent_product. apply fold_left_rev_right. Qed.

Lemma rstack_product_pos (rstack : list ForNode) :
  List.Forall (fun f => 1 <= GetLoopExtent f) rstack -> 1 <= rstack_product rstack.
Proof.
  induction 1 as [|f rest Hf _ IH]; simpl; [lia|].
  change (fold_right (fun f p => p * GetLoopExtent f) 1 rest) with (rstack_product rest).
  nia.
Qed.

(** Without wrap-around [compute_ops_list] holds the logarithms of the
    products [cur_compute_ops] runs through, each of which divides the last. *)
Lemma touch_loops_products buf_accesses rstack :
  forall st st',
    touch_loops A buf_accesses rstack st = Some st' ->
    List.Forall (fun f => 1 <= GetLoopExtent f) rstack ->
    1 <= ts_cur_compute_ops A st ->
    ts_cur_compute_ops A st * rstack_product rstack <= INT32_MAX ->
    exists cs : list Z,
      ts_compute_ops_list A st'
      = ts_compute_ops_list A st ++ ((fun c => flog2 (of_int c)) <$> cs)
      /\ ts_cur_compute_ops A st' = ts_cur_compute_ops A st * rstack_product rstack
      /\ List.Forall (fun c => 1 <= c /\ (c | ts_cur_compute_ops A st')) cs.
Proof.
  induction rstack as [|p_for rest IH]; intros st st' H Hext Hcur Hfit.
  - simpl in H. injection H as <-. exists []. simpl. rewrite app_nil_r.
    split; [reflexivity|]. split; [lia|constructor].
  - cbn [touch_loops] in H.
    destruct (touch_buffers A _ p_for buf_accesses _) as [[[regions tmp] mem]|];
      simpl in H; [|discriminate].
    apply List.Forall_cons_iff in Hext as [Hp Hrest].
    pose proof (rstack_product_pos rest Hrest) as Hpos.
    change (rstack_product (p_for :: rest))
      with (rstack_product rest * GetLoopExtent p_for) in *.
    assert (Hsmall : to_int32 (ts_cur_compute_ops A st * GetLoopExtent p_for)
                     = ts_cur_compute_ops A st * GetLoopExtent p_for).
    { apply to_int32_small. unfold INT32_MIN, INT32_MAX in *. nia. }
    rewrite Hsmall in H.
    apply IH in H as (cs & Hl & Hc & Hall); simpl; [|exact Hrest|nia|nia].
    simpl in Hl, Hc.
    exists (ts_cur_compute_ops A st * GetLoopExtent p_for :: cs).
    split; [|split].
    + rewrite Hl, <- app_assoc. reflexivity.
    + rewrite Hc. lia.
    + constructor; [|exact Hall]. split; [nia|].
      rewrite Hc. apply Z.divide_factor_l.
Qed.

End Curve_lists.

Section Curve_binary32_values.
Local Open Scope R_scope.

Lemma log2R_double (x : R) : 0 < x -> log2R (2 * x) = 1 + log2R x.
Proof.
  intros Hx. unfold log2R. rewrite ln_mult by lra. pose proof ln2_pos. field. lra.
Qed.

Lemma log2R_2 : log2R 2 = 1.
Proof. replace 2 with (2 * 1) by lra. rewrite log2R_double, log2R_1 by lra. lra. Qed.

(** The logarithm of a positive integer, as the vector holds it, is next to
    the real logarithm. *)
Lemma store_log2_near (c : Z) :
  (1 <= c <= INT64_MAX)%Z ->
  exists b, fo_store_log2 binary32_ops (flog2 (of_int c)) = FFin b
            /\ log2R (IZR c) - 1 / 100000 <= b <= log2R (IZR c) + 1 / 100000
            /\ 0 <= b.
Proof.
  intros Hc. assert (H1 : 1 <= IZR c) by (apply IZR_le; lia).
  unfold flog2, of_int.
  replace (Rltb (IZR c) 0) with false by (symmetry; apply Rltb_false; lra).
  replace (Reqb (IZR c) 0) with false by (symmetry; apply Reqb_false; lra).
  assert (Hx0 : 0 <= log2R (IZR c)) by now apply log2R_nonneg.
  assert (Hx1 : log2R (IZR c) <= 63).
  { replace 63 with (IZR 63) by reflexivity. rewrite <- (log2R_bpow 63).
    apply log2R_le; [lra|]. rewrite bpow_IZR by lia. apply IZR_le.
    unfold INT64_MAX in Hc. simpl. lia. }
  cbn [fo_store_log2 binary32_ops fround].
  destruct (round_binary64_near (log2R (IZR c))) as (r1 & -> & He1 & Hp1).
  { rewrite Rabs_pos_eq by lra. lra. }
  specialize (Hp1 Hx0). cbn [fround]. apply Rabs_le_inv in He1.
  destruct (round_binary32_interval r1 64) as (r2 & -> & He2 & Hp2); [lra|lra|].
  exists r2. split; [reflexivity|]. split; [lra|]. apply Hp2. lra.
Qed.

(** The logarithms of two integers of which one is at least twice the other
    are apart in the vector *)
Lemma store_log2_gap (c C : Z) (b L : R) :
  (1 <= c)%Z -> (2 * c <= C <= INT64_MAX)%Z ->
  fo_store_log2 binary32_ops (flog2 (of_int c)) = FFin b ->
  fo_store_log2 binary32_ops (flog2 (of_int C)) = FFin L ->
  b <= L - 99 / 100.
Proof.
  intros Hc HC Hb HL.
  destruct (store_log2_near c) as (b' & Hb' & Hbn & _); [lia|].
  destruct (store_log2_near C) as (L' & HL' & HLn & _); [lia|].
  rewrite Hb in Hb'. injection Hb' as <-. rewrite HL in HL'. injection HL' as <-.
  assert (H1 : 1 <= IZR c) by (apply IZR_le; lia).
  assert (Hm : log2R (2 * IZR c) <= log2R (IZR C)).
  { apply log2R_le; [lra|]. rewrite <- mult_IZR. apply IZR_le. lia. }
  rewrite log2R_double in Hm by lra. lra.
Qed.

Lemma store_log2_1 : fo_store_log2 binary32_ops (flog2 (of_int 1)) = FFin 0.
Proof.
  rewrite flog2_of_int_1. cbn [fo_store_log2 binary32_ops fround].
  rewrite round_float_0. apply round_float_0.
Qed.

End Curve_binary32_values.


Section Curve_binary32_loop.
Local Open Scope R_scope.

(** Where the scan stops: at the first element from [pt] on that is not below
    the sample point less the tolerance *)
Lemma advance_pt_with_spec (ops : FloatOps) (rest : list cfloat) (x : cfloat) :
  forall pt pt',
    advance_pt_with ops rest pt x = Some pt' ->
    exists j : nat,
      pt' = (pt + j)%nat
      /\ (exists v, rest !! j = Some v /\ flt v (fo_sub_tolerance ops x) = false)
      /\ (forall j', (j' < j)%nat ->
            exists v, rest !! j' = Some v /\ flt v (fo_sub_tolerance ops x) = true).
Proof.
  induction rest as [|v rest IH]; intros pt pt' H; simpl in H; [discriminate|].
  destruct (flt v (fo_sub_tolerance ops x)) eqn:E.
  - apply IH in H as (j & -> & Hstop & Hbelow). exists (S j).
    split; [lia|]. split; [exact Hstop|].
    intros [|j'] Hj; [exists v; now split|]. apply Hbelow. lia.
  - injection H as <-. exists 0%nat. split; [lia|]. split.
    + exists v. now split.
    + intros j' Hj. lia.
Qed.

(** The last sample point, and the value the scan compares with *)
Lemma sample_point_binary32_last (l : list cfloat) (L : R) :
  List.last l FNaN = FFin L -> 0 <= L <= 32 ->
  exists x d,
    sample_point_with binary32_ops l 9 = FFin x
    /\ L - 1 / 100000 <= x <= L + 1 / 100000
    /\ fo_sub_tolerance binary32_ops (FFin x) = FFin d
    /\ L - 2 / 10000 <= d.
Proof.
  intros Hl HL. unfold sample_point_with. rewrite Hl.
  rewrite (of_int_binary32 (Z.of_nat 9 + 1)) by reflexivity.
  rewrite (of_int_binary32 (Z.of_nat ARITH_INTENSITY_CURVE_SAMPLE_N)) by reflexivity.
  unfold of_int. change (IZR (Z.of_nat 9 + 1)) with 10.
  change (IZR (Z.of_nat ARITH_INTENSITY_CURVE_SAMPLE_N)) with 10.
  rewrite fo_mul_binary32.
  destruct (round_binary32_interval (L * 10) 320) as (y & -> & Hy & _); [lra|lra|].
  rewrite fo_div_binary32 by lra.
  destruct (round_binary32_interval (y / 10) 33) as (s & -> & Hs & _); [lra|lra|].
  destruct (round_binary64_near (1 / 10000)) as (t & Ht' & Ht & _).
  { rewrite Rabs_pos_eq by lra. lra. }
  apply Rabs_le_inv in Ht.
  destruct (round_binary64_near (s + - t)) as (d & Hd' & Hd & _).
  { unfold Rabs. destruct (Rcase_abs (s + - t)); lra. }
  apply Rabs_le_inv in Hd.
  exists s, d. split; [reflexivity|]. split; [lra|]. split; [|lra].
  cbn [fo_sub_tolerance binary32_ops]. rewrite Ht'. unfold fsub.
  cbn [fneg fadd fround]. exact Hd'.
Qed.

Section Lists.
Variables (cl mem : list cfloat) (L : R).
Hypothesis Hlen : length mem = length cl.
Hypothesis Hlast : List.last cl FNaN = FFin L.
Hypothesis HL : 99 / 100 <= L <= 32.
Hypothesis Hcl :
  List.Forall (fun v => exists b, v = FFin b /\ 0 <= b /\ (b = L \/ b <= L - 99 / 100)) cl.
Hypothesis Hmem :
  List.Forall (fun v => exists m, v = FFin m /\ 99 / 100 <= m <= 64) mem.

Lemma cl_lookup (j : nat) (v : cfloat) :
  cl !! j = Some v -> exists b, v = FFin b /\ 0 <= b /\ (b = L \/ b <= L - 99 / 100).
Proof.
  intros H. apply (proj1 (List.Forall_forall _ _) Hcl), list_elem_of_In.
  eapply list_elem_of_lookup_2; eauto.
Qed.

Lemma mem_lookup (j : nat) :
  (j < length cl)%nat -> exists m, mem !! j = Some (FFin m) /\ 99 / 100 <= m <= 64.
Proof.
  intros Hj. destruct (lookup_lt_is_Some_2 mem j ltac:(lia)) as [v Hv].
  assert (Hin : In v mem) by (apply list_elem_of_In; eapply list_elem_of_lookup_2; eauto).
  destruct (proj1 (List.Forall_forall _ _) Hmem v Hin) as (m & -> & Hm).
  exists m. now split.
Qed.

Lemma advance_below_last (i pt pt' : nat) :
  (i < ARITH_INTENSITY_CURVE_SAMPLE_N)%nat -> below_last cl L pt ->
  advance_pt_with binary32_ops (drop pt cl) pt (sample_point_with binary32_ops cl i)
  = Some pt' ->
  below_last cl L pt' /\ (pt' < length cl)%nat.
Proof.
  intros Hi Hinv H.
  apply advance_pt_with_spec in H as (j & -> & (v & Hv & _) & Hbelow).
  rewrite lookup_drop in Hv. split; [|now apply lookup_lt_Some in Hv].
  destruct j as [|j]; [now rewrite Nat.add_0_r|].
  destruct (Hbelow j ltac:(lia)) as (w & Hw & Hflt).
  rewrite lookup_drop in Hw.
  replace (pt + S j)%nat with (S (pt + j)) by lia. cbn [below_last].
  destruct (cl_lookup _ _ Hw) as (b & -> & Hb0 & Hb).
  exists b. split; [exact Hw|]. split; [exact Hb0|].
  destruct Hb as [->|Hb]; [|exact Hb]. exfalso.
  pose proof (sample_point_binary32_le_last cl L i Hlast ltac:(lra) Hi) as Hstop.
  rewrite Hlast in Hstop. congruence.
Qed.

(** The value of the last sample is positive. *)
Lemma last_sample_positive (pt : nat) (values : list cfloat) (pts : list nat) :
  below_last cl L pt ->
  curve_loop_with binary32_ops cl mem [9%nat] pt = Some (values, pts) ->
  exists v, values = [FFin v] /\ 0 < v.
Proof.
  intros Hinv H. cbn [curve_loop_with] in H. cbv zeta in H.
  destruct (advance_pt_with binary32_ops (drop pt cl) pt
              (sample_point_with binary32_ops cl 9)) as [pt'|] eqn:Ea;
    cbn [mbind option_bind] in H; [|discriminate].
  destruct (advance_below_last 9 pt pt' ltac:(unfold ARITH_INTENSITY_CURVE_SAMPLE_N; lia)
              Hinv Ea) as [Hinv' Hpt'].
  apply advance_pt_with_spec in Ea as (j & Hj & (v0 & Hv0 & Hstop) & _).
  rewrite lookup_drop, <- Hj in Hv0.
  destruct (sample_point_binary32_last cl L Hlast ltac:(lra)) as (x & d & Hx & Hxn & Hd & Hdn).
  rewrite Hx in Hstop, H. rewrite Hd in Hstop.
  destruct (cl_lookup _ _ Hv0) as (b0 & -> & _ & Hb0).
  cbn [flt] in Hstop. apply Rltb_false in Hstop.
  assert (HbL : b0 = L) by (destruct Hb0 as [->|Hb0]; lra). subst b0.
  destruct (mem_lookup pt' Hpt') as (m & Hm & Hmr).
  unfold interpolate_with in H. destruct pt' as [|p1].
  - rewrite Hv0, Hm in H. cbn [mbind option_bind] in H.
    rewrite fo_div_binary32 in H by lra.
    pose proof (div_lower L m (99 / 100) 64 ltac:(lra) ltac:(lra)) as Hq.
    pose proof (div_bound L m 32 (99 / 100) ltac:(lra) ltac:(lra)) as Hq'.
    destruct (round_binary32_interval (L / m) 33) as (v & Hv' & Hv & _); [lra|lra|].
    rewrite Hv' in H. injection H as <- _.
    exists v. split; [reflexivity|lra].
  - destruct Hinv' as (b1 & Hb1 & Hb1r).
    destruct (mem_lookup p1 ltac:(lia)) as (m1 & Hm1 & Hm1r).
    rewrite Hb1, Hm1, Hv0, Hm in H. cbn [mbind option_bind] in H. cbv zeta in H.
    destruct (interpolate_binary32_positive b1 m1 L m x) as (v & Hv' & Hv); try lra.
    rewrite Hv' in H. injection H as <- _.
    exists v. split; [reflexivity|exact Hv].
Qed.

Lemma curve_loop_last_positive (samples : list nat) :
  List.Forall (fun i => (i < ARITH_INTENSITY_CURVE_SAMPLE_N)%nat) samples ->
  forall pt values pts,
    below_last cl L pt ->
    curve_loop_with binary32_ops cl mem (samples ++ [9%nat]) pt = Some (values, pts) ->
    exists v, List.last values (FFin 0) = FFin v /\ 0 < v.
Proof.
  induction 1 as [|i samples Hi _ IH]; intros pt values pts Hinv H.
  - apply last_sample_positive in H as (v & -> & Hv); [|exact Hinv].
    exists v. now split.
  - cbn [app curve_loop_with] in H.
    destruct (advance_pt_with _ _ _ _) as [pt'|] eqn:Ea; simpl in H; [|discriminate].
    destruct (advance_below_last i pt pt' Hi Hinv Ea) as [Hinv' _].
    destruct (interpolate_with _ _ _ _ _) as [value|]; simpl in H; [|discriminate].
    destruct (curve_loop_with _ _ _ _ pt') as [[vs ps]|] eqn:El; simpl in H;
      [|discriminate].
    injection H as <- _.
    destruct (IH pt' vs ps Hinv' El) as (v & Hv & Hv0).
    exists v. split; [|exact Hv0].
    destruct vs as [|w vs]; [simpl in Hv; injection Hv as <-; lra|exact Hv].
Qed.

End Lists.

(** When [compute_ops_list] holds zeros only and [mem_bytes_list] only
    logarithms of more than one byte, every sample is [0 / mem_bytes_list[0]],
    which is 0. *)
Lemma curve_loop_binary32_zeros (cl mem : list cfloat) (samples : list nat) :
  List.Forall (fun i => (i < ARITH_INTENSITY_CURVE_SAMPLE_N)%nat) samples ->
  cl <> [] -> length mem = length cl ->
  List.Forall (fun v => v = FFin 0) cl ->
  List.Forall (fun v => exists m, v = FFin m /\ 99 / 100 <= m <= 64) mem ->
  curve_loop_with binary32_ops cl mem samples 0
  = Some (repeat (FFin 0) (length samples), repeat 0%nat (length samples)).
Proof.
  intros Hsamples Hne Hlen Hcl Hmem.
  destruct cl as [|c0 cl']; [congruence|]. destruct mem as [|m0 mem']; [discriminate|].
  assert (Hlast : List.last (c0 :: cl') FNaN = FFin 0).
  { apply (proj1 (List.Forall_forall _ _) Hcl).
    destruct (exists_last Hne) as (l' & a & E). rewrite E, last_last.
    apply in_or_app. right. now left. }
  apply List.Forall_cons_iff in Hcl as [-> _].
  apply List.Forall_cons_iff in Hmem as [(m & -> & Hm) _].
  induction Hsamples as [|i samples Hi _ IH]; [reflexivity|].
  cbn [curve_loop_with drop length repeat].
  assert (Hs : sample_point_with binary32_ops (FFin 0 :: cl') i = FFin 0).
  { unfold sample_point_with. rewrite Hlast.
    unfold ARITH_INTENSITY_CURVE_SAMPLE_N in *.
    rewrite (of_int_binary32 (Z.of_nat i + 1)) by (apply binary32_int_small; lia).
    rewrite (of_int_binary32 (Z.of_nat 10)) by reflexivity.
    unfold of_int. rewrite fo_mul_binary32, Rmult_0_l, round_float_0.
    rewrite fo_div_binary32 by (apply not_0_IZR; discriminate).
    unfold Rdiv. rewrite Rmult_0_l. apply round_float_0. }
  rewrite Hs. cbn [advance_pt_with fo_sub_tolerance binary32_ops].
  destruct (round_binary64_near (1 / 10000)) as (t & -> & Ht & _).
  { rewrite Rabs_pos_eq by lra. lra. }
  apply Rabs_le_inv in Ht. unfold fsub. cbn [fneg fadd fround].
  destruct (round_binary64_near (0 + - t)) as (d & -> & Hd & _).
  { unfold Rabs. destruct (Rcase_abs (0 + - t)); lra. }
  apply Rabs_le_inv in Hd. cbn [flt].
  replace (Rltb 0 d) with false by (symmetry; apply Rltb_false; lra).
  cbn [mbind option_bind interpolate_with lookup list_lookup].
  rewrite fo_div_binary32 by lra. unfold Rdiv. rewrite Rmult_0_l, round_float_0.
  rewrite IH. reflexivity.
Qed.

End Curve_binary32_loop.


Section Curve_of_a_store.
Import PerStoreFeatureExtractor.

Lemma float_ops_nonneg (e : PrimExpr) : 0 <= MathOpCounter.float_ops (MathOpCounter.run e).
Proof.
  destruct (VisitExpr_accumulates e MathOpCounter.init) as (_ & _ & _ & Hn).
  assert (H0 : List.Forall (fun n => 0 <= n) (counters MathOpCounter.init))
    by (unfold counters, MathOpCounter.init; simpl; repeat constructor; lia).
  specialize (Hn H0). fold (MathOpCounter.run e) in Hn.
  unfold counters in Hn. unfold MathOpCounter.float_ops.
  repeat (apply List.Forall_cons_iff in Hn as [? Hn]). lia.
Qed.

Lemma last_repeat_zero (n : nat) : List.last (repeat (FFin 0) n) (FFin 0) = FFin 0.
Proof.
  induction n as [|n IH]; [reflexivity|]. simpl. destruct n; [reflexivity|exact IH].
Qed.

(** The logarithm of more than one byte, as the vector holds it, is a finite
    value of at least 0.99. *)
Lemma stored_more_than_one_byte (l : list cfloat) :
  List.Forall more_than_one_byte l ->
  List.Forall (fun v => exists m, v = FFin m /\ (99 / 100 <= m <= 64)%R)
    (stored_list binary32_ops l).
Proof.
  intros Hbytes. unfold stored_list. rewrite List.Forall_forall. intros v Hv'.
  apply list_elem_of_In, list_elem_of_fmap in Hv' as (x & -> & Hx).
  apply list_elem_of_In in Hx.
  destruct (proj1 (List.Forall_forall _ _) Hbytes x Hx) as (m & Hm & ->).
  destruct (store_log2_near m) as (b & -> & Hb & _); [lia|].
  exists b. split; [reflexivity|].
  assert (H2 : (2 <= IZR m)%R) by (apply IZR_le; lia).
  assert (Hlo : (log2R 2 <= log2R (IZR m))%R) by (apply log2R_le; lra).
  rewrite log2R_2 in Hlo.
  assert (Hhi : (log2R (IZR m) <= 63)%R).
  { replace 63%R with (IZR 63) by reflexivity. rewrite <- (log2R_bpow 63).
    apply log2R_le; [lra|]. rewrite bpow_IZR by lia. apply IZR_le.
    unfold INT64_MAX in Hm. simpl. lia. }
  lra.
Qed.

(** C4 (amended): the curve of a store has exactly 10 entries.  When every
    enclosing loop has an extent of at least 1, the product of the number of
    floating-point ops and of these extents fits [int], and at every
    enclosing loop the accesses touch more than one byte, then in binary32
    arithmetic all 10 entries are zero if and only if the value of the store
    contains no floating-point op, or the store has no enclosing loop, or the
    value holds one floating-point op and every enclosing loop has the extent
    1 (the product is 1). *)
Theorem C4_arith_intensity_curve :
  forall (A : AnalyzerOps) (s : PerStoreFeatureExtractor.t) (value : PrimExpr)
         (buf_accesses : list (N * (Buffer * BufferAccess.t)))
         (ts : PerStoreFeatureExtractor.TouchState A),
    touch_loops A buf_accesses (rev (for_loop_stack s))
      (touch_init A s (MathOpCounter.run value)) = Some ts ->
    exists curve,
      compute_curve_with binary32_ops (ts_cur_compute_ops A ts)
        (stored_list binary32_ops (ts_compute_ops_list A ts))
        (stored_list binary32_ops (ts_mem_bytes_list A ts)) = Some curve
      /\ length curve = 10%nat
      /\ (List.Forall (fun f => 1 <= GetLoopExtent f) (for_loop_stack s) ->
          MathOpCounter.float_ops (MathOpCounter.run value)
          * extent_product (for_loop_stack s) <= INT32_MAX ->
          List.Forall more_than_one_byte (ts_mem_bytes_list A ts) ->
          (curve = repeat (FFin 0) 10
           <-> MathOpCounter.float_ops (MathOpCounter.run value) = 0
               \/ for_loop_stack s = []
               \/ MathOpCounter.float_ops (MathOpCounter.run value)
                  * extent_product (for_loop_stack s) = 1)).
Proof.
  intros A s value buf_accesses ts Ht.
  set (fo := MathOpCounter.float_ops (MathOpCounter.run value)).
  pose proof (float_ops_nonneg value) as Hfo. fold fo in Hfo.
  destruct (touch_loops_lists A _ _ _ _ Ht) as (Hops & Hmemlen & Hlast & Hzero & Hnil).
  simpl in Hops, Hmemlen.
  unfold compute_curve_with.
  destruct ((ts_cur_compute_ops A ts <=? 0)
            || (length (stored_list binary32_ops (ts_compute_ops_list A ts)) =? 0)%nat)
    eqn:Hbranch.
  - (* the zero branch *)
    exists (repeat (FFin 0) ARITH_INTENSITY_CURVE_SAMPLE_N).
    split; [reflexivity|]. split; [reflexivity|].
    intros Hext Hfit _. split; [|reflexivity]. intros _.
    destruct (Z.eq_dec fo 0) as [Hz|Hnz]; [now left|]. right.
    destruct (for_loop_stack s) as [|f0 stack'] eqn:Es; [now left|]. exfalso.
    rewrite <- Es in *.
    assert (Hrext : List.Forall (fun f => 1 <= GetLoopExtent f) (rev (for_loop_stack s))).
    { rewrite List.Forall_forall in Hext |- *. intros f Hf. apply Hext. now apply in_rev. }
    pose proof (rstack_product_pos _ Hrext) as Hpos.
    rewrite rstack_product_rev in Hpos.
    assert (Hfo32 : to_int32 fo = fo).
    { apply to_int32_small. unfold INT32_MIN, INT32_MAX in *. nia. }
    destruct (touch_loops_products A _ _ _ _ Ht Hrext) as (cs & Hl & Hc & _).
    + simpl. fold fo. rewrite Hfo32. lia.
    + simpl. fold fo. rewrite Hfo32, rstack_product_rev. exact Hfit.
    + simpl in Hc. fold fo in Hc. rewrite Hfo32, rstack_product_rev in Hc.
      apply orb_true_iff in Hbranch as [Hb|Hb].
      * apply Z.leb_le in Hb. nia.
      * apply Nat.eqb_eq in Hb. rewrite stored_list_length, Hops, length_rev, Es in Hb.
        simpl in Hb. lia.
  - (* the sampling branch *)
    apply orb_false_iff in Hbranch as [Hcur Hlen].
    apply Z.leb_gt in Hcur. apply Nat.eqb_neq in Hlen.
    rewrite stored_list_length in Hlen.
    assert (Hne : rev (for_loop_stack s) <> []).
    { intros E. rewrite E in Hops. simpl in Hops. lia. }
    destruct (curve_loop_binary32_returns A buf_accesses (rev (for_loop_stack s))
                (touch_init A s (MathOpCounter.run value)) ts eq_refl Ht Hne Hcur)
      as (_ & values & pts & Hc & Hv & _).
    rewrite Hc. exists values. split; [reflexivity|]. split; [exact Hv|].
    intros Hext Hfit Hbytes.
    assert (Hrext : List.Forall (fun f => 1 <= GetLoopExtent f) (rev (for_loop_stack s))).
    { rewrite List.Forall_forall in Hext |- *. intros f Hf. apply Hext. now apply in_rev. }
    pose proof (rstack_product_pos _ Hrext) as Hpos.
    rewrite rstack_product_rev in Hpos.
    assert (Hfo32 : to_int32 fo = fo).
    { apply to_int32_small. unfold INT32_MIN, INT32_MAX in *. nia. }
    assert (Hfo1 : 1 <= fo).
    { destruct (Z.eq_dec fo 0) as [Hz|Hnz]; [|lia].
      rewrite Hzero in Hcur; [lia|]. simpl. fold fo. now rewrite Hz. }
    destruct (touch_loops_products A _ _ _ _ Ht Hrext) as (cs & Hl & HC & Hcs).
    { simpl. fold fo. rewrite Hfo32. lia. }
    { simpl. fold fo. rewrite Hfo32, rstack_product_rev. exact Hfit. }
    simpl in Hl, HC. fold fo in HC. rewrite Hfo32, rstack_product_rev in HC.
    set (C := ts_cur_compute_ops A ts) in *.
    pose proof (stored_more_than_one_byte _ Hbytes) as Hmem.
    assert (Hnil' : ts_compute_ops_list A ts <> []).
    { intros E. now rewrite E in Hlen. }
    destruct (Z.eq_dec (fo * extent_product (for_loop_stack s)) 1) as [Hone|Hmore].
    + (* one op under loops of the extent 1: the list holds zeros *)
      assert (Hzeros : List.Forall (fun v => v = FFin 0)
                         (stored_list binary32_ops (ts_compute_ops_list A ts))).
      { rewrite Hl. unfold stored_list. rewrite List.Forall_forall. intros v Hv'.
        apply list_elem_of_In, list_elem_of_fmap in Hv' as (x & -> & Hx).
        apply list_elem_of_fmap in Hx as (c & -> & Hcin).
        apply list_elem_of_In in Hcin.
        destruct (proj1 (List.Forall_forall _ _) Hcs c Hcin) as (Hc1 & Hdiv).
        rewrite HC, Hone in Hdiv. apply Z.divide_1_r_nonneg in Hdiv; [|lia].
        subst c. apply store_log2_1. }
      rewrite (curve_loop_binary32_zeros _ _ (seq 0 ARITH_INTENSITY_CURVE_SAMPLE_N))
        in Hc.
      * injection Hc as <- _. split; [auto|reflexivity].
      * rewrite List.Forall_forall. intros i Hi. apply in_seq in Hi. lia.
      * intros E. apply (f_equal length) in E. rewrite stored_list_length in E.
        simpl in E. lia.
      * rewrite !stored_list_length. lia.
      * exact Hzeros.
      * exact Hmem.
    + (* the last sample is positive *)
      assert (HC2 : 2 <= C <= INT32_MAX) by (unfold C in *; nia).
      destruct (store_log2_near C) as (L & HL & HLn & _);
        [unfold INT32_MAX, INT64_MAX in *; lia|].
      assert (HL1 : (1 <= log2R (IZR C) <= 31)%R).
      { split.
        - rewrite <- log2R_2. apply log2R_le; [lra|]. apply IZR_le. lia.
        - replace 31%R with (IZR 31) by reflexivity. rewrite <- (log2R_bpow 31).
          apply log2R_le; [apply IZR_lt; lia|]. rewrite bpow_IZR by lia. apply IZR_le.
          unfold INT32_MAX in HC2. simpl. lia. }
      destruct (curve_loop_last_positive
                  (stored_list binary32_ops (ts_compute_ops_list A ts))
                  (stored_list binary32_ops (ts_mem_bytes_list A ts)) L)
        with (samples := seq 0 9) (pt := 0%nat) (values := values) (pts := pts)
        as (v & Hlastv & Hv0).
      * rewrite !stored_list_length. lia.
      * rewrite stored_list_last by exact Hnil'. rewrite Hlast by exact Hne. exact HL.
      * lra.
      * rewrite Hl. unfold stored_list. rewrite List.Forall_forall. intros x Hx.
        apply list_elem_of_In, list_elem_of_fmap in Hx as (y & -> & Hy).
        apply list_elem_of_fmap in Hy as (c & -> & Hcin).
        apply list_elem_of_In in Hcin.
        destruct (proj1 (List.Forall_forall _ _) Hcs c Hcin) as (Hc1 & Hdiv).
        fold C in Hdiv.
        assert (HcC : c <= C) by (apply Z.divide_pos_le; [lia|exact Hdiv]).
        destruct (store_log2_near c) as (b & Hb & _ & Hb0).
        { unfold INT32_MAX, INT64_MAX in *. lia. }
        exists b. split; [exact Hb|]. split; [exact Hb0|].
        destruct (Z.eq_dec c C) as [->|Hneq].
        -- left. rewrite Hb in HL. now injection HL.
        -- right. apply (store_log2_gap c C b L); try assumption.
           destruct Hdiv as (q & Hq).
           assert (Hq2 : 2 <= q) by nia.
           unfold INT32_MAX, INT64_MAX in *. nia.
      * exact Hmem.
      * rewrite List.Forall_forall. intros i Hi. apply in_seq in Hi.
        unfold ARITH_INTENSITY_CURVE_SAMPLE_N. lia.
      * exact I.
      * exact Hc.
      * split.
        -- intros E. rewrite E, last_repeat_zero in Hlastv. injection Hlastv as <-.
           lra.
        -- intros [Hz|[Hs|H1]]; [lia| |contradiction].
           rewrite Hs in Hne. now simpl in Hne.
Qed.


(** With the exact arithmetic the curve is the one the walk leaves in the
    feature set. *)
Lemma compute_curve_with_exact (cur : Z) (cl mem : list cfloat) :
  compute_curve_with exact_ops cur cl mem = compute_curve cur cl mem.
Proof. unfold compute_curve_with, compute_curve. now rewrite curve_loop_with_exact. Qed.

Lemma ex_unit_touch :
  touch_loops interval_analyzer
    (map_to_list (store_accesses ex_buffer_B ex_value_add [VarE ex_var_i]))
    (rev (for_loop_stack ex_in_unit_loop))
    (touch_init interval_analyzer ex_in_unit_loop (MathOpCounter.run ex_value_add))
  = Some ex_unit_touch_state.
Proof. vm_compute. reflexivity. Qed.

(** The curve of [B[i] = A[i] + 1.0f] under a loop of the extent 1 *)
Lemma ex_unit_curve :
  compute_curve_with binary32_ops (ts_cur_compute_ops _ ex_unit_touch_state)
    (stored_list binary32_ops (ts_compute_ops_list _ ex_unit_touch_state))
    (stored_list binary32_ops (ts_mem_bytes_list _ ex_unit_touch_state))
  = Some (repeat (FFin 0) 10).
Proof.
  replace (ts_cur_compute_ops _ ex_unit_touch_state) with 1
    by (vm_compute; reflexivity).
  replace (ts_compute_ops_list _ ex_unit_touch_state) with [flog2 (of_int 1)]
    by (vm_compute; reflexivity).
  replace (ts_mem_bytes_list _ ex_unit_touch_state) with [flog2 (of_int 8)]
    by (vm_compute; reflexivity).
  unfold compute_curve_with. cbn [Z.leb Z.compare orb length stored_list fmap list_fmap Nat.eqb].
  rewrite (curve_loop_binary32_zeros _ _ (seq 0 ARITH_INTENSITY_CURVE_SAMPLE_N)).
  - reflexivity.
  - rewrite List.Forall_forall. intros i Hi. apply in_seq in Hi. lia.
  - discriminate.
  - reflexivity.
  - constructor; [apply store_log2_1|constructor].
  - apply (stored_more_than_one_byte [flog2 (of_int 8)]).
    constructor; [|constructor]. exists 8. split; [|reflexivity].
    unfold INT64_MAX. lia.
Qed.

(** C4, as stated, fails in the direction from zeros to its cause.  In
    [for (i, 0, 1) { B[i] = A[i] + 1.0f }] the value has one floating-point op
    and the store has one enclosing loop, and yet the 10 entries are zero
    ([compute_ops_list] is [[log2(1)]], so every sample is
    [0 / log2(mem_bytes) = 0]).  They are zero as well under a loop of the
    extent 0, and under two loops of the extent 65536, where
    [cur_compute_ops] wraps around to 0. *)
Lemma C4_unit_extent_counterexample :
  MathOpCounter.float_ops (MathOpCounter.run ex_value_add) = 1
  /\ (length (for_loop_stack ex_in_unit_loop) = 1%nat
      /\ touch_loops interval_analyzer
           (map_to_list (store_accesses ex_buffer_B ex_value_add [VarE ex_var_i]))
           (rev (for_loop_stack ex_in_unit_loop))
           (touch_init interval_analyzer ex_in_unit_loop (MathOpCounter.run ex_value_add))
         = Some ex_unit_touch_state
      /\ compute_curve_with binary32_ops (ts_cur_compute_ops _ ex_unit_touch_state)
           (stored_list binary32_ops (ts_compute_ops_list _ ex_unit_touch_state))
           (stored_list binary32_ops (ts_mem_bytes_list _ ex_unit_touch_state))
         = Some (repeat (FFin 0) 10))
  /\ (for_loop_stack ex_in_empty_loop <> []
      /\ touch_loops interval_analyzer
           (map_to_list (store_accesses ex_buffer_B ex_value_add [VarE ex_var_i]))
           (rev (for_loop_stack ex_in_empty_loop))
           (touch_init interval_analyzer ex_in_empty_loop (MathOpCounter.run ex_value_add))
         = Some ex_empty_touch_state
      /\ compute_curve_with binary32_ops (ts_cur_compute_ops _ ex_empty_touch_state)
           (stored_list binary32_ops (ts_compute_ops_list _ ex_empty_touch_state))
           (stored_list binary32_ops (ts_mem_bytes_list _ ex_empty_touch_state))
         = Some (repeat (FFin 0) 10))
  /\ (for_loop_stack ex_in_big_nest <> []
      /\ touch_loops interval_analyzer
           (map_to_list (store_accesses ex_buffer_B ex_value_add [VarE ex_var_i]))
           (rev (for_loop_stack ex_in_big_nest))
           (touch_init interval_analyzer ex_in_big_nest (MathOpCounter.run ex_value_add))
         = Some ex_big_touch_state
      /\ compute_curve_with binary32_ops (ts_cur_compute_ops _ ex_big_touch_state)
           (stored_list binary32_ops (ts_compute_ops_list _ ex_big_touch_state))
           (stored_list binary32_ops (ts_mem_bytes_list _ ex_big_touch_state))
         = Some (repeat (FFin 0) 10)).
Proof.
  split; [vm_compute; reflexivity|]. split; [|split].
  - split; [vm_compute; reflexivity|]. split; [exact ex_unit_touch|exact ex_unit_curve].
  - split; [discriminate|]. split; [vm_compute; reflexivity|].
    replace (ts_cur_compute_ops _ ex_empty_touch_state) with 0
      by (vm_compute; reflexivity).
    reflexivity.
  - split; [discriminate|]. split; [vm_compute; reflexivity|].
    replace (ts_cur_compute_ops _ ex_big_touch_state) with 0
      by (vm_compute; reflexivity).
    reflexivity.
Qed.

(** Where all the accesses under the innermost loop touch one byte, the
    entries are no zeros although the product of the number of floating-point
    ops and of the extents is 1: in [for (i, 0, 1) { D[i] = 1.0f + 2.0f }] with
    a buffer of bytes every sample is [0 / log2(1)], a NaN. *)
Lemma ex_one_byte_curve :
  MathOpCounter.float_ops (MathOpCounter.run ex_value_consts)
  * extent_product (for_loop_stack ex_in_unit_loop) = 1
  /\ touch_loops interval_analyzer
       (map_to_list (store_accesses ex_buffer_D ex_value_consts [VarE ex_var_i]))
       (rev (for_loop_stack ex_in_unit_loop))
       (touch_init interval_analyzer ex_in_unit_loop (MathOpCounter.run ex_value_consts))
     = Some ex_byte_touch_state
  /\ compute_curve_with binary32_ops (ts_cur_compute_ops _ ex_byte_touch_state)
       (stored_list binary32_ops (ts_compute_ops_list _ ex_byte_touch_state))
       (stored_list binary32_ops (ts_mem_bytes_list _ ex_byte_touch_state))
     = Some (repeat FNaN 10).
Proof.
  split; [vm_compute; reflexivity|]. split; [vm_compute; reflexivity|].
  replace (ts_cur_compute_ops _ ex_byte_touch_state) with 1
    by (vm_compute; reflexivity).
  replace (ts_compute_ops_list _ ex_byte_touch_state) with [flog2 (of_int 1)]
    by (vm_compute; reflexivity).
  replace (ts_mem_bytes_list _ ex_byte_touch_state) with [flog2 (of_int 1)]
    by (vm_compute; reflexivity).
  unfold compute_curve_with.
  cbn [Z.leb Z.compare orb length stored_list fmap list_fmap Nat.eqb].
  rewrite store_log2_1.
  assert (Hs : forall i, (i < 10)%nat ->
             sample_point_with binary32_ops [FFin 0] i = FFin 0).
  { intros i Hi. unfold sample_point_with. cbn [List.last].
    unfold ARITH_INTENSITY_CURVE_SAMPLE_N.
    rewrite (of_int_binary32 (Z.of_nat i + 1)) by (apply binary32_int_small; lia).
    rewrite (of_int_binary32 (Z.of_nat 10)) by reflexivity.
    unfold of_int. rewrite fo_mul_binary32, Rmult_0_l, round_float_0.
    rewrite fo_div_binary32 by (apply not_0_IZR; discriminate).
    unfold Rdiv. rewrite Rmult_0_l. apply round_float_0. }
  assert (Hstop : flt (FFin 0) (fo_sub_tolerance binary32_ops (FFin 0)) = false).
  { pose proof (sample_point_binary32_le_last [FFin 0] 0 0 eq_refl ltac:(lra)
                  ltac:(unfold ARITH_INTENSITY_CURVE_SAMPLE_N; lia)) as H.
    cbn [List.last] in H. now rewrite (Hs 0%nat ltac:(lia)) in H. }
  assert (Hloop : forall samples,
             List.Forall (fun i => (i < 10)%nat) samples ->
             curve_loop_with binary32_ops [FFin 0] [FFin 0] samples 0
             = Some (repeat FNaN (length samples), repeat 0%nat (length samples))).
  { induction 1 as [|i samples Hi _ IH]; [reflexivity|].
    cbn [curve_loop_with drop length repeat]. rewrite (Hs i Hi).
    cbn [advance_pt_with]. rewrite Hstop.
    cbn [mbind option_bind interpolate_with lookup list_lookup].
    rewrite IH. cbn [fo_div binary32_ops fdiv].
    replace (Reqb 0 0) with true by (symmetry; apply Reqb_true; reflexivity).
    reflexivity. }
  rewrite Hloop; [reflexivity|].
  rewrite List.Forall_forall. intros i Hi. apply in_seq in Hi.
  unfold ARITH_INTENSITY_CURVE_SAMPLE_N in Hi. lia.
Qed.

(** C4 at [for (i, 0, 1024) { B[i] = A[i] + 1.0f }]: the provisos hold, and
    the entries are not all zero. *)
Lemma C4_arith_intensity_curve_witness :
  exists curve,
    compute_curve_with binary32_ops (ts_cur_compute_ops _ ex_touch_state)
      (stored_list binary32_ops (ts_compute_ops_list _ ex_touch_state))
      (stored_list binary32_ops (ts_mem_bytes_list _ ex_touch_state)) = Some curve
    /\ length curve = 10%nat
    /\ (curve = repeat (FFin 0) 10
        <-> MathOpCounter.float_ops (MathOpCounter.run ex_value_add) = 0
            \/ for_loop_stack ex_in_loop = []
            \/ MathOpCounter.float_ops (MathOpCounter.run ex_value_add)
               * extent_product (for_loop_stack ex_in_loop) = 1).
Proof.
  destruct (C4_arith_intensity_curve interval_analyzer ex_in_loop ex_value_add
              (map_to_list (store_accesses ex_buffer_B ex_value_add [VarE ex_var_i]))
              ex_touch_state)
    as (curve & Hc & Hl & Hiff).
  - vm_compute. reflexivity.
  - exists curve. split; [exact Hc|]. split; [exact Hl|]. apply Hiff.
    + constructor; [vm_compute; discriminate|constructor].
    + vm_compute. discriminate.
    + replace (ts_mem_bytes_list _ ex_touch_state) with [flog2 (of_int 8192)]
        by (vm_compute; reflexivity).
      constructor; [|constructor]. exists 8192. split; [|reflexivity].
      unfold INT64_MAX. lia.
Defined.

End Curve_of_a_store.

(** ** slog in binary32 *)

Lemma fneg_involutive (x : cfloat) : fneg (fneg x) = x.
Proof.
  destruct x as [|s|r]; cbn [fneg]; [reflexivity| |].
  - now rewrite Bool.negb_involutive.
  - now rewrite Ropp_involutive.
Qed.

(** [std::log2(x + 1)] for [x >= 0] is not negative *)
Lemma log2_succ_binary32 (r : R) :
  (0 <= r)%R ->
  fnonneg_or_inf
    (fo_log2 binary32_ops (fo_add binary32_ops (FFin r) (fo_of_int binary32_ops 1))).
Proof.
  intros Hr. rewrite (of_int_binary32 1) by reflexivity. unfold of_int.
  cbn [fo_add fo_log2 binary32_ops fadd fround].
  destruct (round_float_ge_bpow binary32 (r + 1) 0) as [(y & -> & Hy)| ->].
  - simpl. lia.
  - simpl. lia.
  - unfold bpow. simpl. lra.
  - unfold bpow in Hy. simpl in Hy. unfold flog2.
    replace (Rltb y 0) with false by (symmetry; apply Rltb_false; lra).
    replace (Reqb y 0) with false by (symmetry; apply Reqb_false; lra).
    cbn [fround]. apply fnonneg_or_inf_round. apply log2R_nonneg. exact Hy.
  - reflexivity.
Qed.

Lemma slog_binary32_0 : slog_with binary32_ops (FFin 0) = FFin 0.
Proof.
  unfold slog_with. cbn [flt].
  replace (Rltb 0 0) with false by (symmetry; apply Rltb_false; lra).
  rewrite (of_int_binary32 1) by reflexivity. unfold of_int.
  rewrite (fadd_binary32_int 0 1) by reflexivity. change (0 + 1)%Z with 1%Z.
  cbn [fo_log2 binary32_ops]. unfold flog2.
  replace (Rltb 1 0) with false by (symmetry; apply Rltb_false; lra).
  replace (Reqb 1 0) with false by (symmetry; apply Reqb_false; lra).
  rewrite log2R_1. apply round_float_0.
Qed.

(** X15: in binary32 arithmetic [slog] keeps zero and the symmetry of its
    argument, and does not turn its sign: [slog(0) = 0],
    [slog(-x) = -slog(x)], and [slog(x)] is not negative (and no NaN) when
    [x] is not; it maps NaN to NaN and each infinity to itself. *)
Theorem slog_odd :
  forall r : R,
    slog_with binary32_ops (FFin (- r)) = fneg (slog_with binary32_ops (FFin r))
    /\ ((0 <= r)%R -> fnonneg_or_inf (slog_with binary32_ops (FFin r)))
    /\ slog_with binary32_ops (FFin 0) = FFin 0
    /\ slog_with binary32_ops FNaN = FNaN
    /\ slog_with binary32_ops (FInf false) = FInf false
    /\ slog_with binary32_ops (FInf true) = FInf true.
Proof.
  intros r. split; [|split; [|split; [exact slog_binary32_0|]]].
  3:{ unfold slog_with. rewrite (of_int_binary32 1) by reflexivity. repeat split. }
  - destruct (Rtotal_order r 0) as [Hr|[->|Hr]].
    + unfold slog_with. cbn [flt].
      replace (Rltb (- r) 0) with false by (symmetry; apply Rltb_false; lra).
      replace (Rltb r 0) with true by (symmetry; apply Rltb_true; lra).
      now rewrite fneg_involutive.
    + rewrite Ropp_0, slog_binary32_0. cbn [fneg]. now rewrite Ropp_0.
    + unfold slog_with. cbn [flt].
      replace (Rltb (- r) 0) with true by (symmetry; apply Rltb_true; lra).
      replace (Rltb r 0) with false by (symmetry; apply Rltb_false; lra).
      cbn [fneg]. now rewrite Ropp_involutive.
  - intros Hr. unfold slog_with. cbn [flt].
    replace (Rltb r 0) with false by (symmetry; apply Rltb_false; lra).
    now apply log2_succ_binary32.
Qed.

(** With the exact arithmetic [slog_with] is the [slog] of the emitters. *)
Lemma slog_with_exact (x : cfloat) : slog_with exact_ops x = slog x.
Proof. reflexivity. Qed.


Section Rounding_monotone.
Local Open Scope R_scope.

Lemma round_half_even_monotone (a b : R) :
  a <= b -> (round_half_even a <= round_half_even b)%Z.
Proof.
  intros Hab.
  destruct (Z_le_gt_dec (round_half_even a) (round_half_even b)) as [H|H]; [exact H|].
  exfalso.
  pose proof (round_half_even_error a) as Ha. pose proof (round_half_even_error b) as Hb.
  apply Rabs_le_inv in Ha, Hb.
  assert (Hn : IZR (round_half_even b) + 1 <= IZR (round_half_even a)).
  { rewrite <- plus_IZR. apply IZR_le. lia. }
  assert (Heq : a = b) by lra.
  subst b. lia.
Qed.

Lemma flt_inf_l (x : cfloat) : flt (FInf false) x = false.
Proof. now destruct x as [|[]|]. Qed.

(** The rounding keeps the order of the values that are not negative. *)
Lemma round_float_monotone (fmt : FloatFormat) (x y : R) :
  (1 <= fmt_prec fmt)%Z -> (fmt_emin fmt + fmt_prec fmt - 1 <= fmt_emax fmt)%Z ->
  0 <= x <= y ->
  flt (round_float fmt y) (round_float fmt x) = false.
Proof.
  intros Hp Hfmt [Hx Hxy].
  destruct (Req_dec_T x 0) as [->|Hxnz].
  { rewrite round_float_0.
    destruct (round_float_nonneg fmt y Hxy) as [(r & -> & Hr)| ->];
      [now apply Rltb_false|reflexivity]. }
  assert (Hx0 : 0 < x) by lra. assert (Hy0 : 0 < y) by lra.
  pose proof (mag2_bounds x Hxnz) as [Hxlo Hxhi].
  pose proof (mag2_bounds y ltac:(lra)) as [Hylo Hyhi].
  rewrite (Rabs_pos_eq x) in Hxlo, Hxhi by lra.
  rewrite (Rabs_pos_eq y) in Hylo, Hyhi by lra.
  assert (Hmag : (mag2 x <= mag2 y)%Z).
  { assert (Hlt : bpow (mag2 x) < bpow (mag2 y + 1)) by lra.
    apply bpow_lt_inv in Hlt. lia. }
  destruct (Z.eq_dec (ulp_exponent fmt x) (ulp_exponent fmt y)) as [He|He].
  - (* the same last place *)
    unfold round_float. rewrite He. set (e := ulp_exponent fmt y).
    pose proof (bpow_pos e) as Hepos.
    assert (Hdiv : x / bpow e <= y / bpow e).
    { unfold Rdiv. apply Rmult_le_compat_r; [|lra]. left. now apply Rinv_0_lt_compat. }
    pose proof (round_half_even_monotone _ _ Hdiv) as Hm. apply IZR_le in Hm.
    assert (Hm0 : 0 <= IZR (round_half_even (x / bpow e))).
    { apply IZR_le. apply (round_half_even_ge _ 0). apply Rmult_le_pos; [lra|].
      left. now apply Rinv_0_lt_compat. }
    set (mx := IZR (round_half_even (x / bpow e))) in *.
    set (my := IZR (round_half_even (y / bpow e))) in *.
    assert (Hr : 0 <= mx * bpow e <= my * bpow e) by nra.
    rewrite !Rabs_pos_eq by lra.
    destruct (Rltb (my * bpow e) (bpow (fmt_emax fmt))) eqn:Ey.
    + apply Rltb_true in Ey.
      replace (Rltb (mx * bpow e) (bpow (fmt_emax fmt))) with true
        by (symmetry; apply Rltb_true; lra).
      cbn [flt]. apply Rltb_false. lra.
    + replace (Rltb y 0) with false by (symmetry; apply Rltb_false; lra).
      apply flt_inf_l.
  - (* [y] lies in a binade above the one of [x] *)
    assert (Hlt : (mag2 x < mag2 y)%Z /\ (fmt_emin fmt <= mag2 y)%Z).
    { unfold ulp_exponent in He. lia. }
    destruct Hlt as [Hlt Hemin].
    assert (Hxle : x <= bpow (mag2 y)).
    { apply Rle_trans with (bpow (mag2 x + 1)); [lra|]. apply bpow_le. lia. }
    destruct (Z_lt_le_dec (mag2 y) (fmt_emax fmt)) as [Hfin|Hovf].
    + destruct (round_float_le_bpow fmt x (mag2 y)) as (rx & -> & Hrx); [lia|lia|lra|].
      destruct (round_float_ge_bpow fmt y (mag2 y)) as [(ry & -> & Hry)| ->];
        [lia|lia|lra| |apply flt_inf_l].
      cbn [flt]. apply Rltb_false. lra.
    + rewrite (round_float_overflow fmt y); [apply flt_inf_l|lia|lia|].
      apply Rle_trans with (bpow (mag2 y)); [apply bpow_le; lia|lra].
Qed.

End Rounding_monotone.

(** ** slog is not decreasing in binary32 *)

Section slog_monotone.
Local Open Scope R_scope.

Lemma flt_fneg (a b : cfloat) : flt (fneg a) (fneg b) = flt b a.
Proof.
  destruct a as [|s|a], b as [|t|b]; cbn [fneg flt]; try reflexivity.
  - now destruct s, t.
  - now destruct t.
  - destruct (Rltb (- a) (- b)) eqn:E.
    + apply Rltb_true in E. symmetry. apply Rltb_true. lra.
    + apply Rltb_false in E. symmetry. apply Rltb_false. lra.
Qed.

(** [std::log2(x + 1)] keeps the order of the values that are not negative. *)
Lemma log2_succ_monotone (a b : R) :
  0 <= a <= b ->
  flt (fo_log2 binary32_ops (fo_add binary32_ops (FFin b) (fo_of_int binary32_ops 1)))
      (fo_log2 binary32_ops (fo_add binary32_ops (FFin a) (fo_of_int binary32_ops 1)))
  = false.
Proof.
  intros Hab. rewrite (of_int_binary32 1) by reflexivity. unfold of_int.
  rewrite !fo_add_binary32. cbn [fo_log2 binary32_ops].
  pose proof (round_float_monotone binary32 (a + 1) (b + 1)
                ltac:(simpl; lia) ltac:(simpl; lia) ltac:(lra)) as Hm.
  destruct (round_float_ge_bpow binary32 (b + 1) 0) as [(rb & Hb & Hrb)|Hb];
    [simpl; lia|simpl; lia|unfold bpow; simpl; lra| |].
  - destruct (round_float_ge_bpow binary32 (a + 1) 0) as [(ra & Ha & Hra)|Ha];
      [simpl; lia|simpl; lia|unfold bpow; simpl; lra| |].
    + rewrite Ha, Hb in *. cbn [flt] in Hm. apply Rltb_false in Hm.
      unfold bpow in Hra, Hrb. simpl in Hra, Hrb. unfold flog2.
      replace (Rltb rb 0) with false by (symmetry; apply Rltb_false; lra).
      replace (Reqb rb 0) with false by (symmetry; apply Reqb_false; lra).
      replace (Rltb ra 0) with false by (symmetry; apply Rltb_false; lra).
      replace (Reqb ra 0) with false by (symmetry; apply Reqb_false; lra).
      cbn [fround]. apply round_float_monotone; [simpl; lia|simpl; lia|].
      split; [now apply log2R_nonneg|apply log2R_le; lra].
    + rewrite Ha, Hb in Hm. discriminate.
  - rewrite Hb. cbn [flog2 fround]. apply flt_inf_l.
Qed.

End slog_monotone.

(** X16: in binary32 arithmetic [slog] does not turn the order of two finite
    values: [slog(y) < slog(x)] does not hold when [x <= y]. *)
Theorem slog_increasing :
  forall x y : R,
    (x <= y)%R ->
    flt (slog_with binary32_ops (FFin y)) (slog_with binary32_ops (FFin x)) = false.
Proof.
  intros x y Hxy. unfold slog_with. cbn [flt].
  destruct (Rltb x 0) eqn:Ex; destruct (Rltb y 0) eqn:Ey.
  - apply Rltb_true in Ex, Ey. rewrite flt_fneg. cbn [fneg].
    apply log2_succ_monotone. lra.
  - apply Rltb_true in Ex. apply Rltb_false in Ey. cbn [fneg].
    pose proof (log2_succ_binary32 y Ey) as Hy.
    pose proof (log2_succ_binary32 (- x) ltac:(lra)) as Hx.
    destruct (fo_log2 binary32_ops (fo_add binary32_ops (FFin y) _)) as [|sy|ry];
      destruct (fo_log2 binary32_ops (fo_add binary32_ops (FFin (- x)) _)) as [|sx|rx];
      cbn [fnonneg_or_inf fneg flt] in *;
      first [tauto | now subst | apply Rltb_false; lra].
  - apply Rltb_false in Ex. apply Rltb_true in Ey. lra.
  - apply Rltb_false in Ex, Ey. apply log2_succ_monotone. lra.
Qed.

(** X16 at 1/2 and 3 *)
Lemma slog_increasing_witness :
  flt (slog_with binary32_ops (FFin 3)) (slog_with binary32_ops (FFin (1 / 2))) = false.
Proof. apply (slog_increasing (1 / 2) 3). lra. Defined.
(** The quotient of a cost by a cost that is not smaller, rounded to binary32 *)
Lemma fdiv_binary32_unit (r c : R) :
  (0 < r <= c)%R ->
  exists q, fo_div binary32_ops (FFin r) (FFin c) = FFin q /\ (0 <= q <= 1)%R.
Proof.
  intros Hrc. cbn [fo_div binary32_ops fdiv].
  replace (Reqb c 0) with false by (symmetry; apply Reqb_false; lra).
  cbn [fround].
  destruct (round_float_le_bpow binary32 (r / c) 0) as (q & -> & Hq).
  - simpl. lia.
  - simpl. lia.
  - unfold bpow. simpl. split.
    + left. apply Rdiv_lt_0_compat; lra.
    + apply (Rmult_le_reg_r c); [lra|]. unfold Rdiv.
      rewrite Rmult_assoc, Rinv_l by lra. lra.
  - exists q. split; [reflexivity|]. unfold bpow in Hq. simpl in Hq. exact Hq.
Qed.

Lemma fdiv_binary32_same (r : R) :
  (0 < r)%R -> fo_div binary32_ops (FFin r) (FFin r) = FFin 1.
Proof.
  intros Hr. cbn [fo_div binary32_ops fdiv].
  replace (Reqb r 0) with false by (symmetry; apply Reqb_false; lra).
  cbn [fround]. replace (r / r)%R with (IZR 1) by (field; lra).
  now apply round_float_binary32_int.
Qed.

(** X26: when every cost is a positive finite number, every normalized
    throughput, the quotient of the least cost of the workload by the cost of
    the record in binary32, lies in [0, 1], and each record shares its
    workload key and target with a record whose normalized throughput is
    exactly 1. *)
Theorem GetPerStoreFeaturesFromMeasurePairs_throughput_range :
  forall (SearchTask State Costs : Type) (FloatArrayMean : Costs -> cfloat)
         (rebuild_task : Drivers.MeasureInput SearchTask State -> SearchTask)
         (worker : SearchTask -> State -> Z -> list cfloat -> list cfloat * bool)
         (inputs : list (Drivers.MeasureInput SearchTask State))
         (results : list (Drivers.MeasureResult Costs))
         (skip_first_n_feature_extraction max_n_bufs : Z)
         features normalized_throughputs task_ids error_ct,
    Z.of_nat (length inputs) <= INT32_MAX ->
    Forall (DriverProps.cost_positive FloatArrayMean) (combine inputs results) ->
    Drivers.GetPerStoreFeaturesFromMeasurePairs SearchTask State Costs FloatArrayMean
      rebuild_task worker inputs results skip_first_n_feature_extraction max_n_bufs
    = Some (features, normalized_throughputs, task_ids, error_ct) ->
    forall i inp,
      inputs !! i = Some inp ->
      (exists r, fround binary32 <$> normalized_throughputs !! i = Some (FFin r)
                 /\ (0 <= r <= 1)%R)
      /\ (exists j best,
            inputs !! j = Some best
            /\ DriverProps.cache_key best = DriverProps.cache_key inp
            /\ fround binary32 <$> normalized_throughputs !! j = Some (FFin 1)).
Proof.
  intros SearchTask State Costs FloatArrayMean rebuild_task worker inputs results
         skip n features normalized ids ec Hmax Hpos E i inp Hi.
  destruct (Nat.le_gt_cases (length inputs) (length results)) as [Hlen|Hlen];
    [|rewrite FromMeasurePairs_short in E by exact Hlen; discriminate].
  destruct (FromMeasurePairs_result FloatArrayMean rebuild_task worker inputs results
              skip n Hmax Hlen)
    as (features' & normalized' & ids' & ec' & E' & _ & _ & _ & Hrec).
  rewrite E in E'. injection E' as <- <- <- <-.
  assert (Hri : is_Some (results !! i))
    by (apply lookup_lt_is_Some_2; apply lookup_lt_Some in Hi; lia).
  destruct Hri as [res Hr].
  destruct (Hrec i inp res Hi Hr) as (m & _ & Hm & Hn & _).
  destruct (task_min_cost_positive FloatArrayMean _ _ m Hpos Hm)
    as (r & -> & Hr0 & Hle & (j & [best bres] & Hj & Hkey & Hbest)).
  cbn [fst snd] in Hkey, Hbest.
  assert (Hc : DriverProps.cost_positive FloatArrayMean (inp, res)).
  { apply (proj1 (List.Forall_forall _ _) Hpos), list_elem_of_In, list_elem_of_lookup.
    exists i. now apply lookup_combine_Some. }
  destruct Hc as (c & Hc & Hc0). cbn [snd] in Hc.
  assert (Hrc : (r <= c)%R).
  { apply (Hle i (inp, res) c); [now apply lookup_combine_Some|reflexivity|exact Hc]. }
  split.
  - destruct (fdiv_binary32_unit r c) as (q & Hq & Hq01); [lra|].
    exists q. split; [|exact Hq01].
    rewrite Hn, Hc. cbn [fmap option_fmap option_map]. f_equal. exact Hq.
  - apply lookup_combine_Some in Hj as [Hj Hjr].
    exists j, best. split; [exact Hj|]. split; [exact Hkey|].
    destruct (Hrec j best bres Hj Hjr) as (m' & _ & Hm' & Hn' & _).
    rewrite Hkey, Hm in Hm'. injection Hm' as <-.
    rewrite Hn', Hbest. cbn [fmap option_fmap option_map]. f_equal.
    now apply fdiv_binary32_same.
Qed.

(** X26 at three records of the costs 4, 3 and 2 *)
Lemma GetPerStoreFeaturesFromMeasurePairs_throughput_range_witness :
  exists features normalized_throughputs task_ids error_ct,
    Drivers.GetPerStoreFeaturesFromMeasurePairs unit unit cfloat (fun c => c)
      (fun _ => tt) ex_worker ex_measure_inputs ex_measure_results 0 5
    = Some (features, normalized_throughputs, task_ids, error_ct)
    /\ forall i inp,
         ex_measure_inputs !! i = Some inp ->
         (exists r, fround binary32 <$> normalized_throughputs !! i = Some (FFin r)
                    /\ (0 <= r <= 1)%R)
         /\ (exists j best,
               ex_measure_inputs !! j = Some best
               /\ DriverProps.cache_key best = DriverProps.cache_key inp
               /\ fround binary32 <$> normalized_throughputs !! j = Some (FFin 1)).
Proof.
  destruct ex_measure_pairs_returns as (features & normalized & ids & ec & E).
  exists features, normalized, ids, ec. split; [exact E|].
  refine (GetPerStoreFeaturesFromMeasurePairs_throughput_range unit unit cfloat
            (fun c => c) (fun _ => tt) ex_worker ex_measure_inputs ex_measure_results
            0 5 features normalized ids ec _ _ E).
  - vm_compute. discriminate.
  - repeat constructor; eexists; (split; [reflexivity|lra]).
Defined.

